(** * Verification of the document-layer plan executor (QLPlan.actor.cpp)

    A shallow embedding of the streaming plan executor and of its
    checkpoint / split-bound protocol: keys are byte strings ordered
    lexicographically, actors are step relations over explicit state,
    and the PlanCheckpoint is a record threaded through the handlers. *)

From Stdlib Require Import List ZArith NArith Lia Bool Strings.Byte Sorted.
From Stdlib Require String.
From stdpp Require Import base list sorting.
Import ListNotations.

#[local] Unset Default Proof Using.
#[local] Set Warnings "-register-all".
#[local] Open Scope Z_scope.

(** ** Keys: byte strings under the lexicographic order of the store *)

Definition Key : Type := list byte.

Definition byte_compare (a b : byte) : comparison :=
  (Byte.to_N a ?= Byte.to_N b)%N.

(** [StringRef::compare] / [operator<]: bytewise comparison, the shorter
    string first when one is a prefix of the other. *)
Fixpoint key_compare (a b : Key) : comparison :=
  match a, b with
  | [], [] => Eq
  | [], _ :: _ => Lt
  | _ :: _, [] => Gt
  | x :: a', y :: b' =>
      match byte_compare x y with
      | Eq => key_compare a' b'
      | c => c
      end
  end.

Definition key_ltb (a b : Key) : bool :=
  match key_compare a b with Lt => true | _ => false end.

Definition key_leb (a b : Key) : bool := negb (key_ltb b a).

Definition key_eqb (a b : Key) : bool :=
  match key_compare a b with Eq => true | _ => false end.

Definition key_lt (a b : Key) : Prop := key_compare a b = Lt.
Definition key_le (a b : Key) : Prop := key_compare a b <> Gt.

(** [std::max(a, b)] returns [b] when [a < b], otherwise [a];
    [std::min(a, b)] returns [b] when [b < a], otherwise [a]. *)
Definition key_max (a b : Key) : Key := if key_ltb a b then b else a.
Definition key_min (a b : Key) : Key := if key_ltb b a then b else a.

(** [StringRef::startsWith]. *)
Fixpoint startsWith (k p : Key) {struct p} : bool :=
  match p, k with
  | [], _ => true
  | _ :: _, [] => false
  | y :: p', x :: k' =>
      match byte_compare x y with
      | Eq => startsWith k' p'
      | _ => false
      end
  end.

(** The key-space sentinels of the executor. *)
Definition key_00 : Key := [x00].
Definition key_ff : Key := [xff].

(** [keyAfter(k)]: the first key strictly after [k]. *)
Definition keyAfter (k : Key) : Key := k ++ [x00].

(** [strinc(k)]: the first key that is greater than every key having [k]
    as a prefix: trailing 0xFF bytes are dropped and the last remaining
    byte is incremented.  A key made only of 0xFF bytes (or empty) has no
    such successor; the original asserts on it. *)
Fixpoint strinc (k : Key) : option Key :=
  match k with
  | [] => None
  | b :: k' =>
      match strinc k' with
      | Some r => Some (b :: r)
      | None =>
          match Byte.of_N (Byte.to_N b + 1) with
          | Some b' => Some [b']
          | None => None
          end
      end
  end.

(** ** Documents and the PlanCheckpoint *)

(** [ScanReturnedContext]: a document context together with the id of the
    scan that produced it and its scan key.  [Ctx] is the context type:
    the sub-context path for scanned documents, a BSON value for
    projected ones. *)
Record ScanReturnedContext (Ctx : Type) : Type := mkDoc {
  docCx : Ctx;
  scanId : Z;
  scanKey : Key
}.
Arguments mkDoc {Ctx} _ _ _.
Arguments docCx {Ctx} _.
Arguments scanId {Ctx} _.
Arguments scanKey {Ctx} _.

(** [KeyRangeRef(begin, end)]: the half-open range [[begin, end)]. *)
Record KeyRange : Type := KeyRangeRef {
  range_begin : Key;
  range_end : Key
}.

Definition in_range (r : KeyRange) (k : Key) : Prop :=
  key_le (range_begin r) k /\ key_lt k (range_end r).

(** Modelled from the spec: the per-scan record declared in QLPlan.h is
    not part of the sources; a new scan has the bounds [["", 0xFF)] that
    [getBounds] returns for an unknown scan, and its split key has "its
    default value of 0xFF". *)
Record ScanState : Type := mkScanState {
  bounds : KeyRange;
  split : Key
}.

Definition default_ScanState : ScanState :=
  mkScanState (KeyRangeRef [] key_ff) key_ff.

(** Modelled from the spec: the resumable integer state of QLPlan.h;
    [emplace_back(v)] builds a state that starts from [v]. *)
Record IntState : Type := mkIntState {
  st_begin : Z;
  st_split : Z
}.

Definition new_IntState (v : Z) : IntState := mkIntState v v.

(** The actors registered with [addOperation], as [stop()] sees them: what
    matters of an actor is the local state its cancellation handler reads.
    [ActFinished] is an actor that has already terminated (cancelling it
    does nothing); [ActSilent] stands for the actors whose handler never
    touches a split bound (doSinglePKLookup, doUnion, doSkip,
    doFlushChanges, doSort, doInsert, the wrappers). *)
Inductive Actor (Ctx : Type) : Type :=
| ActFinished
| ActSilent
| ActPKScan (scanID : Z) (lastKey : Key)
| ActDocInfo (scanID : Z) (lastKey : Key)
| ActFilter (futures : list (ScanReturnedContext Ctx))
| ActDedup (futures : list (ScanReturnedContext Ctx))
| ActProject (futures : list (ScanReturnedContext Ctx))
| ActUpdate (futures : list (ScanReturnedContext Ctx))
| ActProjectAndUpdate (firstDoc : option (ScanReturnedContext Ctx)) (any : bool)
| ActBuildIndex (leftInStream futures : list (ScanReturnedContext Ctx)).
Arguments ActFinished {Ctx}.
Arguments ActSilent {Ctx}.
Arguments ActPKScan {Ctx} _ _.
Arguments ActDocInfo {Ctx} _ _.
Arguments ActFilter {Ctx} _.
Arguments ActDedup {Ctx} _.
Arguments ActProject {Ctx} _.
Arguments ActUpdate {Ctx} _.
Arguments ActProjectAndUpdate {Ctx} _ _.
Arguments ActBuildIndex {Ctx} _ _.

(** [PlanCheckpoint]: the flow-control lock is left out (its class is not
    part of the sources); taking a permit is a suspension point of the
    actors below. *)
Record PlanCheckpoint (Ctx : Type) : Type := mkCheckpoint {
  boundsWanted : bool;
  scans : list ScanState;
  states : list IntState;
  scansAdded : Z;
  stateAdded : Z;
  ops : list (Actor Ctx)
}.
Arguments mkCheckpoint {Ctx} _ _ _ _ _ _.
Arguments boundsWanted {Ctx} _.
Arguments scans {Ctx} _.
Arguments states {Ctx} _.
Arguments scansAdded {Ctx} _.
Arguments stateAdded {Ctx} _.
Arguments ops {Ctx} _.

Section Checkpoint.
Context {Ctx : Type}.
Local Abbreviation Doc := (ScanReturnedContext Ctx).
Local Abbreviation Checkpoint := (PlanCheckpoint Ctx).

(** [DataKey::decode_item(key, 0)] and [DataKey::decode_bytes(key)[0]]:
    the first item (the primary-key part) of an encoded key.  The
    encoding lives in QLTypes and is a parameter here. *)
Variable decode_item0 : Key -> Key.

(** [PlanCheckpoint::PlanCheckpoint()]. *)
Definition new_PlanCheckpoint : Checkpoint :=
  mkCheckpoint false [] [] 0 0 [].

Definition set_scans (cp : Checkpoint) (l : list ScanState) : Checkpoint :=
  mkCheckpoint (boundsWanted cp) l (states cp) (scansAdded cp) (stateAdded cp) (ops cp).

Definition set_boundsWanted (cp : Checkpoint) (b : bool) : Checkpoint :=
  mkCheckpoint b (scans cp) (states cp) (scansAdded cp) (stateAdded cp) (ops cp).

(** [vector::resize(n)] on the scans: truncates, or pads with default
    scan states. *)
Definition resize_scans (l : list ScanState) (n : nat) : list ScanState :=
  take n l ++ replicate (n - length l) default_ScanState.

(** [PlanCheckpoint::addOperation]. *)
Definition addOperation (cp : Checkpoint) (a : Actor Ctx) : Checkpoint :=
  mkCheckpoint (boundsWanted cp) (scans cp) (states cp) (scansAdded cp)
               (stateAdded cp) (ops cp ++ [a]).

(** [PlanCheckpoint::addScan]: returns the scan id and the checkpoint. *)
Definition addScan (cp : Checkpoint) : Z * Checkpoint :=
  let s := scansAdded cp in
  let scans' :=
    if Z.of_nat (length (scans cp)) <=? s
    then resize_scans (scans cp) (Z.to_nat (s + 1))
    else scans cp in
  (s, mkCheckpoint (boundsWanted cp) scans' (states cp) (s + 1)
                   (stateAdded cp) (ops cp)).

(** [PlanCheckpoint::getBounds]. *)
Definition getBounds (cp : Checkpoint) (whichScan : Z) : KeyRange :=
  if Z.of_nat (length (scans cp)) <=? whichScan
  then KeyRangeRef [] key_ff
  else match scans cp !! Z.to_nat whichScan with
       | Some s => bounds s
       | None => KeyRangeRef [] key_ff
       end.

(** [PlanCheckpoint::splitBound(whichScan) = k]: the assertion
    [whichScan >= 0 && whichScan < scans.size()] guards the write;
    [None] is the failed assertion. *)
Definition write_splitBound (cp : Checkpoint) (whichScan : Z) (k : Key)
  : option Checkpoint :=
  if (0 <=? whichScan) && (whichScan <? Z.of_nat (length (scans cp)))
  then Some (set_scans cp
               (alter (fun s => mkScanState (bounds s) k)
                      (Z.to_nat whichScan) (scans cp)))
  else None.

Definition read_splitBound (cp : Checkpoint) (whichScan : Z) : option Key :=
  if (0 <=? whichScan) && (whichScan <? Z.of_nat (length (scans cp)))
  then split <$> scans cp !! Z.to_nat whichScan
  else None.

(** [PlanCheckpoint::splitBoundWanted]. *)
Definition splitBoundWanted (cp : Checkpoint) : bool := boundsWanted cp.

(** [PlanCheckpoint::getIntState(defaultValue)]: returns the checkpoint
    and the value of the counter the returned reference designates, which
    is always the LAST state ([states.back()]).  [None]: [back()] on an
    empty vector. *)
Definition getIntState (cp : Checkpoint) (defaultValue : Z)
  : option (Z * Checkpoint) :=
  let s := stateAdded cp in
  let states1 :=
    if s =? Z.of_nat (length (states cp))
    then states cp ++ [new_IntState defaultValue]
    else states cp in
  match last states1 with
  | None => None
  | Some b =>
      let states2 :=
        alter (fun x => mkIntState (st_begin x) (st_begin x))
              (length states1 - 1)%nat states1 in
      Some (st_begin b,
            mkCheckpoint (boundsWanted cp) (scans cp) states2 (scansAdded cp)
                         (s + 1) (ops cp))
  end.

(** The loop shared by the cancellation handlers of the asynchronous
    actors:
    [for (i = futures.size() - 1; i >= 0; i--)
       checkpoint->splitBound(futures[i].first->scanId()) = futures[i].first->scanKey();] *)
Fixpoint write_pending_rev (cp : Checkpoint) (rev_futures : list Doc)
  : option Checkpoint :=
  match rev_futures with
  | [] => Some cp
  | d :: rest =>
      match write_splitBound cp (scanId d) (scanKey d) with
      | Some cp' => write_pending_rev cp' rest
      | None => None
      end
  end.

Definition write_pending (cp : Checkpoint) (futures : list Doc)
  : option Checkpoint :=
  write_pending_rev cp (rev futures).

(** The [actor_cancelled] branch of each actor's [catch]. *)
Definition cancel_actor (cp : Checkpoint) (a : Actor Ctx) : option Checkpoint :=
  match a with
  | ActFinished | ActSilent => Some cp
  | ActPKScan scanID lastKey =>
      (* doPKScan *)
      if splitBoundWanted cp then
        match strinc (decode_item0 lastKey) with
        | Some k => write_splitBound cp scanID k
        | None => None
        end
      else Some cp
  | ActDocInfo scanID lastKey =>
      (* toDocInfo *)
      if splitBoundWanted cp
      then write_splitBound cp scanID (keyAfter lastKey)
      else Some cp
  | ActFilter futures | ActDedup futures | ActProject futures
  | ActUpdate futures =>
      (* doFilter, deduplicateIndexStream, doProject, doUpdate *)
      if splitBoundWanted cp then write_pending cp futures else Some cp
  | ActProjectAndUpdate firstDoc any =>
      if splitBoundWanted cp then
        match firstDoc with
        | Some d => if any then write_splitBound cp (scanId d) (scanKey d)
                    else Some cp
        | None => Some cp
        end
      else Some cp
  | ActBuildIndex leftInStream futures =>
      (* scanAndBuildIndex *)
      if splitBoundWanted cp then
        match write_pending cp leftInStream with
        | Some cp' => write_pending cp' futures
        | None => None
        end
      else Some cp
  end.

Fixpoint cancel_all (cp : Checkpoint) (l : list (Actor Ctx)) : option Checkpoint :=
  match l with
  | [] => Some cp
  | a :: rest =>
      match cancel_actor cp a with
      | Some cp' => cancel_all cp' rest
      | None => None
      end
  end.

(** [PlanCheckpoint::stop]: cancels the operations in the order of
    [ops], then clears them and resets the counters. *)
Definition stop (cp : Checkpoint) : option Checkpoint :=
  match cancel_all cp (ops cp) with
  | Some cp' =>
      Some (mkCheckpoint (boundsWanted cp') (scans cp') (states cp') 0 0 [])
  | None => None
  end.

(** [PlanCheckpoint::stopAndCheckpoint]: returns the stopped checkpoint
    and the new one ([rest]). *)
Definition stopAndCheckpoint (cp : Checkpoint) : option (Checkpoint * Checkpoint) :=
  match stop (set_boundsWanted cp true) with
  | Some cp1 =>
      let cp2 := set_boundsWanted cp1 false in
      let rest_scans :=
        map (fun s => mkScanState
                        (KeyRangeRef (split s) (range_end (bounds s)))
                        (split default_ScanState))
            (scans cp2) in
      let rest_states := map (fun s => new_IntState (st_split s)) (states cp2) in
      Some (cp2, mkCheckpoint false rest_scans rest_states 0 0 [])
  | None => None
  end.

(** [PlanCheckpoint::boundToStopPoint]. *)
Definition boundToStopPoint (cp : Checkpoint) : Checkpoint :=
  set_scans cp
    (map (fun s => mkScanState (KeyRangeRef (range_begin (bounds s)) (split s))
                               (split s))
         (scans cp)).
End Checkpoint.

(** ** Streams and the scan actors *)

(** The error codes that travel on the streams. *)
Inductive Error : Type :=
| end_of_stream
| actor_cancelled
| operation_cancelled
| index_already_exists
| index_name_taken
| internal_error
| other_error (code : Z).

Definition Error_eqb (a b : Error) : bool :=
  match a, b with
  | end_of_stream, end_of_stream => true
  | actor_cancelled, actor_cancelled => true
  | operation_cancelled, operation_cancelled => true
  | index_already_exists, index_already_exists => true
  | index_name_taken, index_name_taken => true
  | internal_error, internal_error => true
  | other_error x, other_error y => x =? y
  | _, _ => false
  end.

(** What one step of an actor puts on its output stream: nothing,
    [output.send(d)] or [output.sendError(e)]. *)
Inductive Emit (A : Type) : Type :=
| Quiet
| Send (d : A)
| SendError (e : Error).
Arguments Quiet {A}.
Arguments Send {A} _.
Arguments SendError {A} _.

Definition sent_docs {A : Type} (e : Emit A) : list A :=
  match e with Send d => [d] | _ => [] end.

(** Modelled from the spec: [getDescendants(lo, hi, permit)] "returns a
    lazy sequence of key/value pairs" of an ordered key space; the keys of
    the store are given in key order and the read returns those in
    [[lo, hi)], followed by [end_of_stream]. *)
Definition getDescendants (store : list Key) (lo hi : Key) : list Key :=
  filter (fun k => key_leb lo k && key_ltb k hi) store.

(** The range a scan reads: its own range [[lo, hi)] intersected with the
    bounds of the checkpoint, as every scan's [execute] computes it:
    [b = std::max(lo, bounds.begin)],
    [e = std::max(b, std::min(hi, bounds.end))]. *)
Definition scan_range (lo hi : Key) (cpb : KeyRange) : Key * Key :=
  let b := key_max lo (range_begin cpb) in
  (b, key_max b (key_min hi (range_end cpb))).

(** State of [doPKScan]: the keys the range read has not delivered yet,
    the [state] variables [lastPK] and [lastKey], and the key whose
    document waits in [outputLock->take(1)], if any. *)
Record PKScan : Type := mkPKScan {
  pk_scanID : Z;
  pk_kvs : list Key;
  pk_lastPK : Key;
  pk_lastKey : Key;
  pk_taking : option Key;
  pk_done : bool
}.

(** State of [toDocInfo]. *)
Record DocInfo : Type := mkDocInfo {
  di_scanID : Z;
  di_kvs : list Key;
  di_lastKey : Key;
  di_taking : option Key;
  di_done : bool
}.

(** State of [doSinglePKLookup]: the key [x], the bounds [getBounds]
    gives for its scan, whether [get(x)] finds a value, and where the
    actor is: before the read, waiting for its permit, between the send
    and the end of the stream, or terminated. *)
Inductive LookupPhase : Type := LStart | LFound | LSent | LDone.

Record Lookup : Type := mkLookup {
  lk_scanID : Z;
  lk_x : Key;
  lk_bounds : KeyRange;
  lk_present : bool;
  lk_phase : LookupPhase
}.

Section Scans.
Context {Ctx : Type}.
Local Abbreviation Doc := (ScanReturnedContext Ctx).

(** [DataKey::decode_item(key, 0)]: the primary key, first item of a
    document key; [DataKey::decode_item_rev(key, 0)]: the document id,
    last item of an index key; [getSubContext]: the document at a path. *)
Variable decode_item0 : Key -> Key.
Variable decode_item_rev0 : Key -> Key.
Variable getSubContext : Key -> Ctx.

(** One turn of the loop of [doPKScan], up to its next suspension. *)
Definition doPKScan_step (s : PKScan) : option (PKScan * Emit Doc) :=
  if pk_done s then None
  else match pk_taking s with
       | Some kv =>
           (* the permit arrived: send the new document, then lastKey = kv *)
           Some (mkPKScan (pk_scanID s) (pk_kvs s) (pk_lastPK s) kv None false,
                 Send (mkDoc (getSubContext (pk_lastPK s)) (pk_scanID s) kv))
       | None =>
           match pk_kvs s with
           | kv :: rest =>
               let curPK := decode_item0 kv in
               if key_eqb curPK (pk_lastPK s)
               then Some (mkPKScan (pk_scanID s) rest (pk_lastPK s) kv None false,
                          Quiet)
               else Some (mkPKScan (pk_scanID s) rest curPK (pk_lastKey s)
                                   (Some kv) false,
                          Quiet)
           | [] =>
               (* waitNext(kvs) throws end_of_stream *)
               Some (mkPKScan (pk_scanID s) [] (pk_lastPK s) (pk_lastKey s)
                              None true,
                     SendError end_of_stream)
           end
       end.

(** One turn of the loop of [toDocInfo]. *)
Definition toDocInfo_step (s : DocInfo) : option (DocInfo * Emit Doc) :=
  if di_done s then None
  else match di_taking s with
       | Some kv =>
           Some (mkDocInfo (di_scanID s) (di_kvs s) kv None false,
                 Send (mkDoc (getSubContext (decode_item_rev0 kv)) (di_scanID s) kv))
       | None =>
           match di_kvs s with
           | kv :: rest =>
               Some (mkDocInfo (di_scanID s) rest (di_lastKey s) (Some kv) false,
                     Quiet)
           | [] =>
               Some (mkDocInfo (di_scanID s) [] (di_lastKey s) None true,
                     SendError end_of_stream)
           end
       end.

(** One turn of [doSinglePKLookup], up to its next suspension. *)
Definition lookup_doc (s : Lookup) : Doc :=
  mkDoc (getSubContext (lk_x s)) (lk_scanID s) (lk_x s).

Definition set_phase (s : Lookup) (ph : LookupPhase) : Lookup :=
  mkLookup (lk_scanID s) (lk_x s) (lk_bounds s) (lk_present s) ph.

Definition doSinglePKLookup_step (s : Lookup) : option (Lookup * Emit Doc) :=
  match lk_phase s with
  | LStart =>
      if key_leb (range_begin (lk_bounds s)) (lk_x s)
         && key_ltb (lk_x s) (range_end (lk_bounds s))
      then if lk_present s
           then Some (set_phase s LFound, Quiet)
           else Some (set_phase s LDone, SendError end_of_stream)
      else Some (set_phase s LDone, SendError end_of_stream)
  | LFound => Some (set_phase s LSent, Send (lookup_doc s))
  | LSent => Some (set_phase s LDone, SendError end_of_stream)
  | LDone => None
  end.

(** The document the lookup has still to send. *)
Definition lookup_rest (s : Lookup) : list Doc :=
  match lk_phase s with
  | LStart =>
      if key_leb (range_begin (lk_bounds s)) (lk_x s)
         && key_ltb (lk_x s) (range_end (lk_bounds s))
         && lk_present s
      then [lookup_doc s] else []
  | LFound => [lookup_doc s]
  | LSent | LDone => []
  end.

Definition lookup_done (s : Lookup) : bool :=
  match lk_phase s with LDone => true | _ => false end.

(** The documents [doPKScan] sends for a run of keys: one per change of
    primary key, carrying the key of the first cell. *)
Fixpoint pk_docs (scanID : Z) (lastPK : Key) (kvs : list Key) : list Doc :=
  match kvs with
  | [] => []
  | kv :: rest =>
      let curPK := decode_item0 kv in
      if key_eqb curPK lastPK then pk_docs scanID lastPK rest
      else mkDoc (getSubContext curPK) scanID kv :: pk_docs scanID curPK rest
  end.

Definition di_docs (scanID : Z) (kvs : list Key) : list Doc :=
  map (fun kv => mkDoc (getSubContext (decode_item_rev0 kv)) scanID kv) kvs.
End Scans.

(** ** Index deduplication *)

(** [std::sort] on the encoded values: insertion sort under [<]. *)
Fixpoint key_insert (k : Key) (l : list Key) : list Key :=
  match l with
  | [] => [k]
  | x :: l' => if key_ltb x k then x :: key_insert k l' else k :: l
  end.

Fixpoint key_sort (l : list Key) : list Key :=
  match l with
  | [] => []
  | k :: l' => key_insert k (key_sort l')
  end.

(** The reverse scan of the sorted values for the first one below the
    upper bound; [last] stays the empty string when there is none. *)
Definition last_below (sorted : list Key) (indexUpperBound : Key) : Key :=
  match find (fun s => key_ltb s indexUpperBound) (rev sorted) with
  | Some s => s
  | None => []
  end.

(** [simpleWouldBeLast]: [old_key_parts] are the encoded values
    ([encode_key_part]) of what the indexed path evaluates to on the
    document, in evaluation order. *)
Definition simpleWouldBeLast (old_key_parts : list Key) (scanKey : Key)
    (indexUpperBound : Key) : bool :=
  if (length old_key_parts =? 1)%nat then true
  else
    let sorted := key_sort old_key_parts in
    let last := last_below sorted indexUpperBound in
    if startsWith scanKey last then true else false.

(** The index entries of a document: each encoded value followed by the
    primary key of the document. *)
Definition entries_of (values : list Key) (pk : Key) : list Key :=
  map (fun v => v ++ pk) values.

(** After the specification: [k] is the largest key of [l] strictly
    below [indexUpperBound]. *)
Definition largest_below (l : list Key) (indexUpperBound : Key) (k : Key) : Prop :=
  In k l /\ key_lt k indexUpperBound
  /\ forall k', In k' l -> key_lt k' indexUpperBound -> key_le k' k.

(** The encoded values are self-delimiting: none is a proper prefix of
    another. *)
Definition prefix_code (values : list Key) : Prop :=
  forall v v' s, In v values -> In v' values -> v' = v ++ s -> s = [].

(** ** PrimaryKeyLookupPlan on one key *)

Section SinglePKLookup.
Context {Ctx : Type}.
Local Abbreviation Doc := (ScanReturnedContext Ctx).
Variable getSubContext : Key -> Ctx.

(** [doSinglePKLookup]: [x] is the encoded key looked up, [store] the
    keys of the collection ([get(x)] is present when [x] is one of
    them). *)
Definition doSinglePKLookup (cp : PlanCheckpoint Ctx) (scanID : Z)
    (store : list Key) (x : Key) : list (Emit Doc) :=
  let scanBounds := getBounds cp scanID in
  (if key_leb (range_begin scanBounds) x && key_ltb x (range_end scanBounds)
   then if existsb (key_eqb x) store
        then [Send (mkDoc (getSubContext x) scanID x)]
        else []
   else [])
  ++ [SendError end_of_stream].

(** [PrimaryKeyLookupPlan::execute] when [begin] and [end] are the same
    key: what the lookup sends, and the checkpoint with its scan and its
    operation. *)
Definition execute_lookup (cp : PlanCheckpoint Ctx) (store : list Key) (x : Key)
  : list (Emit Doc) * PlanCheckpoint Ctx :=
  let '(scanID, cp1) := addScan cp in
  (doSinglePKLookup cp1 scanID store x, addOperation cp1 ActSilent).
End SinglePKLookup.

(** ** Asynchronous stages and pipelines *)

Section Pipelines.
Context {Ctx : Type}.
Local Abbreviation Doc := (ScanReturnedContext Ctx).

Variable decode_item0 : Key -> Key.
Variable decode_item_rev0 : Key -> Key.
Variable getSubContext : Key -> Ctx.

(** The three order-preserving asynchronous actors share one shape: a
    deque [futures] of received documents, each with a pending future,
    whose head is awaited together with the input.  What the future of a
    document yields is a function of the document: the predicate for
    [doFilter], the would-be-last test for [deduplicateIndexStream], the
    projection for [doProject]. *)
Inductive StageKind : Type :=
| SFilter (predicate : Doc -> bool)
| SDedup (wouldBeLast : Doc -> bool)
| SProject (projectDocument : Doc -> Ctx).

(** The head future is ready: what is sent ([None]: the document is
    discarded and its permit released). *)
Definition outcome (k : StageKind) (d : Doc) : option Doc :=
  match k with
  | SFilter predicate => if predicate d then Some d else None
  | SDedup wouldBeLast => if wouldBeLast d then Some d else None
  | SProject projectDocument =>
      Some (mkDoc (projectDocument d) (scanId d) (scanKey d))
  end.

Definition emit_of (o : option Doc) : Emit Doc :=
  match o with Some d => Send d | None => Quiet end.

Definition stage_actor (k : StageKind) (futures : list Doc) : Actor Ctx :=
  match k with
  | SFilter _ => ActFilter futures
  | SDedup _ => ActDedup futures
  | SProject _ => ActProject futures
  end.

(** A running pipeline: a scan actor, or an asynchronous stage over the
    pipeline that feeds it.  [open] tells whether the stage is still in
    its [choose] loop (its input has not ended), [done] whether the actor
    has terminated.  [sent] records what the operator has sent to its
    output stream so far, oldest first. *)
Inductive Pipe : Type :=
| PTableScan (s : PKScan) (sent : list Doc)
| PIndexScan (s : DocInfo) (sent : list Doc)
| PLookup (s : Lookup) (sent : list Doc)
| PStage (k : StageKind) (futures : list Doc) (open done : bool)
         (sent : list Doc) (input : Pipe).

Definition pipe_sent (p : Pipe) : list Doc :=
  match p with
  | PTableScan _ sent | PIndexScan _ sent | PLookup _ sent
  | PStage _ _ _ _ sent _ => sent
  end.

(** One step of the pipeline, labelled with what reaches its output.  A
    stage is always waiting on its input, so a document sent by the input
    is pushed on the deque in the same step. *)
Inductive pipe_step : Pipe -> Emit Doc -> Pipe -> Prop :=
| step_pkscan s s' e sent :
    doPKScan_step decode_item0 getSubContext s = Some (s', e) ->
    pipe_step (PTableScan s sent) e (PTableScan s' (sent ++ sent_docs e))
| step_docinfo s s' e sent :
    toDocInfo_step decode_item_rev0 getSubContext s = Some (s', e) ->
    pipe_step (PIndexScan s sent) e (PIndexScan s' (sent ++ sent_docs e))
| step_lookup s s' e sent :
    doSinglePKLookup_step getSubContext s = Some (s', e) ->
    pipe_step (PLookup s sent) e (PLookup s' (sent ++ sent_docs e))
| step_input_quiet k q o sent up up' :
    pipe_step up Quiet up' ->
    pipe_step (PStage k q o false sent up) Quiet (PStage k q o false sent up')
| step_input_send k q d sent up up' :
    pipe_step up (Send d) up' ->
    pipe_step (PStage k q true false sent up) Quiet
              (PStage k (q ++ [d]) true false sent up')
| step_input_eos k q sent up up' :
    pipe_step up (SendError end_of_stream) up' ->
    pipe_step (PStage k q true false sent up) Quiet
              (PStage k q false false sent up')
| step_resolve k d q o sent up :
    pipe_step (PStage k (d :: q) o false sent up)
              (emit_of (outcome k d))
              (PStage k q o false (sent ++ sent_docs (emit_of (outcome k d))) up)
| step_finish k sent up :
    pipe_step (PStage k [] false false sent up)
              (SendError end_of_stream)
              (PStage k [] false true sent up).

(** Runs: the documents that reached the output, oldest first. *)
Inductive pipe_run : Pipe -> list Doc -> Pipe -> Prop :=
| run_nil p : pipe_run p [] p
| run_step p e p' out p'' :
    pipe_step p e p' -> pipe_run p' out p'' ->
    pipe_run p (sent_docs e ++ out) p''.

Definition pipe_done (p : Pipe) : bool :=
  match p with
  | PTableScan s _ => pk_done s
  | PIndexScan s _ => di_done s
  | PLookup s _ => lookup_done s
  | PStage _ _ _ done _ _ => done
  end.

(** The actors of the pipeline in the order of their registration with
    [addOperation] (inputs first), as [stop()] finds them. *)
Fixpoint pipe_ops (p : Pipe) : list (Actor Ctx) :=
  match p with
  | PTableScan s _ =>
      [if pk_done s then ActFinished else ActPKScan (pk_scanID s) (pk_lastKey s)]
  | PIndexScan s _ =>
      [if di_done s then ActFinished else ActDocInfo (di_scanID s) (di_lastKey s)]
  | PLookup s _ => [if lookup_done s then ActFinished else ActSilent]
  | PStage k q _ done _ up =>
      pipe_ops up ++ [if done then ActFinished else stage_actor k q]
  end.

(** All the operators of a pipeline with what each has sent. *)
Fixpoint pipe_outputs (p : Pipe) : list (list Doc) :=
  match p with
  | PTableScan _ sent | PIndexScan _ sent | PLookup _ sent => [sent]
  | PStage _ _ _ _ sent up => sent :: pipe_outputs up
  end.

(** The plans whose execution is a pipeline: a scan below any number of
    filters and projections.  [begin] and [end_] are the encoded bounds of
    the plan ([encode_key_part]); [index_values] gives the encoded values
    of the indexed path of a document (a simple index: [index.size() == 1]). *)
Inductive ScanPlan : Type :=
| ScanTable
| ScanPKRange (begin end_ : option Key)
| ScanIndex (begin end_ : option Key) (index_values : Ctx -> list Key)
| ScanFilter (source : ScanPlan) (predicate : Doc -> bool)
| ScanProjection (subPlan : ScanPlan) (projectDocument : Doc -> Ctx).

Definition opt_key_eqb (a b : option Key) : bool :=
  match a, b with
  | Some x, Some y => key_eqb x y
  | _, _ => false
  end.

(** The upper end of a plan's own range: [strinc(end)] when the plan has
    an end, 0xFF otherwise; [None] when [strinc] asserts. *)
Definition plan_hi (end_ : option Key) : option Key :=
  match end_ with
  | Some e => strinc e
  | None => Some key_ff
  end.

Definition plan_lo (begin : option Key) : Key :=
  match begin with
  | Some b => b
  | None => key_00
  end.

(** [Plan::execute] for the plans above: [store] holds the keys of the
    collection, [index] those of the index.  The registered operations are
    read off the pipeline when the checkpoint is stopped ([pipe_ops]). *)
Fixpoint execute (plan : ScanPlan) (store index : list Key)
    (cp : PlanCheckpoint Ctx) : option (Pipe * PlanCheckpoint Ctx) :=
  match plan with
  | ScanTable =>
      (* TableScanPlan::execute *)
      let '(scanID, cp1) := addScan cp in
      let '(beginKey, endKey) :=
        scan_range key_00 key_ff (getBounds cp1 scanID) in
      Some (PTableScan (mkPKScan scanID (getDescendants store beginKey endKey)
                                 [] [] None false) [],
            cp1)
  | ScanPKRange begin end_ =>
      (* PrimaryKeyLookupPlan::execute *)
      let '(scanID, cp1) := addScan cp in
      if opt_key_eqb begin end_
      then Some (PLookup (mkLookup scanID (plan_lo begin)
                                   (getBounds cp1 scanID)
                                   (existsb (key_eqb (plan_lo begin)) store)
                                   LStart)
                         [],
                 cp1)
      else
        match plan_hi end_ with
        | Some hi =>
            let '(beginKey, endKey) :=
              scan_range (plan_lo begin) hi (getBounds cp1 scanID) in
            Some (PTableScan (mkPKScan scanID
                                       (getDescendants store beginKey endKey)
                                       [] [] None false) [],
                  cp1)
        | None => None
        end
  | ScanIndex begin end_ index_values =>
      (* IndexScanPlan::execute *)
      let '(scanID, cp1) := addScan cp in
      match plan_hi end_ with
      | Some hi =>
          let '(lowerBound, upperBound) :=
            scan_range (plan_lo begin) hi (getBounds cp1 scanID) in
          let p := PIndexScan (mkDocInfo scanID
                                 (getDescendants index lowerBound upperBound)
                                 [] None false) [] in
          if opt_key_eqb begin end_ then Some (p, cp1)
          else Some (PStage (SDedup (fun d =>
                                simpleWouldBeLast (index_values (docCx d))
                                                  (scanKey d) upperBound))
                            [] true false [] p,
                     cp1)
      | None => None
      end
  | ScanFilter source predicate =>
      match execute source store index cp with
      | Some (up, cp1) => Some (PStage (SFilter predicate) [] true false [] up, cp1)
      | None => None
      end
  | ScanProjection subPlan projectDocument =>
      match execute subPlan store index cp with
      | Some (up, cp1) =>
          Some (PStage (SProject projectDocument) [] true false [] up, cp1)
      | None => None
      end
  end.

(** Stopping a running pipeline: [stopAndCheckpoint] on the checkpoint
    whose operations are the actors of the pipeline. *)
Definition checkpoint_pipe (cp : PlanCheckpoint Ctx) (p : Pipe)
  : option (PlanCheckpoint Ctx * PlanCheckpoint Ctx) :=
  stopAndCheckpoint decode_item0
    (mkCheckpoint (boundsWanted cp) (scans cp) (states cp) (scansAdded cp)
                  (stateAdded cp) (pipe_ops p)).

(** What a pipeline still sends when it is left to run to its end. *)
Fixpoint remaining (p : Pipe) : list Doc :=
  match p with
  | PTableScan s _ =>
      if pk_done s then []
      else match pk_taking s with
           | Some kv => [mkDoc (getSubContext (pk_lastPK s)) (pk_scanID s) kv]
           | None => []
           end ++ pk_docs decode_item0 getSubContext (pk_scanID s)
                          (pk_lastPK s) (pk_kvs s)
  | PIndexScan s _ =>
      if di_done s then []
      else di_docs decode_item_rev0 getSubContext (di_scanID s)
                   (match di_taking s with Some kv => [kv] | None => [] end
                    ++ di_kvs s)
  | PLookup s _ => lookup_rest getSubContext s
  | PStage k q o done _ up =>
      if done then []
      else omap (outcome k) (q ++ if o then remaining up else [])
  end.
End Pipelines.

(** ** Vocabulary of the statements about pipelines *)

Section PipelineVocabulary.
Context {Ctx : Type}.
Local Abbreviation Doc := (ScanReturnedContext Ctx).

(** The documents received by some stage and not yet forwarded, the most
    downstream first: the order in which they would reach the output. *)
Fixpoint pending (p : @Pipe Ctx) : list Doc :=
  match p with
  | PTableScan _ _ | PIndexScan _ _ | PLookup _ _ => []
  | PStage _ q _ _ _ up => q ++ pending up
  end.

(** The scan actor at the bottom of a pipeline: its [lastKey] (the
    lookup of one key has none) and the keys it has not finished
    handling. *)
Fixpoint source_lastKey (p : @Pipe Ctx) : Key :=
  match p with
  | PTableScan s _ => pk_lastKey s
  | PIndexScan s _ => di_lastKey s
  | PLookup _ _ => []
  | PStage _ _ _ _ _ up => source_lastKey up
  end.

Fixpoint source_rest (p : @Pipe Ctx) : list Key :=
  match p with
  | PTableScan s _ =>
      match pk_taking s with Some kv => [kv] | None => [] end ++ pk_kvs s
  | PIndexScan s _ =>
      match di_taking s with Some kv => [kv] | None => [] end ++ di_kvs s
  | PLookup s _ =>
      match lk_phase s with LStart | LFound => [lk_x s] | _ => [] end
  | PStage _ _ _ _ _ up => source_rest up
  end.

Fixpoint source_sent (p : @Pipe Ctx) : list Doc :=
  match p with
  | PTableScan _ sent | PIndexScan _ sent | PLookup _ sent => sent
  | PStage _ _ _ _ _ up => source_sent up
  end.

Fixpoint source_scanID (p : @Pipe Ctx) : Z :=
  match p with
  | PTableScan s _ => pk_scanID s
  | PIndexScan s _ => di_scanID s
  | PLookup s _ => lk_scanID s
  | PStage _ _ _ _ _ up => source_scanID up
  end.

(** The plans whose scan is a [doPKScan]. *)
Fixpoint pk_sourced (plan : @ScanPlan Ctx) : bool :=
  match plan with
  | ScanTable => true
  | ScanPKRange begin end_ => negb (opt_key_eqb begin end_)
  | ScanIndex _ _ _ => false
  | ScanFilter source _ => pk_sourced source
  | ScanProjection subPlan _ => pk_sourced subPlan
  end.

(** The split key the cancellation of a pipeline leaves for its scan:
    the scan key of the document that would be output next when some
    stage holds one, otherwise what the scan actor itself writes ([old],
    the value before, when the scan actor has already ended or is the
    lookup of one key, which writes none). *)
Definition source_split (decode_item0 : Key -> Key) (p : @Pipe Ctx) (old : option Key)
  : option Key :=
  (fix go (p : @Pipe Ctx) : option Key :=
     match p with
     | PTableScan s _ =>
         if pk_done s then old else strinc (decode_item0 (pk_lastKey s))
     | PIndexScan s _ =>
         if di_done s then old else Some (keyAfter (di_lastKey s))
     | PLookup _ _ => old
     | PStage _ _ _ _ _ up => go up
     end) p.

Definition final_split (decode_item0 : Key -> Key) (p : @Pipe Ctx) (old : option Key)
  : option Key :=
  match pending p with
  | d :: _ => Some (scanKey d)
  | [] => source_split decode_item0 p old
  end.

(** A checkpoint as the constructor or [stopAndCheckpoint] returns it:
    nothing added yet, every split key at its default. *)
Definition clean_checkpoint (cp : PlanCheckpoint Ctx) : Prop :=
  scansAdded cp = 0 /\ Forall (fun sc => split sc = key_ff) (scans cp).
End PipelineVocabulary.

(** ** Vocabulary of the statements about split bounds *)

(** The earliest of the documents [futures] (in output order) that comes
    from scan [s]. *)
Definition first_of_scan {Ctx : Type} (futures : list (ScanReturnedContext Ctx))
    (s : Z) : option (ScanReturnedContext Ctx) :=
  find (fun d => scanId d =? s) futures.

(** The split key of scan [s] once the documents [futures] have been
    written over the value [old]. *)
Definition split_after {Ctx : Type} (futures : list (ScanReturnedContext Ctx))
    (s : Z) (old : option Key) : option Key :=
  match first_of_scan futures s with
  | Some d => Some (scanKey d)
  | None => old
  end.

(** Two checkpoints that differ at most in the split keys of their scans. *)
Definition same_but_splits {Ctx : Type} (cp cp' : PlanCheckpoint Ctx) : Prop :=
  boundsWanted cp' = boundsWanted cp
  /\ map bounds (scans cp') = map bounds (scans cp)
  /\ states cp' = states cp
  /\ scansAdded cp' = scansAdded cp
  /\ stateAdded cp' = stateAdded cp
  /\ ops cp' = ops cp.

(** The scans whose split key the cancellation handler of an actor
    writes. *)
Definition actor_targets {Ctx : Type} (a : Actor Ctx) : list Z :=
  match a with
  | ActFinished | ActSilent => []
  | ActPKScan scanID _ | ActDocInfo scanID _ => [scanID]
  | ActFilter futures | ActDedup futures | ActProject futures
  | ActUpdate futures => map scanId futures
  | ActProjectAndUpdate (Some d) true => [scanId d]
  | ActProjectAndUpdate _ _ => []
  | ActBuildIndex leftInStream futures => map scanId (leftInStream ++ futures)
  end.

Definition valid_scan {Ctx : Type} (cp : PlanCheckpoint Ctx) (s : Z) : Prop :=
  0 <= s < Z.of_nat (length (scans cp)).

(** The deque [futures] of the actors with one: the documents received
    and not yet sent on, in output order. *)
Definition async_futures {Ctx : Type} (a : Actor Ctx)
  : option (list (ScanReturnedContext Ctx)) :=
  match a with
  | ActFilter futures | ActDedup futures | ActProject futures
  | ActUpdate futures => Some futures
  | _ => None
  end.

(** ** Predicate pushdown *)

(** [IPredicate]: the type codes the planner switches on, and [PLeaf] for
    the other predicates (comparisons and the like). *)
Inductive Predicate (Expr LeafPred : Type) : Type :=
| PAll
| PNone
| PAnd (terms : list (Predicate Expr LeafPred))
| POr (terms : list (Predicate Expr LeafPred))
| PNot (term : Predicate Expr LeafPred)
| PAny (expr : Expr) (pred : Predicate Expr LeafPred)
| PLeaf (p : LeafPred).
Arguments PAll {Expr LeafPred}.
Arguments PNone {Expr LeafPred}.
Arguments PAnd {Expr LeafPred} _.
Arguments POr {Expr LeafPred} _.
Arguments PNot {Expr LeafPred} _.
Arguments PAny {Expr LeafPred} _ _.
Arguments PLeaf {Expr LeafPred} _.

(** The plans: the scans and the filter define [push_down]; every other
    plan ([OtherPlan]) inherits the one of [Plan]. *)
Inductive Plan (Cx DataValue IndexInfo Expr LeafPred : Type) : Type :=
| TableScanPlan (cx : Cx)
| PrimaryKeyLookupPlan (cx : Cx) (begin end_ : option DataValue)
| IndexScanPlan (cx : Cx) (index : IndexInfo) (begin end_ : option Key)
| FilterPlan (cx : Cx) (source : Plan Cx DataValue IndexInfo Expr LeafPred)
             (filter : Predicate Expr LeafPred)
| UnionPlan (plan1 plan2 : Plan Cx DataValue IndexInfo Expr LeafPred)
| EmptyPlan
| OtherPlan (describe : Z).
Arguments TableScanPlan {Cx DataValue IndexInfo Expr LeafPred} _.
Arguments PrimaryKeyLookupPlan {Cx DataValue IndexInfo Expr LeafPred} _ _ _.
Arguments IndexScanPlan {Cx DataValue IndexInfo Expr LeafPred} _ _ _ _.
Arguments FilterPlan {Cx DataValue IndexInfo Expr LeafPred} _ _ _.
Arguments UnionPlan {Cx DataValue IndexInfo Expr LeafPred} _ _.
Arguments EmptyPlan {Cx DataValue IndexInfo Expr LeafPred}.
Arguments OtherPlan {Cx DataValue IndexInfo Expr LeafPred} _.

Section Pushdown.
Context {Cx DataValue IndexInfo Expr LeafPred : Type}.
Local Abbreviation Pred := (Predicate Expr LeafPred).
Local Abbreviation PlanT := (Plan Cx DataValue IndexInfo Expr LeafPred).

(** What the planner uses of the other modules: the key encodings of
    QLTypes, the predicates' [get_range], [range_is_tight] and [simplify],
    the expressions' [get_index_key], the index catalogue of the
    collection context. *)
Variable encode_key_part : DataValue -> Key.
Variable encode_string : Key -> Key.
Variable id_key_part : Key.
Variable get_index_key : Expr -> Key.
Variable get_range : Pred -> option DataValue * option DataValue.
Variable range_is_tight : Pred -> bool.
Variable simplify : Pred -> Pred.
Variable getSimpleIndex : Cx -> Key -> option IndexInfo.
Variable getCompoundIndex : Cx -> IndexInfo -> Key -> option IndexInfo.

(** [Optional::present()]. *)
Definition present {A : Type} (o : option A) : bool :=
  match o with Some _ => true | None => false end.

(** [strAppend(lhs, rhs)] under [begin.present() ? ... : begin]. *)
Definition strAppend_opt (k : option Key) (suffix : Key) : option Key :=
  match k with
  | Some x => Some (x ++ suffix)
  | None => None
  end.

(** Modelled from the spec: [IndexScanPlan::single_key()] is declared in
    QLPlan.h; "IndexScan with a single fixed prefix" is a scan whose
    [begin] and [end] are present and equal. *)
Definition single_key (begin end_ : option Key) : bool :=
  match begin, end_ with
  | Some b, Some e => key_eqb b e
  | _, _ => false
  end.

(** [Optional<Reference<Plan>>] under fuel: [None] when the fuel runs
    out, [Some None] for the empty optional. *)
Definition PushResult : Type := option (option PlanT).

(** [FilterPlan::construct_filter_plan], over the [push_down] it calls. *)
Definition construct_filter_plan_with (pd : PlanT -> Cx -> Pred -> PushResult)
    (cx : Cx) (source : PlanT) (filter : Pred) : option PlanT :=
  match filter with
  | PAll => Some source
  | _ =>
      match pd source cx filter with
      | None => None
      | Some (Some pdPlan) => Some pdPlan
      | Some None => Some (FilterPlan cx source filter)
      end
  end.

(** The loop of the AND case: the first term that can be pushed down,
    filtered by the other terms. *)
Fixpoint push_first (pd : Pred -> PushResult)
    (construct : PlanT -> Pred -> option PlanT)
    (before after : list Pred) : PushResult :=
  match after with
  | [] => Some None
  | this_term :: rest =>
      match pd this_term with
      | None => None
      | Some (Some p) =>
          match construct p (simplify (PAnd (before ++ rest))) with
          | Some plan => Some (Some plan)
          | None => None
          end
      | Some None => push_first pd construct (before ++ [this_term]) rest
      end
  end.

(** [Plan::push_down], by plan: [FilterPlan::push_down],
    [TableScanPlan::push_down], [IndexScanPlan::push_down], and the
    default of the other plans.  Modelled from the spec: the default
    [Plan::push_down] is declared in QLPlan.h; all other operators have
    no push-down.  [terms.back()] of an OR without terms is undefined; no
    plan is returned for it here. *)
Fixpoint push_down (fuel : nat) (self : PlanT) (cx : Cx) (query : Pred)
  : PushResult :=
  match fuel with
  | O => None
  | S fuel' =>
      let construct := construct_filter_plan_with (push_down fuel') cx in
      match self with
      | FilterPlan _ source filter =>
          Some (Some (FilterPlan cx source (simplify (PAnd [filter; query]))))
      | TableScanPlan _ =>
          match query with
          | PAny expr pred =>
              if key_eqb (get_index_key expr) id_key_part then
                let '(begin, end_) := get_range pred in
                if present begin || present end_ then
                  if range_is_tight pred
                  then Some (Some (PrimaryKeyLookupPlan cx begin end_))
                  else option_map Some
                         (construct (PrimaryKeyLookupPlan cx begin end_) query)
                else Some None
              else
                match getSimpleIndex cx (encode_string (get_index_key expr)) with
                | Some oIndex =>
                    let '(begin, end_) := get_range pred in
                    if present begin || present end_ then
                      let beginKey := option_map encode_key_part begin in
                      let endKey := option_map encode_key_part end_ in
                      if range_is_tight pred
                      then Some (Some (IndexScanPlan cx oIndex beginKey endKey))
                      else option_map Some
                             (construct (IndexScanPlan cx oIndex beginKey endKey)
                                        query)
                    else Some None
                | None => Some None
                end
          | POr terms =>
              match last terms with
              | None => Some None
              | Some last_ =>
                  match push_down fuel' self cx last_ with
                  | None => None
                  | Some None => Some None
                  | Some (Some lastPlan) =>
                      let pdTerms := removelast terms in
                      match push_down fuel' self cx
                              (simplify (PAnd [POr pdTerms; PNot last_])) with
                      | None => None
                      | Some (Some pd) => Some (Some (UnionPlan pd lastPlan))
                      | Some None => Some None
                      end
                  end
              end
          | PAnd terms => push_first (push_down fuel' self cx) construct [] terms
          | PNone => Some (Some EmptyPlan)
          | _ => Some None
          end
      | IndexScanPlan _ index begin end_ =>
          if single_key begin end_ then
            match query with
            | PAny expr pred =>
                match getCompoundIndex cx index
                        (encode_string (get_index_key expr)) with
                | Some oIndex =>
                    let '(beginSuffix, endSuffix) := get_range pred in
                    if present beginSuffix || present endSuffix then
                      let beginKeySuffix :=
                        match beginSuffix with
                        | Some v => encode_key_part v
                        | None => key_00
                        end in
                      let endKeySuffix :=
                        match endSuffix with
                        | Some v => encode_key_part v
                        | None => key_ff
                        end in
                      let scan :=
                        IndexScanPlan cx oIndex
                          (strAppend_opt begin beginKeySuffix)
                          (strAppend_opt end_ endKeySuffix) in
                      if range_is_tight pred then Some (Some scan)
                      else option_map Some (construct scan query)
                    else Some None
                | None => Some None
                end
            | PAnd terms => push_first (push_down fuel' self cx) construct [] terms
            | _ => Some None
            end
          else Some None
      | _ => Some None
      end
  end.

Definition construct_filter_plan (fuel : nat) (cx : Cx) (source : PlanT)
    (filter : Pred) : option PlanT :=
  construct_filter_plan_with (push_down fuel) cx source filter.
End Pushdown.

(** ** UpdatePlan *)

(** Where [doUpdate] is: in its [choose] loop, draining the updates it
    has started, or terminated. *)
Inductive UpdatePhase : Type := ULoop | UDrain | UDone.

(** State of [doUpdate]: the documents its input still holds, the deque
    [futures], the counter [count] (the integer state of the checkpoint),
    and what it has done so far: the documents it has called
    [updateOp->update] on, the documents it has sent, whether it has
    inserted the upsert document. *)
Record UpdateState (Ctx : Type) : Type := mkUpdateState {
  u_input : list (ScanReturnedContext Ctx);
  u_futures : list (ScanReturnedContext Ctx);
  u_count : Z;
  u_phase : UpdatePhase;
  u_updated : list (ScanReturnedContext Ctx);
  u_sent : list (ScanReturnedContext Ctx);
  u_inserted : bool
}.
Arguments mkUpdateState {Ctx} _ _ _ _ _ _ _.
Arguments u_input {Ctx} _.
Arguments u_futures {Ctx} _.
Arguments u_count {Ctx} _.
Arguments u_phase {Ctx} _.
Arguments u_updated {Ctx} _.
Arguments u_sent {Ctx} _.
Arguments u_inserted {Ctx} _.

Section UpdatePlan.
Context {Ctx : Type}.
Local Abbreviation Doc := (ScanReturnedContext Ctx).

(** [limit], and the document [upsertOp->insert] creates when an upsert
    is configured. *)
Variable limit : Z.
Variable upsertOp : option Ctx.

Inductive doUpdate_step : UpdateState Ctx -> UpdateState Ctx -> Prop :=
| upd_receive d input futures count updated sent :
    (* when(doc = waitNext(input)) *)
    doUpdate_step
      (mkUpdateState (d :: input) futures count ULoop updated sent false)
      (mkUpdateState input (futures ++ [d]) (count + 1)
                     (if limit <=? count + 1 then UDrain else ULoop)
                     (updated ++ [d]) sent false)
| upd_end_of_stream futures count updated sent :
    (* waitNext(input) throws end_of_stream *)
    doUpdate_step
      (mkUpdateState [] futures count ULoop updated sent false)
      (mkUpdateState [] futures count UDrain updated sent false)
| upd_forward d input futures count phase updated sent :
    (* the update at the head of the deque is done *)
    phase <> UDone ->
    doUpdate_step
      (mkUpdateState input (d :: futures) count phase updated sent false)
      (mkUpdateState input futures count phase updated (sent ++ [d]) false)
| upd_finish input count updated sent :
    (* if (upsertOp && count == 0) ...; throw end_of_stream() *)
    doUpdate_step
      (mkUpdateState input [] count UDrain updated sent false)
      (match upsertOp with
       | Some inserted =>
           if count =? 0
           then mkUpdateState input [] count UDone updated
                              (sent ++ [mkDoc inserted (-1) []]) true
           else mkUpdateState input [] count UDone updated sent false
       | None => mkUpdateState input [] count UDone updated sent false
       end).

Inductive doUpdate_run : UpdateState Ctx -> UpdateState Ctx -> Prop :=
| upd_run_nil st : doUpdate_run st st
| upd_run_step st st' st'' :
    doUpdate_step st st' -> doUpdate_run st' st'' -> doUpdate_run st st''.

(** [doUpdate] as it starts: [count] is what [getIntState(0)] returns. *)
Definition doUpdate_start (input : list Doc) (count : Z) : UpdateState Ctx :=
  mkUpdateState input [] count ULoop [] [] false.

Definition doUpdate_actor (st : UpdateState Ctx) : Actor Ctx :=
  match u_phase st with
  | UDone => ActFinished
  | _ => ActUpdate (u_futures st)
  end.
End UpdatePlan.

(** ** FindAndModifyPlan and ProjectAndUpdatePlan *)

(** What the two actors do, in order. *)
Inductive ModifyEvent (Ctx : Type) : Type :=
| EvProject (d : Ctx)
| EvUpdate (d : Ctx)
| EvInsert (d : Ctx)
| EvCommitChanges (d : Ctx)
| EvCommit.
Arguments EvProject {Ctx} _.
Arguments EvUpdate {Ctx} _.
Arguments EvInsert {Ctx} _.
Arguments EvCommitChanges {Ctx} _.
Arguments EvCommit {Ctx}.

Section FindAndModify.
Context {Ctx : Type}.
Local Abbreviation Doc := (ScanReturnedContext Ctx).

(** [updateOp->update] and [projectDocument] as functions of the document,
    the document [upsertOp->insert] creates, and the default-constructed
    [bson::BSONObj]. *)
Variable updateOp : Ctx -> Ctx.
Variable upsertOp : option Ctx.
Variable projection : Ctx -> Ctx.
Variable projectNew : bool.
Variable empty_obj : Ctx.

(** The part shared by [findAndModify] (after its search loop) and
    [projectAndUpdate] (after its first [waitNext]): [found] is the
    document obtained, if any.  Returns the events, the final [firstDoc]
    and [proj]. *)
Definition modify_first (found : option Doc)
  : list (ModifyEvent Ctx) * option Doc * Ctx :=
  let any := present found in
  (* if (!projectNew && any) proj = projectDocument(firstDoc) *)
  let '(ev1, proj1) :=
    match found with
    | Some d => if negb projectNew
                then ([EvProject (docCx d)], projection (docCx d))
                else ([], empty_obj)
    | None => ([], empty_obj)
    end in
  (* if (any) update(firstDoc) else if (upsertOp) firstDoc = inserted *)
  let '(ev2, firstDoc) :=
    match found with
    | Some d => ([EvUpdate (docCx d)],
                 Some (mkDoc (updateOp (docCx d)) (scanId d) (scanKey d)))
    | None =>
        match upsertOp with
        | Some inserted => ([EvInsert inserted], Some (mkDoc inserted (-1) []))
        | None => ([], None)
        end
    end in
  (* if (any || upsertOp) firstDoc->commitChanges() *)
  let ev3 :=
    match firstDoc with
    | Some d => if any || present upsertOp then [EvCommitChanges (docCx d)] else []
    | None => []
    end in
  (* if (projectNew && (any || upsertOp)) proj = projectDocument(firstDoc) *)
  let '(ev4, proj2) :=
    match firstDoc with
    | Some d => if projectNew && (any || present upsertOp)
                then ([EvProject (docCx d)], projection (docCx d))
                else ([], proj1)
    | None => ([], proj1)
    end in
  (ev1 ++ ev2 ++ ev3 ++ ev4, firstDoc, proj2).

(** The output: [if (any || (projectNew && upsertOp)) output.send(...)],
    then [end_of_stream]. *)
Definition modify_output (found : option Doc) (firstDoc : option Doc) (proj : Ctx)
  : list Doc :=
  if present found || (projectNew && present upsertOp) then
    match firstDoc with
    | Some d => [mkDoc proj (scanId d) (scanKey d)]
    | None => []
    end
  else [].

(** [findAndModify] from the end of its search: [found] is the document
    the sub-plan gave, [None] when it ended without any. *)
Definition findAndModify (found : option Doc)
  : list (ModifyEvent Ctx) * list Doc * Error :=
  let '(events, firstDoc, proj) := modify_first found in
  (events ++ [EvCommit], modify_output found firstDoc proj, end_of_stream).

(** [projectAndUpdate]: the first document of the input, if any. *)
Definition projectAndUpdate (input : list Doc)
  : list (ModifyEvent Ctx) * list Doc * Error :=
  let found := head input in
  let '(events, firstDoc, proj) := modify_first found in
  (events, modify_output found firstDoc proj, end_of_stream).
End FindAndModify.

(** ** IndexInsertPlan *)

(** An index descriptor: its [key] specification (fields and directions)
    and its [name]. *)
Record IndexObj : Type := mkIndexObj {
  idx_key : list (String.string * Z);
  idx_name : String.string
}.

Fixpoint keyspec_eqb (a b : list (String.string * Z)) : bool :=
  match a, b with
  | [], [] => true
  | (f, d) :: a', (g, e) :: b' => String.eqb f g && (d =? e) && keyspec_eqb a' b'
  | _, _ => false
  end.

(** The indexes collection and the metadata version of the collection. *)
Record IndexCatalog : Type := mkIndexCatalog {
  indexObjs : list IndexObj;
  metadataVersion : Z
}.

(** The loop over the existing indexes: the error it throws, if any. *)
Fixpoint index_precheck (indexObj : IndexObj) (existing : list IndexObj)
  : option Error :=
  match existing with
  | [] => None
  | existingindexObj :: rest =>
      if keyspec_eqb (idx_key indexObj) (idx_key existingindexObj)
      then Some index_already_exists
      else if String.eqb (idx_name indexObj) (idx_name existingindexObj)
           then Some index_name_taken
           else index_precheck indexObj rest
  end.

(** [doIndexInsert]: the documents sent, the error the stream ends with,
    and the catalogue afterwards. *)
Definition doIndexInsert (indexObj : IndexObj) (cat : IndexCatalog)
  : list (ScanReturnedContext IndexObj) * Error * IndexCatalog :=
  match index_precheck indexObj (indexObjs cat) with
  | Some e =>
      (* catch: index_already_exists becomes end_of_stream *)
      ([], if Error_eqb e index_already_exists then end_of_stream else e, cat)
  | None =>
      ([mkDoc indexObj (-1) []], end_of_stream,
       mkIndexCatalog (indexObjs cat ++ [indexObj]) (metadataVersion cat + 1))
  end.

(** ** UnionPlan *)

(** A future of [doUnion]: not ready yet, ready with a document, ready
    with an error, or [Never()]. *)
Inductive UFuture (Ctx : Type) : Type :=
| FPending
| FReady (val : ScanReturnedContext Ctx)
| FError (e : Error)
| FNever.
Arguments FPending {Ctx}.
Arguments FReady {Ctx} _.
Arguments FError {Ctx} _.
Arguments FNever {Ctx}.

Definition isError {Ctx : Type} (f : UFuture Ctx) : bool :=
  match f with FError _ => true | _ => false end.

(** How one turn of the loop of [doUnion] ends. *)
Inductive UnionOutcome : Type :=
| UContinue
| UThrow (e : Error)
| UAssertFailed.

Record UnionState (Ctx : Type) : Type := mkUnionState {
  aFuture : UFuture Ctx;
  bFuture : UFuture Ctx;
  aOpen : bool;
  bOpen : bool
}.
Arguments mkUnionState {Ctx} _ _ _ _.
Arguments aFuture {Ctx} _.
Arguments bFuture {Ctx} _.
Arguments aOpen {Ctx} _.
Arguments bOpen {Ctx} _.

Section UnionPlan.
Context {Ctx : Type}.
Local Abbreviation Doc := (ScanReturnedContext Ctx).

(** [ASSERT(!aFuture.isError() || !bFuture.isError() ||
            aFuture.getError().code() == bFuture.getError().code())]. *)
Definition union_assert (st : UnionState Ctx) : bool :=
  match aFuture st, bFuture st with
  | FError ea, FError eb => Error_eqb ea eb
  | _, _ => true
  end.

(** The [catch] of the loop, for the error [e] the [choose] raised. *)
Definition union_catch (st : UnionState Ctx) (e : Error)
  : UnionState Ctx * list (Emit Doc) * UnionOutcome :=
  if Error_eqb e actor_cancelled then (st, [], UThrow e)
  else if negb (Error_eqb e end_of_stream) then (st, [SendError e], UThrow e)
  else if negb (union_assert st) then (st, [], UAssertFailed)
  else
    let '(aF, aO) := if isError (aFuture st) then (FNever, false)
                     else (aFuture st, aOpen st) in
    let '(bF, bO) := if isError (bFuture st) then (FNever, false)
                     else (bFuture st, bOpen st) in
    let st' := mkUnionState aF bF aO bO in
    if negb aO && negb bO then (st', [SendError e], UThrow e)
    else (st', [], UContinue).

(** One turn of the loop: the [choose] takes the first ready future, [a]
    before [b]; a forwarded document re-arms the future
    ([waitAndForward], pending again).  [None]: neither is ready, the
    actor stays suspended. *)
Definition doUnion_turn (st : UnionState Ctx)
  : option (UnionState Ctx * list (Emit Doc) * UnionOutcome) :=
  match aFuture st with
  | FReady val =>
      Some (mkUnionState FPending (bFuture st) (aOpen st) (bOpen st),
            [Send val], UContinue)
  | FError e => Some (union_catch st e)
  | _ =>
      match bFuture st with
      | FReady val =>
          Some (mkUnionState (aFuture st) FPending (aOpen st) (bOpen st),
                [Send val], UContinue)
      | FError e => Some (union_catch st e)
      | _ => None
      end
  end.

(** [doUnion] as it starts, and the input streams completing the pending
    futures. *)
Definition doUnion_start (a b : UFuture Ctx) : UnionState Ctx :=
  mkUnionState a b true true.

Inductive union_arrival : UnionState Ctx -> UnionState Ctx -> Prop :=
| arrive_a st f :
    aFuture st = FPending -> f <> FPending -> f <> FNever ->
    union_arrival st (mkUnionState f (bFuture st) (aOpen st) (bOpen st))
| arrive_b st f :
    bFuture st = FPending -> f <> FPending -> f <> FNever ->
    union_arrival st (mkUnionState (aFuture st) f (aOpen st) (bOpen st)).
End UnionPlan.

(** ** SortPlan *)

(** State of [doSort] once its sub-plan is drained and the projections
    are sorted: [returnProjections], and the index [i] of the next one to
    send. *)
Record SortTask (Ctx : Type) : Type := mkSortTask {
  returnProjections : list Ctx;
  sort_i : nat
}.
Arguments mkSortTask {Ctx} _ _.
Arguments returnProjections {Ctx} _.
Arguments sort_i {Ctx} _.

Section SortPlan.
Context {Ctx : Type}.
Local Abbreviation Doc := (ScanReturnedContext Ctx).

Variable decode_item0 : Key -> Key.
Variable decode_item_rev0 : Key -> Key.
Variable getSubContext : Key -> Ctx.

(** [std::sort] of the projections under [bsonCompare]. *)
Variable sort_projections : list Ctx -> list Ctx.

(** [SortPlan::execute]: [doSort] executes the sub-plan under a
    checkpoint of its own ([innerCheckpoint(new PlanCheckpoint)]), reads it
    to its end and sorts; the outer checkpoint gains one operation and no
    scan. *)
Definition execute_sort (subPlan : @ScanPlan Ctx) (store index : list Key)
    (cp : PlanCheckpoint Ctx) : option (SortTask Ctx * PlanCheckpoint Ctx) :=
  match execute subPlan store index new_PlanCheckpoint with
  | Some (p0, _) =>
      let drained := remaining decode_item0 decode_item_rev0 getSubContext p0 in
      Some (mkSortTask (sort_projections (map docCx drained)) 0,
            addOperation cp ActSilent)
  | None => None
  end.

(** One turn of the sending loop of [doSort]; [None] when it is over. *)
Definition doSort_step (t : SortTask Ctx) : option (SortTask Ctx * Doc) :=
  match returnProjections t !! sort_i t with
  | Some c => Some (mkSortTask (returnProjections t) (S (sort_i t)),
                    mkDoc c (-1) [])
  | None => None
  end.

(** What [doSort] still sends when it is left to run to its end. *)
Definition doSort_remaining (t : SortTask Ctx) : list Doc :=
  map (fun c => mkDoc c (-1) []) (drop (sort_i t) (returnProjections t)).
End SortPlan.

(** ** Sample collection *)

(** Two documents of one cell each, whose keys are their primary keys. *)
Definition sample_store : list Key := [[x61]; [x62]].

Definition sample_decode (k : Key) : Key := k.

Definition sample_doc (k : Key) : ScanReturnedContext Key := mkDoc k 0 k.

(** The table scan over the sample collection as [execute] starts it, and
    after it has sent its first document. *)
Definition sample_scan0 : @Pipe Key :=
  PTableScan (mkPKScan 0 sample_store [] [] None false) [].

Definition sample_scan1 : @Pipe Key :=
  PTableScan (mkPKScan 0 [[x62]] [x61] [x61] None false) [sample_doc [x61]].

(** The checkpoint of that execution, once the scan is added. *)
Definition sample_started : PlanCheckpoint Key := snd (addScan new_PlanCheckpoint).

(** A checkpoint with one scan and a running [doPKScan]. *)
Definition sample_checkpoint : PlanCheckpoint Key :=
  mkCheckpoint false [mkScanState (KeyRangeRef [] key_ff) key_ff]
               [new_IntState 3] 1 1 [ActPKScan 0 [x61]].

(** ** Invariants and measures of the pipelines *)

Section PipelineInvariants.
Context {Ctx : Type}.
Local Abbreviation Doc := (ScanReturnedContext Ctx).
Local Abbreviation PipeC := (@Pipe Ctx).

Variable decode_item0 : Key -> Key.
Variable decode_item_rev0 : Key -> Key.
Variable getSubContext : Key -> Ctx.

Local Abbreviation pkdocs := (pk_docs decode_item0 getSubContext).
Local Abbreviation didocs := (di_docs decode_item_rev0 getSubContext).

(** Well-formed states: a stage leaves its [choose] loop exactly when its
    input has ended. *)
Fixpoint pipe_wf (p : PipeC) : Prop :=
  match p with
  | PTableScan _ _ | PIndexScan _ _ | PLookup _ _ => True
  | PStage _ q o done _ up =>
      o = negb (pipe_done up) /\ (done = true -> o = false /\ q = []) /\ pipe_wf up
  end.

(** The measure that every step of a pipeline decreases. *)
Definition b2n (b : bool) : nat := if b then 0%nat else 1%nat.

Fixpoint pipe_measure (p : PipeC) : nat :=
  match p with
  | PTableScan s _ =>
      2 * length (pk_kvs s) + match pk_taking s with Some _ => 1 | None => 0 end
      + b2n (pk_done s)
  | PIndexScan s _ =>
      2 * length (di_kvs s) + match di_taking s with Some _ => 1 | None => 0 end
      + b2n (di_done s)
  | PLookup s _ =>
      match lk_phase s with LStart => 3 | LFound => 2 | LSent => 1 | LDone => 0 end
  | PStage _ q _ done _ up => 2 * pipe_measure up + length q + b2n done
  end%nat.

(** [lastKey] and [lastPK] of a scan actor that has handled the keys [l]. *)
Definition last_key (l : list Key) : Key :=
  match last l with Some k => k | None => [] end.

Definition lastPK_after (lp : Key) (l : list Key) : Key :=
  match last l with Some k => decode_item0 k | None => lp end.

(** What the scan actors have done with the keys [kvs0] of their range
    read: [consumed] are the keys they have finished handling. *)
Definition pk_inv (kvs0 : list Key) (s : PKScan) (sent : list Doc) : Prop :=
  exists consumed,
    kvs0 = consumed ++ match pk_taking s with Some kv => [kv] | None => [] end
                    ++ pk_kvs s
    /\ sent = pkdocs (pk_scanID s) [] consumed
    /\ pk_lastKey s = last_key consumed
    /\ pk_lastPK s =
         lastPK_after [] (consumed ++ match pk_taking s with
                                      | Some kv => [kv] | None => [] end)
    /\ (forall kv, pk_taking s = Some kv ->
                   decode_item0 kv <> lastPK_after [] consumed).

Definition di_inv (kvs0 : list Key) (s : DocInfo) (sent : list Doc) : Prop :=
  exists consumed,
    kvs0 = consumed ++ match di_taking s with Some kv => [kv] | None => [] end
                    ++ di_kvs s
    /\ sent = didocs (di_scanID s) consumed
    /\ di_lastKey s = last_key consumed.

(** The lookup of one key: what it has sent and what it has still to send
    are documents of its scan at keys of the range read. *)
Definition lookup_inv (kvs0 : list Key) (s : Lookup) (sent : list Doc) : Prop :=
  map scanKey (sent ++ lookup_rest getSubContext s) `sublist_of` kvs0
  /\ Forall (fun d => scanId d = lk_scanID s) (sent ++ lookup_rest getSubContext s).

(** What holds of every state of a pipeline over the keys [kvs0]: each
    stage has received what its input has sent, and has sent the outcome
    of what is no longer in its deque. *)
Fixpoint pipe_inv (kvs0 : list Key) (p : PipeC) : Prop :=
  match p with
  | PTableScan s sent => pk_inv kvs0 s sent
  | PIndexScan s sent => di_inv kvs0 s sent
  | PLookup s sent => lookup_inv kvs0 s sent
  | PStage k q _ _ sent up =>
      (exists processed,
          pipe_sent up = processed ++ q /\ sent = omap (outcome k) processed)
      /\ pipe_inv kvs0 up
  end.

(** What [execute] builds: a fresh pipeline over the keys of the
    intersected range. *)
Definition fresh_over (src : list Key) (lo hi : Key) (cp : PlanCheckpoint Ctx)
    (cp1 : PlanCheckpoint Ctx) (p0 : PipeC) : Prop :=
  let r := scan_range lo hi (getBounds cp1 (scansAdded cp)) in
  pipe_inv (getDescendants src (fst r) (snd r)) p0
  /\ source_scanID p0 = scansAdded cp
  /\ pipe_wf p0
  /\ pipe_done p0 = false
  /\ Forall (fun l => l = []) (pipe_outputs p0)
  /\ cp1 = snd (addScan cp).

(** The stages of a pipeline, the most downstream first, and the scan
    actor below them. *)
Fixpoint pipe_kinds (p : PipeC) : list (@StageKind Ctx) :=
  match p with
  | PTableScan _ _ | PIndexScan _ _ | PLookup _ _ => []
  | PStage k _ _ _ _ up => k :: pipe_kinds up
  end.

Fixpoint source_of (p : PipeC) : PipeC :=
  match p with
  | PTableScan _ _ | PIndexScan _ _ | PLookup _ _ => p
  | PStage _ _ _ _ _ up => source_of up
  end.

(** What the stages make of the documents of the scan. *)
Fixpoint through (ks : list (@StageKind Ctx)) (l : list Doc) : list Doc :=
  match ks with
  | [] => l
  | k :: ks' => omap (outcome k) (through ks' l)
  end.

(** [cut kvs0 id kappa c2]: the keys [kvs0] of a range read fall into those
    below [kappa] and the keys [c2] from [kappa] on, and a scan of [c2]
    alone sends what a scan of [kvs0] sends from [kappa] on. *)
Definition cut (kvs0 : list Key) (id : Z) (kappa : Key) (c2 : list Key) : Prop :=
  exists A c1,
    kvs0 = c1 ++ c2
    /\ Forall (fun k => key_lt k kappa) c1
    /\ Forall (key_le kappa) c2
    /\ pkdocs id [] kvs0 = A ++ pkdocs id [] c2
    /\ Forall (fun d : Doc => key_lt (scanKey d) kappa) A.

(** The own range of a plan over [doPKScan], and its stages. *)
Fixpoint plan_range (plan : @ScanPlan Ctx) : option (Key * Key) :=
  match plan with
  | ScanTable => Some (key_00, key_ff)
  | ScanPKRange b e =>
      if opt_key_eqb b e then None
      else match plan_hi e with Some hi => Some (plan_lo b, hi) | None => None end
  | ScanIndex _ _ _ => None
  | ScanFilter source _ => plan_range source
  | ScanProjection subPlan _ => plan_range subPlan
  end.

Fixpoint plan_stages (plan : @ScanPlan Ctx) : list (@StageKind Ctx) :=
  match plan with
  | ScanTable | ScanPKRange _ _ | ScanIndex _ _ _ => []
  | ScanFilter source f => SFilter f :: plan_stages source
  | ScanProjection subPlan f => SProject f :: plan_stages subPlan
  end.

(** The pipeline [execute] builds: fresh stages above a fresh scan. *)
Fixpoint wrap (ks : list (@StageKind Ctx)) (src : PipeC) : PipeC :=
  match ks with
  | [] => src
  | k :: ks' => PStage k [] true false [] (wrap ks' src)
  end.

Definition fresh_scan (id : Z) (kvs : list Key) : PipeC :=
  PTableScan (mkPKScan id kvs [] [] None false) [].

(** The scan actor of a running pipeline over [doPKScan]. *)
Definition is_pk (p : PipeC) : Prop :=
  exists s sent, source_of p = PTableScan s sent.
End PipelineInvariants.

(** ** Invariant and measure of doUpdate *)

Section UpdateInvariants.
Context {Ctx : Type}.
Local Abbreviation Doc := (ScanReturnedContext Ctx).
Variable limit : Z.
Variable upsertOp : option Ctx.

(** The number of documents [doUpdate] reads when there are enough of
    them: [count >= limit] is tested after the increment. *)
Definition update_quota : nat := Z.to_nat (Z.max 1 limit).

(** The document sent for the upsert. *)
Definition upsert_docs (input : list Doc) : list Doc :=
  match upsertOp, input with
  | Some inserted, [] => [mkDoc inserted (-1) []]
  | _, _ => []
  end.

(** What holds of every state of a run from [doUpdate_start input 0]. *)
Definition update_inv (input : list Doc) (st : UpdateState Ctx) : Prop :=
  u_updated st ++ u_input st = input
  /\ u_count st = Z.of_nat (length (u_updated st))
  /\ (length (u_updated st) <= update_quota)%nat
  /\ match u_phase st with
     | ULoop => (length (u_updated st) < update_quota)%nat
     | _ => length (u_updated st) = update_quota \/ u_input st = []
     end
  /\ match u_phase st with
     | UDone => u_futures st = []
                /\ u_sent st = u_updated st ++ upsert_docs input
                /\ u_inserted st = present upsertOp && (u_count st =? 0)
     | _ => u_sent st ++ u_futures st = u_updated st /\ u_inserted st = false
     end.

(** The measure that every step of [doUpdate] decreases. *)
Definition update_measure (st : UpdateState Ctx) : nat :=
  (2 * length (u_input st) + length (u_futures st)
   + match u_phase st with ULoop => 2 | UDrain => 1 | UDone => 0 end)%nat.
End UpdateInvariants.

(** ** SkipPlan *)

(** [int64_t]: the bounds, and [--x] with its wrap-around. *)
Definition int64_min : Z := - 2 ^ 63.
Definition int64_max : Z := 2 ^ 63 - 1.

Definition dec64 (x : Z) : Z := if x =? int64_min then int64_max else x - 1.

Section SkipPlan.
Context {Ctx : Type}.
Local Abbreviation Doc := (ScanReturnedContext Ctx).

(** [doSkip] on the documents [input] its input hands over: what it sends
    and the value [leftToSkip] is left with.  Once [leftToSkip] is zero
    the first loop is over for good and every document is sent on. *)
Fixpoint doSkip (leftToSkip : Z) (input : list Doc) : list Doc * Z :=
  match input with
  | [] => ([], leftToSkip)
  | next :: rest =>
      if leftToSkip =? 0
      then let '(out, final) := doSkip leftToSkip rest in (next :: out, final)
      else doSkip (dec64 leftToSkip) rest
  end.

(** A write through the reference [getIntState] returned: it designates
    the [split] of the last state. *)
Definition write_intState (cp : PlanCheckpoint Ctx) (v : Z) : PlanCheckpoint Ctx :=
  mkCheckpoint (boundsWanted cp) (scans cp)
               (alter (fun x => mkIntState (st_begin x) v)
                      (length (states cp) - 1)%nat (states cp))
               (scansAdded cp) (stateAdded cp) (ops cp).

(** [doSkip] under a checkpoint: [leftToSkip] is the integer state of the
    checkpoint, [skip] its default; the documents sent and the checkpoint
    once [input] has been handled. *)
Definition doSkip_under (cp : PlanCheckpoint Ctx) (skip : Z) (input : list Doc)
  : option (list Doc * PlanCheckpoint Ctx) :=
  match getIntState cp skip with
  | Some (leftToSkip, cp1) =>
      let '(out, final) := doSkip leftToSkip input in
      Some (out, write_intState cp1 final)
  | None => None
  end.
End SkipPlan.

(** ** compoundWouldBeLast *)

(** The keys built over the Cartesian product of the value lists of the
    indexed fields: the encodings of one value of each field, appended in
    the order of the fields.  The order of the combinations is that of
    nested loops; the list is sorted before it is used. *)
Fixpoint product_keys (old_values : list (list Key)) : list Key :=
  match old_values with
  | [] => [[]]
  | vs :: rest =>
      flat_map (fun v => map (fun r => v ++ r) (product_keys rest)) vs
  end.

(** [compoundWouldBeLast]: [old_values] are the encoded values of each
    indexed field, in the order of the fields. *)
Definition compoundWouldBeLast (old_values : list (list Key)) (scanKey : Key)
    (indexUpperBound : Key) : bool :=
  let old_values_size := fold_left (fun n v => (n * length v)%nat) old_values 1%nat in
  if (old_values_size =? 1)%nat then true
  else
    let sorted := key_sort (product_keys old_values) in
    let last := last_below sorted indexUpperBound in
    if startsWith scanKey last then true else false.

(** ** unstrincObjectId *)

(** The type codes [unstrincObjectId] switches on. *)
Inductive DVTypeCode : Type := NUMBER | OID | DATE | OTHER_TYPE.

(** What [unstrincObjectId] returns: a string, or the error
    unsupported_operation. *)
Inductive Unstrinc : Type :=
| Returned (ret : Key)
| unsupported_operation.

(** [ret[n]--] on a byte, with its wrap-around. *)
Definition byte_dec (b : byte) : byte :=
  match Byte.of_N ((Byte.to_N b + 255) mod 256) with
  | Some b' => b'
  | None => b
  end.

Section UnstrincObjectId.
(** [DVTypeCode(encodedKeyPart[0])]: the values of the enumeration are
    declared in QLTypes.h. *)
Variable type_code : byte -> DVTypeCode.

(** [None] stands for the read of [encodedKeyPart[0]] in an empty
    string, which the caller excludes. *)
Definition unstrincObjectId (encodedKeyPart : Key) : option Unstrinc :=
  match encodedKeyPart with
  | [] => None
  | first :: _ =>
      let size := length encodedKeyPart in
      let flags :=
        match type_code first with
        | NUMBER => Some (false, (size =? 12)%nat)
        | OID => Some (false, (size =? 14)%nat)
        | DATE => Some (false, (size =? 10)%nat)
        | OTHER_TYPE => None
        end in
      match flags with
      | None => Some unsupported_operation
      | Some (shouldBeNullTerminated, reduceLength) =>
          if reduceLength then Some (Returned (take (size - 1) encodedKeyPart))
          else
            let lastByte := nth (size - 1) encodedKeyPart x00 in
            if negb shouldBeNullTerminated || (Byte.to_N lastByte =? 1)%N
            then Some (Returned (take (size - 1) encodedKeyPart
                                 ++ [byte_dec lastByte]))
            else Some (Returned encodedKeyPart)
      end
  end.
End UnstrincObjectId.

(** ** InsertPlan *)

(** Where [doInsert] is: in its [choose] loop, in the final loop at index
    [j] of the deque, or terminated. *)
Inductive InsertPhase : Type := ILoop | IFinal (j : nat) | IDone.

(** State of [doInsert]: the index [i] of the next document to insert,
    the deque [f] of the insertions started, and what has been sent. *)
Record InsertState (Ctx : Type) : Type := mkInsertState {
  ins_i : nat;
  ins_f : list Ctx;
  ins_phase : InsertPhase;
  ins_sent : list (ScanReturnedContext Ctx)
}.
Arguments mkInsertState {Ctx} _ _ _ _.
Arguments ins_i {Ctx} _.
Arguments ins_f {Ctx} _.
Arguments ins_phase {Ctx} _.
Arguments ins_sent {Ctx} _.

Section InsertPlan.
Context {Ctx : Type}.
Local Abbreviation Doc := (ScanReturnedContext Ctx).

(** [docs]: for each insert operation, the context its [insert] gives. *)
Variable docs : list Ctx.

Inductive doInsert_step : InsertState Ctx -> InsertState Ctx -> Prop :=
| ins_take i f sent c :
    (* when(wait(flowControlLock->take())) *)
    docs !! i = Some c ->
    doInsert_step (mkInsertState i f ILoop sent)
                  (mkInsertState (S i) (f ++ [c]) ILoop sent)
| ins_forward i f sent c :
    (* when(doc = wait(f.front())) *)
    (i < length docs)%nat ->
    doInsert_step (mkInsertState i (c :: f) ILoop sent)
                  (mkInsertState i f ILoop (sent ++ [mkDoc c (-1) []]))
| ins_break i f sent :
    (* if (i >= docs.size()) break; *)
    (length docs <= i)%nat ->
    doInsert_step (mkInsertState i f ILoop sent)
                  (mkInsertState i f (IFinal 0) sent)
| ins_final i f sent j c :
    (* for (; j < f.size(); j++) *)
    f !! j = Some c ->
    doInsert_step (mkInsertState i f (IFinal j) sent)
                  (mkInsertState i f (IFinal (S j)) (sent ++ [mkDoc c (-1) []]))
| ins_end i f sent j :
    (* throw end_of_stream() *)
    (length f <= j)%nat ->
    doInsert_step (mkInsertState i f (IFinal j) sent)
                  (mkInsertState i f IDone sent).

Inductive doInsert_run : InsertState Ctx -> InsertState Ctx -> Prop :=
| ins_run_nil st : doInsert_run st st
| ins_run_step st st' st'' :
    doInsert_step st st' -> doInsert_run st' st'' -> doInsert_run st st''.

Definition doInsert_start : InsertState Ctx := mkInsertState 0 [] ILoop [].

(** What holds of every state of a run of [doInsert]. *)
Definition insert_inv (st : InsertState Ctx) : Prop :=
  match ins_phase st with
  | ILoop =>
      (ins_i st <= length docs)%nat
      /\ map docCx (ins_sent st) ++ ins_f st = take (ins_i st) docs
  | IFinal j =>
      (j <= length (ins_f st))%nat
      /\ map docCx (ins_sent st) ++ drop j (ins_f st) = docs
  | IDone => map docCx (ins_sent st) = docs
  end
  /\ Forall (fun d => scanId d = -1 /\ scanKey d = []) (ins_sent st).

(** The measure that every step of [doInsert] decreases. *)
Definition insert_measure (st : InsertState Ctx) : nat :=
  match ins_phase st with
  | ILoop => 3 * (length docs - ins_i st) + 2 * length (ins_f st) + 3
  | IFinal j => length (ins_f st) - j + 1
  | IDone => 0
  end%nat.
End InsertPlan.

(** ** UnionPlan over its two input streams *)

Section UnionStreams.
Context {Ctx : Type}.
Local Abbreviation Doc := (ScanReturnedContext Ctx).

(** [doUnion] with what its inputs still hold: the documents not yet
    handed to [waitAndForward], each stream ending with end_of_stream. *)
Definition UnionFeed : Type := UnionState Ctx * list Doc * list Doc.

Inductive union_feed_step : UnionFeed -> list (Emit Doc) -> UnionFeed -> Prop :=
| feed_a st d a b :
    aFuture st = FPending ->
    union_feed_step (st, d :: a, b) []
      (mkUnionState (FReady d) (bFuture st) (aOpen st) (bOpen st), a, b)
| feed_a_end st b :
    aFuture st = FPending ->
    union_feed_step (st, [], b) []
      (mkUnionState (FError end_of_stream) (bFuture st) (aOpen st) (bOpen st), [], b)
| feed_b st d a b :
    bFuture st = FPending ->
    union_feed_step (st, a, d :: b) []
      (mkUnionState (aFuture st) (FReady d) (aOpen st) (bOpen st), a, b)
| feed_b_end st a :
    bFuture st = FPending ->
    union_feed_step (st, a, []) []
      (mkUnionState (aFuture st) (FError end_of_stream) (aOpen st) (bOpen st), a, [])
| feed_turn st st' out a b :
    doUnion_turn st = Some (st', out, UContinue) ->
    union_feed_step (st, a, b) out (st', a, b).

(** A run up to the end of the actor: what was sent and how it ended. *)
Inductive union_feed_run : UnionFeed -> list (Emit Doc) -> UnionOutcome -> Prop :=
| feed_stop st st' out o a b :
    doUnion_turn st = Some (st', out, o) -> o <> UContinue ->
    union_feed_run (st, a, b) out o
| feed_step x out x' rest o :
    union_feed_step x out x' -> union_feed_run x' rest o ->
    union_feed_run x (out ++ rest) o.

(** The documents among what was sent. *)
Definition emitted_docs (l : list (Emit Doc)) : list Doc :=
  flat_map sent_docs l.

(** [merge_of a b l]: [l] is made of the elements of [a] and of [b], each
    list in its order. *)
Inductive merge_of : list Doc -> list Doc -> list Doc -> Prop :=
| merge_nil : merge_of [] [] []
| merge_l d a b l : merge_of a b l -> merge_of (d :: a) b (d :: l)
| merge_r d a b l : merge_of a b l -> merge_of a (d :: b) (d :: l).

(** The document a future holds. *)
Definition future_doc (f : UFuture Ctx) : list Doc :=
  match f with FReady d => [d] | _ => [] end.

(** A side of [doUnion] whose input ends with end_of_stream: the future
    is pending or holds a document while the side is open; it holds the
    end of the stream once the stream is exhausted; it is [Never()] once
    the side is closed. *)
Definition side_ok (f : UFuture Ctx) (isOpen : bool) (left_ : list Doc) : Prop :=
  match f with
  | FPending | FReady _ => isOpen = true
  | FError e => e = end_of_stream /\ left_ = [] /\ isOpen = true
  | FNever => isOpen = false /\ left_ = []
  end.

Definition feed_ok (x : UnionFeed) : Prop :=
  let '(st, a, b) := x in
  side_ok (aFuture st) (aOpen st) a /\ side_ok (bFuture st) (bOpen st) b.

Definition feed_left (x : UnionFeed) : list Doc * list Doc :=
  let '(st, a, b) := x in
  (future_doc (aFuture st) ++ a, future_doc (bFuture st) ++ b).

End UnionStreams.

(** ** NonIsolatedPlan, read only *)

Section NonIsolated.
Context {Ctx : Type}.
Local Abbreviation Doc := (ScanReturnedContext Ctx).

Variable decode_item0 : Key -> Key.
Variable decode_item_rev0 : Key -> Key.
Variable getSubContext : Key -> Ctx.

(** The sub-plan, and the keys of the collection and of the index, which
    every transaction of the loop reads the same. *)
Variable subPlan : @ScanPlan Ctx.
Variable store : list Key.
Variable index : list Key.

(** The loop of [doNonIsolatedRO] from the checkpoint [innerCheckpoint]:
    the sub-plan is executed under it and its documents are sent on as
    they come; either the sub-plan ends, or the timeout fires, the
    checkpoint is stopped and the loop goes on from the checkpoint
    [stopAndCheckpoint] returns.  [stops] records the state of the
    sub-plan at each timeout. *)
Inductive doNonIsolatedRO
  : PlanCheckpoint Ctx -> list Doc -> list (@Pipe Ctx) -> Prop :=
| ro_end_of_stream innerCheckpoint p0 cp1 out pf :
    execute subPlan store index innerCheckpoint = Some (p0, cp1) ->
    pipe_run decode_item0 decode_item_rev0 getSubContext p0 out pf ->
    pipe_done pf = true ->
    doNonIsolatedRO innerCheckpoint out []
| ro_timeout innerCheckpoint p0 cp1 out p stopped rest outs stops :
    execute subPlan store index innerCheckpoint = Some (p0, cp1) ->
    pipe_run decode_item0 decode_item_rev0 getSubContext p0 out p ->
    (* ASSERT(!docs.isReady()) *)
    pipe_done p = false ->
    checkpoint_pipe decode_item0 cp1 p = Some (stopped, rest) ->
    doNonIsolatedRO rest outs stops ->
    doNonIsolatedRO innerCheckpoint (out ++ outs) (p :: stops).
End NonIsolated.

(** ** Stopping and resuming a plan *)

Section Resuming.
Context {Ctx : Type}.
Local Abbreviation Doc := (ScanReturnedContext Ctx).

Variable decode_item0 : Key -> Key.
Variable decode_item_rev0 : Key -> Key.
Variable getSubContext : Key -> Ctx.

(** The scan of a plan, below its filters and projections, and the
    pipeline [execute] builds for it from the id and the bounds that
    [addScan] and [getBounds] return. *)
Fixpoint plan_scan (plan : @ScanPlan Ctx) : @ScanPlan Ctx :=
  match plan with
  | ScanFilter source _ => plan_scan source
  | ScanProjection subPlan _ => plan_scan subPlan
  | _ => plan
  end.

Definition scan_pipe (plan : @ScanPlan Ctx) (store index : list Key)
    (scanID : Z) (b : KeyRange) : option (@Pipe Ctx) :=
  match plan_scan plan with
  | ScanTable =>
      let '(beginKey, endKey) := scan_range key_00 key_ff b in
      Some (PTableScan (mkPKScan scanID (getDescendants store beginKey endKey)
                                 [] [] None false) [])
  | ScanPKRange begin end_ =>
      if opt_key_eqb begin end_
      then Some (PLookup (mkLookup scanID (plan_lo begin) b
                                   (existsb (key_eqb (plan_lo begin)) store)
                                   LStart)
                         [])
      else
        match plan_hi end_ with
        | Some hi =>
            let '(beginKey, endKey) := scan_range (plan_lo begin) hi b in
            Some (PTableScan (mkPKScan scanID
                                       (getDescendants store beginKey endKey)
                                       [] [] None false) [])
        | None => None
        end
  | ScanIndex begin end_ index_values =>
      match plan_hi end_ with
      | Some hi =>
          let '(lowerBound, upperBound) := scan_range (plan_lo begin) hi b in
          let p := PIndexScan (mkDocInfo scanID
                                 (getDescendants index lowerBound upperBound)
                                 [] None false) [] in
          if opt_key_eqb begin end_ then Some p
          else Some (PStage (SDedup (fun d =>
                                simpleWouldBeLast (index_values (docCx d))
                                                  (scanKey d) upperBound))
                            [] true false [] p)
      | None => None
      end
  | ScanFilter _ _ | ScanProjection _ _ => None
  end.

(** The states of a pipeline executed under the checkpoint [cp] in which
    the cancellation handlers leave a split key to resume from.  Once a
    stage holds a document, its handler writes the scan key of that
    document.  Otherwise the scan actor decides:
    - [doPKScan] writes [strinc(decode_bytes(lastKey)[0])], which needs a
      key in [lastKey];
    - [toDocInfo] writes [keyAfter(lastKey)], which for an empty [lastKey]
      is the key of one zero byte, whatever the bounds of the checkpoint
      begin at;
    - [doSinglePKLookup] writes nothing, also while it has its document
      still to send;
    - an actor that has ended writes nothing, and the split key of the
      scan stays what it was. *)
Definition resumable (cp : PlanCheckpoint Ctx) (p : @Pipe Ctx) : Prop :=
  match pending p with
  | _ :: _ => True
  | [] =>
      match source_of p with
      | PTableScan s _ =>
          if pk_done s then read_splitBound cp (pk_scanID s) = Some key_ff
          else pk_lastKey s <> []
      | PIndexScan s _ =>
          if di_done s then read_splitBound cp (di_scanID s) = Some key_ff
          else di_lastKey s <> []
               \/ key_le (range_begin (getBounds cp (di_scanID s))) key_00
      | PLookup s _ =>
          lookup_rest getSubContext s = []
          /\ read_splitBound cp (lk_scanID s) = Some key_ff
      | PStage _ _ _ _ _ _ => True
      end
  end.

(** The plans of the statement on resumption: a scan below filters and
    projections, or the UnionPlan of two of them, alone or below a
    SkipPlan. *)
Inductive SubPlan : Type :=
| SPlan (plan : @ScanPlan Ctx)
| SUnion (plan1 plan2 : @ScanPlan Ctx).

Inductive ReadPlan : Type :=
| RPlan (subPlan : SubPlan)
| RSkip (subPlan : SubPlan) (skip : Z).

Definition sub_of (q : ReadPlan) : SubPlan :=
  match q with
  | RPlan subPlan | RSkip subPlan _ => subPlan
  end.

(** [Plan::execute] for the sub-plans: the pipelines of the scans, in the
    order of their scan ids.  [UnionPlan::execute] executes its two
    sub-plans before [doUnion] starts.  Modelled from the spec: the
    source writes the two calls as arguments of one call, which leaves
    their order to the compiler; "subplans' execute are called in a fixed
    left-to-right order so that addScan() yields the same IDs across
    re-executions". *)
Definition execute_sub (subPlan : SubPlan) (store index : list Key)
    (cp : PlanCheckpoint Ctx)
  : option (list (@Pipe Ctx) * PlanCheckpoint Ctx) :=
  match subPlan with
  | SPlan plan =>
      match execute plan store index cp with
      | Some (p, cp1) => Some ([p], cp1)
      | None => None
      end
  | SUnion plan1 plan2 =>
      match execute plan1 store index cp with
      | Some (a, cp1) =>
          match execute plan2 store index cp1 with
          | Some (b, cp2) => Some ([a; b], cp2)
          | None => None
          end
      | None => None
      end
  end.

(** [SkipPlan::execute] executes the sub-plan first; [doSkip] then takes
    its counter from [getIntState(skip)].  The result is the pipelines,
    the value [leftToSkip] starts from when there is a [doSkip], and the
    checkpoint. *)
Definition execute_read (q : ReadPlan) (store index : list Key)
    (cp : PlanCheckpoint Ctx)
  : option (list (@Pipe Ctx) * option Z * PlanCheckpoint Ctx) :=
  match q with
  | RPlan subPlan =>
      match execute_sub subPlan store index cp with
      | Some (ps, cp1) => Some (ps, None, cp1)
      | None => None
      end
  | RSkip subPlan skip =>
      match execute_sub subPlan store index cp with
      | Some (ps, cp1) =>
          match getIntState cp1 skip with
          | Some (leftToSkip, cp2) => Some (ps, Some leftToSkip, cp2)
          | None => None
          end
      | None => None
      end
  end.

(** One step of the pipelines of a plan: a step of one of them.  The
    label is what reaches [doUnion], or the output when there is one
    pipeline. *)
Inductive inputs_step
  : list (@Pipe Ctx) -> Emit Doc -> list (@Pipe Ctx) -> Prop :=
| inputs_here p e p' ps :
    pipe_step decode_item0 decode_item_rev0 getSubContext p e p' ->
    inputs_step (p :: ps) e (p' :: ps)
| inputs_there p ps e ps' :
    inputs_step ps e ps' -> inputs_step (p :: ps) e (p :: ps').

(** Runs: the documents that reached the output of the sub-plan, oldest
    first.  Modelled from the spec: [waitAndForward] is not in the
    source; [doUnion] "forwards any ready document from either side", and
    as it is always suspended on both inputs a document sent by one of
    them is sent on in the same step. *)
Inductive inputs_run
  : list (@Pipe Ctx) -> list Doc -> list (@Pipe Ctx) -> Prop :=
| inputs_run_nil ps : inputs_run ps [] ps
| inputs_run_step ps e ps' out ps'' :
    inputs_step ps e ps' -> inputs_run ps' out ps'' ->
    inputs_run ps (sent_docs e ++ out) ps''.

(** The sub-plan has ended: [doUnion] sends end_of_stream once both its
    inputs have. *)
Definition inputs_done (ps : list (@Pipe Ctx)) : bool := forallb pipe_done ps.

(** What the plan has sent once its sub-plan has sent [out]: [doSkip]
    handles each document as it receives it. *)
Definition read_sent (start : option Z) (out : list Doc) : list Doc :=
  match start with
  | None => out
  | Some leftToSkip => fst (doSkip leftToSkip out)
  end.

(** The operations of the checkpoint at that point, in the order of
    their registration: the actors of the pipelines, [doUnion], [doSkip].
    The cancellation of the last two writes no split key. *)
Definition read_ops (q : ReadPlan) (ps : list (@Pipe Ctx)) : list (Actor Ctx) :=
  flat_map pipe_ops ps
  ++ match sub_of q with
     | SPlan _ => []
     | SUnion _ _ => [if inputs_done ps then ActFinished else ActSilent]
     end
  ++ match q with
     | RPlan _ => []
     | RSkip _ _ => [if inputs_done ps then ActFinished else ActSilent]
     end.

(** The checkpoint at that point: [doSkip] has written its counter
    through the reference [getIntState] returned. *)
Definition read_checkpoint (q : ReadPlan) (cp : PlanCheckpoint Ctx)
    (start : option Z) (ps : list (@Pipe Ctx)) (out : list Doc)
  : PlanCheckpoint Ctx :=
  let cp' := match start with
             | None => cp
             | Some leftToSkip => write_intState cp (snd (doSkip leftToSkip out))
             end in
  mkCheckpoint (boundsWanted cp') (scans cp') (states cp') (scansAdded cp')
               (stateAdded cp') (read_ops q ps).

(** When two complete executions of a plan have sent the same: the same
    documents in the same order for one pipeline; the same documents for
    a UnionPlan, which sends them as they arrive; as many documents for a
    SkipPlan over a UnionPlan, which skips the first to arrive. *)
Definition same_output (q : ReadPlan) (l1 l2 : list Doc) : Prop :=
  match q with
  | RPlan (SPlan _) | RSkip (SPlan _) _ => l1 = l2
  | RPlan (SUnion _ _) => l1 ≡ₚ l2
  | RSkip (SUnion _ _) _ => length l1 = length l2
  end.
End Resuming.

(** ** Further samples *)

(** A type code table: 0x14 for numbers, 0x0c for object ids, 0x09 for
    dates. *)
Definition sample_type_code (b : byte) : DVTypeCode :=
  match b with
  | x14 => NUMBER
  | x0c => OID
  | x09 => DATE
  | _ => OTHER_TYPE
  end.

(** An index scan over two entries as [execute] starts it, and after it
    has sent its first document. *)
Definition sample_index : list Key := [[x61; x39]; [x63; x39]].

Definition sample_index_scan0 : @Pipe Key :=
  PIndexScan (mkDocInfo 0 sample_index [] None false) [].

Definition sample_index_scan1 : @Pipe Key :=
  PIndexScan (mkDocInfo 0 [[x63; x39]] [x61; x39] None false)
             [mkDoc [x61; x39] 0 [x61; x39]].

(** The predicate of the sample filter: the documents whose key is "b". *)
Definition sample_predicate (d : ScanReturnedContext Key) : bool :=
  key_eqb (scanKey d) [x62].

(** The primary key of a sample index key (its part after the first
    byte), and the values of the one document of the sample index. *)
Definition sample_decode_rev (k : Key) : Key := drop 1 k.

Definition sample_index_values (c : Key) : list Key := [[x61]; [x63]].

(** An index with the entries of the documents "1" and "2" under the
    value "a", the one value each of them has; the document the scan of
    this index sends for an entry. *)
Definition sample_entries : list Key := [[x61; x31]; [x61; x32]].

Definition sample_entry_values (c : Key) : list Key := [[x61]].

Definition sample_entry_doc (pk : Key) : ScanReturnedContext Key :=
  mkDoc pk 0 (x61 :: pk).

(** The plan and the sample of the statement on resumption: a SkipPlan
    over the UnionPlan of the table scan of the sample collection and the
    scan of the sample index. *)
Definition sample_read_plan : @ReadPlan Key :=
  RSkip (SUnion ScanTable (ScanIndex None None sample_index_values)) 1.

(** * Properties *)

Lemma byte_compare_refl (a : byte) : byte_compare a a = Eq.
Proof. unfold byte_compare. apply N.compare_refl. Qed.

Lemma byte_compare_eq (a b : byte) : byte_compare a b = Eq -> a = b.
Proof.
  unfold byte_compare. intros H. apply N.compare_eq in H.
  assert (E : Some a = Some b).
  { rewrite <- (Byte.of_to_N a), <- (Byte.of_to_N b). now rewrite H. }
  now inversion E.
Qed.

Lemma byte_compare_antisym (a b : byte) :
  byte_compare b a = CompOpp (byte_compare a b).
Proof. unfold byte_compare. apply N.compare_antisym. Qed.

Lemma key_compare_refl (a : Key) : key_compare a a = Eq.
Proof.
  induction a as [|x a IH]; simpl; [reflexivity|].
  now rewrite byte_compare_refl.
Qed.

Lemma key_compare_eq (a b : Key) : key_compare a b = Eq -> a = b.
Proof.
  revert b. induction a as [|x a IH]; intros [|y b]; simpl; try discriminate.
  - reflexivity.
  - destruct (byte_compare x y) eqn:E; try discriminate.
    intros H. apply byte_compare_eq in E. apply IH in H. congruence.
Qed.

Lemma key_compare_antisym (a b : Key) :
  key_compare b a = CompOpp (key_compare a b).
Proof.
  revert b. induction a as [|x a IH]; intros [|y b]; simpl; try reflexivity.
  rewrite (byte_compare_antisym x y).
  destruct (byte_compare x y); simpl; auto.
Qed.

Lemma key_lt_irrefl (a : Key) : ~ key_lt a a.
Proof. unfold key_lt. now rewrite key_compare_refl. Qed.

Lemma key_lt_trans (a b c : Key) : key_lt a b -> key_lt b c -> key_lt a c.
Proof.
  unfold key_lt. revert b c.
  induction a as [|x a IH]; intros [|y b] [|z c]; simpl; try discriminate; auto.
  unfold byte_compare.
  destruct (N.compare_spec (Byte.to_N x) (Byte.to_N y)) as [E1|L1|G1];
    try discriminate;
    destruct (N.compare_spec (Byte.to_N y) (Byte.to_N z)) as [E2|L2|G2];
    try discriminate; intros H1 H2.
  - rewrite E1, E2, N.compare_refl. eauto.
  - rewrite E1. now apply N.compare_lt_iff in L2 as ->.
  - rewrite <- E2. now apply N.compare_lt_iff in L1 as ->.
  - assert (L : (Byte.to_N x < Byte.to_N z)%N) by lia.
    now apply N.compare_lt_iff in L as ->.
Qed.

Lemma key_lt_gt (a b : Key) : key_lt a b <-> key_compare b a = Gt.
Proof.
  unfold key_lt. rewrite (key_compare_antisym a b).
  destruct (key_compare a b); simpl; split; congruence.
Qed.

Lemma key_le_lt_or_eq (a b : Key) : key_le a b <-> key_lt a b \/ a = b.
Proof.
  unfold key_le, key_lt. split.
  - destruct (key_compare a b) eqn:E; intros H; try congruence; auto.
    right. now apply key_compare_eq.
  - intros [H| ->]; [congruence|]. now rewrite key_compare_refl.
Qed.

Lemma key_le_refl (a : Key) : key_le a a.
Proof. apply key_le_lt_or_eq. now right. Qed.

Lemma key_lt_le (a b : Key) : key_lt a b -> key_le a b.
Proof. intros H. apply key_le_lt_or_eq. now left. Qed.

Lemma key_not_lt_le (a b : Key) : ~ key_lt a b <-> key_le b a.
Proof.
  rewrite key_lt_gt. unfold key_le. tauto.
Qed.

Lemma key_lt_le_trans (a b c : Key) : key_lt a b -> key_le b c -> key_lt a c.
Proof.
  intros H1 H2. apply key_le_lt_or_eq in H2 as [H2| <-]; auto.
  eapply key_lt_trans; eauto.
Qed.

Lemma key_le_lt_trans (a b c : Key) : key_le a b -> key_lt b c -> key_lt a c.
Proof.
  intros H1 H2. apply key_le_lt_or_eq in H1 as [H1| ->]; auto.
  eapply key_lt_trans; eauto.
Qed.

Lemma key_le_trans (a b c : Key) : key_le a b -> key_le b c -> key_le a c.
Proof.
  intros H1 H2. apply key_le_lt_or_eq in H1 as [H1| ->]; auto.
  apply key_lt_le. eapply key_lt_le_trans; eauto.
Qed.

Lemma key_ltb_lt (a b : Key) : key_ltb a b = true <-> key_lt a b.
Proof.
  unfold key_ltb, key_lt. destruct (key_compare a b); split; congruence.
Qed.

Lemma key_ltb_ge (a b : Key) : key_ltb a b = false <-> key_le b a.
Proof.
  rewrite <- key_not_lt_le, <- key_ltb_lt. destruct (key_ltb a b); split; congruence.
Qed.

Lemma key_leb_le (a b : Key) : key_leb a b = true <-> key_le a b.
Proof.
  unfold key_leb. rewrite negb_true_iff. apply key_ltb_ge.
Qed.

Lemma key_eqb_eq (a b : Key) : key_eqb a b = true <-> a = b.
Proof.
  unfold key_eqb. split.
  - destruct (key_compare a b) eqn:E; try discriminate.
    intros _. now apply key_compare_eq.
  - intros ->. now rewrite key_compare_refl.
Qed.

Lemma key_lt_total (a b : Key) : key_lt a b \/ a = b \/ key_lt b a.
Proof.
  destruct (key_compare a b) eqn:E.
  - right; left. now apply key_compare_eq.
  - now left.
  - right; right. now apply key_lt_gt.
Qed.

(** ** More on the order: prefixes, [strinc] and [keyAfter] *)

Lemma key_compare_app (p a b : Key) :
  key_compare (p ++ a) (p ++ b) = key_compare a b.
Proof.
  induction p as [|x p IH]; simpl; [reflexivity|].
  now rewrite byte_compare_refl.
Qed.

Lemma key_le_app (p s : Key) : key_le p (p ++ s).
Proof.
  unfold key_le. rewrite <- (app_nil_r p) at 1. rewrite key_compare_app.
  destruct s; simpl; congruence.
Qed.

Lemma key_le_nil (k : Key) : key_le [] k.
Proof. apply (key_le_app [] k). Qed.

Lemma key_lt_keyAfter (k : Key) : key_lt k (keyAfter k).
Proof.
  unfold key_lt, keyAfter. rewrite <- (app_nil_r k) at 1.
  now rewrite key_compare_app.
Qed.

Lemma keyAfter_least (k k' : Key) : key_lt k k' -> key_le (keyAfter k) k'.
Proof.
  unfold key_lt, key_le, keyAfter. revert k'.
  induction k as [|x k IH]; intros [|y k']; simpl; try discriminate.
  - intros _. unfold byte_compare. simpl.
    destruct (Byte.to_N y) eqn:E; simpl; [|discriminate].
    destruct k'; discriminate.
  - destruct (byte_compare x y); try discriminate; auto.
Qed.

Lemma startsWith_prefix (k p : Key) :
  startsWith k p = true <-> exists s, k = p ++ s.
Proof.
  revert k. induction p as [|y p IH]; intros k; simpl.
  - split; [intros _; now exists k|reflexivity].
  - destruct k as [|x k].
    + split; [discriminate|]. intros [s Hs]. discriminate.
    + destruct (byte_compare x y) eqn:E.
      * apply byte_compare_eq in E as ->. rewrite IH.
        split; intros [s Hs]; exists s; congruence.
      * split; [discriminate|]. intros [s Hs]. inversion Hs; subst.
        now rewrite byte_compare_refl in E.
      * split; [discriminate|]. intros [s Hs]. inversion Hs; subst.
        now rewrite byte_compare_refl in E.
Qed.

Lemma byte_succ (b b' : byte) :
  Byte.of_N (Byte.to_N b + 1) = Some b' ->
  forall c, byte_compare b c = Lt -> byte_compare b' c <> Gt.
Proof.
  intros H c. apply Byte.to_of_N in H. unfold byte_compare. rewrite H.
  rewrite N.compare_lt_iff. intros L G. apply N.compare_gt_iff in G. lia.
Qed.

Lemma byte_succ_gt (b b' : byte) :
  Byte.of_N (Byte.to_N b + 1) = Some b' -> byte_compare b b' = Lt.
Proof.
  intros H. apply Byte.to_of_N in H. unfold byte_compare. rewrite H.
  apply N.compare_lt_iff. lia.
Qed.

Lemma byte_max (b c : byte) :
  Byte.of_N (Byte.to_N b + 1) = None -> byte_compare b c <> Lt.
Proof.
  intros H. apply Byte.of_N_None_iff in H. unfold byte_compare.
  rewrite N.compare_lt_iff. pose proof (Byte.to_N_bounded c). lia.
Qed.

(** Every key with prefix [p] is below [strinc p]. *)
Lemma strinc_gt (p q : Key) :
  strinc p = Some q -> forall s, key_lt (p ++ s) q.
Proof.
  unfold key_lt. revert q. induction p as [|b p IH]; intros q; simpl; [discriminate|].
  destruct (strinc p) as [r|] eqn:E.
  - intros [= <-] s. simpl. rewrite byte_compare_refl. now apply IH.
  - destruct (Byte.of_N (Byte.to_N b + 1)) as [b'|] eqn:Eb; [|discriminate].
    intros [= <-] s. simpl. now rewrite (byte_succ_gt _ _ Eb).
Qed.

(** A key without successor is made of 0xFF bytes only: whatever is not
    below it extends it. *)
Lemma strinc_None_prefix (p k : Key) :
  strinc p = None -> key_le p k -> exists s, k = p ++ s.
Proof.
  unfold key_le. revert k. induction p as [|b p IH]; intros k; simpl.
  - eauto.
  - destruct (strinc p) eqn:E; [discriminate|].
    destruct (Byte.of_N (Byte.to_N b + 1)) eqn:Eb; [discriminate|].
    intros _. destruct k as [|c k]; [congruence|].
    pose proof (byte_max b c Eb) as Hm.
    destruct (byte_compare b c) eqn:Ec; try congruence.
    intros H. apply byte_compare_eq in Ec as ->.
    destruct (IH k eq_refl H) as [s ->]. now exists s.
Qed.

(** [strinc p] is the least key above the keys with prefix [p]. *)
Lemma strinc_least (p q k : Key) :
  strinc p = Some q -> key_lt p k -> (forall s, k <> p ++ s) -> key_le q k.
Proof.
  unfold key_lt, key_le. revert q k.
  induction p as [|b p IH]; intros q k; simpl; [discriminate|].
  destruct k as [|c k]; [discriminate|].
  destruct (strinc p) as [r|] eqn:E.
  - intros [= <-]. simpl.
    destruct (byte_compare b c) eqn:Ec; try discriminate; try congruence.
    intros H Hn. apply byte_compare_eq in Ec as ->.
    apply (IH r k eq_refl H). intros s ->. now apply (Hn s).
  - destruct (Byte.of_N (Byte.to_N b + 1)) as [b'|] eqn:Eb; [|discriminate].
    intros [= <-]. simpl.
    destruct (byte_compare b c) eqn:Ec; try discriminate.
    + intros H Hn. apply byte_compare_eq in Ec as ->.
      destruct (strinc_None_prefix p k E) as [s ->].
      { unfold key_le. congruence. }
      now destruct (Hn s).
    + intros _ _. pose proof (byte_succ b b' Eb c Ec) as Hs.
      destruct (byte_compare b' c); try congruence.
      destruct k; discriminate.
Qed.

Lemma strinc_nonempty (p q : Key) : strinc p = Some q -> q <> [].
Proof.
  destruct p as [|b p]; simpl; [discriminate|].
  destruct (strinc p); [intros [= <-]; discriminate|].
  destruct (Byte.of_N (Byte.to_N b + 1)); [intros [= <-]|]; discriminate.
Qed.

Lemma key_00_le (k : Key) : k <> [] -> key_le key_00 k.
Proof.
  destruct k as [|c k]; [congruence|]. intros _.
  unfold key_le, key_00. simpl. unfold byte_compare. simpl.
  destruct (Byte.to_N c); simpl; [|discriminate].
  destruct k; discriminate.
Qed.

Lemma key_max_l (a b : Key) : key_le a (key_max a b).
Proof.
  unfold key_max. destruct (key_ltb a b) eqn:E.
  - apply key_lt_le. now apply key_ltb_lt.
  - apply key_le_refl.
Qed.

Lemma key_max_r (a b : Key) : key_le b (key_max a b).
Proof.
  unfold key_max. destruct (key_ltb a b) eqn:E.
  - apply key_le_refl.
  - now apply key_ltb_ge.
Qed.

Lemma key_max_le (a b : Key) : key_le a b -> key_max a b = b.
Proof.
  unfold key_max. intros H. destruct (key_ltb a b) eqn:E; [reflexivity|].
  apply key_ltb_ge in E. apply key_le_lt_or_eq in H as [H|H]; [|auto].
  apply key_not_lt_le in E. contradiction.
Qed.

Lemma key_max_ge (a b : Key) : key_le b a -> key_max a b = a.
Proof.
  unfold key_max. intros H. destruct (key_ltb a b) eqn:E; [|reflexivity].
  apply key_ltb_lt in E. apply key_not_lt_le in H. contradiction.
Qed.

Lemma key_min_r (a b : Key) : key_le (key_min a b) b.
Proof.
  unfold key_min. destruct (key_ltb b a) eqn:E.
  - apply key_le_refl.
  - now apply key_ltb_ge.
Qed.

Lemma key_min_l (a b : Key) : key_le (key_min a b) a.
Proof.
  unfold key_min. destruct (key_ltb b a) eqn:E.
  - apply key_lt_le. now apply key_ltb_lt.
  - apply key_le_refl.
Qed.

(** ** Pipelines: what a run sends is determined, and every run ends *)

Section PipelineRuns.
Context {Ctx : Type}.
Local Abbreviation Doc := (ScanReturnedContext Ctx).

Variable decode_item0 : Key -> Key.
Variable decode_item_rev0 : Key -> Key.
Variable getSubContext : Key -> Ctx.

Local Abbreviation PipeC := (@Pipe Ctx).
Local Abbreviation step := (pipe_step decode_item0 decode_item_rev0 getSubContext).
Local Abbreviation run := (pipe_run decode_item0 decode_item_rev0 getSubContext).
Local Abbreviation rest_of := (remaining decode_item0 decode_item_rev0 getSubContext).

Lemma step_error_eos (p p' : PipeC) (e : Error) :
  step p (SendError e) p' -> e = end_of_stream /\ pipe_done p' = true.
Proof.
  intros H. inversion H; subst; simpl.
  - unfold doPKScan_step in *.
    destruct (pk_done s); [discriminate|].
    destruct (pk_taking s); [congruence|].
    destruct (pk_kvs s); [|destruct (key_eqb _ _); congruence].
    match goal with H : Some _ = Some _ |- _ => inversion H; subst end. auto.
  - unfold toDocInfo_step in *.
    destruct (di_done s); [discriminate|].
    destruct (di_taking s); [congruence|].
    destruct (di_kvs s); [|congruence].
    match goal with H : Some _ = Some _ |- _ => inversion H; subst end. auto.
  - unfold doSinglePKLookup_step in *.
    destruct (lk_phase s); try discriminate;
      repeat match goal with
             | H : (if ?c then _ else _) = Some _ |- _ => destruct c
             end;
      match goal with H : Some _ = Some _ |- _ => inversion H; subst end; auto.
  - destruct (outcome k d); discriminate.
  - auto.
Qed.

Lemma done_remaining (p : PipeC) : pipe_done p = true -> rest_of p = [].
Proof.
  destruct p as [s sent|s sent|s sent|k q o dn sent up]; simpl;
    try (intros ->; reflexivity).
  unfold lookup_done, lookup_rest. destruct (lk_phase s); try discriminate.
  reflexivity.
Qed.

Lemma step_not_done (p p' : PipeC) (e : Emit Doc) :
  step p e p' -> pipe_done p = false.
Proof.
  intros H. inversion H; subst; simpl; auto.
  - unfold doPKScan_step in *. destruct (pk_done s); [discriminate|reflexivity].
  - unfold toDocInfo_step in *. destruct (di_done s); [discriminate|reflexivity].
  - unfold doSinglePKLookup_step in *. try unfold lookup_done.
    destruct (lk_phase s); [reflexivity..|discriminate].
Qed.

Lemma step_quiet_done (p p' : PipeC) (e : Emit Doc) :
  step p e p' -> (forall x, e <> SendError x) -> pipe_done p' = false.
Proof.
  intros H He. inversion H; subst; simpl; auto.
  - unfold doPKScan_step in *.
    destruct (pk_done s); [discriminate|].
    destruct (pk_taking s).
    { match goal with H : Some _ = Some _ |- _ => inversion H; subst end. auto. }
    destruct (pk_kvs s).
    { match goal with H : Some _ = Some _ |- _ => inversion H; subst end.
      now destruct (He end_of_stream). }
    destruct (key_eqb _ _);
      match goal with H : Some _ = Some _ |- _ => inversion H; subst end; auto.
  - unfold toDocInfo_step in *.
    destruct (di_done s); [discriminate|].
    destruct (di_taking s).
    { match goal with H : Some _ = Some _ |- _ => inversion H; subst end. auto. }
    destruct (di_kvs s);
      match goal with H : Some _ = Some _ |- _ => inversion H; subst end; auto.
    now destruct (He end_of_stream).
  - unfold doSinglePKLookup_step in *. try unfold lookup_done.
    destruct (lk_phase s); try discriminate;
      repeat match goal with
             | H : (if ?c then _ else _) = Some _ |- _ => destruct c
             end;
      match goal with H : Some _ = Some _ |- _ => inversion H; subst end;
      simpl; auto; now destruct (He end_of_stream).
  - now destruct (He end_of_stream).
Qed.

(** One step sends the head of what remains. *)
Lemma step_remaining (p p' : PipeC) (e : Emit Doc) :
  step p e p' -> rest_of p = sent_docs e ++ rest_of p'.
Proof.
  induction 1; simpl.
  - unfold doPKScan_step in *.
    destruct (pk_done s) eqn:Ed; [discriminate|].
    destruct (pk_taking s) as [kv|] eqn:Et.
    { match goal with H : Some _ = Some _ |- _ => inversion H; subst end.
      reflexivity. }
    destruct (pk_kvs s) as [|kv r] eqn:Ek.
    { match goal with H : Some _ = Some _ |- _ => inversion H; subst end.
      reflexivity. }
    simpl. destruct (key_eqb (decode_item0 kv) (pk_lastPK s)) eqn:Eq;
      match goal with H : Some _ = Some _ |- _ => inversion H; subst end;
      simpl; reflexivity.
  - unfold toDocInfo_step in *.
    destruct (di_done s) eqn:Ed; [discriminate|].
    destruct (di_taking s) as [kv|] eqn:Et.
    { match goal with H : Some _ = Some _ |- _ => inversion H; subst end.
      reflexivity. }
    destruct (di_kvs s) as [|kv r] eqn:Ek;
      match goal with H : Some _ = Some _ |- _ => inversion H; subst end;
      reflexivity.
  - unfold doSinglePKLookup_step, lookup_rest in *.
    destruct (lk_phase s) eqn:Ep; try discriminate;
      repeat match goal with
             | H : (if ?c then _ else _) = Some _ |- _ => destruct c eqn:?
             end;
      match goal with H : Some _ = Some _ |- _ => inversion H; subst end;
      simpl; rewrite ?andb_false_r; reflexivity.
  - destruct o; [|reflexivity]. now rewrite IHpipe_step.
  - rewrite IHpipe_step. simpl. now rewrite <- app_assoc.
  - rewrite IHpipe_step. simpl.
    apply step_error_eos in H as [_ Hd]. now rewrite (done_remaining _ Hd).
  - destruct (outcome k d); reflexivity.
  - reflexivity.
Qed.

Lemma run_remaining (p p' : PipeC) (out : list Doc) :
  run p out p' -> rest_of p = out ++ rest_of p'.
Proof.
  induction 1; [reflexivity|].
  rewrite (step_remaining _ _ _ H), IHpipe_run. now rewrite app_assoc.
Qed.

(** Every complete run of a pipeline sends the same documents. *)
Lemma complete_run_output (p p' : PipeC) (out : list Doc) :
  run p out p' -> pipe_done p' = true -> out = rest_of p.
Proof.
  intros H Hd. rewrite (run_remaining _ _ _ H), (done_remaining _ Hd).
  now rewrite app_nil_r.
Qed.

Lemma run_trans (p p' p'' : PipeC) (o1 o2 : list Doc) :
  run p o1 p' -> run p' o2 p'' -> run p (o1 ++ o2) p''.
Proof.
  induction 1; intros H2; simpl; [assumption|].
  rewrite <- app_assoc. econstructor; eauto.
Qed.

Lemma run_sent (p p' : PipeC) (out : list Doc) :
  run p out p' -> pipe_sent p' = pipe_sent p ++ out.
Proof.
  induction 1; [now rewrite app_nil_r|].
  rewrite IHpipe_run, app_assoc. f_equal.
  clear -H. inversion H; subst; simpl; rewrite ?app_nil_r; reflexivity.
Qed.

Lemma step_wf (p p' : PipeC) (e : Emit Doc) : step p e p' -> pipe_wf p -> pipe_wf p'.
Proof.
  induction 1; simpl; auto.
  - intros (Ho & Hd & Hw). split; [|split; auto].
    rewrite Ho, (step_not_done _ _ _ H).
    now rewrite (step_quiet_done _ _ _ H) by discriminate.
  - intros (Ho & Hd & Hw). split; [|split; auto; discriminate].
    now rewrite (step_quiet_done _ _ _ H) by discriminate.
  - intros (Ho & Hd & Hw). split; [|split; auto; discriminate].
    apply step_error_eos in H as [_ ->]. reflexivity.
  - intros (Ho & Hd & Hw). split; [|split]; auto. discriminate.
  - intros (Ho & Hd & Hw). split; [|split]; auto.
Qed.

Lemma run_wf (p p' : PipeC) (out : list Doc) : run p out p' -> pipe_wf p -> pipe_wf p'.
Proof. induction 1; eauto using step_wf. Qed.

(** A pipeline that has not ended can take a step. *)
Lemma pipe_progress (p : PipeC) :
  pipe_wf p -> pipe_done p = false -> exists e p', step p e p'.
Proof.
  induction p as [s sent|s sent|s sent|k q o dn sent up IH]; simpl.
  - intros _ Hd.
    destruct (doPKScan_step decode_item0 getSubContext s) as [[s' e]|] eqn:E.
    + exists e. eexists. apply step_pkscan. exact E.
    + unfold doPKScan_step in E. rewrite Hd in E.
      destruct (pk_taking s); [discriminate|].
      destruct (pk_kvs s); [discriminate|].
      destruct (key_eqb _ _); discriminate.
  - intros _ Hd.
    destruct (toDocInfo_step decode_item_rev0 getSubContext s) as [[s' e]|] eqn:E.
    + exists e. eexists. apply step_docinfo. exact E.
    + unfold toDocInfo_step in E. rewrite Hd in E.
      destruct (di_taking s); [discriminate|].
      destruct (di_kvs s); discriminate.
  - intros _ Hd.
    destruct (doSinglePKLookup_step getSubContext s) as [[s' e]|] eqn:E.
    + exists e. eexists. apply step_lookup. exact E.
    + unfold doSinglePKLookup_step in E. unfold lookup_done in Hd.
      destruct (lk_phase s); try discriminate;
        repeat match type of E with
               | (if ?c then _ else _) = None => destruct c
               end; discriminate.
  - intros (Ho & _ & Hw) ->.
    destruct q as [|d q].
    + destruct o.
      * destruct (IH Hw) as (e & up' & Hs).
        { symmetry in Ho. now apply negb_true_iff in Ho. }
        destruct e as [|d|x].
        -- eexists. eexists. apply step_input_quiet. eassumption.
        -- eexists. eexists. apply step_input_send. eassumption.
        -- destruct (step_error_eos _ _ _ Hs) as [-> _].
           eexists. eexists. apply step_input_eos. eassumption.
      * eexists. eexists. apply step_finish.
    + eexists. eexists. apply step_resolve.
Qed.

Lemma step_measure (p p' : PipeC) (e : Emit Doc) :
  step p e p' -> (pipe_measure p' < pipe_measure p)%nat.
Proof.
  induction 1; simpl; try lia.
  - unfold doPKScan_step in *.
    destruct (pk_done s) eqn:Ed; [discriminate|].
    destruct (pk_taking s) as [kv|] eqn:Et.
    { match goal with H : Some _ = Some _ |- _ => inversion H; subst end.
      simpl. lia. }
    destruct (pk_kvs s) as [|kv r] eqn:Ek.
    { match goal with H : Some _ = Some _ |- _ => inversion H; subst end.
      simpl. lia. }
    destruct (key_eqb _ _);
      match goal with H : Some _ = Some _ |- _ => inversion H; subst end;
      simpl; lia.
  - unfold toDocInfo_step in *.
    destruct (di_done s) eqn:Ed; [discriminate|].
    destruct (di_taking s) as [kv|] eqn:Et.
    { match goal with H : Some _ = Some _ |- _ => inversion H; subst end.
      simpl. lia. }
    destruct (di_kvs s) as [|kv r] eqn:Ek;
      match goal with H : Some _ = Some _ |- _ => inversion H; subst end;
      simpl; lia.
  - unfold doSinglePKLookup_step in *.
    destruct (lk_phase s) eqn:Ep; try discriminate;
      repeat match goal with
             | H : (if ?c then _ else _) = Some _ |- _ => destruct c
             end;
      match goal with H : Some _ = Some _ |- _ => inversion H; subst end;
      simpl; lia.
  - rewrite length_app. simpl. lia.
Qed.

(** Every well-formed pipeline has a run to its end. *)
Lemma complete_run_exists (p : PipeC) :
  pipe_wf p -> exists out p', run p out p' /\ pipe_done p' = true.
Proof.
  remember (pipe_measure p) as n eqn:En. revert p En.
  induction n as [n IH] using lt_wf_ind. intros p -> Hw.
  destruct (pipe_done p) eqn:Hd.
  - exists [], p. split; [constructor|assumption].
  - destruct (pipe_progress p Hw Hd) as (e & p1 & Hs).
    destruct (IH _ (step_measure _ _ _ Hs) p1 eq_refl (step_wf _ _ _ Hs Hw))
      as (out & p2 & Hr & Hd2).
    exists (sent_docs e ++ out), p2. split; [|assumption].
    econstructor; eassumption.
Qed.
End PipelineRuns.

(** ** Pipelines: the scan keys of what each operator holds or has sent *)

Lemma sublist_StronglySorted {A : Type} (R : relation A) (l1 l2 : list A) :
  l1 `sublist_of` l2 -> StronglySorted R l2 -> StronglySorted R l1.
Proof.
  induction 1; intros Hs; auto.
  - apply StronglySorted_cons in Hs as [Hf Hs].
    apply StronglySorted_cons. split; auto.
    apply Forall_forall. intros y Hy. rewrite Forall_forall in Hf.
    apply Hf. eapply elem_of_sublist; eauto.
  - apply StronglySorted_cons in Hs as [_ Hs]. auto.
Qed.

Lemma sublist_map {A B : Type} (f : A -> B) (l1 l2 : list A) :
  l1 `sublist_of` l2 -> map f l1 `sublist_of` map f l2.
Proof. induction 1; simpl; constructor; auto. Qed.

Lemma sublist_Forall {A : Type} (P : A -> Prop) (l1 l2 : list A) :
  l1 `sublist_of` l2 -> Forall P l2 -> Forall P l1.
Proof.
  intros Hs. rewrite !Forall_forall. intros H x Hx.
  apply H. eapply elem_of_sublist; eauto.
Qed.

Section PipelineKeys.
Context {Ctx : Type}.
Local Abbreviation Doc := (ScanReturnedContext Ctx).

Variable decode_item0 : Key -> Key.
Variable decode_item_rev0 : Key -> Key.
Variable getSubContext : Key -> Ctx.

Local Abbreviation PipeC := (@Pipe Ctx).
Local Abbreviation step := (pipe_step decode_item0 decode_item_rev0 getSubContext).
Local Abbreviation run := (pipe_run decode_item0 decode_item_rev0 getSubContext).
Local Abbreviation rest_of := (remaining decode_item0 decode_item_rev0 getSubContext).
Local Abbreviation pkdocs := (pk_docs decode_item0 getSubContext).
Local Abbreviation didocs := (di_docs decode_item_rev0 getSubContext).

Local Abbreviation lastPK_after := (lastPK_after decode_item0).

Lemma lastPK_after_cons (lp kv : Key) (l : list Key) :
  lastPK_after lp (kv :: l) = lastPK_after (decode_item0 kv) l.
Proof.
  unfold lastPK_after. destruct l as [|x l]; [reflexivity|].
  rewrite last_cons_cons, (last_cons x l). destruct (last l); reflexivity.
Qed.

Lemma lastPK_after_snoc (lp kv : Key) (l : list Key) :
  lastPK_after lp (l ++ [kv]) = decode_item0 kv.
Proof. unfold lastPK_after. now rewrite last_snoc. Qed.

Lemma pk_docs_app (id : Z) (lp : Key) (l1 l2 : list Key) :
  pkdocs id lp (l1 ++ l2) = pkdocs id lp l1 ++ pkdocs id (lastPK_after lp l1) l2.
Proof.
  revert lp. induction l1 as [|kv l1 IH]; intros lp; simpl; [reflexivity|].
  rewrite lastPK_after_cons.
  destruct (key_eqb (decode_item0 kv) lp) eqn:E.
  - apply key_eqb_eq in E. rewrite IH. now rewrite E.
  - simpl. now rewrite IH.
Qed.

Lemma pk_docs_keys (id : Z) (lp : Key) (l : list Key) :
  map scanKey (pkdocs id lp l) `sublist_of` l.
Proof.
  revert lp. induction l as [|kv l IH]; intros lp; simpl; [constructor|].
  destruct (key_eqb _ _); simpl; constructor; auto.
Qed.

Lemma pk_docs_ids (id : Z) (lp : Key) (l : list Key) :
  Forall (fun d => scanId d = id) (pkdocs id lp l).
Proof.
  revert lp. induction l as [|kv l IH]; intros lp; simpl; [constructor|].
  destruct (key_eqb _ _); [auto|]. constructor; auto.
Qed.

Lemma di_docs_keys (id : Z) (l : list Key) : map scanKey (didocs id l) = l.
Proof.
  unfold di_docs. rewrite map_map. simpl. apply map_id.
Qed.

Lemma di_docs_ids (id : Z) (l : list Key) :
  Forall (fun d => scanId d = id) (didocs id l).
Proof.
  unfold di_docs. apply Forall_forall. intros d Hd.
  apply list_elem_of_In, in_map_iff in Hd as (k & <- & _). reflexivity.
Qed.

Lemma outcome_key (k : StageKind) (d d' : Doc) :
  outcome k d = Some d' -> scanKey d' = scanKey d /\ scanId d' = scanId d.
Proof.
  destruct k as [f|f|f]; simpl.
  - destruct (f d); intros [= <-]; auto.
  - destruct (f d); intros [= <-]; auto.
  - intros [= <-]; auto.
Qed.

Lemma omap_outcome_keys (k : StageKind) (l : list Doc) :
  map scanKey (omap (outcome k) l) `sublist_of` map scanKey l.
Proof.
  induction l as [|d l IH]; simpl; [constructor|].
  destruct (outcome k d) as [d'|] eqn:E; simpl.
  - apply outcome_key in E as [-> _]. now constructor.
  - now constructor.
Qed.

Lemma omap_outcome_ids (k : StageKind) (id : Z) (l : list Doc) :
  Forall (fun d => scanId d = id) l ->
  Forall (fun d => scanId d = id) (omap (outcome k) l).
Proof.
  induction 1 as [|d l Hd Hl IH]; simpl; [constructor|].
  destruct (outcome k d) as [d'|] eqn:E; simpl; auto.
  constructor; auto. apply outcome_key in E as [_ ->]. assumption.
Qed.

Lemma step_sent (p p' : PipeC) (e : Emit Doc) :
  step p e p' -> pipe_sent p' = pipe_sent p ++ sent_docs e.
Proof. intros H. inversion H; subst; simpl; rewrite ?app_nil_r; reflexivity. Qed.

Local Abbreviation pk_inv := (pk_inv decode_item0 getSubContext).

Local Abbreviation di_inv := (di_inv decode_item_rev0 getSubContext).

Local Abbreviation pipe_inv := (pipe_inv decode_item0 decode_item_rev0 getSubContext).

Lemma last_key_snoc (l : list Key) (kv : Key) : last_key (l ++ [kv]) = kv.
Proof. unfold last_key. now rewrite last_snoc. Qed.

Lemma pk_step_inv (kvs0 : list Key) (s s' : PKScan) (e : Emit Doc) (sent : list Doc) :
  doPKScan_step decode_item0 getSubContext s = Some (s', e) ->
  pk_inv kvs0 s sent -> pk_inv kvs0 s' (sent ++ sent_docs e).
Proof.
  unfold doPKScan_step. intros H (consumed & Hk & Hs & Hl & Hp & Ht).
  destruct (pk_done s) eqn:Ed; [discriminate|].
  destruct (pk_taking s) as [kv|] eqn:Et.
  - inversion H; subst s' e; clear H. exists (consumed ++ [kv]). simpl.
    rewrite lastPK_after_snoc in Hp.
    repeat split.
    + now rewrite <- app_assoc.
    + rewrite pk_docs_app. f_equal; [assumption|]. simpl.
      destruct (key_eqb (decode_item0 kv) (lastPK_after [] consumed)) eqn:E.
      * apply key_eqb_eq in E. now destruct (Ht kv eq_refl).
      * now rewrite Hp.
    + now rewrite last_key_snoc.
    + now rewrite app_nil_r, lastPK_after_snoc.
    + discriminate.
  - rewrite app_nil_r in Hp.
    destruct (pk_kvs s) as [|kv r] eqn:Ek.
    + inversion H; subst s' e; clear H. exists consumed. simpl.
      rewrite !app_nil_r. simpl in Hk. rewrite app_nil_r in Hk.
      repeat split; auto.
    + destruct (key_eqb (decode_item0 kv) (pk_lastPK s)) eqn:E;
        inversion H; subst s' e; clear H; simpl.
      * exists (consumed ++ [kv]). simpl. rewrite !app_nil_r.
        repeat split.
        -- now rewrite <- app_assoc.
        -- rewrite pk_docs_app. simpl. rewrite <- Hp, E. now rewrite app_nil_r.
        -- now rewrite last_key_snoc.
        -- rewrite lastPK_after_snoc. apply key_eqb_eq in E. congruence.
        -- discriminate.
      * exists consumed. simpl. rewrite app_nil_r.
        repeat split; auto.
        -- now rewrite lastPK_after_snoc.
        -- intros kv' [= <-]. rewrite <- Hp. intros Heq.
           rewrite Heq, (proj2 (key_eqb_eq _ _) eq_refl) in E. discriminate.
Qed.

Lemma di_step_inv (kvs0 : list Key) (s s' : DocInfo) (e : Emit Doc) (sent : list Doc) :
  toDocInfo_step decode_item_rev0 getSubContext s = Some (s', e) ->
  di_inv kvs0 s sent -> di_inv kvs0 s' (sent ++ sent_docs e).
Proof.
  unfold toDocInfo_step. intros H (consumed & Hk & Hs & Hl).
  destruct (di_done s) eqn:Ed; [discriminate|].
  destruct (di_taking s) as [kv|] eqn:Et.
  - inversion H; subst s' e; clear H. exists (consumed ++ [kv]). simpl.
    repeat split.
    + now rewrite <- app_assoc.
    + unfold di_docs. rewrite map_app. simpl. f_equal. assumption.
    + now rewrite last_key_snoc.
  - destruct (di_kvs s) as [|kv r] eqn:Ek;
      inversion H; subst s' e; clear H; exists consumed; simpl in *;
      rewrite ?app_nil_r in *; repeat split; auto.
Qed.

Lemma lookup_step_rest (s s' : Lookup) (e : Emit Doc) :
  doSinglePKLookup_step getSubContext s = Some (s', e) ->
  lookup_rest getSubContext s = sent_docs e ++ lookup_rest getSubContext s'
  /\ lk_scanID s' = lk_scanID s /\ lk_x s' = lk_x s
  /\ lk_bounds s' = lk_bounds s /\ lk_present s' = lk_present s.
Proof.
  unfold doSinglePKLookup_step, lookup_rest. intros H.
  destruct (lk_phase s) eqn:Ep; try discriminate;
    repeat match goal with
           | H : (if ?c then _ else _) = Some _ |- _ => destruct c eqn:?
           end;
    inversion H; subst; simpl; rewrite ?andb_false_r; auto.
Qed.

Lemma lookup_step_inv (kvs0 : list Key) (s s' : Lookup) (e : Emit Doc)
    (sent : list Doc) :
  doSinglePKLookup_step getSubContext s = Some (s', e) ->
  lookup_inv getSubContext kvs0 s sent ->
  lookup_inv getSubContext kvs0 s' (sent ++ sent_docs e).
Proof.
  intros H [Hk Hi]. destruct (lookup_step_rest s s' e H) as (Hr & Hid & _).
  unfold lookup_inv. rewrite Hid, <- app_assoc, <- Hr. auto.
Qed.

Lemma step_inv (kvs0 : list Key) (p p' : PipeC) (e : Emit Doc) :
  step p e p' -> pipe_inv kvs0 p -> pipe_inv kvs0 p'.
Proof.
  induction 1; simpl.
  - now apply pk_step_inv.
  - now apply di_step_inv.
  - now apply lookup_step_inv.
  - intros [(pr & Hu & Hs) Hi]. split; auto.
    exists pr. rewrite (step_sent _ _ _ H). simpl. now rewrite app_nil_r.
  - intros [(pr & Hu & Hs) Hi]. split; auto.
    exists pr. rewrite (step_sent _ _ _ H). simpl. rewrite Hu.
    now rewrite <- app_assoc.
  - intros [(pr & Hu & Hs) Hi]. split; auto.
    exists pr. rewrite (step_sent _ _ _ H). simpl. now rewrite app_nil_r.
  - intros [(pr & Hu & Hs) Hi]. split; auto.
    exists (pr ++ [d]). split.
    + rewrite Hu. now rewrite <- app_assoc.
    + rewrite omap_app, Hs. f_equal. simpl.
      destruct (outcome k d); reflexivity.
  - auto.
Qed.

Lemma run_inv (kvs0 : list Key) (p p' : PipeC) (out : list Doc) :
  run p out p' -> pipe_inv kvs0 p -> pipe_inv kvs0 p'.
Proof. induction 1; eauto using step_inv. Qed.
End PipelineKeys.

(** ** Range reads *)

Lemma getDescendants_spec (src : list Key) (lo hi k : Key) :
  k ∈ getDescendants src lo hi <-> (key_le lo k /\ key_lt k hi) /\ k ∈ src.
Proof.
  unfold getDescendants. rewrite list_elem_of_filter, andb_True.
  rewrite !Is_true_true, key_leb_le, key_ltb_lt. reflexivity.
Qed.

Lemma getDescendants_sublist (src : list Key) (lo hi : Key) :
  getDescendants src lo hi `sublist_of` src.
Proof. apply sublist_filter. Qed.

Lemma getDescendants_sorted (src : list Key) (lo hi : Key) :
  StronglySorted key_lt src -> StronglySorted key_lt (getDescendants src lo hi).
Proof. apply sublist_StronglySorted, getDescendants_sublist. Qed.

Lemma scan_range_in (lo hi : Key) (r : KeyRange) (k : Key) :
  key_le (fst (scan_range lo hi r)) k ->
  key_lt k (snd (scan_range lo hi r)) ->
  in_range r k /\ key_le lo k /\ key_lt k hi.
Proof.
  unfold scan_range, in_range. simpl.
  set (b := key_max lo (range_begin r)).
  set (m := key_min hi (range_end r)).
  intros Hb He.
  assert (Hm : key_lt k m).
  { unfold key_max in He. destruct (key_ltb b m); [assumption|].
    destruct (key_lt_irrefl k). eapply key_lt_le_trans; eauto. }
  repeat split.
  - eapply key_le_trans; [apply key_max_r|exact Hb].
  - eapply key_lt_le_trans; [exact Hm|apply key_min_r].
  - eapply key_le_trans; [apply key_max_l|exact Hb].
  - eapply key_lt_le_trans; [exact Hm|apply key_min_l].
Qed.

(** The lookup of one key [x] reads the range [[x, keyAfter x)]. *)
Lemma lookup_key_in_range (store : list Key) (x : Key) (r : KeyRange) :
  key_leb (range_begin r) x && key_ltb x (range_end r) = true ->
  existsb (key_eqb x) store = true ->
  x ∈ getDescendants store (fst (scan_range x (keyAfter x) r))
                           (snd (scan_range x (keyAfter x) r)).
Proof.
  intros Hb Hp. apply andb_true_iff in Hb as [H1 H2].
  apply key_leb_le in H1. apply key_ltb_lt in H2.
  apply existsb_exists in Hp as (y & Hy & He). apply key_eqb_eq in He. subst y.
  apply getDescendants_spec. unfold scan_range. simpl.
  rewrite (key_max_ge x (range_begin r) H1).
  assert (Hm : key_lt x (key_min (keyAfter x) (range_end r))).
  { unfold key_min. destruct (key_ltb _ _); [assumption|apply key_lt_keyAfter]. }
  rewrite (key_max_le x _ (key_lt_le _ _ Hm)).
  repeat split; [apply key_le_refl|assumption|now apply list_elem_of_In].
Qed.

Lemma singleton_sublist {A : Type} (x : A) (l : list A) :
  x ∈ l -> [x] `sublist_of` l.
Proof.
  intros H. apply list_elem_of_split in H as (l1 & l2 & ->).
  apply sublist_inserts_l. constructor. apply sublist_nil_l.
Qed.

Section PipelineBounds.
Context {Ctx : Type}.
Local Abbreviation Doc := (ScanReturnedContext Ctx).

Variable decode_item0 : Key -> Key.
Variable decode_item_rev0 : Key -> Key.
Variable getSubContext : Key -> Ctx.

Local Abbreviation PipeC := (@Pipe Ctx).
Local Abbreviation run := (pipe_run decode_item0 decode_item_rev0 getSubContext).
Local Abbreviation exec := (@execute Ctx).
Local Abbreviation inv := (pipe_inv decode_item0 decode_item_rev0 getSubContext).

Lemma pipe_outputs_head (p : PipeC) :
  exists l, pipe_outputs p = pipe_sent p :: l.
Proof. destruct p; simpl; eauto. Qed.

Lemma inv_outputs_keys (kvs0 : list Key) (p : PipeC) :
  inv kvs0 p ->
  Forall (fun sent => map scanKey sent `sublist_of` kvs0) (pipe_outputs p).
Proof.
  induction p as [s sent|s sent|s sent|k q o dn sent up IH]; simpl.
  - intros (c & -> & -> & _). constructor; [|constructor].
    apply sublist_inserts_r, pk_docs_keys.
  - intros (c & -> & -> & _). constructor; [|constructor].
    rewrite di_docs_keys. now apply sublist_inserts_r.
  - intros [Hk _]. constructor; [|constructor].
    etransitivity; [|exact Hk]. rewrite map_app. now apply sublist_inserts_r.
  - intros [(pr & Hu & ->) Hi]. specialize (IH Hi).
    constructor; [|assumption].
    destruct (pipe_outputs_head up) as [l Hl]. rewrite Hl in IH.
    apply Forall_cons in IH as [IH _]. rewrite Hu, map_app in IH.
    etransitivity; [apply omap_outcome_keys|].
    etransitivity; [|exact IH]. now apply sublist_inserts_r.
Qed.

Lemma inv_outputs_ids (kvs0 : list Key) (p : PipeC) :
  inv kvs0 p ->
  Forall (Forall (fun d => scanId d = source_scanID p)) (pipe_outputs p).
Proof.
  induction p as [s sent|s sent|s sent|k q o dn sent up IH]; simpl.
  - intros (c & _ & -> & _). constructor; [|constructor]. apply pk_docs_ids.
  - intros (c & _ & -> & _). constructor; [|constructor]. apply di_docs_ids.
  - intros [_ Hi]. constructor; [|constructor].
    now apply Forall_app in Hi as [Hi _].
  - intros [(pr & Hu & ->) Hi]. specialize (IH Hi).
    constructor; [|assumption].
    destruct (pipe_outputs_head up) as [l Hl]. rewrite Hl in IH.
    apply Forall_cons in IH as [IH _]. rewrite Hu in IH.
    apply Forall_app in IH as [IH _]. now apply omap_outcome_ids.
Qed.

Local Abbreviation fresh_over := (fresh_over decode_item0 decode_item_rev0 getSubContext).

Lemma fresh_pk (id : Z) (kvs : list Key) :
  pk_inv decode_item0 getSubContext kvs (mkPKScan id kvs [] [] None false) [].
Proof. exists []. simpl. repeat split; auto; discriminate. Qed.

Lemma fresh_di (id : Z) (kvs : list Key) :
  di_inv decode_item_rev0 getSubContext kvs (mkDocInfo id kvs [] None false) [].
Proof. exists []. simpl. repeat split; auto. Qed.

Lemma execute_fresh (plan : ScanPlan) (store index : list Key)
    (cp cp1 : PlanCheckpoint Ctx) (p0 : PipeC) :
  exec plan store index cp = Some (p0, cp1) ->
  exists src lo hi,
    (src = store \/ src = index) /\ fresh_over src lo hi cp cp1 p0.
Proof.
  revert p0 cp1.
  induction plan as [|b e|b e iv|src IH f|src IH f]; simpl; intros p0 cp1.
  - intros [= <- <-]. exists store, key_00, key_ff. split; [auto|].
    unfold fresh_over. simpl.
    repeat split; auto using fresh_pk.
  - destruct (opt_key_eqb b e).
    { intros [= <- <-]. exists store, (plan_lo b), (keyAfter (plan_lo b)).
      split; [auto|]. unfold fresh_over. simpl. repeat split; auto.
      - unfold lookup_rest. simpl.
        set (bd := getBounds _ _).
        destruct (key_leb (range_begin bd) (plan_lo b)
                  && key_ltb (plan_lo b) (range_end bd)) eqn:Eb;
          [|apply sublist_nil_l].
        destruct (existsb (key_eqb (plan_lo b)) store) eqn:Ep;
          [|apply sublist_nil_l].
        simpl. apply singleton_sublist. now apply lookup_key_in_range.
      - unfold lookup_rest. simpl.
        destruct (_ && _); repeat constructor. }
    destruct (plan_hi e) as [hi|]; [|discriminate].
    intros [= <- <-]. exists store, (plan_lo b), hi. split; [auto|].
    unfold fresh_over. simpl. repeat split; auto using fresh_pk.
  - destruct (plan_hi e) as [hi|]; [|discriminate].
    exists index, (plan_lo b), hi. split; [auto|].
    destruct (opt_key_eqb b e); inversion H; subst; clear H;
      unfold fresh_over; simpl; repeat split; auto using fresh_di.
    exists []. auto.
  - destruct (exec src store index cp) as [[up cp']|]; [|discriminate].
    intros [= <- <-].
    destruct (IH _ _ eq_refl) as (s & lo & hi & Hs & Hi & Hid & Hw & Hd & Ho & Hc).
    exists s, lo, hi. split; [assumption|].
    unfold fresh_over. simpl. rewrite Hd. repeat split; auto; try discriminate.
    exists []. split; [|reflexivity].
    destruct (pipe_outputs_head up) as [l Hl]. rewrite Hl in Ho.
    now apply Forall_cons in Ho as [-> _].
  - destruct (exec src store index cp) as [[up cp']|]; [|discriminate].
    intros [= <- <-].
    destruct (IH _ _ eq_refl) as (s & lo & hi & Hs & Hi & Hid & Hw & Hd & Ho & Hc).
    exists s, lo, hi. split; [assumption|].
    unfold fresh_over. simpl. rewrite Hd. repeat split; auto; try discriminate.
    exists []. split; [|reflexivity].
    destruct (pipe_outputs_head up) as [l Hl]. rewrite Hl in Ho.
    now apply Forall_cons in Ho as [-> _].
Qed.
End PipelineBounds.

(** ** Scan keys at every operator's output *)

Section ScanKeyOrder.
Context {Ctx : Type}.
Local Abbreviation Doc := (ScanReturnedContext Ctx).

Variable decode_item0 : Key -> Key.
Variable decode_item_rev0 : Key -> Key.
Variable getSubContext : Key -> Ctx.

(** Within one execution of a pipeline (a table scan, a lookup, a
    primary-key range scan or an index scan, below any number of filter,
    dedup and projection stages), in every state it reaches, what each
    operator has sent carries the id of the pipeline's scan, strictly
    increasing scan keys, and every scan key lies in the bounds
    [[begin, end)] the checkpoint holds for that scan. *)
Theorem scan_keys_increasing_in_bounds
    (plan : ScanPlan) (store index : list Key)
    (cp cp1 : PlanCheckpoint Ctx) (p0 p : @Pipe Ctx) (out : list Doc) :
  StronglySorted key_lt store ->
  StronglySorted key_lt index ->
  execute plan store index cp = Some (p0, cp1) ->
  pipe_run decode_item0 decode_item_rev0 getSubContext p0 out p ->
  Forall (fun sent : list Doc =>
            StronglySorted key_lt (map scanKey sent)
            /\ Forall (fun d => scanId d = scansAdded cp
                                /\ in_range (getBounds cp1 (scanId d)) (scanKey d))
                      sent)
         (pipe_outputs p).
Proof.
  intros Hstore Hindex Hex Hrun.
  destruct (execute_fresh decode_item0 decode_item_rev0 getSubContext
              _ _ _ _ _ _ Hex)
    as (src & lo & hi & Hsrc & Hinv & Hid & _).
  set (r := scan_range lo hi (getBounds cp1 (scansAdded cp))) in *.
  assert (Hsorted : StronglySorted key_lt (getDescendants src (fst r) (snd r))).
  { apply getDescendants_sorted. now destruct Hsrc as [-> | ->]. }
  pose proof (run_inv _ _ _ _ _ _ _ Hrun Hinv) as Hi.
  assert (Hids : source_scanID p = scansAdded cp).
  { rewrite <- Hid. clear -Hrun. induction Hrun; [reflexivity|].
    rewrite IHHrun. clear -H. induction H; simpl; auto.
    - unfold doPKScan_step in H. destruct (pk_done s); [discriminate|].
      destruct (pk_taking s); [now inversion H|].
      destruct (pk_kvs s); [now inversion H|].
      destruct (key_eqb _ _); now inversion H.
    - unfold toDocInfo_step in H. destruct (di_done s); [discriminate|].
      destruct (di_taking s); [now inversion H|].
      destruct (di_kvs s); now inversion H.
    - now destruct (lookup_step_rest getSubContext s s' e H) as (_ & -> & _). }
  pose proof (inv_outputs_keys _ _ _ _ _ Hi) as Hk.
  pose proof (inv_outputs_ids _ _ _ _ _ Hi) as Hd.
  rewrite Forall_forall in *. intros sent Hs.
  specialize (Hk sent Hs). specialize (Hd sent Hs). split.
  - eapply sublist_StronglySorted; eauto.
  - rewrite Forall_forall in *. intros d Hin. specialize (Hd d Hin).
    rewrite Hd, Hids. split; [reflexivity|].
    assert (Hkey : scanKey d ∈ getDescendants src (fst r) (snd r)).
    { eapply elem_of_sublist; [|exact Hk].
      apply list_elem_of_In, in_map, list_elem_of_In, Hin. }
    apply getDescendants_spec in Hkey as [[Hb He] _].
    now apply (scan_range_in lo hi).
Qed.
End ScanKeyOrder.

(** ** Split bounds: the writes of the cancellation handlers *)

Lemma find_app {A : Type} (f : A -> bool) (l1 l2 : list A) :
  find f (l1 ++ l2) = match find f l1 with Some x => Some x | None => find f l2 end.
Proof.
  induction l1 as [|x l1 IH]; simpl; [reflexivity|].
  destruct (f x); auto.
Qed.

Section SplitBounds.
Context {Ctx : Type}.
Local Abbreviation Doc := (ScanReturnedContext Ctx).
Local Abbreviation Checkpoint := (PlanCheckpoint Ctx).

Lemma same_but_splits_refl (cp : Checkpoint) : same_but_splits cp cp.
Proof. unfold same_but_splits. auto 10. Qed.

Lemma same_but_splits_trans (a b c : Checkpoint) :
  same_but_splits a b -> same_but_splits b c -> same_but_splits a c.
Proof.
  unfold same_but_splits.
  intros (H1 & H2 & H3 & H4 & H5 & H6) (G1 & G2 & G3 & G4 & G5 & G6).
  repeat split; congruence.
Qed.

Lemma same_but_splits_valid (cp cp' : Checkpoint) (s : Z) :
  same_but_splits cp cp' -> valid_scan cp s -> valid_scan cp' s.
Proof.
  unfold valid_scan. intros (_ & H & _) Hv.
  apply (f_equal length) in H. rewrite !length_map in H. lia.
Qed.

Lemma write_splitBound_valid (cp : Checkpoint) (s : Z) (k : Key) :
  valid_scan cp s ->
  exists cp', write_splitBound cp s k = Some cp'
    /\ same_but_splits cp cp'
    /\ forall s', read_splitBound cp' s' =
                  if s' =? s then Some k else read_splitBound cp s'.
Proof.
  unfold valid_scan, write_splitBound, read_splitBound. intros Hv.
  assert (Hg : (0 <=? s) && (s <? Z.of_nat (length (scans cp))) = true).
  { apply andb_true_iff. split; [apply Z.leb_le|apply Z.ltb_lt]; lia. }
  rewrite Hg. eexists. split; [reflexivity|]. split.
  - unfold same_but_splits. simpl. repeat split; auto.
    apply list_eq. intros i. rewrite !list_lookup_fmap.
    destruct (decide (i = Z.to_nat s)) as [->|Hne].
    + rewrite list_lookup_alter_eq. destruct (scans cp !! Z.to_nat s); reflexivity.
    + now rewrite list_lookup_alter_ne by congruence.
  - intros s'. simpl. rewrite length_alter.
    destruct (Z.eqb_spec s' s) as [->|Hne].
    + rewrite Hg, list_lookup_alter_eq.
      destruct (scans cp !! Z.to_nat s) eqn:E; [reflexivity|].
      apply lookup_ge_None in E. lia.
    + destruct ((0 <=? s') && (s' <? Z.of_nat (length (scans cp)))) eqn:E;
        [|reflexivity].
      apply andb_true_iff in E as [E1 E2].
      apply Z.leb_le in E1. apply Z.ltb_lt in E2.
      rewrite list_lookup_alter_ne; [reflexivity|]. lia.
Qed.

Lemma write_pending_rev_spec (l : list Doc) (cp : Checkpoint) :
  Forall (fun d => valid_scan cp (scanId d)) l ->
  exists cp', write_pending_rev cp l = Some cp'
    /\ same_but_splits cp cp'
    /\ forall s, read_splitBound cp' s =
                 split_after (rev l) s (read_splitBound cp s).
Proof.
  revert cp. induction l as [|d l IH]; intros cp Hv; simpl.
  - exists cp. split; [reflexivity|]. split; [apply same_but_splits_refl|].
    reflexivity.
  - apply Forall_cons in Hv as [Hd Hl].
    destruct (write_splitBound_valid cp (scanId d) (scanKey d) Hd)
      as (cp1 & -> & Hs1 & Hr1).
    destruct (IH cp1) as (cp' & -> & Hs' & Hr').
    { eapply Forall_impl; [exact Hl|]. intros x.
      now apply same_but_splits_valid. }
    exists cp'. split; [reflexivity|].
    split; [eapply same_but_splits_trans; eauto|].
    intros s. rewrite Hr'. unfold split_after, first_of_scan.
    rewrite find_app. destruct (find _ (rev l)); [reflexivity|].
    simpl. rewrite Hr1. rewrite (Z.eqb_sym (scanId d) s).
    destruct (s =? scanId d); reflexivity.
Qed.

(** The loop of the handlers leaves, for each scan, the scan key of the
    earliest pending document of that scan. *)
Lemma write_pending_spec (futures : list Doc) (cp : Checkpoint) :
  Forall (fun d => valid_scan cp (scanId d)) futures ->
  exists cp', write_pending cp futures = Some cp'
    /\ same_but_splits cp cp'
    /\ forall s, read_splitBound cp' s =
                 split_after futures s (read_splitBound cp s).
Proof.
  intros Hv. unfold write_pending.
  destruct (write_pending_rev_spec (rev futures) cp) as (cp' & H1 & H2 & H3).
  { apply Forall_forall. intros d Hd. rewrite Forall_forall in Hv.
    apply Hv. apply list_elem_of_In. apply list_elem_of_In in Hd.
    now apply in_rev. }
  exists cp'. rewrite rev_involutive in H3. auto.
Qed.
End SplitBounds.

(** ** [stopAndCheckpoint] *)

Section StopAndCheckpoint.
Context {Ctx : Type}.
Local Abbreviation Doc := (ScanReturnedContext Ctx).
Local Abbreviation Checkpoint := (PlanCheckpoint Ctx).
Variable decode_item0 : Key -> Key.

Lemma write_splitBound_other (cp cp' : Checkpoint) (s s' : Z) (k : Key) :
  write_splitBound cp s k = Some cp' ->
  same_but_splits cp cp'
  /\ (s' <> s -> read_splitBound cp' s' = read_splitBound cp s').
Proof.
  intros H. assert (Hv : valid_scan cp s).
  { unfold write_splitBound in H. unfold valid_scan.
    destruct ((0 <=? s) && (s <? Z.of_nat (length (scans cp)))) eqn:E;
      [|discriminate].
    apply andb_true_iff in E as [E1 E2].
    apply Z.leb_le in E1. apply Z.ltb_lt in E2. lia. }
  destruct (write_splitBound_valid cp s k Hv) as (c & Hc & Hs & Hr).
  rewrite H in Hc. inversion Hc; subst c. split; [assumption|].
  intros Hne. rewrite Hr. destruct (Z.eqb_spec s' s); [contradiction|reflexivity].
Qed.

Lemma write_pending_rev_other (l : list Doc) (cp cp' : Checkpoint) (s : Z) :
  write_pending_rev cp l = Some cp' ->
  same_but_splits cp cp'
  /\ (s ∉ map scanId l -> read_splitBound cp' s = read_splitBound cp s).
Proof.
  revert cp. induction l as [|d l IH]; intros cp; simpl.
  - intros [= <-]. split; [apply same_but_splits_refl|reflexivity].
  - destruct (write_splitBound cp (scanId d) (scanKey d)) as [cp1|] eqn:E;
      [|discriminate].
    intros H. destruct (IH _ H) as [Hs Hr].
    destruct (write_splitBound_other _ _ _ s _ E) as [Hs1 Hr1].
    split; [eapply same_but_splits_trans; eauto|].
    intros Hn. rewrite not_elem_of_cons in Hn. destruct Hn as [Hn1 Hn2].
    rewrite Hr, Hr1; auto.
Qed.

Lemma write_pending_other (l : list Doc) (cp cp' : Checkpoint) (s : Z) :
  write_pending cp l = Some cp' ->
  same_but_splits cp cp'
  /\ (s ∉ map scanId l -> read_splitBound cp' s = read_splitBound cp s).
Proof.
  unfold write_pending. intros H.
  destruct (write_pending_rev_other _ _ _ s H) as [Hs Hr].
  split; [assumption|]. intros Hn. apply Hr. intros Hin. apply Hn.
  rewrite map_rev in Hin. apply list_elem_of_In. apply list_elem_of_In in Hin.
  now apply in_rev.
Qed.

(** A handler only writes the split keys of its targets. *)
Lemma cancel_actor_other (a : Actor Ctx) (cp cp' : Checkpoint) (s : Z) :
  cancel_actor decode_item0 cp a = Some cp' ->
  same_but_splits cp cp'
  /\ (s ∉ actor_targets a -> read_splitBound cp' s = read_splitBound cp s).
Proof.
  assert (Hrefl : forall c c' : Checkpoint, Some c = Some c' ->
            same_but_splits c c'
            /\ (s ∉ actor_targets a -> read_splitBound c' s = read_splitBound c s)).
  { intros c c' [= <-]. split; [apply same_but_splits_refl|reflexivity]. }
  destruct a as [| |id lk|id lk|fs|fs|fs|fs|fd any|ls fs]; simpl; auto;
    unfold splitBoundWanted; destruct (boundsWanted cp); auto.
  - destruct (strinc (decode_item0 lk)); [|discriminate]. intros H.
    destruct (write_splitBound_other _ _ _ s _ H) as [Hs Hr].
    split; [assumption|]. intros Hn. apply Hr. intros ->. apply Hn. left.
  - intros H. destruct (write_splitBound_other _ _ _ s _ H) as [Hs Hr].
    split; [assumption|]. intros Hn. apply Hr. intros ->. apply Hn. left.
  - apply write_pending_other.
  - apply write_pending_other.
  - apply write_pending_other.
  - apply write_pending_other.
  - destruct fd as [d|]; [|apply Hrefl]. destruct any; [|apply Hrefl].
    intros H. destruct (write_splitBound_other _ _ _ s _ H) as [Hs Hr].
    split; [assumption|]. intros Hn. apply Hr. intros ->. apply Hn. left.
  - destruct (write_pending cp ls) as [cp1|] eqn:E; [|discriminate].
    intros H.
    destruct (write_pending_other _ _ _ s E) as [Hs1 Hr1].
    destruct (write_pending_other _ _ _ s H) as [Hs2 Hr2].
    split; [eapply same_but_splits_trans; eauto|].
    rewrite map_app, not_elem_of_app. intros [Hn1 Hn2].
    rewrite Hr2, Hr1; auto.
Qed.

Lemma cancel_all_other (l : list (Actor Ctx)) (cp cp' : Checkpoint) (s : Z) :
  cancel_all decode_item0 cp l = Some cp' ->
  same_but_splits cp cp'
  /\ (s ∉ concat (map actor_targets l) ->
      read_splitBound cp' s = read_splitBound cp s).
Proof.
  revert cp. induction l as [|a l IH]; intros cp; simpl.
  - intros [= <-]. split; [apply same_but_splits_refl|reflexivity].
  - destruct (cancel_actor decode_item0 cp a) as [cp1|] eqn:E; [|discriminate].
    intros H. destruct (IH _ H) as [Hs Hr].
    destruct (cancel_actor_other _ _ _ s E) as [Hs1 Hr1].
    split; [eapply same_but_splits_trans; eauto|].
    rewrite not_elem_of_app. intros [Hn1 Hn2]. rewrite Hr, Hr1; auto.
Qed.

Lemma getDescendants_empty (store : list Key) (b e : Key) :
  key_le e b -> getDescendants store b e = [].
Proof.
  intros H. apply elem_of_nil_inv. intros k Hk.
  apply getDescendants_spec in Hk as [[H1 H2] _].
  apply (key_lt_irrefl k). eapply key_lt_le_trans; [exact H2|].
  eapply key_le_trans; eauto.
Qed.

(** Under bounds that begin at the sentinel, a scan whose own range ends
    at 0xFF reads nothing. *)
Lemma sentinel_bounds_empty (store : list Key) (lo e : Key) :
  let r := scan_range lo key_ff (KeyRangeRef key_ff e) in
  getDescendants store (fst r) (snd r) = [].
Proof.
  simpl. apply getDescendants_empty.
  set (b := key_max lo key_ff). set (m := key_min key_ff e).
  assert (Hm : key_le m b).
  { eapply key_le_trans; [apply key_min_l|apply key_max_r]. }
  rewrite (key_max_ge b m Hm). apply key_le_refl.
Qed.

Lemma read_splitBound_lookup (cp : Checkpoint) (i : nat) (sc : ScanState) :
  scans cp !! i = Some sc -> read_splitBound cp (Z.of_nat i) = Some (split sc).
Proof.
  intros H. unfold read_splitBound.
  pose proof (lookup_lt_Some _ _ _ H) as Hl.
  assert (Hg : (0 <=? Z.of_nat i) && (Z.of_nat i <? Z.of_nat (length (scans cp)))
               = true).
  { apply andb_true_iff. split; [apply Z.leb_le|apply Z.ltb_lt]; lia. }
  rewrite Hg, Nat2Z.id, H. reflexivity.
Qed.

(** What [stopAndCheckpoint] returns: a checkpoint in which every scan
    has the bounds [[split, old end)], [split] being the split key left by
    the cancellation of the operations in their order (the split key the
    scan had before when no handler writes that scan; when that is the
    default 0xFF, a scan resumed under such bounds reads nothing), and in
    which every integer state begins at the split value of the old one. *)
Theorem stopAndCheckpoint_resumes_from_split (cp stopped rest : Checkpoint) :
  stopAndCheckpoint decode_item0 cp = Some (stopped, rest) ->
  exists cpw,
    cancel_all decode_item0 (set_boundsWanted cp true) (ops cp) = Some cpw
    /\ length (scans rest) = length (scans cp)
    /\ (forall i sc, scans cp !! i = Some sc ->
          exists k,
            read_splitBound cpw (Z.of_nat i) = Some k
            /\ scans rest !! i =
                 Some (mkScanState (KeyRangeRef k (range_end (bounds sc))) key_ff)
            /\ (Z.of_nat i ∉ concat (map actor_targets (ops cp)) ->
                k = split sc
                /\ (split sc = key_ff ->
                    forall store lo,
                      let r := scan_range lo key_ff
                                 (KeyRangeRef k (range_end (bounds sc))) in
                      getDescendants store (fst r) (snd r) = [])))
    /\ length (states rest) = length (states cp)
    /\ (forall i st, states cp !! i = Some st ->
          exists st', states rest !! i = Some st'
                      /\ st_begin st' = st_split st)
    /\ boundsWanted rest = false
    /\ boundsWanted stopped = false
    /\ ops stopped = [].
Proof.
  unfold stopAndCheckpoint, stop. simpl.
  destruct (cancel_all decode_item0 (set_boundsWanted cp true) (ops cp))
    as [cpw|] eqn:E; [|discriminate].
  intros [= <- <-]. exists cpw. split; [reflexivity|]. simpl.
  assert (Hc := E). change (ops cp) with (ops (set_boundsWanted cp true)) in Hc.
  assert (Hsame : same_but_splits (set_boundsWanted cp true) cpw).
  { exact (proj1 (cancel_all_other _ _ _ 0 E)). }
  destruct Hsame as (_ & Hb & Hst & _). simpl in Hb, Hst.
  split; [|split; [|split; [|split; [|auto]]]].
  - rewrite length_map. apply (f_equal length) in Hb.
    now rewrite !length_map in Hb.
  - intros i sc Hi.
    assert (Hw : exists sw, scans cpw !! i = Some sw /\ bounds sw = bounds sc).
    { apply (f_equal (fun l => l !! i)) in Hb.
      change (map bounds (scans cpw)) with (bounds <$> scans cpw) in Hb.
      change (map bounds (scans cp)) with (bounds <$> scans cp) in Hb.
      rewrite !list_lookup_fmap, Hi in Hb. simpl in Hb.
      destruct (scans cpw !! i) as [sw|]; [|discriminate].
      exists sw. split; [reflexivity|]. simpl in Hb. congruence. }
    destruct Hw as (sw & Hw & Hbw). exists (split sw).
    split; [now apply read_splitBound_lookup|]. split.
    + change (map ?f (scans cpw)) with (f <$> scans cpw).
      rewrite list_lookup_fmap, Hw. simpl. now rewrite Hbw.
    + intros Hn.
      pose proof (proj2 (cancel_all_other _ _ _ (Z.of_nat i) E) Hn) as Hr.
      rewrite (read_splitBound_lookup cpw i sw Hw) in Hr.
      rewrite (read_splitBound_lookup (set_boundsWanted cp true) i sc Hi) in Hr.
      inversion Hr as [Hk]. split; [reflexivity|].
      intros Hff store lo. rewrite Hff. apply sentinel_bounds_empty.
  - rewrite length_map. now rewrite Hst.
  - intros i st Hi. exists (new_IntState (st_split st)). split; [|reflexivity].
    change (map ?f (states cpw)) with (f <$> states cpw).
    rewrite list_lookup_fmap, Hst, Hi. reflexivity.
Qed.
End StopAndCheckpoint.

(** ** Resuming a range read *)

Lemma getDescendants_narrow (store : list Key) (b e b' e' kappa : Key) :
  (forall k, k ∈ store ->
     (key_le b' k /\ key_lt k e') <-> (key_le b k /\ key_lt k e) /\ key_le kappa k) ->
  getDescendants store b' e' =
  filter (fun k => key_leb kappa k) (getDescendants store b e).
Proof.
  unfold getDescendants. induction store as [|x l IH]; intros H; [reflexivity|].
  assert (Hl : forall k, k ∈ l ->
     (key_le b' k /\ key_lt k e') <-> (key_le b k /\ key_lt k e) /\ key_le kappa k).
  { intros k Hk. apply H. now right. }
  specialize (IH Hl). specialize (H x (list_elem_of_here x l)).
  rewrite !filter_cons.
  destruct (decide (key_leb b' x && key_ltb x e')) as [Y|N].
  - apply andb_True in Y as [Y1 Y2].
    apply Is_true_true, key_leb_le in Y1. apply Is_true_true, key_ltb_lt in Y2.
    destruct (proj1 H (conj Y1 Y2)) as [[Z1 Z2] Z3].
    rewrite decide_True.
    2:{ apply andb_True. split; apply Is_true_true;
        [now apply key_leb_le|now apply key_ltb_lt]. }
    rewrite filter_cons, decide_True.
    2:{ apply Is_true_true. now apply key_leb_le. }
    now rewrite IH.
  - destruct (decide (key_leb b x && key_ltb x e)) as [Y|N'].
    + rewrite filter_cons. rewrite decide_False; [exact IH|].
      intros Z. apply N.
      apply andb_True in Y as [Y1 Y2].
      apply Is_true_true, key_leb_le in Y1. apply Is_true_true, key_ltb_lt in Y2.
      apply Is_true_true, key_leb_le in Z.
      destruct (proj2 H (conj (conj Y1 Y2) Z)) as [W1 W2].
      apply andb_True. split; apply Is_true_true;
        [now apply key_leb_le|now apply key_ltb_lt].
    + exact IH.
Qed.

Lemma filter_ge_split (kappa : Key) (c1 c2 : list Key) :
  Forall (fun k => key_lt k kappa) c1 ->
  Forall (key_le kappa) c2 ->
  filter (fun k => key_leb kappa k) (c1 ++ c2) = c2.
Proof.
  intros H1 H2. rewrite filter_app.
  assert (E1 : filter (fun k => key_leb kappa k) c1 = []).
  { induction H1 as [|x l Hx Hl IH]; [reflexivity|].
    rewrite filter_cons, decide_False; [exact IH|].
    intros Z. apply Is_true_true, key_leb_le in Z.
    apply (key_lt_irrefl x). eapply key_lt_le_trans; eauto. }
  assert (E2 : filter (fun k => key_leb kappa k) c2 = c2).
  { induction H2 as [|x l Hx Hl IH]; [reflexivity|].
    rewrite filter_cons, decide_True, IH; [reflexivity|].
    apply Is_true_true. now apply key_leb_le. }
  now rewrite E1, E2.
Qed.

(** A list cut at a threshold on a key is cut in one way only. *)
Lemma split_unique {A : Type} (key : A -> Key) (kappa : Key) (a b a' b' : list A) :
  a ++ b = a' ++ b' ->
  Forall (fun x => key_lt (key x) kappa) a ->
  Forall (fun x => key_lt (key x) kappa) a' ->
  Forall (fun x => key_le kappa (key x)) b ->
  Forall (fun x => key_le kappa (key x)) b' ->
  a = a' /\ b = b'.
Proof.
  revert a'. induction a as [|x a IH]; intros a' He Ha Ha' Hb Hb'.
  - destruct a' as [|y a']; [auto|]. simpl in He. subst b.
    apply Forall_cons in Ha' as [Hy _]. apply Forall_cons in Hb as [Hy' _].
    destruct (key_lt_irrefl (key y)). eapply key_lt_le_trans; eauto.
  - destruct a' as [|y a'].
    + simpl in He. subst b'.
      apply Forall_cons in Ha as [Hx _]. apply Forall_cons in Hb' as [Hx' _].
      destruct (key_lt_irrefl (key x)). eapply key_lt_le_trans; eauto.
    + simpl in He. inversion He; subst y.
      apply Forall_cons in Ha as [_ Ha]. apply Forall_cons in Ha' as [_ Ha'].
      destruct (IH a') as [-> ->]; auto.
Qed.

Section PipelineShape.
Context {Ctx : Type}.
Local Abbreviation Doc := (ScanReturnedContext Ctx).

Variable decode_item0 : Key -> Key.
Variable decode_item_rev0 : Key -> Key.
Variable getSubContext : Key -> Ctx.

Local Abbreviation PipeC := (@Pipe Ctx).
Local Abbreviation step := (pipe_step decode_item0 decode_item_rev0 getSubContext).
Local Abbreviation run := (pipe_run decode_item0 decode_item_rev0 getSubContext).
Local Abbreviation rest_of := (remaining decode_item0 decode_item_rev0 getSubContext).
Local Abbreviation inv := (pipe_inv decode_item0 decode_item_rev0 getSubContext).

Lemma through_app (ks : list StageKind) (l1 l2 : list Doc) :
  through ks (l1 ++ l2) = through ks l1 ++ through ks l2.
Proof.
  induction ks as [|k ks IH]; simpl; [reflexivity|].
  now rewrite IH, omap_app.
Qed.

Lemma through_keys (ks : list StageKind) (l : list Doc) :
  map scanKey (through ks l) `sublist_of` map scanKey l.
Proof.
  induction ks as [|k ks IH]; simpl; [reflexivity|].
  etransitivity; [apply omap_outcome_keys|exact IH].
Qed.

Lemma step_kinds (p p' : PipeC) (e : Emit Doc) :
  step p e p' -> pipe_kinds p' = pipe_kinds p.
Proof. induction 1; simpl; congruence. Qed.

Lemma run_kinds (p p' : PipeC) (out : list Doc) :
  run p out p' -> pipe_kinds p' = pipe_kinds p.
Proof.
  induction 1; [reflexivity|]. rewrite IHpipe_run. eapply step_kinds; eauto.
Qed.

(** A pipeline whose stages hold nothing sends what its stages make of
    what the scan still sends. *)
Lemma remaining_idle (p : PipeC) :
  pipe_wf p -> pending p = [] -> pipe_done (source_of p) = false ->
  rest_of p = through (pipe_kinds p) (rest_of (source_of p)).
Proof.
  induction p as [s sent|s sent|s sent|k q o dn sent up IH]; simpl; auto.
  intros (Ho & Hd & Hw) Hp Hs. apply app_eq_nil in Hp as [-> Hp].
  assert (Hup : pipe_done up = false).
  { destruct (pipe_done up) eqn:E; [|reflexivity].
    clear -E Hs Hw. induction up; simpl in *; try congruence.
    destruct Hw as (Ho & Hd & Hw). destruct (Hd E) as [-> _].
    symmetry in Ho. apply negb_false_iff in Ho.
    revert Ho Hs Hw. clear. induction up; simpl in *; try congruence.
    intros -> Hs (Ho & Hd & Hw). destruct (Hd eq_refl) as [-> _].
    symmetry in Ho. apply negb_false_iff in Ho. auto. }
  rewrite Hup in Ho. simpl in Ho. subst o.
  destruct dn.
  { destruct (Hd eq_refl). discriminate. }
  simpl. now rewrite IH.
Qed.

Lemma remaining_keys (p : PipeC) :
  map scanKey (rest_of p)
  `sublist_of` map scanKey (pending p) ++ map scanKey (rest_of (source_of p)).
Proof.
  induction p as [s sent|s sent|s sent|k q o dn sent up IH]; simpl.
  - reflexivity.
  - reflexivity.
  - reflexivity.
  - destruct dn; [apply sublist_nil_l|].
    etransitivity; [apply omap_outcome_keys|].
    rewrite !map_app, <- app_assoc. apply sublist_app; [reflexivity|].
    destruct o; [exact IH|apply sublist_nil_l].
Qed.

Lemma inv_pending_keys (kvs0 : list Key) (p : PipeC) :
  inv kvs0 p ->
  map scanKey (pipe_sent p ++ pending p)
  `sublist_of` map scanKey (pipe_sent (source_of p)).
Proof.
  induction p as [s sent|s sent|s sent|k q o dn sent up IH]; simpl.
  - intros _. now rewrite app_nil_r.
  - intros _. now rewrite app_nil_r.
  - intros _. now rewrite app_nil_r.
  - intros [(pr & Hu & ->) Hi]. specialize (IH Hi).
    rewrite Hu in IH. rewrite !map_app in *. rewrite <- app_assoc in IH.
    etransitivity; [|exact IH].
    apply sublist_app; [apply omap_outcome_keys|reflexivity].
Qed.

Lemma inv_source (kvs0 : list Key) (p : PipeC) : inv kvs0 p -> inv kvs0 (source_of p).
Proof. induction p; simpl; auto. intros [_ H]. auto. Qed.

Lemma inv_ids (kvs0 : list Key) (p : PipeC) :
  inv kvs0 p ->
  Forall (fun d => scanId d = source_scanID p) (pipe_sent p ++ pending p).
Proof.
  induction p as [s sent|s sent|s sent|k q o dn sent up IH]; simpl.
  - intros (c & _ & -> & _). rewrite app_nil_r. apply pk_docs_ids.
  - intros (c & _ & -> & _). rewrite app_nil_r. apply di_docs_ids.
  - intros [_ Hi]. rewrite app_nil_r. now apply Forall_app in Hi as [Hi _].
  - intros [(pr & Hu & ->) Hi]. specialize (IH Hi).
    rewrite Hu in IH. apply Forall_app in IH as [IH1 IH2].
    apply Forall_app in IH1 as [IH0 IH1].
    rewrite !Forall_app. repeat split; auto.
    now apply omap_outcome_ids.
Qed.
End PipelineShape.

(** ** Resuming [doPKScan] *)

Lemma strinc_defined (p s : Key) :
  p <> [] -> key_lt (p ++ s) key_ff -> strinc p <> None.
Proof.
  destruct p as [|b p]; [congruence|]. intros _. unfold key_lt, key_ff. simpl.
  destruct (byte_compare b xff) eqn:E.
  - destruct (p ++ s); discriminate.
  - intros _. destruct (strinc p); [discriminate|].
    destruct (Byte.of_N (Byte.to_N b + 1)) eqn:Eb; [discriminate|].
    apply Byte.of_N_None_iff in Eb. unfold byte_compare in E.
    change (Byte.to_N xff) with 255%N in E. rewrite N.compare_lt_iff in E. lia.
  - discriminate.
Qed.

Section ResumeTableScan.
Context {Ctx : Type}.
Local Abbreviation Doc := (ScanReturnedContext Ctx).

Variable decode_item0 : Key -> Key.
Variable getSubContext : Key -> Ctx.
Variable store : list Key.

(** The document keys of the collection: in key order and below 0xFF;
    the first item of a key is a non-empty prefix of it, and no first
    item is a prefix of a key of another document (items are
    self-delimiting). *)
Hypothesis store_sorted : StronglySorted key_lt store.
Hypothesis store_below_ff : forall k, k ∈ store -> key_lt k key_ff.
Hypothesis item_prefix : forall k, k ∈ store -> exists s, k = decode_item0 k ++ s.
Hypothesis item_nonempty : forall k, k ∈ store -> decode_item0 k <> [].
Hypothesis item_delimited :
  forall k1 k2, k1 ∈ store -> k2 ∈ store ->
    (exists s, k2 = decode_item0 k1 ++ s) -> decode_item0 k2 = decode_item0 k1.

Local Abbreviation pkdocs := (pk_docs decode_item0 getSubContext).
Local Abbreviation lastPK := (lastPK_after decode_item0).

Lemma item_strinc (k : Key) :
  k ∈ store -> exists q, strinc (decode_item0 k) = Some q.
Proof.
  intros Hk. destruct (item_prefix k Hk) as [s Hs].
  destruct (strinc (decode_item0 k)) as [q|] eqn:E; [eauto|].
  destruct (strinc_defined (decode_item0 k) s); auto.
  rewrite <- Hs. auto.
Qed.

Lemma same_item_below (k k' q : Key) :
  k ∈ store -> k' ∈ store -> strinc (decode_item0 k) = Some q ->
  decode_item0 k' = decode_item0 k -> key_lt k' q.
Proof.
  intros Hk Hk' Hq He. destruct (item_prefix k' Hk') as [s Hs].
  rewrite Hs, He. now apply strinc_gt.
Qed.

Lemma other_item_above (k k' q : Key) :
  k ∈ store -> k' ∈ store -> strinc (decode_item0 k) = Some q ->
  key_lt k k' -> decode_item0 k' <> decode_item0 k -> key_le q k'.
Proof.
  intros Hk Hk' Hq Hlt Hne. apply (strinc_least _ _ _ Hq).
  - destruct (item_prefix k Hk) as [s Hs].
    eapply key_le_lt_trans; [|exact Hlt].
    rewrite Hs at 2. apply key_le_app.
  - intros s Hs. apply Hne. apply item_delimited; eauto.
Qed.

Lemma pk_docs_restart (id : Z) (lp k : Key) (l : list Key) :
  decode_item0 k <> lp -> decode_item0 k <> [] ->
  pkdocs id lp (k :: l) = pkdocs id [] (k :: l).
Proof.
  intros H1 H2. simpl.
  destruct (key_eqb (decode_item0 k) lp) eqn:E1.
  { apply key_eqb_eq in E1. contradiction. }
  destruct (key_eqb (decode_item0 k) []) eqn:E2.
  { apply key_eqb_eq in E2. contradiction. }
  reflexivity.
Qed.

Lemma pk_docs_in (id : Z) (d : Doc) (l : list Key) (lp : Key) :
  d ∈ pkdocs id lp l ->
  exists l1 l2, l = l1 ++ scanKey d :: l2
                /\ decode_item0 (scanKey d) <> lastPK lp l1.
Proof.
  revert lp. induction l as [|k l IH]; intros lp; simpl.
  - intros H. now apply elem_of_nil in H.
  - destruct (key_eqb (decode_item0 k) lp) eqn:E.
    + intros H. destruct (IH _ H) as (l1 & l2 & -> & Hn).
      exists (k :: l1), l2. split; [reflexivity|].
      rewrite lastPK_after_cons. apply key_eqb_eq in E. now rewrite E.
    + intros H. apply elem_of_cons in H as [->|H].
      * exists [], l. split; [reflexivity|]. simpl. unfold lastPK_after. simpl.
        intros Heq. rewrite Heq, (proj2 (key_eqb_eq lp lp) eq_refl) in E.
        discriminate.
      * destruct (IH _ H) as (l1 & l2 & -> & Hn).
        exists (k :: l1), l2. split; [reflexivity|].
        now rewrite lastPK_after_cons.
Qed.

(** Cutting the keys of a range read at the scan key of a document the
    scan has sent. *)
Lemma cut_at_sent (id : Z) (kvs0 consumed rest_ : list Key) (d : Doc) :
  kvs0 `sublist_of` store -> kvs0 = consumed ++ rest_ ->
  d ∈ pkdocs id [] consumed ->
  exists c1 c2,
    kvs0 = c1 ++ c2
    /\ Forall (fun k => key_lt k (scanKey d)) c1
    /\ Forall (key_le (scanKey d)) c2
    /\ pkdocs id [] kvs0 = pkdocs id [] c1 ++ pkdocs id [] c2.
Proof.
  intros Hsub -> Hin.
  destruct (pk_docs_in _ _ _ _ Hin) as (l1 & l2 & -> & Hn).
  exists l1, (scanKey d :: l2 ++ rest_).
  assert (Hs : StronglySorted key_lt (l1 ++ scanKey d :: l2 ++ rest_)).
  { eapply sublist_StronglySorted; [|exact store_sorted].
    now rewrite <- app_assoc in Hsub. }
  apply StronglySorted_app in Hs as (Hall & _ & Hs2).
  apply StronglySorted_cons in Hs2 as [Hgt _].
  assert (Hd : scanKey d ∈ store).
  { eapply elem_of_sublist; [|exact Hsub].
    rewrite !elem_of_app, elem_of_cons. auto. }
  repeat split.
  - now rewrite <- app_assoc.
  - apply Forall_forall. intros k Hk. apply (Hall k (scanKey d)); [exact Hk|left].
  - constructor; [apply key_le_refl|].
    eapply Forall_impl; [exact Hgt|]. intros k. apply key_lt_le.
  - rewrite <- app_assoc. simpl. rewrite (pk_docs_app _ _ id [] l1). f_equal.
    apply pk_docs_restart; auto.
Qed.

(** Skipping the remaining cells of the document the scan was in. *)
Lemma cut_after_item (id : Z) (k q : Key) (l : list Key) :
  k ∈ store -> strinc (decode_item0 k) = Some q ->
  StronglySorted key_lt l ->
  Forall (fun k' => k' ∈ store /\ key_lt k k') l ->
  exists same c2,
    l = same ++ c2
    /\ Forall (fun k' => key_lt k' q) same
    /\ Forall (key_le q) c2
    /\ pkdocs id (decode_item0 k) l = pkdocs id [] c2.
Proof.
  intros Hk Hq. induction l as [|k' l IH]; intros Hs Hl.
  - exists [], []. repeat split; constructor.
  - apply Forall_cons in Hl as [[Hk' Hlt] Hl].
    apply StronglySorted_cons in Hs as [Hgt Hs].
    destruct (key_eqb (decode_item0 k') (decode_item0 k)) eqn:E.
    + apply key_eqb_eq in E.
      destruct (IH Hs Hl) as (same & c2 & -> & H1 & H2 & H3).
      exists (k' :: same), c2. repeat split; auto.
      * constructor; [|assumption]. now apply (same_item_below k k' q).
      * simpl. rewrite (proj2 (key_eqb_eq _ _) E). exact H3.
    + exists [], (k' :: l).
      assert (Hne : decode_item0 k' <> decode_item0 k).
      { intros Heq. apply key_eqb_eq in Heq. congruence. }
      assert (Hq' : key_le q k') by now apply (other_item_above k k' q).
      repeat split; auto.
      * constructor; [assumption|].
        eapply Forall_impl; [exact Hgt|]. intros x Hx.
        eapply key_le_trans; [exact Hq'|now apply key_lt_le].
      * apply pk_docs_restart; auto.
Qed.

Local Abbreviation cut := (cut decode_item0 getSubContext).

Lemma keys_below (kappa : Key) (l : list Doc) (c : list Key) :
  map scanKey l `sublist_of` c -> Forall (fun k => key_lt k kappa) c ->
  Forall (fun d : Doc => key_lt (scanKey d) kappa) l.
Proof.
  intros Hs Hc. apply Forall_forall. intros d Hd. rewrite Forall_forall in Hc.
  apply Hc. eapply elem_of_sublist; [|exact Hs].
  apply list_elem_of_In, in_map, list_elem_of_In, Hd.
Qed.

Lemma keys_above (kappa : Key) (l : list Doc) (c : list Key) :
  map scanKey l `sublist_of` c -> Forall (key_le kappa) c ->
  Forall (fun d : Doc => key_le kappa (scanKey d)) l.
Proof.
  intros Hs Hc. apply Forall_forall. intros d Hd. rewrite Forall_forall in Hc.
  apply Hc. eapply elem_of_sublist; [|exact Hs].
  apply list_elem_of_In, in_map, list_elem_of_In, Hd.
Qed.

Lemma cut_pending (id : Z) (kvs0 consumed rest_ : list Key) (d : Doc) :
  kvs0 `sublist_of` store -> kvs0 = consumed ++ rest_ ->
  d ∈ pkdocs id [] consumed ->
  exists c2, cut kvs0 id (scanKey d) c2.
Proof.
  intros Hsub He Hd.
  destruct (cut_at_sent id kvs0 consumed rest_ d Hsub He Hd)
    as (c1 & c2 & H1 & H2 & H3 & H4).
  exists c2, (pkdocs id [] c1), c1. repeat split; auto.
  eapply keys_below; [apply pk_docs_keys|exact H2].
Qed.

Lemma last_key_in (l : list Key) : last_key l <> [] -> exists c, l = c ++ [last_key l].
Proof.
  unfold last_key. destruct (last l) as [k|] eqn:E; [|congruence].
  intros _. apply last_Some in E as [c ->]. eauto.
Qed.

(** The scan is cancelled between two keys or while it waits for a permit:
    the next execution starts at [strinc] of the first item of [lastKey]
    and sends exactly what this one had left to send. *)
Lemma cut_idle (kvs0 : list Key) (s : PKScan) (sent : list Doc) :
  kvs0 `sublist_of` store ->
  pk_inv decode_item0 getSubContext kvs0 s sent ->
  pk_done s = false -> pk_lastKey s <> [] ->
  exists q c2,
    strinc (decode_item0 (pk_lastKey s)) = Some q
    /\ cut kvs0 (pk_scanID s) q c2
    /\ Forall (fun d : Doc => key_lt (scanKey d) q) sent
    /\ match pk_taking s with
       | Some kv => [mkDoc (getSubContext (pk_lastPK s)) (pk_scanID s) kv]
       | None => []
       end ++ pkdocs (pk_scanID s) (pk_lastPK s) (pk_kvs s)
       = pkdocs (pk_scanID s) [] c2.
Proof.
  intros Hsub (consumed & Hk & Hs & Hl & Hp & Ht) Hd Hne.
  rewrite Hl in Hne. destruct (last_key_in consumed Hne) as [c Hc].
  rewrite <- Hl in Hc. set (lk := pk_lastKey s) in *.
  assert (Hsorted : StronglySorted key_lt kvs0).
  { eapply sublist_StronglySorted; eauto. }
  assert (Hin : forall k, k ∈ kvs0 -> k ∈ store).
  { intros k Hk'. eapply elem_of_sublist; eauto. }
  assert (Hlk : lk ∈ store).
  { apply Hin. rewrite Hk, Hc. rewrite !elem_of_app, list_elem_of_singleton. auto. }
  destruct (item_strinc lk Hlk) as [q Hq]. exists q.
  assert (Hlq : key_lt lk q) by now apply (same_item_below lk lk q).
  assert (Hcons : Forall (fun k => key_lt k q) consumed).
  { rewrite Hc. apply Forall_app. split; [|constructor; [assumption|constructor]].
    rewrite Hk, Hc, <- !app_assoc in Hsorted.
    apply StronglySorted_app in Hsorted as (Hall & _ & _).
    apply Forall_forall. intros k Hk'.
    eapply key_lt_trans; [|exact Hlq]. apply Hall; [exact Hk'|left]. }
  assert (Hafter : Forall (fun k' => k' ∈ store /\ key_lt lk k')
                     (match pk_taking s with Some kv => [kv] | None => [] end
                      ++ pk_kvs s)).
  { rewrite Hk, Hc, <- app_assoc in Hsorted.
    apply StronglySorted_app in Hsorted as (_ & _ & Hs2). simpl in Hs2.
    apply StronglySorted_cons in Hs2 as [Hgt _].
    apply Forall_forall. intros k Hk'. split.
    - apply Hin. rewrite Hk. rewrite elem_of_app. now right.
    - rewrite Forall_forall in Hgt. now apply Hgt. }
  assert (Hsent : Forall (fun d : Doc => key_lt (scanKey d) q) sent).
  { rewrite Hs. eapply keys_below; [apply pk_docs_keys|exact Hcons]. }
  assert (HlastPK : lastPK [] consumed = decode_item0 lk).
  { rewrite Hc. apply lastPK_after_snoc. }
  destruct (pk_taking s) as [kv|] eqn:Etk.
  - exists (kv :: pk_kvs s).
    apply Forall_cons in Hafter as [[Hkv Hlt] Hafter].
    assert (Hdiff : decode_item0 kv <> decode_item0 lk).
    { rewrite <- HlastPK. now apply Ht. }
    assert (Hqkv : key_le q kv) by now apply (other_item_above lk kv q).
    rewrite lastPK_after_snoc in Hp.
    assert (Hdocs : pkdocs (pk_scanID s) (decode_item0 lk) (kv :: pk_kvs s)
                    = pkdocs (pk_scanID s) [] (kv :: pk_kvs s)).
    { apply pk_docs_restart; auto. }
    split; [exact Hq|]. split; [|split; [exact Hsent|]].
    + exists sent, consumed. repeat split; auto.
      * constructor; [assumption|].
        rewrite Hk in Hsorted.
        apply StronglySorted_app in Hsorted as (_ & _ & Hs2). simpl in Hs2.
        apply StronglySorted_cons in Hs2 as [Hgt _].
        eapply Forall_impl; [exact Hgt|]. intros x Hx.
        eapply key_le_trans; [exact Hqkv|now apply key_lt_le].
      * rewrite Hk. simpl. rewrite (pk_docs_app _ _ _ [] consumed), HlastPK.
        now rewrite Hs, Hdocs.
    + rewrite Hp. simpl.
      destruct (key_eqb (decode_item0 kv) []) eqn:E; [|reflexivity].
      apply key_eqb_eq in E. now destruct (item_nonempty kv Hkv).
  - simpl in *. rewrite app_nil_r in Hp.
    assert (Hs2 : StronglySorted key_lt (pk_kvs s)).
    { rewrite Hk in Hsorted. now apply StronglySorted_app in Hsorted as (_ & _ & ?). }
    destruct (cut_after_item (pk_scanID s) lk q (pk_kvs s) Hlk Hq Hs2 Hafter)
      as (same & c2 & Hsplit & H1 & H2 & H3).
    exists c2. split; [exact Hq|]. split; [|split; [exact Hsent|]].
    + exists sent, (consumed ++ same). repeat split; auto.
      * rewrite Hk, Hsplit. now rewrite app_assoc.
      * apply Forall_app. auto.
      * rewrite Hk, (pk_docs_app _ _ _ [] consumed), HlastPK, H3. now rewrite Hs.
    + rewrite Hp, HlastPK. exact H3.
Qed.
End ResumeTableScan.

(** ** Cancelling a pipeline *)

Section CancelPipeline.
Context {Ctx : Type}.
Local Abbreviation Doc := (ScanReturnedContext Ctx).
Local Abbreviation Checkpoint := (PlanCheckpoint Ctx).

Variable decode_item0 : Key -> Key.
Variable decode_item_rev0 : Key -> Key.
Variable getSubContext : Key -> Ctx.

Local Abbreviation PipeC := (@Pipe Ctx).
Local Abbreviation inv := (pipe_inv decode_item0 decode_item_rev0 getSubContext).

Lemma cancel_all_app (cp : Checkpoint) (l1 l2 : list (Actor Ctx)) :
  cancel_all decode_item0 cp (l1 ++ l2) =
  match cancel_all decode_item0 cp l1 with
  | Some c => cancel_all decode_item0 c l2
  | None => None
  end.
Proof.
  revert cp. induction l1 as [|a l1 IH]; intros cp; simpl; [reflexivity|].
  destruct (cancel_actor decode_item0 cp a); auto.
Qed.

Lemma cancel_stage (cp : Checkpoint) (k : StageKind) (q : list Doc) :
  boundsWanted cp = true ->
  cancel_actor decode_item0 cp (stage_actor k q) = write_pending cp q.
Proof.
  intros Hb. destruct k; simpl; unfold splitBoundWanted; now rewrite Hb.
Qed.

(** [stop()] on a pipeline: the handlers run from the scan to the most
    downstream stage, and the last write for the scan is the scan key of
    the document that would be output next. *)
Lemma cancel_pipe (kvs0 : list Key) (p : PipeC) (cp : Checkpoint) :
  inv kvs0 p -> pipe_wf p ->
  valid_scan cp (source_scanID p) -> boundsWanted cp = true ->
  source_split decode_item0 p (read_splitBound cp (source_scanID p)) <> None ->
  exists cp',
    cancel_all decode_item0 cp (pipe_ops p) = Some cp'
    /\ same_but_splits cp cp'
    /\ read_splitBound cp' (source_scanID p) =
       final_split decode_item0 p (read_splitBound cp (source_scanID p)).
Proof.
  induction p as [s sent|s sent|s sent|k q o dn sent up IH]; simpl.
  - intros _ _ Hv Hb Hs. unfold final_split. simpl in *.
    destruct (pk_done s).
    + exists cp. simpl. split; [reflexivity|].
      split; [apply same_but_splits_refl|reflexivity].
    + simpl. unfold splitBoundWanted. rewrite Hb.
      destruct (strinc (decode_item0 (pk_lastKey s))) as [x|]; [|congruence].
      destruct (write_splitBound_valid cp _ x Hv) as (cp' & -> & H1 & H2).
      exists cp'. split; [reflexivity|]. split; [assumption|].
      now rewrite H2, Z.eqb_refl.
  - intros _ _ Hv Hb Hs. unfold final_split. simpl in *.
    destruct (di_done s).
    + exists cp. simpl. split; [reflexivity|].
      split; [apply same_but_splits_refl|reflexivity].
    + simpl. unfold splitBoundWanted. rewrite Hb.
      destruct (write_splitBound_valid cp _ (keyAfter (di_lastKey s)) Hv)
        as (cp' & -> & H1 & H2).
      exists cp'. split; [reflexivity|]. split; [assumption|].
      now rewrite H2, Z.eqb_refl.
  - intros _ _ Hv Hb Hs. unfold final_split. simpl in *.
    exists cp. split; [now destruct (lookup_done s)|].
    split; [apply same_but_splits_refl|reflexivity].
  - intros Hi (Ho & Hd & Hw) Hv Hb Hs.
    pose proof (inv_ids decode_item0 decode_item_rev0 getSubContext kvs0
                  (PStage k q o dn sent up) Hi) as Hids. simpl in Hids.
    destruct Hi as [_ Hi].
    destruct (IH Hi Hw Hv Hb Hs) as (cp1 & Hc1 & Hs1 & Hr1).
    rewrite cancel_all_app, Hc1. simpl.
    assert (Hb1 : boundsWanted cp1 = true).
    { destruct Hs1 as (-> & _). assumption. }
    destruct dn.
    + destruct (Hd eq_refl) as [_ ->]. simpl. exists cp1.
      split; [reflexivity|]. split; [assumption|]. exact Hr1.
    + rewrite (cancel_stage cp1 k q Hb1).
      destruct (write_pending_spec q cp1) as (cp' & -> & Hs' & Hr').
      { apply Forall_app in Hids as [_ Hq]. apply Forall_app in Hq as [Hq _].
        eapply Forall_impl; [exact Hq|]. intros d ->.
        now apply (same_but_splits_valid cp cp1). }
      exists cp'. split; [reflexivity|].
      split; [eapply same_but_splits_trans; eauto|].
      rewrite Hr', Hr1. unfold final_split, split_after, first_of_scan. simpl.
      destruct q as [|d q]; [reflexivity|]. simpl.
      apply Forall_app in Hids as [_ Hq]. apply Forall_cons in Hq as [-> _].
      now rewrite Z.eqb_refl.
Qed.

Lemma split_after_other (q : list Doc) (s id : Z) (old : option Key) :
  Forall (fun d => scanId d = id) q -> s <> id -> split_after q s old = old.
Proof.
  intros Hq Hne. unfold split_after, first_of_scan.
  induction Hq as [|d l Hd _ IH]; simpl; [reflexivity|].
  rewrite Hd. destruct (Z.eqb_spec id s); [congruence|exact IH].
Qed.

(** The handlers of a pipeline leave the split keys of the other scans as
    they are. *)
Lemma cancel_pipe_others (kvs0 : list Key) (p : PipeC) (cp cp' : Checkpoint) :
  inv kvs0 p -> pipe_wf p ->
  valid_scan cp (source_scanID p) -> boundsWanted cp = true ->
  cancel_all decode_item0 cp (pipe_ops p) = Some cp' ->
  forall s, s <> source_scanID p -> read_splitBound cp' s = read_splitBound cp s.
Proof.
  revert cp'.
  induction p as [s sent|s sent|s sent|k q o dn sent up IH]; simpl; intros cp'.
  - intros _ _ Hv Hb Hc s0 Hne. destruct (pk_done s).
    + simpl in Hc. now inversion Hc.
    + simpl in Hc. unfold splitBoundWanted in Hc. rewrite Hb in Hc.
      destruct (strinc (decode_item0 (pk_lastKey s))) as [x|]; [|discriminate].
      destruct (write_splitBound_valid cp _ x Hv) as (c & Hw & _ & H2).
      rewrite Hw in Hc. inversion Hc; subst c. rewrite H2.
      destruct (Z.eqb_spec s0 (pk_scanID s)); congruence.
  - intros _ _ Hv Hb Hc s0 Hne. destruct (di_done s).
    + simpl in Hc. now inversion Hc.
    + simpl in Hc. unfold splitBoundWanted in Hc. rewrite Hb in Hc.
      destruct (write_splitBound_valid cp _ (keyAfter (di_lastKey s)) Hv)
        as (c & Hw & _ & H2).
      rewrite Hw in Hc. inversion Hc; subst c. rewrite H2.
      destruct (Z.eqb_spec s0 (di_scanID s)); congruence.
  - intros _ _ Hv Hb Hc s0 Hne.
    destruct (lookup_done s); simpl in Hc; now inversion Hc.
  - intros Hi (Ho & Hd & Hw) Hv Hb Hc s0 Hne.
    pose proof (inv_ids decode_item0 decode_item_rev0 getSubContext kvs0
                  (PStage k q o dn sent up) Hi) as Hids. simpl in Hids.
    destruct Hi as [_ Hi].
    rewrite cancel_all_app in Hc.
    destruct (cancel_all decode_item0 cp (pipe_ops up)) as [cp1|] eqn:E1;
      [|discriminate].
    pose proof (IH cp1 Hi Hw Hv Hb eq_refl s0 Hne) as H1.
    assert (Hs1 : same_but_splits cp cp1).
    { apply (cancel_all_other decode_item0 (pipe_ops up) cp cp1 0 E1). }
    assert (Hb1 : boundsWanted cp1 = true).
    { destruct Hs1 as (-> & _). assumption. }
    simpl in Hc. destruct dn.
    + simpl in Hc. inversion Hc; subst cp'. exact H1.
    + rewrite (cancel_stage cp1 k q Hb1) in Hc.
      destruct (write_pending_spec q cp1) as (c & Hw' & _ & Hr').
      { apply Forall_app in Hids as [_ Hq]. apply Forall_app in Hq as [Hq _].
        eapply Forall_impl; [exact Hq|]. intros d ->.
        now apply (same_but_splits_valid cp cp1). }
      rewrite Hw' in Hc. simpl in Hc. inversion Hc; subst c.
      rewrite Hr', <- H1. apply (split_after_other q s0 (source_scanID up)); auto.
      apply Forall_app in Hids as [_ Hq]. now apply Forall_app in Hq as [Hq _].
Qed.
End CancelPipeline.

(** ** Executing a plan over [doPKScan] *)

Lemma narrow_condition (lo hi B E kappa k : Key) :
  key_le (fst (scan_range lo hi (KeyRangeRef B E))) kappa ->
  (key_le (fst (scan_range lo hi (KeyRangeRef kappa E))) k
   /\ key_lt k (snd (scan_range lo hi (KeyRangeRef kappa E))))
  <-> (key_le (fst (scan_range lo hi (KeyRangeRef B E))) k
       /\ key_lt k (snd (scan_range lo hi (KeyRangeRef B E))))
      /\ key_le kappa k.
Proof.
  unfold scan_range. simpl.
  set (b := key_max lo B). set (b' := key_max lo kappa).
  set (m := key_min hi E). intros Hb.
  assert (Hm : forall x, key_le x k -> key_lt k (key_max x m) -> key_lt k m).
  { intros x Hx Hlt. unfold key_max in Hlt. destruct (key_ltb x m); [assumption|].
    destruct (key_lt_irrefl k). eapply key_lt_le_trans; eauto. }
  split.
  - intros [H1 H2].
    assert (Hk : key_le kappa k).
    { eapply key_le_trans; [apply key_max_r|exact H1]. }
    repeat split; auto.
    + eapply key_le_trans; eauto.
    + eapply key_lt_le_trans; [apply (Hm b'); assumption|apply key_max_r].
  - intros [[H1 H2] H3]. split.
    + unfold b', key_max. destruct (key_ltb lo kappa); [assumption|].
      eapply key_le_trans; [apply key_max_l|exact H1].
    + eapply key_lt_le_trans; [apply (Hm b); assumption|apply key_max_r].
Qed.

Section ExecutePK.
Context {Ctx : Type}.
Local Abbreviation Doc := (ScanReturnedContext Ctx).
Local Abbreviation Checkpoint := (PlanCheckpoint Ctx).

Variable decode_item0 : Key -> Key.
Variable decode_item_rev0 : Key -> Key.
Variable getSubContext : Key -> Ctx.

Local Abbreviation PipeC := (@Pipe Ctx).
Local Abbreviation rest_of := (remaining decode_item0 decode_item_rev0 getSubContext).
Local Abbreviation pkdocs := (pk_docs decode_item0 getSubContext).

Lemma execute_pk (plan : ScanPlan) (store index : list Key) (cp : Checkpoint) :
  pk_sourced plan = true ->
  execute plan store index cp =
  match plan_range plan with
  | Some (lo, hi) =>
      let r := scan_range lo hi (getBounds (snd (addScan cp)) (scansAdded cp)) in
      Some (wrap (plan_stages plan)
                 (fresh_scan (scansAdded cp) (getDescendants store (fst r) (snd r))),
            snd (addScan cp))
  | None => None
  end.
Proof.
  induction plan as [|b e|b e iv|src IH f|src IH f]; simpl; try discriminate.
  - reflexivity.
  - intros H. apply negb_true_iff in H. rewrite H.
    destruct (plan_hi e); reflexivity.
  - intros H. rewrite (IH H). destruct (plan_range src) as [[lo hi]|]; reflexivity.
  - intros H. rewrite (IH H). destruct (plan_range src) as [[lo hi]|]; reflexivity.
Qed.

Lemma through_nil (ks : list (@StageKind Ctx)) : through ks [] = [].
Proof. induction ks as [|k ks IH]; simpl; [reflexivity|]. now rewrite IH. Qed.

Lemma remaining_wrap (ks : list StageKind) (id : Z) (kvs : list Key) :
  rest_of (wrap ks (fresh_scan id kvs)) = through ks (pkdocs id [] kvs).
Proof.
  induction ks as [|k ks IH]; simpl; [reflexivity|]. now rewrite IH.
Qed.

Lemma kinds_wrap (ks : list StageKind) (src : PipeC) :
  pipe_kinds src = [] -> pipe_kinds (wrap ks src) = ks.
Proof. intros H. induction ks as [|k ks IH]; simpl; congruence. Qed.

Lemma source_of_wrap (ks : list (@StageKind Ctx)) (id : Z) (kvs : list Key) :
  source_of (wrap ks (fresh_scan id kvs)) = fresh_scan id kvs.
Proof. induction ks as [|k ks IH]; simpl; auto. Qed.

Lemma step_is_pk (p p' : PipeC) (e : Emit Doc) :
  pipe_step decode_item0 decode_item_rev0 getSubContext p e p' ->
  is_pk p -> is_pk p'.
Proof.
  unfold is_pk. induction 1; simpl; eauto;
    intros (x & y & Hx); discriminate.
Qed.

Lemma run_is_pk (p p' : PipeC) (out : list Doc) :
  pipe_run decode_item0 decode_item_rev0 getSubContext p out p' ->
  is_pk p -> is_pk p'.
Proof. induction 1; eauto using step_is_pk. Qed.
End ExecutePK.

(** ** Stopping a pipeline and resuming it *)

Section CheckpointPipeline.
Context {Ctx : Type}.
Local Abbreviation Doc := (ScanReturnedContext Ctx).
Local Abbreviation Checkpoint := (PlanCheckpoint Ctx).

Variable decode_item0 : Key -> Key.
Variable decode_item_rev0 : Key -> Key.
Variable getSubContext : Key -> Ctx.

Local Abbreviation PipeC := (@Pipe Ctx).
Local Abbreviation inv := (pipe_inv decode_item0 decode_item_rev0 getSubContext).

Lemma getBounds_head (cp : Checkpoint) (sc : ScanState) (l : list ScanState) :
  scans cp = sc :: l -> getBounds cp 0 = bounds sc.
Proof. unfold getBounds. intros ->. reflexivity. Qed.

Lemma read_splitBound_head (cp : Checkpoint) (sc : ScanState) (l : list ScanState) :
  scans cp = sc :: l -> read_splitBound cp 0 = Some (split sc).
Proof. unfold read_splitBound. intros ->. reflexivity. Qed.

Lemma checkpoint_pipe_bounds (kvs0 : list Key) (p : PipeC) (cp1 : Checkpoint)
    (kappa : Key) :
  inv kvs0 p -> pipe_wf p -> source_scanID p = 0 ->
  scans cp1 <> [] ->
  source_split decode_item0 p (read_splitBound cp1 0) <> None ->
  final_split decode_item0 p (read_splitBound cp1 0) = Some kappa ->
  exists stopped rest,
    checkpoint_pipe decode_item0 cp1 p = Some (stopped, rest)
    /\ clean_checkpoint rest
    /\ getBounds (snd (addScan rest)) 0 =
       KeyRangeRef kappa (range_end (getBounds cp1 0)).
Proof.
  intros Hi Hw Hid Hne Hss Hfs.
  unfold checkpoint_pipe, stopAndCheckpoint, stop.
  set (cpt := set_boundsWanted
                (mkCheckpoint (boundsWanted cp1) (scans cp1) (states cp1)
                   (scansAdded cp1) (stateAdded cp1) (pipe_ops p)) true).
  assert (Hv : valid_scan cpt (source_scanID p)).
  { rewrite Hid. unfold valid_scan, cpt. simpl.
    destruct (scans cp1); [congruence|]. simpl. lia. }
  assert (Hread : read_splitBound cpt 0 = read_splitBound cp1 0) by reflexivity.
  destruct (cancel_pipe decode_item0 decode_item_rev0 getSubContext kvs0 p cpt
              Hi Hw Hv eq_refl) as (cpw & Hc & Hsame & Hr).
  { now rewrite Hid, Hread. }
  change (ops cpt) with (pipe_ops p). rewrite Hc. simpl.
  eexists. eexists. split; [reflexivity|].
  rewrite Hid, Hread, Hfs in Hr.
  destruct Hsame as (_ & Hb & _). simpl in Hb.
  destruct (scans cp1) as [|sc l] eqn:E1; [congruence|].
  destruct (scans cpw) as [|sw lw] eqn:Ew; [discriminate|].
  simpl in Hb. inversion Hb as [[Hb0 Hbl]].
  rewrite (read_splitBound_head cpw sw lw Ew) in Hr. inversion Hr; subst kappa.
  split; [|].
  - split; [reflexivity|]. simpl.
    constructor; [reflexivity|]. apply Forall_forall. intros x Hx.
    apply list_elem_of_In, in_map_iff in Hx as (y & <- & _). reflexivity.
  - rewrite (getBounds_head cp1 sc l E1). unfold addScan, getBounds. simpl.
    now rewrite Hb0.
Qed.
End CheckpointPipeline.

Section ExactlyOnce.
Context {Ctx : Type}.
Local Abbreviation Doc := (ScanReturnedContext Ctx).
Local Abbreviation Checkpoint := (PlanCheckpoint Ctx).

Variable decode_item0 : Key -> Key.
Variable decode_item_rev0 : Key -> Key.
Variable getSubContext : Key -> Ctx.
Variable store : list Key.
Variable index : list Key.

Hypothesis store_sorted : StronglySorted key_lt store.
Hypothesis store_below_ff : forall k, k ∈ store -> key_lt k key_ff.
Hypothesis item_prefix : forall k, k ∈ store -> exists s, k = decode_item0 k ++ s.
Hypothesis item_nonempty : forall k, k ∈ store -> decode_item0 k <> [].
Hypothesis item_delimited :
  forall k1 k2, k1 ∈ store -> k2 ∈ store ->
    (exists s, k2 = decode_item0 k1 ++ s) -> decode_item0 k2 = decode_item0 k1.

Local Abbreviation PipeC := (@Pipe Ctx).
Local Abbreviation step := (pipe_step decode_item0 decode_item_rev0 getSubContext).
Local Abbreviation run := (pipe_run decode_item0 decode_item_rev0 getSubContext).
Local Abbreviation rest_of := (remaining decode_item0 decode_item_rev0 getSubContext).
Local Abbreviation inv := (pipe_inv decode_item0 decode_item_rev0 getSubContext).
Local Abbreviation pkdocs := (pk_docs decode_item0 getSubContext).

Lemma wrap_fresh (ks : list StageKind) (id : Z) (kvs : list Key) :
  let p0 := wrap ks (fresh_scan id kvs) in
  inv kvs p0 /\ pipe_wf p0 /\ source_scanID p0 = id /\ pipe_sent p0 = []
  /\ pipe_done p0 = false.
Proof.
  induction ks as [|k ks IH]; simpl.
  - repeat split; auto. apply fresh_pk.
  - destruct IH as (H1 & H2 & H3 & H4 & H5). rewrite H5.
    repeat split; auto; try discriminate.
    exists []. auto.
Qed.

Lemma step_scanID (p p' : PipeC) (e : Emit Doc) :
  step p e p' -> source_scanID p' = source_scanID p.
Proof.
  induction 1; simpl; auto.
  - unfold doPKScan_step in H. destruct (pk_done s); [discriminate|].
    destruct (pk_taking s); [now inversion H|].
    destruct (pk_kvs s); [now inversion H|].
    destruct (key_eqb _ _); now inversion H.
  - unfold toDocInfo_step in H. destruct (di_done s); [discriminate|].
    destruct (di_taking s); [now inversion H|].
    destruct (di_kvs s); now inversion H.
  - now destruct (lookup_step_rest getSubContext s s' e H) as (_ & -> & _).
Qed.

Lemma run_scanID (p p' : PipeC) (out : list Doc) :
  run p out p' -> source_scanID p' = source_scanID p.
Proof.
  induction 1; [reflexivity|]. rewrite IHpipe_run. eapply step_scanID; eauto.
Qed.

Lemma source_remaining_keys (s : PKScan) (sent : list Doc) :
  map scanKey (rest_of (PTableScan s sent))
  `sublist_of` source_rest (PTableScan s sent).
Proof.
  simpl. destruct (pk_done s); [apply sublist_nil_l|].
  rewrite map_app. apply sublist_app; [|apply pk_docs_keys].
  destruct (pk_taking s); reflexivity.
Qed.

Lemma sorted_around {A : Type} (key : A -> Key) (l1 l2 : list A) (d : A) :
  StronglySorted key_lt (map key (l1 ++ d :: l2)) ->
  Forall (fun x => key_lt (key x) (key d)) l1
  /\ Forall (fun x => key_le (key d) (key x)) (d :: l2).
Proof.
  rewrite map_app. simpl. intros H.
  apply StronglySorted_app in H as (Hall & _ & H2).
  apply StronglySorted_cons in H2 as [Hgt _]. split.
  - apply Forall_forall. intros x Hx. apply Hall; [|left].
    apply list_elem_of_In, in_map, list_elem_of_In, Hx.
  - constructor; [apply key_le_refl|].
    apply Forall_forall. intros x Hx. apply key_lt_le.
    rewrite Forall_forall in Hgt. apply Hgt.
    apply list_elem_of_In, in_map, list_elem_of_In, Hx.
Qed.

Lemma source_lastKey_source (p : PipeC) :
  source_lastKey (source_of p) = source_lastKey p.
Proof. induction p; simpl; auto. Qed.

Lemma source_split_source (p : PipeC) (old : option Key) :
  source_split decode_item0 (source_of p) old = source_split decode_item0 p old.
Proof. induction p; simpl; auto. Qed.

Lemma narrowed (lo hi B E kappa : Key) (c1 c2 : list Key) :
  let r := scan_range lo hi (KeyRangeRef B E) in
  let r' := scan_range lo hi (KeyRangeRef kappa E) in
  getDescendants store (fst r) (snd r) = c1 ++ c2 ->
  Forall (fun k => key_lt k kappa) c1 -> Forall (key_le kappa) c2 ->
  key_le (fst r) kappa ->
  getDescendants store (fst r') (snd r') = c2.
Proof.
  intros r r' Hk H1 H2 Hb.
  rewrite (getDescendants_narrow store (fst r) (snd r) (fst r') (snd r') kappa).
  - rewrite Hk. now apply filter_ge_split.
  - intros k _. now apply narrow_condition.
Qed.

(** Where a stopped pipeline over [doPKScan] resumes: the keys [c2] the
    next execution reads are those whose documents this one had left to
    send. *)
Lemma resume_point (ks : list StageKind) (id : Z) (lo hi B E : Key) (p : PipeC)
    (out : list Doc) :
  let r := scan_range lo hi (KeyRangeRef B E) in
  let kvs0 := getDescendants store (fst r) (snd r) in
  run (wrap ks (fresh_scan id kvs0)) out p ->
  source_lastKey p <> [] ->
  exists kappa c2,
    final_split decode_item0 p (Some key_ff) = Some kappa
    /\ source_split decode_item0 p (Some key_ff) <> None
    /\ (let r' := scan_range lo hi (KeyRangeRef kappa E) in
        getDescendants store (fst r') (snd r') = c2)
    /\ rest_of p = through ks (pkdocs id [] c2).
Proof.
  intros r kvs0 Hrun Hlk.
  destruct (wrap_fresh ks id kvs0) as (Hi0 & Hw0 & Hid0 & Hs0 & _).
  set (p0 := wrap ks (fresh_scan id kvs0)) in *.
  assert (Hi : inv kvs0 p) by (eapply run_inv; eauto).
  assert (Hw : pipe_wf p) by (eapply run_wf; eauto).
  assert (Hid : source_scanID p = id).
  { rewrite (run_scanID _ _ _ Hrun). exact Hid0. }
  assert (Hks : pipe_kinds p = ks).
  { rewrite (run_kinds _ _ _ _ _ _ Hrun). now apply kinds_wrap. }
  assert (Hout : pipe_sent p = out).
  { rewrite (run_sent _ _ _ _ _ _ Hrun), Hs0. reflexivity. }
  assert (Hpk : is_pk p).
  { eapply run_is_pk; [exact Hrun|]. unfold is_pk, p0.
    rewrite source_of_wrap. unfold fresh_scan. eauto. }
  destruct Hpk as (s & ss & Hsrc).
  pose proof (inv_source _ _ _ _ _ Hi) as His. rewrite Hsrc in His. simpl in His.
  assert (Hsub : kvs0 `sublist_of` store) by apply getDescendants_sublist.
  assert (Hsorted : StronglySorted key_lt kvs0).
  { eapply sublist_StronglySorted; eauto. }
  rewrite <- source_lastKey_source, Hsrc in Hlk. simpl in Hlk.
  assert (Hsid : pk_scanID s = id).
  { rewrite <- Hid. clear -Hsrc.
    induction p; simpl in *; [now inversion Hsrc|discriminate..|auto]. }
  assert (Hrs : rest_of p0 = out ++ rest_of p) by (eapply run_remaining; eauto).
  unfold p0 in Hrs. rewrite remaining_wrap in Hrs.
  unfold final_split.
  rewrite <- (source_split_source p), Hsrc. simpl.
  destruct (pending p) as [|d tl] eqn:Ep.
  - (* no stage holds a document *)
    destruct (pk_done s) eqn:Ed.
    + exists key_ff, []. split; [reflexivity|]. split; [discriminate|]. split.
      * simpl. apply elem_of_nil_inv. intros k Hk.
        apply getDescendants_spec in Hk as [[H1 _] Hin].
        apply (key_lt_irrefl k). eapply key_lt_le_trans; [now apply store_below_ff|].
        eapply key_le_trans; [apply key_max_r|exact H1].
      * pose proof (remaining_keys decode_item0 decode_item_rev0 getSubContext p)
          as Hk.
        rewrite Ep, Hsrc in Hk. simpl in Hk. rewrite Ed in Hk. simpl in Hk.
        apply sublist_nil_r in Hk. apply map_eq_nil in Hk. rewrite Hk.
        simpl. now rewrite through_nil.
    + destruct (cut_idle decode_item0 getSubContext store store_sorted
                  store_below_ff item_prefix item_nonempty item_delimited
                  kvs0 s ss Hsub His Ed Hlk)
        as (q & c2 & Hq & (A & c1 & Hk & H1 & H2 & _) & _ & Hrem).
      exists q, c2. split; [exact Hq|]. split; [congruence|]. split.
      * apply (narrowed lo hi B E q c1 c2); auto.
        destruct His as (consumed & Hk0 & _ & Hl & _).
        rewrite Hl in Hlk. destruct (last_key_in consumed Hlk) as [c Hc].
        assert (Hin : pk_lastKey s ∈ kvs0).
        { rewrite Hk0, Hc, <- Hl. rewrite !elem_of_app, list_elem_of_singleton. auto. }
        apply getDescendants_spec in Hin as [[Hb _] Hst].
        eapply key_le_trans; [exact Hb|]. apply key_lt_le.
        destruct (item_prefix _ Hst) as [x Hx]. rewrite Hx at 1.
        now apply strinc_gt.
      * rewrite (remaining_idle decode_item0 decode_item_rev0 getSubContext p
                   Hw Ep).
        2:{ rewrite Hsrc. exact Ed. }
        rewrite Hks, Hsrc. simpl. rewrite Ed, Hsid in *. now rewrite Hrem.
  - (* some stage holds the document [d] *)
    exists (scanKey d).
    pose proof (inv_pending_keys _ _ _ _ _ Hi) as Hpk.
    rewrite Hsrc, Ep, Hout in Hpk. simpl in Hpk.
    pose proof His as Hinv_s.
    destruct His as (consumed & Hk0 & Hss & Hl & Hp & Ht).
    assert (Hd : exists d', d' ∈ pkdocs (pk_scanID s) [] consumed
                            /\ scanKey d' = scanKey d).
    { assert (Hin : scanKey d ∈ map scanKey ss).
      { eapply elem_of_sublist; [|exact Hpk]. rewrite map_app. simpl.
        rewrite elem_of_app, elem_of_cons. auto. }
      apply list_elem_of_In, in_map_iff in Hin as (d' & He & Hin).
      exists d'. split; [|exact He]. rewrite <- Hss. now apply list_elem_of_In. }
    destruct Hd as (d' & Hd' & Hkey).
    destruct (cut_pending decode_item0 getSubContext store store_sorted
                item_nonempty (pk_scanID s) kvs0 consumed _ d' Hsub Hk0 Hd')
      as (c2 & A & c1 & Hk & H1 & H2 & Hdocs & HA).
    rewrite Hkey in *. rewrite Hsid in *. exists c2.
    split; [reflexivity|]. split.
    { destruct (pk_done s) eqn:Ed; [discriminate|].
      destruct (cut_idle decode_item0 getSubContext store store_sorted
                  store_below_ff item_prefix item_nonempty item_delimited
                  kvs0 s ss Hsub Hinv_s Ed Hlk) as (q & _ & -> & _).
      discriminate. }
    split.
    + apply (narrowed lo hi B E (scanKey d) c1 c2); auto.
      assert (Hin : scanKey d ∈ kvs0).
      { rewrite Hk0. rewrite elem_of_app. left.
        eapply elem_of_sublist; [|apply (pk_docs_keys decode_item0 getSubContext id [])].
        rewrite <- Hkey. apply list_elem_of_In, in_map, list_elem_of_In, Hd'. }
      now apply getDescendants_spec in Hin as [[Hb _] _].
    + (* both sides cut what the uninterrupted scan sends at [scanKey d] *)
      assert (Hbig : StronglySorted key_lt
                (map scanKey (out ++ d :: tl ++ rest_of (source_of p)))).
      { eapply sublist_StronglySorted; [|exact Hsorted].
        rewrite Hk0.
        replace (out ++ d :: tl ++ rest_of (source_of p))
          with ((out ++ d :: tl) ++ rest_of (source_of p))
          by (now rewrite <- app_assoc).
        rewrite map_app. apply sublist_app.
        - etransitivity; [exact Hpk|]. rewrite Hss. apply pk_docs_keys.
        - rewrite Hsrc. apply source_remaining_keys. }
      destruct (sorted_around scanKey out (tl ++ rest_of (source_of p)) d Hbig)
        as [Hlow Hhigh].
      assert (Hrest : Forall (fun x : Doc => key_le (scanKey d) (scanKey x))
                        (rest_of p)).
      { eapply keys_above; [|].
        - etransitivity; [apply remaining_keys|]. rewrite Ep, <- map_app.
          reflexivity.
        - apply Forall_forall. intros k Hk'.
          apply list_elem_of_In, in_map_iff in Hk' as (x & <- & Hx).
          rewrite Forall_forall in Hhigh. apply Hhigh.
          apply list_elem_of_In. exact Hx. }
      rewrite Hdocs, through_app in Hrs.
      destruct (split_unique scanKey (scanKey d) _ _ _ _ Hrs) as [_ <-]; auto.
      * eapply keys_below; [apply through_keys|].
        apply Forall_forall. intros k Hk'.
        apply list_elem_of_In, in_map_iff in Hk' as (x & <- & Hx).
        rewrite Forall_forall in HA. apply HA. now apply list_elem_of_In.
      * eapply keys_above; [etransitivity;
                            [apply through_keys|apply pk_docs_keys]|exact H2].
Qed.

Lemma clean_addScan (cp : Checkpoint) :
  clean_checkpoint cp ->
  scans (snd (addScan cp)) <> []
  /\ read_splitBound (snd (addScan cp)) 0 = Some key_ff.
Proof.
  intros [Ha Hs]. unfold addScan. rewrite Ha. simpl.
  destruct (scans cp) as [|sc l] eqn:E; simpl.
  - split; [discriminate|reflexivity].
  - apply Forall_cons in Hs as [Hsc _].
    split; [discriminate|].
    unfold read_splitBound. simpl. now rewrite Hsc.
Qed.
End ExactlyOnce.

(** ** Predicate pushdown *)

Section PushdownTrivial.
Context {Cx DataValue IndexInfo Expr LeafPred : Type}.
Local Abbreviation Pred := (Predicate Expr LeafPred).
Local Abbreviation PlanT := (Plan Cx DataValue IndexInfo Expr LeafPred).
Variable encode_key_part : DataValue -> Key.
Variable encode_string : Key -> Key.
Variable id_key_part : Key.
Variable get_index_key : Expr -> Key.
Variable get_range : Pred -> option DataValue * option DataValue.
Variable range_is_tight : Pred -> bool.
Variable simplify : Pred -> Pred.
Variable getSimpleIndex : Cx -> Key -> option IndexInfo.
Variable getCompoundIndex : Cx -> IndexInfo -> Key -> option IndexInfo.

Local Abbreviation push :=
  (push_down encode_key_part encode_string id_key_part get_index_key get_range
             range_is_tight simplify getSimpleIndex getCompoundIndex).

(** What [push_down] answers to NONE, by plan. *)
Lemma push_down_none (fuel : nat) (cx : Cx) (p : PlanT) :
  push (S fuel) p cx PNone =
  Some match p with
       | TableScanPlan _ => Some EmptyPlan
       | FilterPlan _ source filter =>
           Some (FilterPlan cx source (simplify (PAnd [filter; PNone])))
       | _ => None
       end.
Proof.
  destruct p as [cx0|cx0 b e|cx0 i b e|cx0 src f|p1 p2| |d]; simpl; try reflexivity.
  now destruct (single_key b e).
Qed.

(** C6, as amended: filtering any plan by ALL gives the plan itself; NONE
    gives the empty plan on a table scan only: a filter conjoins NONE to
    its own predicate, and every other plan keeps a filter by NONE above
    it. *)
Theorem construct_filter_plan_all_none (fuel : nat) (cx : Cx) (p : PlanT) :
  construct_filter_plan encode_key_part encode_string id_key_part get_index_key
    get_range range_is_tight simplify getSimpleIndex getCompoundIndex
    fuel cx p PAll = Some p
  /\ construct_filter_plan encode_key_part encode_string id_key_part get_index_key
       get_range range_is_tight simplify getSimpleIndex getCompoundIndex
       (S fuel) cx p PNone =
     Some match p with
          | TableScanPlan _ => EmptyPlan
          | FilterPlan _ source filter =>
              FilterPlan cx source (simplify (PAnd [filter; PNone]))
          | _ => FilterPlan cx p PNone
          end.
Proof.
  split; [reflexivity|].
  unfold construct_filter_plan, construct_filter_plan_with.
  rewrite push_down_none.
  now destruct p.
Qed.
End PushdownTrivial.

(** C6, counterexample: NONE pushed into an index scan is not pushed at
    all, and the plan built for it is a filter above the scan, not the
    empty plan. *)
Lemma push_down_none_index_scan :
  let scan : Plan unit Key Z Key unit := IndexScanPlan tt 0 None None in
  let pd := push_down (fun v => v) (fun s => s) [] (fun e => e)
                      (fun _ => (None, None)) (fun _ => true) (fun q => q)
                      (fun _ _ => None) (fun _ _ _ => None) in
  let construct :=
    construct_filter_plan (fun v => v) (fun s => s) [] (fun e => e)
                          (fun _ => (None, None)) (fun _ => true) (fun q => q)
                          (fun _ _ => None) (fun _ _ _ => None) in
  pd 1%nat scan tt PNone = Some None
  /\ construct 1%nat tt scan PNone = Some (FilterPlan tt scan PNone)
  /\ construct 1%nat tt scan PNone <> Some EmptyPlan.
Proof.
  cbv zeta. repeat split. discriminate.
Qed.

(** ** IndexInsertPlan *)

(** The existing index that decides the pre-check: the first one, in the
    order of the catalogue, with the key specification or the name of the
    new index. *)
Lemma index_precheck_first (indexObj : IndexObj) (existing : list IndexObj) :
  index_precheck indexObj existing =
  match find (fun e => keyspec_eqb (idx_key indexObj) (idx_key e)
                       || String.eqb (idx_name indexObj) (idx_name e)) existing with
  | Some e => if keyspec_eqb (idx_key indexObj) (idx_key e)
              then Some index_already_exists else Some index_name_taken
  | None => None
  end.
Proof.
  induction existing as [|e existing IH]; simpl; [reflexivity|].
  destruct (keyspec_eqb (idx_key indexObj) (idx_key e)) eqn:Ek; simpl.
  - now rewrite Ek.
  - destruct (String.eqb (idx_name indexObj) (idx_name e)); simpl.
    + now rewrite Ek.
    + exact IH.
Qed.

(** C9, as amended: the first existing index, in catalogue order, that
    has the key specification or the name of the new one decides.  With
    the same key specification the stream ends without a document and
    without an error, the catalogue untouched; otherwise (same name,
    another key specification) the stream ends with index_name_taken.
    With no such index the descriptor is inserted, the metadata version
    is bumped and one document is sent before the end of the stream. *)
Theorem doIndexInsert_first_match (indexObj : IndexObj) (cat : IndexCatalog) :
  doIndexInsert indexObj cat =
  match find (fun e => keyspec_eqb (idx_key indexObj) (idx_key e)
                       || String.eqb (idx_name indexObj) (idx_name e))
             (indexObjs cat) with
  | Some e =>
      if keyspec_eqb (idx_key indexObj) (idx_key e)
      then ([], end_of_stream, cat)
      else ([], index_name_taken, cat)
  | None =>
      ([mkDoc indexObj (-1) []], end_of_stream,
       mkIndexCatalog (indexObjs cat ++ [indexObj]) (metadataVersion cat + 1))
  end.
Proof.
  unfold doIndexInsert. rewrite index_precheck_first.
  destruct (find _ (indexObjs cat)) as [e|]; [|reflexivity].
  now destruct (keyspec_eqb (idx_key indexObj) (idx_key e)).
Qed.

Section IndexInsertExample.
Import String.

(** C9, counterexample: an existing index has the key specification of
    the new one, but an earlier one has its name: the stream ends with
    index_name_taken, not silently. *)
Lemma doIndexInsert_name_before_key :
  let k1 := [("a"%string, 1)] in
  let k2 := [("b"%string, 1)] in
  let existing := [mkIndexObj k2 "n"%string; mkIndexObj k1 "m"%string] in
  let cat := mkIndexCatalog existing 7 in
  existsb (fun e => keyspec_eqb k1 (idx_key e)) existing = true
  /\ doIndexInsert (mkIndexObj k1 "n"%string) cat = ([], index_name_taken, cat).
Proof.
  cbv zeta. split; reflexivity.
Qed.
End IndexInsertExample.

(** ** FindAndModifyPlan and ProjectAndUpdatePlan *)

Section UpsertNotFound.
Context {Ctx : Type}.
Variable updateOp : Ctx -> Ctx.
Variable projection : Ctx -> Ctx.
Variable empty_obj : Ctx.

(** C8, as amended: when the sub-plan gives no document and an upsert is
    supplied, the document is inserted and its changes are committed; it
    is projected and sent as the only output (scan id -1, empty scan key)
    exactly when projectNew is set, and nothing is sent otherwise.  The
    same holds of ProjectAndUpdatePlan on an empty input. *)
Theorem upsert_not_found_emits_iff_projectNew (inserted : Ctx) (projectNew : bool) :
  findAndModify updateOp (Some inserted) projection projectNew empty_obj None
  = ([EvInsert inserted; EvCommitChanges inserted]
       ++ (if projectNew then [EvProject inserted] else []) ++ [EvCommit],
     if projectNew then [mkDoc (projection inserted) (-1) []] else [],
     end_of_stream)
  /\ projectAndUpdate updateOp (Some inserted) projection projectNew empty_obj []
  = ([EvInsert inserted; EvCommitChanges inserted]
       ++ (if projectNew then [EvProject inserted] else []),
     if projectNew then [mkDoc (projection inserted) (-1) []] else [],
     end_of_stream).
Proof.
  destruct projectNew; split; reflexivity.
Qed.
End UpsertNotFound.

(** C8, counterexample: nothing found, an upsert supplied, the identity
    projection, projectNew unset: the document is inserted and nothing is
    sent. *)
Lemma upsert_not_found_projectOld_silent :
  let inserted : Key := [x75; x31] in
  findAndModify (fun d => d) (Some inserted) (fun d => d) false [] None
  = ([EvInsert inserted; EvCommitChanges inserted; EvCommit], [], end_of_stream).
Proof.
  reflexivity.
Qed.

(** ** UpdatePlan *)

Section UpdateRuns.
Context {Ctx : Type}.
Local Abbreviation Doc := (ScanReturnedContext Ctx).
Variable limit : Z.
Variable upsertOp : option Ctx.
Local Abbreviation step := (@doUpdate_step Ctx limit upsertOp).
Local Abbreviation run := (@doUpdate_run Ctx limit upsertOp).

Local Abbreviation update_quota := (update_quota limit).

Local Abbreviation upsert_docs := (upsert_docs upsertOp).

Local Abbreviation update_inv := (update_inv limit upsertOp).

Lemma update_quota_pos : (1 <= update_quota)%nat.
Proof. unfold update_quota. lia. Qed.

Lemma update_inv_start (input : list Doc) :
  update_inv input (doUpdate_start input 0).
Proof.
  pose proof update_quota_pos.
  unfold update_inv, doUpdate_start; simpl. repeat split; auto; lia.
Qed.

Lemma update_step_inv (input : list Doc) (st st' : UpdateState Ctx) :
  update_inv input st -> step st st' -> update_inv input st'.
Proof.
  intros (Hin & Hc & Hq & Hph & Hout) Hstep.
  destruct Hstep as [d inp futures count updated sent
                    |futures count updated sent
                    |d inp futures count phase updated sent Hnd
                    |inp count updated sent]; simpl in *.
  - destruct Hout as [Hs _].
    assert (Hlen : length (updated ++ [d]) = S (length updated))
      by (rewrite length_app; simpl; lia).
    unfold update_inv; simpl. rewrite Hlen.
    repeat split.
    + now rewrite <- app_assoc.
    + lia.
    + lia.
    + destruct (limit <=? count + 1) eqn:E; [|apply Z.leb_gt in E].
      * apply Z.leb_le in E. left. unfold update_quota in *. lia.
      * unfold update_quota in *. lia.
    + destruct (limit <=? count + 1); simpl;
        (split; [now rewrite app_assoc, Hs|reflexivity]).
  - unfold update_inv; simpl. repeat split; auto; tauto.
  - unfold update_inv; simpl. repeat split; auto.
    destruct phase; try congruence; simpl in *; destruct Hout as [Hs Hi];
      (split; [now rewrite <- app_assoc|exact Hi]).
  - destruct Hout as [Hs _]. rewrite app_nil_r in Hs. subst sent.
    assert (Hup : upsert_docs input
                  = match upsertOp with
                    | Some inserted =>
                        if count =? 0 then [mkDoc inserted (-1) []] else []
                    | None => []
                    end).
    { unfold upsert_docs. destruct upsertOp as [ins|]; [|reflexivity].
      destruct (count =? 0) eqn:E.
      - apply Z.eqb_eq in E. assert (updated = []) by (destruct updated; simpl in *; [reflexivity|lia]).
        subst updated. simpl in Hin.
        pose proof update_quota_pos.
        destruct Hph as [Hph|Hph]; [simpl in Hph; lia|].
        subst inp. now subst input.
      - apply Z.eqb_neq in E. destruct input; [|reflexivity].
        apply app_eq_nil in Hin as [-> _]. simpl in Hc. lia. }
    unfold update_inv. rewrite Hup.
    destruct upsertOp as [ins|]; [destruct (count =? 0) eqn:E|]; simpl;
      rewrite ?E, ?app_nil_r; repeat split; auto.
Qed.

Lemma update_run_inv (input : list Doc) (st st' : UpdateState Ctx) :
  update_inv input st -> run st st' -> update_inv input st'.
Proof.
  intros Hi Hr. induction Hr as [|st st' st'' Hs _ IH]; [exact Hi|].
  apply IH. now apply (update_step_inv input st).
Qed.

Lemma update_terminates (n : nat) (st : UpdateState Ctx) :
  (update_measure st <= n)%nat ->
  u_phase st <> UDone -> u_inserted st = false ->
  exists st', run st st' /\ u_phase st' = UDone.
Proof.
  revert st. induction n as [|n IH]; intros st Hm Hp Hi.
  - destruct st as [inp fut c ph up se ins]; unfold update_measure in Hm;
      simpl in *. destruct ph; try congruence; lia.
  - destruct st as [inp fut c ph up se ins]; simpl in *. subst ins.
    destruct ph; [| |congruence].
    + destruct inp as [|d inp].
      * destruct (IH (mkUpdateState [] fut c UDrain up se false)) as (st' & Hr & Hd);
          [unfold update_measure in *; simpl in *; lia|discriminate|reflexivity|].
        exists st'. split; [|exact Hd].
        eapply upd_run_step; [apply upd_end_of_stream|exact Hr].
      * destruct (IH (mkUpdateState inp (fut ++ [d]) (c + 1)
                        (if limit <=? c + 1 then UDrain else ULoop)
                        (up ++ [d]) se false)) as (st' & Hr & Hd).
        { unfold update_measure in *; simpl in *. rewrite length_app. simpl.
          destruct (limit <=? c + 1); lia. }
        { destruct (limit <=? c + 1); discriminate. }
        { reflexivity. }
        exists st'. split; [|exact Hd].
        eapply upd_run_step; [apply upd_receive|exact Hr].
    + destruct fut as [|d fut].
      * eexists. split; [|].
        { eapply upd_run_step; [apply upd_finish|apply upd_run_nil]. }
        destruct upsertOp; [destruct (c =? 0)|]; reflexivity.
      * destruct (IH (mkUpdateState inp fut c UDrain up (se ++ [d]) false))
          as (st' & Hr & Hd);
          [unfold update_measure in *; simpl in *; lia|discriminate|reflexivity|].
        exists st'. split; [|exact Hd].
        eapply upd_run_step; [apply upd_forward; discriminate|exact Hr].
Qed.

(** C7, as amended: executed from a count of zero, UpdatePlan updates and
    sends, in order, the first max(1, limit) documents of its input (all
    of them when there are fewer) and leaves the others unread, so that
    with limit = 0 it still updates and sends the first document; when an
    upsert is configured and no document arrived it inserts one document
    and sends it, and it inserts none otherwise.  Every run can be
    completed. *)
Theorem doUpdate_reads_at_least_one (input : list Doc) :
  (exists st, run (doUpdate_start input 0) st /\ u_phase st = UDone)
  /\ forall st, run (doUpdate_start input 0) st -> u_phase st = UDone ->
       u_updated st = take update_quota input
       /\ u_input st = drop update_quota input
       /\ u_sent st = take update_quota input ++ upsert_docs input
       /\ u_inserted st = negb (present (head input)) && present upsertOp.
Proof.
  split.
  - apply (update_terminates (update_measure (doUpdate_start input 0)));
      [lia|discriminate|reflexivity].
  - intros st Hr Hd.
    pose proof (update_run_inv input _ _ (update_inv_start input) Hr)
      as (Hin & Hc & Hq & Hph & Hout).
    rewrite Hd in Hph, Hout. destruct Hout as (Hf & Hs & Hi).
    assert (Ht : take update_quota input = u_updated st
                 /\ drop update_quota input = u_input st).
    { rewrite <- Hin. destruct Hph as [Hph|Hph].
      - rewrite <- Hph. now rewrite take_app_length, drop_app_length.
      - rewrite Hph, app_nil_r. split.
        + now apply take_ge.
        + now apply drop_ge. }
    destruct Ht as [Ht Hdr].
    rewrite Ht, Hdr. repeat split; auto.
    rewrite Hi, Hc, andb_comm. f_equal.
    rewrite <- Hin.
    destruct (u_updated st) as [|d l]; simpl.
    + destruct Hph as [Hph|Hph]; [simpl in Hph; pose proof update_quota_pos; lia|].
      now rewrite Hph.
    + reflexivity.
Qed.
End UpdateRuns.

(** C7, counterexample: with limit = 0 and one input document, the
    document is updated and sent. *)
Lemma doUpdate_limit_zero_updates_one :
  let d : ScanReturnedContext Z := mkDoc 7 0 [x61] in
  exists st, doUpdate_run 0 None (doUpdate_start [d] 0) st
             /\ u_phase st = UDone /\ u_updated st = [d] /\ u_sent st = [d].
Proof.
  cbv zeta. eexists. split.
  - eapply upd_run_step; [apply upd_receive|]. simpl.
    eapply upd_run_step; [apply upd_forward; discriminate|].
    eapply upd_run_step; [apply upd_finish|]. apply upd_run_nil.
  - repeat split.
Qed.

(** ** UnionPlan *)

Section UnionErrors.
Context {Ctx : Type}.
Local Abbreviation Doc := (ScanReturnedContext Ctx).

(** When at most one of the two futures holds an error as the catch runs,
    the ASSERT holds. *)
Lemma union_assert_one_error (st : UnionState Ctx) :
  isError (aFuture st) && isError (bFuture st) = false -> union_assert st = true.
Proof.
  unfold union_assert. destruct (aFuture st), (bFuture st); simpl; congruence.
Qed.

(** A non-end_of_stream error raised by the [choose] is sent to the output
    and ends the actor. *)
Lemma union_catch_forwards (st : UnionState Ctx) (e : Error) :
  Error_eqb e actor_cancelled = false -> Error_eqb e end_of_stream = false ->
  union_catch st e = (st, [SendError e], UThrow e).
Proof.
  intros Hc He. unfold union_catch. now rewrite Hc, He.
Qed.

(** C10: [doUnion] evaluated where its two inputs have both terminated
    before a turn of the loop, [a] with end_of_stream and [b] with
    another error.  The [choose] raises the end_of_stream of [a], the
    ASSERT compares the two codes and fails, and the error of [b] is not
    sent to the output; with the inputs exchanged the same error is
    sent at once. *)
Theorem doUnion_assert_fails_on_eos_then_error (code : Z) :
  let x := other_error code in
  let st : UnionState Ctx := doUnion_start (FError end_of_stream) (FError x) in
  let st' : UnionState Ctx := doUnion_start (FError x) (FError end_of_stream) in
  union_assert st = false
  /\ doUnion_turn st = Some (st, [], UAssertFailed)
  /\ doUnion_turn st' = Some (st', [SendError x], UThrow x).
Proof.
  cbv zeta. repeat split.
Qed.

(** The same state is reached from running inputs: [a] hands a document
    and then ends, while [b] has failed. *)
Lemma doUnion_assert_fails_after_document (val : Doc) (code : Z) :
  let x := other_error code in
  let st0 : UnionState Ctx := doUnion_start (FReady val) (FError x) in
  exists st1 st2,
    doUnion_turn st0 = Some (st1, [Send val], UContinue)
    /\ union_arrival st1 st2
    /\ doUnion_turn st2 = Some (st2, [], UAssertFailed).
Proof.
  cbv zeta. eexists. eexists. split; [reflexivity|]. split.
  - apply (arrive_a (mkUnionState FPending (FError (other_error code)) true true)
                    (FError end_of_stream)); [reflexivity|discriminate|discriminate].
  - reflexivity.
Qed.
End UnionErrors.

(** ** Index deduplication *)

Lemma key_le_antisym (a b : Key) : key_le a b -> key_le b a -> a = b.
Proof.
  intros Hab Hba. apply key_le_lt_or_eq in Hab as [Hab|Hab]; [|exact Hab].
  apply key_not_lt_le in Hba. contradiction.
Qed.

Lemma key_insert_In (k x : Key) (l : list Key) :
  In x (key_insert k l) <-> x = k \/ In x l.
Proof.
  induction l as [|y l IH]; simpl.
  - intuition.
  - destruct (key_ltb y k); simpl; rewrite ?IH; intuition.
Qed.

Lemma key_sort_In (x : Key) (l : list Key) : In x (key_sort l) <-> In x l.
Proof.
  induction l as [|y l IH]; simpl; [tauto|].
  rewrite key_insert_In, IH. intuition.
Qed.

Lemma key_insert_sorted (k : Key) (l : list Key) :
  StronglySorted key_le l -> StronglySorted key_le (key_insert k l).
Proof.
  induction 1 as [|y l Hs IH Hy]; simpl.
  - constructor; constructor.
  - destruct (key_ltb y k) eqn:E.
    + constructor; [exact IH|].
      apply Forall_forall. intros x Hx. apply list_elem_of_In, key_insert_In in Hx.
      destruct Hx as [->|Hx].
      * apply key_lt_le. now apply key_ltb_lt.
      * rewrite Forall_forall in Hy. apply Hy. now apply list_elem_of_In.
    + apply key_ltb_ge in E. constructor; [now constructor|].
      constructor; [exact E|].
      eapply Forall_impl; [exact Hy|]. intros x Hx. simpl in Hx.
      now apply (key_le_trans k y x).
Qed.

Lemma key_sort_sorted (l : list Key) : StronglySorted key_le (key_sort l).
Proof.
  induction l as [|k l IH]; simpl; [constructor|now apply key_insert_sorted].
Qed.

(** The reverse scan of an ascending list stops at the largest element
    that passes the test. *)
Lemma find_rev_sorted (P : Key -> bool) (l : list Key) :
  StronglySorted key_le l ->
  match find P (rev l) with
  | Some s => In s l /\ P s = true /\ forall x, In x l -> P x = true -> key_le x s
  | None => forall x, In x l -> P x = false
  end.
Proof.
  induction 1 as [|a l Hs IH Ha]; simpl; [tauto|].
  rewrite find_app. destruct (find P (rev l)) as [s|].
  - destruct IH as (Hin & HP & Hmax). repeat split; auto.
    intros x [<-|Hx] Hpx; [|now apply Hmax].
    rewrite Forall_forall in Ha. apply Ha. now apply list_elem_of_In.
  - simpl. destruct (P a) eqn:E.
    + repeat split; auto. intros x [<-|Hx] Hpx; [apply key_le_refl|].
      rewrite (IH x Hx) in Hpx. discriminate.
    + intros x [<-|Hx]; auto.
Qed.

(** [last] of [simpleWouldBeLast] is the largest value below the bound,
    when there is one. *)
Lemma last_below_largest (values : list Key) (ub v : Key) :
  In v values -> key_lt v ub ->
  largest_below values ub (last_below (key_sort values) ub).
Proof.
  intros Hv Hlt. unfold last_below.
  pose proof (find_rev_sorted (fun s => key_ltb s ub) _ (key_sort_sorted values)) as H.
  destruct (find _ (rev (key_sort values))) as [s|].
  - destruct H as (Hin & HP & Hmax). repeat split.
    + now apply key_sort_In.
    + now apply key_ltb_lt.
    + intros k' Hk' Hlt'. apply Hmax; [now apply key_sort_In|now apply key_ltb_lt].
  - specialize (H v (proj2 (key_sort_In v values) Hv)).
    apply key_ltb_lt in Hlt. simpl in H. congruence.
Qed.

Lemma largest_below_unique (l : list Key) (ub a b : Key) :
  largest_below l ub a -> largest_below l ub b -> a = b.
Proof.
  intros (Ha & Hla & Hma) (Hb & Hlb & Hmb).
  apply key_le_antisym; auto.
Qed.

(** Two keys in order, neither a prefix of the other, stay in order
    whatever follows them. *)
Lemma key_lt_app_or_prefix (a b : Key) :
  key_lt a b -> (exists s, b = a ++ s) \/ forall x y, key_lt (a ++ x) (b ++ y).
Proof.
  unfold key_lt. revert b. induction a as [|c a IH]; intros [|d b]; simpl; try discriminate.
  - intros _. left. now exists (d :: b).
  - destruct (byte_compare c d) eqn:E; try discriminate.
    + apply byte_compare_eq in E as ->. intros H.
      destruct (IH b H) as [[s ->]|Hxy].
      * left. now exists s.
      * right. intros x y. simpl. rewrite ?byte_compare_refl. apply Hxy.
    + intros _. right. intros x y. simpl. now rewrite ?E.
Qed.

Section SimpleIndexDedup.
Variable values : list Key.
Variable pk : Key.
Variable indexUpperBound : Key.
Hypothesis values_prefix_code : prefix_code values.

Lemma entries_ordered (v v' : Key) :
  In v values -> In v' values -> key_lt v v' -> key_lt (v ++ pk) (v' ++ pk).
Proof.
  intros Hv Hv' Hlt. destruct (key_lt_app_or_prefix v v' Hlt) as [[s Hs]|H]; [|apply H].
  pose proof (values_prefix_code v v' s Hv Hv' Hs) as ->.
  rewrite app_nil_r in Hs. subst v'. now apply key_lt_irrefl in Hlt.
Qed.

(** The value an entry starts with is the value it was built from. *)
Lemma entry_value (v0 v : Key) :
  In v0 values -> In v values -> startsWith (v0 ++ pk) v = true -> v = v0.
Proof.
  intros Hv0 Hv Hsw. apply startsWith_prefix in Hsw as [s Hs].
  destruct (key_lt_total v v0) as [Hlt|[Heq|Hlt]]; [|exact Heq|].
  - destruct (key_lt_app_or_prefix v v0 Hlt) as [[t Ht]|H].
    + pose proof (values_prefix_code v v0 t Hv Hv0 Ht) as ->.
      now rewrite app_nil_r in Ht.
    + specialize (H s pk). rewrite <- Hs in H. now apply key_lt_irrefl in H.
  - destruct (key_lt_app_or_prefix v0 v Hlt) as [[t Ht]|H].
    + pose proof (values_prefix_code v0 v t Hv0 Hv Ht) as ->.
      now rewrite app_nil_r in Ht.
    + specialize (H pk s). rewrite <- Hs in H. now apply key_lt_irrefl in H.
Qed.

(** C5, as amended: for a simple index whose encoded values are
    self-delimiting, the test passes on the entry of the value v0 (an
    entry below indexUpperBound) exactly when v0 is the largest of the
    document's encoded values strictly below indexUpperBound.  This is
    the largest entry of the document below indexUpperBound whenever the
    bound leaves no value below it whose entry is not. *)
Theorem simpleWouldBeLast_largest_value (v0 : Key) :
  In v0 values -> key_lt (v0 ++ pk) indexUpperBound ->
  (simpleWouldBeLast values (v0 ++ pk) indexUpperBound = true
   <-> largest_below values indexUpperBound v0)
  /\ ((forall v, In v values -> key_lt v indexUpperBound ->
                 key_lt (v ++ pk) indexUpperBound) ->
      (largest_below values indexUpperBound v0
       <-> largest_below (entries_of values pk) indexUpperBound (v0 ++ pk))).
Proof.
  intros Hv0 Hlt.
  assert (Hv0lt : key_lt v0 indexUpperBound)
    by (eapply key_le_lt_trans; [apply key_le_app|exact Hlt]).
  split.
  - pose proof (last_below_largest values indexUpperBound v0 Hv0 Hv0lt) as Hl.
    unfold simpleWouldBeLast.
    destruct (length values =? 1)%nat eqn:E.
    + split; [intros _|reflexivity].
      apply Nat.eqb_eq in E. destruct values as [|a [|b l]]; try discriminate.
      destruct Hv0 as [->|[]]. repeat split; [now left|exact Hv0lt|].
      intros k' [<-|[]] _. apply key_le_refl.
    + cbv zeta.
      destruct (startsWith (v0 ++ pk) (last_below (key_sort values) indexUpperBound))
        eqn:Hsw.
      * split; [intros _|reflexivity].
        destruct Hl as (Hin & Hb & Hmax).
        rewrite <- (entry_value v0 _ Hv0 Hin Hsw). repeat split; auto.
      * split; [discriminate|]. intros Hlv.
        rewrite (largest_below_unique _ _ _ _ Hl Hlv) in Hsw.
        assert (startsWith (v0 ++ pk) v0 = true) by (apply startsWith_prefix; now exists pk).
        congruence.
  - intros Haligned. unfold entries_of. split.
    + intros (_ & _ & Hmax). repeat split.
      * apply in_map_iff. now exists v0.
      * exact Hlt.
      * intros k' Hk' Hk'lt. apply in_map_iff in Hk' as (v & <- & Hv).
        assert (Hvlt : key_lt v indexUpperBound)
          by (eapply key_le_lt_trans; [apply key_le_app|exact Hk'lt]).
        pose proof (Hmax v Hv Hvlt) as Hle.
        apply key_le_lt_or_eq in Hle as [Hlt'| ->]; [|apply key_le_refl].
        apply key_lt_le. now apply entries_ordered.
    + intros (_ & _ & Hmax). repeat split; auto.
      intros v Hv Hvlt. apply key_not_lt_le. intros Hgt.
      assert (He : key_le (v ++ pk) (v0 ++ pk)).
      { apply Hmax; [apply in_map_iff; now exists v|now apply Haligned]. }
      apply key_not_lt_le in He. apply He. now apply entries_ordered.
Qed.
End SimpleIndexDedup.

(** C5, counterexample: the values "a" and "c" of the document "9" under
    the upper bound "c5".  The entry "a9" is the largest entry of the
    document below the bound, the entry "c9" lying above it, yet the test
    fails on it: the value "c" is below the bound. *)
Lemma simpleWouldBeLast_drops_last_entry :
  let values := [[x61]; [x63]] in
  let pk := [x39] in
  let indexUpperBound := [x63; x35] in
  largest_below (entries_of values pk) indexUpperBound ([x61] ++ pk)
  /\ simpleWouldBeLast values ([x61] ++ pk) indexUpperBound = false.
Proof.
  cbv zeta. split; [|reflexivity].
  repeat split.
  - now left.
  - intros k' [<-|[<-|[]]] Hlt; [apply key_le_refl|discriminate Hlt].
Qed.

(** ** Cancellation of the asynchronous operators *)

Section AsyncCancellation.
Context {Ctx : Type}.
Local Abbreviation Doc := (ScanReturnedContext Ctx).
Local Abbreviation Checkpoint := (PlanCheckpoint Ctx).
Variable decode_item0 : Key -> Key.
Variable decode_item_rev0 : Key -> Key.
Variable getSubContext : Key -> Ctx.

(** The deque of a stage of a running pipeline holds the documents its
    input has sent and the stage has not resolved yet, oldest first. *)
Lemma stage_futures_pending (plan : ScanPlan) (store index : list Key)
    (cp cp1 : Checkpoint) (p0 : @Pipe Ctx) (out : list Doc)
    (k : StageKind) (q : list Doc) (o dn : bool) (sent : list Doc) (up : @Pipe Ctx) :
  execute plan store index cp = Some (p0, cp1) ->
  pipe_run decode_item0 decode_item_rev0 getSubContext p0 out
           (PStage k q o dn sent up) ->
  exists processed,
    pipe_sent up = processed ++ q /\ sent = omap (outcome k) processed.
Proof.
  intros Hex Hrun.
  destruct (execute_fresh decode_item0 decode_item_rev0 getSubContext
              _ _ _ _ _ _ Hex) as (src & lo & hi & _ & Hinv & _).
  pose proof (run_inv _ _ _ _ _ _ _ Hrun Hinv) as Hi.
  simpl in Hi. tauto.
Qed.

(** The deque of [doUpdate] holds the documents it has started to update
    and not sent yet, oldest first. *)
Lemma update_futures_pending (limit : Z) (upsertOp : option Ctx)
    (input : list Doc) (st : UpdateState Ctx) :
  doUpdate_run limit upsertOp (doUpdate_start input 0) st ->
  u_phase st <> UDone ->
  u_sent st ++ u_futures st = u_updated st
  /\ doUpdate_actor st = ActUpdate (u_futures st).
Proof.
  intros Hr Hp.
  pose proof (update_run_inv limit upsertOp input _ _
                (update_inv_start limit upsertOp input) Hr) as (_ & _ & _ & _ & H).
  unfold doUpdate_actor. destruct (u_phase st); try congruence; tauto.
Qed.

(** C4: cancelled while boundsWanted is set, doFilter, doProject,
    deduplicateIndexStream and doUpdate write the scan key of every
    document of their deque (the documents received and not yet sent on)
    to the split bound of its scan, from the last of the deque to the
    first, so that the split bound of each scan ends as the scan key of
    the earliest such document of that scan, and is left as it was for a
    scan with none.  Nothing else of the checkpoint changes. *)
Theorem cancelled_async_writes_pending
    (cp : Checkpoint) (a : Actor Ctx) (futures : list Doc) :
  async_futures a = Some futures ->
  boundsWanted cp = true ->
  Forall (fun d => valid_scan cp (scanId d)) futures ->
  cancel_actor decode_item0 cp a = write_pending_rev cp (rev futures)
  /\ exists cp',
       cancel_actor decode_item0 cp a = Some cp'
       /\ same_but_splits cp cp'
       /\ forall s, read_splitBound cp' s =
                    match find (fun d => scanId d =? s) futures with
                    | Some d => Some (scanKey d)
                    | None => read_splitBound cp s
                    end.
Proof.
  intros Ha Hb Hv.
  assert (Hc : cancel_actor decode_item0 cp a = write_pending cp futures).
  { destruct a; try discriminate; injection Ha as ->; simpl;
      unfold splitBoundWanted; now rewrite Hb. }
  split; [exact Hc|].
  destruct (write_pending_spec futures cp Hv) as (cp' & Hw & Hs & Hr).
  exists cp'. rewrite Hc. repeat split; try apply Hs; auto.
Qed.
End AsyncCancellation.

(** C4 at a filter cancelled with two pending documents of one scan. *)
Lemma cancelled_async_writes_pending_witness :
  let d1 : ScanReturnedContext Key := mkDoc [x61] 0 [x61] in
  let d2 : ScanReturnedContext Key := mkDoc [x62] 0 [x62] in
  let cp := set_boundsWanted sample_checkpoint true in
  cancel_actor sample_decode cp (ActFilter [d1; d2])
  = write_pending_rev cp (rev [d1; d2])
  /\ exists cp',
       cancel_actor sample_decode cp (ActFilter [d1; d2]) = Some cp'
       /\ same_but_splits cp cp'
       /\ forall s, read_splitBound cp' s =
                    match find (fun d => scanId d =? s) [d1; d2] with
                    | Some d => Some (scanKey d)
                    | None => read_splitBound cp s
                    end.
Proof.
  cbv zeta.
  apply (cancelled_async_writes_pending sample_decode
           (set_boundsWanted sample_checkpoint true)
           (ActFilter [mkDoc [x61] 0 [x61]; mkDoc [x62] 0 [x62]])).
  - reflexivity.
  - reflexivity.
  - repeat constructor; simpl; lia.
Defined.

(** ** Sample runs *)

(** The sample collection meets the assumptions on document keys. *)
Lemma sample_store_sorted : StronglySorted key_lt sample_store.
Proof. repeat constructor. Qed.

Lemma sample_store_cases (k : Key) : k ∈ sample_store -> k = [x61] \/ k = [x62].
Proof.
  intros H. apply list_elem_of_In in H. simpl in H. intuition.
Qed.

Lemma sample_store_below_ff (k : Key) : k ∈ sample_store -> key_lt k key_ff.
Proof. intros H. destruct (sample_store_cases k H) as [-> | ->]; reflexivity. Qed.

Lemma sample_item_prefix (k : Key) :
  k ∈ sample_store -> exists s, k = sample_decode k ++ s.
Proof. intros _. exists []. unfold sample_decode. now rewrite app_nil_r. Qed.

Lemma sample_item_nonempty (k : Key) : k ∈ sample_store -> sample_decode k <> [].
Proof. intros H. destruct (sample_store_cases k H) as [-> | ->]; discriminate. Qed.

Lemma sample_item_delimited (k1 k2 : Key) :
  k1 ∈ sample_store -> k2 ∈ sample_store ->
  (exists s, k2 = sample_decode k1 ++ s) -> sample_decode k2 = sample_decode k1.
Proof.
  intros H1 H2 [s Hs]. unfold sample_decode in *.
  destruct (sample_store_cases k1 H1) as [-> | ->],
           (sample_store_cases k2 H2) as [-> | ->];
    try reflexivity; discriminate.
Qed.

(** The table scan of the sample collection sends its first document in
    two turns of its loop. *)
Lemma sample_run :
  pipe_run sample_decode sample_decode (fun k => k) sample_scan0
           [sample_doc [x61]] sample_scan1.
Proof.
  change [sample_doc [x61]]
    with (sent_docs (@Quiet (ScanReturnedContext Key))
          ++ sent_docs (Send (sample_doc [x61])) ++ []).
  eapply run_step; [apply step_pkscan; reflexivity|].
  eapply run_step; [apply step_pkscan; reflexivity|].
  apply run_nil.
Qed.

Lemma sample_execute :
  @execute Key ScanTable sample_store [] new_PlanCheckpoint
  = Some (sample_scan0, sample_started).
Proof. vm_compute. reflexivity. Qed.

(** The scan keys of the sample table scan after its first document. *)
Lemma scan_keys_increasing_in_bounds_witness :
  Forall (fun sent : list (ScanReturnedContext Key) =>
            StronglySorted key_lt (map scanKey sent)
            /\ Forall (fun d => scanId d = scansAdded (@new_PlanCheckpoint Key)
                                /\ in_range (getBounds sample_started (scanId d))
                                            (scanKey d))
                      sent)
         (pipe_outputs sample_scan1).
Proof.
  apply (scan_keys_increasing_in_bounds sample_decode sample_decode (fun k => k)
           ScanTable sample_store [] new_PlanCheckpoint
           sample_started sample_scan0 sample_scan1
           [sample_doc [x61]]).
  - exact sample_store_sorted.
  - constructor.
  - exact sample_execute.
  - exact sample_run.
Defined.

(** [stopAndCheckpoint] at the sample checkpoint: one scan, one integer
    state, a running table scan whose last key is "a". *)
Lemma stopAndCheckpoint_resumes_from_split_witness :
  exists stopped rest,
    stopAndCheckpoint sample_decode sample_checkpoint = Some (stopped, rest)
    /\ scans rest = [mkScanState (KeyRangeRef [x62] key_ff) key_ff]
    /\ states rest = [new_IntState 3]
    /\ exists cpw,
      cancel_all sample_decode (set_boundsWanted sample_checkpoint true)
                 (ops sample_checkpoint) = Some cpw
      /\ length (scans rest) = length (scans sample_checkpoint)
      /\ (forall i sc, scans sample_checkpoint !! i = Some sc ->
            exists k,
              read_splitBound cpw (Z.of_nat i) = Some k
              /\ scans rest !! i =
                   Some (mkScanState (KeyRangeRef k (range_end (bounds sc))) key_ff)
              /\ (Z.of_nat i ∉ concat (map actor_targets (ops sample_checkpoint)) ->
                  k = split sc
                  /\ (split sc = key_ff ->
                      forall store lo,
                        let r := scan_range lo key_ff
                                   (KeyRangeRef k (range_end (bounds sc))) in
                        getDescendants store (fst r) (snd r) = [])))
      /\ length (states rest) = length (states sample_checkpoint)
      /\ (forall i st, states sample_checkpoint !! i = Some st ->
            exists st', states rest !! i = Some st'
                        /\ st_begin st' = st_split st)
      /\ boundsWanted rest = false
      /\ boundsWanted stopped = false
      /\ ops stopped = [].
Proof.
  do 2 eexists. split; [vm_compute; reflexivity|].
  split; [reflexivity|]. split; [reflexivity|].
  apply (stopAndCheckpoint_resumes_from_split sample_decode sample_checkpoint).
  vm_compute. reflexivity.
Defined.

(** C5 at a document with the values "a" and "c" and the primary key "9",
    under the upper bound 0xFF. *)
Lemma simpleWouldBeLast_largest_value_witness :
  let values := [[x61]; [x63]] in
  let pk := [x39] in
  prefix_code values
  /\ In [x63] values
  /\ key_lt ([x63] ++ pk) key_ff
  /\ (simpleWouldBeLast values ([x63] ++ pk) key_ff = true
      <-> largest_below values key_ff [x63])
  /\ ((forall v, In v values -> key_lt v key_ff -> key_lt (v ++ pk) key_ff) ->
      (largest_below values key_ff [x63]
       <-> largest_below (entries_of values pk) key_ff ([x63] ++ pk))).
Proof.
  cbv zeta.
  assert (Hpc : prefix_code [[x61]; [x63]]).
  { intros v v' s [<-|[<-|[]]] [<-|[<-|[]]] H; simpl in H;
      try discriminate; now injection H. }
  split; [exact Hpc|]. split; [simpl; auto|]. split; [reflexivity|].
  apply (simpleWouldBeLast_largest_value [[x61]; [x63]] [x39] key_ff Hpc [x63]).
  - simpl; auto.
  - reflexivity.
Defined.

(** C7 at three input documents and limit = 2. *)
Lemma doUpdate_reads_at_least_one_witness :
  let d1 : ScanReturnedContext Z := mkDoc 1 0 [x61] in
  let d2 : ScanReturnedContext Z := mkDoc 2 0 [x62] in
  let d3 : ScanReturnedContext Z := mkDoc 3 0 [x63] in
  (exists st, doUpdate_run 2 None (doUpdate_start [d1; d2; d3] 0) st
              /\ u_phase st = UDone)
  /\ forall st, doUpdate_run 2 None (doUpdate_start [d1; d2; d3] 0) st ->
       u_phase st = UDone ->
       u_updated st = [d1; d2]
       /\ u_input st = [d3]
       /\ u_sent st = [d1; d2]
       /\ u_inserted st = false.
Proof.
  cbv zeta.
  exact (doUpdate_reads_at_least_one 2 None
           [mkDoc 1 0 [x61]; mkDoc 2 0 [x62]; mkDoc 3 0 [x63]]).
Defined.

(** C1, counterexample: a sort above the table scan of the sample
    collection, stopped after its first document.  The checkpoint returned
    holds no scan; executed again under it, the sort drains the sub-plan
    under a new inner checkpoint and sends both documents, so that the
    first document is sent twice. *)
Lemma sort_resumed_repeats_documents :
  let exec := execute_sort sample_decode sample_decode (fun k => k) (fun l => l)
                ScanTable sample_store [] in
  let d1 : ScanReturnedContext Key := mkDoc [x61] (-1) [] in
  let d2 : ScanReturnedContext Key := mkDoc [x62] (-1) [] in
  exists t0 cp1 t1 stopped rest t0' cp1',
    exec new_PlanCheckpoint = Some (t0, cp1)
    /\ doSort_remaining t0 = [d1; d2]
    /\ doSort_step t0 = Some (t1, d1)
    /\ stopAndCheckpoint sample_decode cp1 = Some (stopped, rest)
    /\ scans rest = []
    /\ exec rest = Some (t0', cp1')
    /\ doSort_remaining t0' = [d1; d2]
    /\ [d1] ++ doSort_remaining t0' <> doSort_remaining t0.
Proof.
  cbv zeta. do 7 eexists.
  split; [vm_compute; reflexivity|].
  split; [reflexivity|].
  split; [reflexivity|].
  split; [vm_compute; reflexivity|].
  split; [reflexivity|].
  split; [vm_compute; reflexivity|].
  split; [reflexivity|].
  discriminate.
Qed.

(** * Further properties of the checkpoint *)

Section CheckpointBounds.
Context {Ctx : Type}.
Local Abbreviation Doc := (ScanReturnedContext Ctx).
Local Abbreviation Checkpoint := (PlanCheckpoint Ctx).
Variable decode_item0 : Key -> Key.

Lemma resize_scans_length (l : list ScanState) (n : nat) :
  (length l <= n)%nat -> length (resize_scans l n) = n.
Proof.
  intros H. unfold resize_scans.
  rewrite length_app, length_take, length_replicate. lia.
Qed.

(** The scan id [addScan] returns designates a scan of the checkpoint. *)
Lemma addScan_valid (cp : Checkpoint) :
  0 <= scansAdded cp -> valid_scan (snd (addScan cp)) (fst (addScan cp)).
Proof.
  intros H. unfold addScan, valid_scan. simpl.
  destruct (Z.of_nat (length (scans cp)) <=? scansAdded cp) eqn:E.
  - apply Z.leb_le in E. rewrite resize_scans_length by lia. lia.
  - apply Z.leb_gt in E. lia.
Qed.

Lemma same_but_splits_getBounds (cp cp' : Checkpoint) (s : Z) :
  same_but_splits cp cp' -> getBounds cp' s = getBounds cp s.
Proof.
  intros (_ & H & _). unfold getBounds.
  assert (Hl : length (scans cp') = length (scans cp)).
  { apply (f_equal length) in H. now rewrite !length_map in H. }
  rewrite Hl. destruct (Z.of_nat (length (scans cp)) <=? s); [reflexivity|].
  pose proof (f_equal (fun l => l !! Z.to_nat s) H) as Hi. simpl in Hi.
  rewrite !list_lookup_fmap in Hi.
  destruct (scans cp' !! Z.to_nat s), (scans cp !! Z.to_nat s);
    simpl in Hi; congruence.
Qed.

(** addScan and splitBound: the id a scan obtains from [addScan] passes
    the assertion of [splitBound]; the key written there is the one read
    back, the split keys of the other scans and all the bounds are left as
    they were. *)
Theorem addScan_splitBound_round_trip (cp : Checkpoint) (k : Key) :
  0 <= scansAdded cp ->
  exists cp2,
    write_splitBound (snd (addScan cp)) (fst (addScan cp)) k = Some cp2
    /\ read_splitBound cp2 (fst (addScan cp)) = Some k
    /\ (forall s, s <> fst (addScan cp) ->
          read_splitBound cp2 s = read_splitBound (snd (addScan cp)) s)
    /\ (forall s, getBounds cp2 s = getBounds (snd (addScan cp)) s).
Proof.
  intros H.
  destruct (write_splitBound_valid _ _ k (addScan_valid cp H)) as (cp2 & Hw & Hs & Hr).
  exists cp2. split; [exact Hw|]. split; [|split].
  - rewrite Hr, Z.eqb_refl. reflexivity.
  - intros s Hne. rewrite Hr. destruct (Z.eqb_spec s (fst (addScan cp))); congruence.
  - intros s. now apply same_but_splits_getBounds.
Qed.

Lemma cancel_all_unwanted (cp : Checkpoint) (l : list (Actor Ctx)) :
  boundsWanted cp = false -> cancel_all decode_item0 cp l = Some cp.
Proof.
  intros Hb. induction l as [|a l IH]; simpl; [reflexivity|].
  assert (Ha : cancel_actor decode_item0 cp a = Some cp).
  { destruct a as [| |? ?|? ?|?|?|?|?|[d|] any|? ?]; simpl;
      unfold splitBoundWanted; rewrite ?Hb; reflexivity. }
  now rewrite Ha.
Qed.

(** stop() outside stopAndCheckpoint: with boundsWanted unset, whatever
    operations are registered, [stop] succeeds, writes no split key,
    keeps bounds and integer states, and leaves no operation and both
    counters at zero. *)
Theorem stop_writes_no_split (cp : Checkpoint) :
  boundsWanted cp = false ->
  stop decode_item0 cp = Some (mkCheckpoint false (scans cp) (states cp) 0 0 []).
Proof.
  intros Hb. unfold stop. rewrite (cancel_all_unwanted cp (ops cp) Hb).
  now rewrite Hb.
Qed.

(** stopAndCheckpoint on a checkpoint already stopped: the checkpoint
    left behind by [stopAndCheckpoint] gives, when stopped again, itself
    and the same new checkpoint. *)
Theorem stopAndCheckpoint_again (cp stopped rest : Checkpoint) :
  stopAndCheckpoint decode_item0 cp = Some (stopped, rest) ->
  stopAndCheckpoint decode_item0 stopped = Some (stopped, rest).
Proof.
  unfold stopAndCheckpoint, stop. simpl.
  destruct (cancel_all decode_item0 (set_boundsWanted cp true) (ops cp)) as [cpw|];
    [|discriminate].
  intros [= <- <-]. reflexivity.
Qed.

(** boundToStopPoint and stopAndCheckpoint split the range of a scan in
    two: when the split key of a scan lies within its bounds, a key is in
    the old bounds exactly when it is in the bounds [boundToStopPoint]
    leaves or in those of the checkpoint [stopAndCheckpoint] returns, and
    never in both. *)
Theorem stop_point_partitions_bounds (cp stopped rest : Checkpoint)
    (i : nat) (sc : ScanState) (k : Key) :
  stopAndCheckpoint decode_item0 cp = Some (stopped, rest) ->
  scans stopped !! i = Some sc ->
  key_le (range_begin (bounds sc)) (split sc) ->
  key_le (split sc) (range_end (bounds sc)) ->
  (in_range (getBounds stopped (Z.of_nat i)) k
   <-> in_range (getBounds (boundToStopPoint stopped) (Z.of_nat i)) k
       \/ in_range (getBounds rest (Z.of_nat i)) k)
  /\ ~ (in_range (getBounds (boundToStopPoint stopped) (Z.of_nat i)) k
        /\ in_range (getBounds rest (Z.of_nat i)) k).
Proof.
  unfold stopAndCheckpoint, stop. simpl.
  destruct (cancel_all decode_item0 (set_boundsWanted cp true) (ops cp)) as [cpw|];
    [|discriminate].
  intros [= <- <-]. simpl. intros Hsc Hb He.
  pose proof (lookup_lt_Some _ _ _ Hsc) as Hlt.
  assert (Hg : forall l : list ScanState,
             length l = length (scans cpw) ->
             (Z.of_nat (length l) <=? Z.of_nat i) = false).
  { intros l Hl. apply Z.leb_gt. lia. }
  unfold getBounds, boundToStopPoint, in_range. simpl.
  rewrite (Hg _ eq_refl), !Hg by (now rewrite length_map).
  rewrite Nat2Z.id, !list_lookup_fmap, Hsc. simpl.
  split; [split|].
  - intros [H1 H2]. destruct (key_ltb k (split sc)) eqn:E.
    + left. split; [exact H1|now apply key_ltb_lt].
    + right. split; [now apply key_ltb_ge|exact H2].
  - intros [[H1 H2]|[H1 H2]]; split; auto.
    + eapply key_lt_le_trans; eauto.
    + eapply key_le_trans; eauto.
  - intros [[_ H1] [H2 _]]. apply (key_lt_irrefl k).
    eapply key_lt_le_trans; eauto.
Qed.

(** The cancellation handler of scanAndBuildIndex: the documents still
    queued in the input are written first, the deque next, both from last
    to first, so that the split key of a scan ends as the scan key of its
    earliest document among the deque followed by the queued ones. *)
Theorem build_index_cancel_earliest (cp : Checkpoint)
    (leftInStream futures : list Doc) :
  boundsWanted cp = true ->
  Forall (fun d => valid_scan cp (scanId d)) (futures ++ leftInStream) ->
  exists cp',
    cancel_actor decode_item0 cp (ActBuildIndex leftInStream futures) = Some cp'
    /\ same_but_splits cp cp'
    /\ forall s, read_splitBound cp' s =
                 match find (fun d => scanId d =? s) (futures ++ leftInStream) with
                 | Some d => Some (scanKey d)
                 | None => read_splitBound cp s
                 end.
Proof.
  intros Hb Hv. apply Forall_app in Hv as [Hf Hl].
  simpl. unfold splitBoundWanted. rewrite Hb.
  destruct (write_pending_spec leftInStream cp Hl) as (cp1 & -> & Hs1 & Hr1).
  assert (Hf1 : Forall (fun d => valid_scan cp1 (scanId d)) futures).
  { eapply Forall_impl; [exact Hf|]. intros d Hd.
    now apply (same_but_splits_valid cp cp1). }
  destruct (write_pending_spec futures cp1 Hf1) as (cp2 & -> & Hs2 & Hr2).
  exists cp2. split; [reflexivity|].
  split; [eapply same_but_splits_trans; eauto|].
  intros s. rewrite Hr2, Hr1, find_app. unfold split_after, first_of_scan.
  destruct (find _ futures); reflexivity.
Qed.
End CheckpointBounds.

(** * SkipPlan *)

Section SkipRuns.
Context {Ctx : Type}.
Local Abbreviation Doc := (ScanReturnedContext Ctx).
Local Abbreviation Checkpoint := (PlanCheckpoint Ctx).
Variable decode_item0 : Key -> Key.

Lemma dec64_pos (x : Z) : 0 < x -> dec64 x = x - 1.
Proof.
  intros H. unfold dec64, int64_min.
  destruct (Z.eqb_spec x (- 2 ^ 63)); [lia|reflexivity].
Qed.

Lemma doSkip_zero (input : list Doc) : doSkip 0 input = (input, 0).
Proof.
  induction input as [|d l IH]; simpl; [reflexivity|]. now rewrite IH.
Qed.

(** doSkip with a skip that is not negative: the first [skip] documents
    are dropped and the others sent on in their order; the counter is
    left at what remained to skip when the input was shorter. *)
Theorem doSkip_drops_first (skip : Z) (input : list Doc) :
  0 <= skip ->
  doSkip skip input
  = (drop (Z.to_nat skip) input, Z.max 0 (skip - Z.of_nat (length input))).
Proof.
  revert skip. induction input as [|d l IH]; intros skip H.
  - simpl. rewrite drop_nil. f_equal. lia.
  - cbn [doSkip]. destruct (Z.eqb_spec skip 0) as [->|Hne].
    + rewrite doSkip_zero. simpl. f_equal.
    + rewrite dec64_pos by lia. rewrite IH by lia.
      replace (Z.to_nat skip) with (S (Z.to_nat (skip - 1))) by lia.
      simpl. f_equal. lia.
Qed.

(** doSkip with a negative skip: the counter moves away from zero and
    nothing is sent, for as many documents as the counter can count
    without leaving the range of [int64_t]. *)
Theorem doSkip_negative_sends_nothing (skip : Z) (input : list Doc) :
  skip < 0 ->
  int64_min <= skip - Z.of_nat (length input) ->
  doSkip skip input = ([], skip - Z.of_nat (length input)).
Proof.
  revert skip. induction input as [|d l IH]; intros skip Hs Hl.
  - simpl. f_equal. lia.
  - cbn [doSkip]. simpl length in Hl.
    destruct (Z.eqb_spec skip 0) as [->|Hne]; [lia|].
    unfold dec64. destruct (Z.eqb_spec skip int64_min) as [->|Hm]; [lia|].
    rewrite IH by lia. f_equal. simpl length. lia.
Qed.

(** What is sent for an input handled in two parts: the counter left by
    the first part is the one the second part starts from. *)
Lemma doSkip_app (skip : Z) (i1 i2 : list Doc) :
  doSkip skip (i1 ++ i2)
  = (fst (doSkip skip i1) ++ fst (doSkip (snd (doSkip skip i1)) i2),
     snd (doSkip (snd (doSkip skip i1)) i2)).
Proof.
  revert skip. induction i1 as [|d l IH]; intros skip.
  - simpl. now destruct (doSkip skip i2).
  - cbn [doSkip app]. destruct (skip =? 0).
    + rewrite IH. destruct (doSkip skip l) as [o f]. reflexivity.
    + apply IH.
Qed.

(** SkipPlan stopped and resumed: the counter of doSkip is the integer
    state of the checkpoint; [stopAndCheckpoint] hands it over, and the
    execution resumed on the rest of the input sends what the
    uninterrupted one would still have sent, whatever default the new
    call to [getIntState] is given. *)
Theorem doSkip_resumes_counter (cp cp1 stopped rest : Checkpoint)
    (skip skip' : Z) (i1 i2 o1 : list Doc) :
  states cp = [] -> stateAdded cp = 0 ->
  doSkip_under cp skip i1 = Some (o1, cp1) ->
  stopAndCheckpoint decode_item0 cp1 = Some (stopped, rest) ->
  exists o2 cp2,
    doSkip_under rest skip' i2 = Some (o2, cp2)
    /\ o1 ++ o2 = fst (doSkip skip (i1 ++ i2)).
Proof.
  intros Hst Hsa Hrun Hstop.
  unfold doSkip_under, getIntState in Hrun. rewrite Hst, Hsa in Hrun.
  simpl in Hrun. destruct (doSkip skip i1) as [o f] eqn:E1.
  injection Hrun as <- <-.
  unfold stopAndCheckpoint, stop in Hstop. simpl in Hstop.
  match type of Hstop with
  | match match cancel_all _ ?c ?l with _ => _ end with _ => _ end = _ =>
      destruct (cancel_all decode_item0 c l) as [cpw|] eqn:Ec; [|discriminate];
      destruct (cancel_all_other decode_item0 l c cpw 0 Ec) as [(_ & _ & Hs & _) _]
  end.
  simpl in Hs. injection Hstop as <- <-.
  unfold doSkip_under, getIntState. simpl. rewrite Hs. simpl.
  destruct (doSkip f i2) as [o2 f2] eqn:E2.
  eexists. eexists. split; [reflexivity|].
  rewrite doSkip_app, E1. simpl. now rewrite E2.
Qed.
End SkipRuns.

(** doSkip at five documents and skip = 2. *)
Lemma doSkip_drops_first_witness :
  let input : list (ScanReturnedContext Z) :=
    [mkDoc 1 0 [x61]; mkDoc 2 0 [x62]; mkDoc 3 0 [x63]] in
  0 <= 2
  /\ doSkip 2 input = (drop (Z.to_nat 2) input, Z.max 0 (2 - Z.of_nat (length input))).
Proof.
  cbv zeta. split; [lia|].
  apply (doSkip_drops_first 2 [mkDoc 1 0 [x61]; mkDoc 2 0 [x62]; mkDoc 3 0 [x63]]).
  lia.
Defined.

(** doSkip at skip = -1 and two documents. *)
Lemma doSkip_negative_sends_nothing_witness :
  let input : list (ScanReturnedContext Z) := [mkDoc 1 0 [x61]; mkDoc 2 0 [x62]] in
  doSkip (-1) input = ([], -1 - Z.of_nat (length input)).
Proof.
  cbv zeta.
  apply (doSkip_negative_sends_nothing (-1) [mkDoc 1 0 [x61]; mkDoc 2 0 [x62]]).
  - lia.
  - unfold int64_min. simpl. lia.
Defined.

(** A skip of 2 stopped after one document and resumed on two more. *)
Lemma doSkip_resumes_counter_witness :
  let d1 : ScanReturnedContext Key := mkDoc [x61] 0 [x61] in
  let d2 : ScanReturnedContext Key := mkDoc [x62] 0 [x62] in
  let d3 : ScanReturnedContext Key := mkDoc [x63] 0 [x63] in
  exists cp1 stopped rest o2 cp2,
    doSkip_under new_PlanCheckpoint 2 [d1] = Some ([], cp1)
    /\ stopAndCheckpoint sample_decode cp1 = Some (stopped, rest)
    /\ doSkip_under rest 2 [d2; d3] = Some (o2, cp2)
    /\ [] ++ o2 = fst (doSkip 2 ([d1] ++ [d2; d3])).
Proof.
  cbv zeta. eexists. eexists. eexists.
  match goal with
  | |- exists o2 cp2, ?A /\ ?B /\ _ =>
      assert (Ha : A) by reflexivity; assert (Hb : B) by reflexivity
  end.
  destruct (doSkip_resumes_counter sample_decode new_PlanCheckpoint _ _ _ 2 2
              [mkDoc [x61] 0 [x61]] [mkDoc [x62] 0 [x62]; mkDoc [x63] 0 [x63]] []
              eq_refl eq_refl Ha Hb) as (o2 & cp2 & H1 & H2).
  exists o2, cp2. auto.
Defined.

(** * Index deduplication: the edges of the test *)

Lemma last_below_none (values : list Key) (ub : Key) :
  (forall v, In v values -> key_le ub v) -> last_below (key_sort values) ub = [].
Proof.
  intros H. unfold last_below.
  destruct (find _ (rev (key_sort values))) as [s|] eqn:E; [|reflexivity].
  apply find_some in E as [Hin Hlt].
  apply in_rev, key_sort_In, H in Hin. apply key_ltb_lt in Hlt.
  apply key_not_lt_le in Hin. contradiction.
Qed.

(** simpleWouldBeLast when no value of the document is below the upper
    bound: [last] stays the empty string and the test passes on every
    scan key. *)
Theorem simpleWouldBeLast_none_below (values : list Key) (scanKey ub : Key) :
  (forall v, In v values -> key_le ub v) ->
  simpleWouldBeLast values scanKey ub = true.
Proof.
  intros H. unfold simpleWouldBeLast.
  destruct (length values =? 1)%nat; [reflexivity|].
  cbv zeta. rewrite (last_below_none values ub H). reflexivity.
Qed.

(** simpleWouldBeLast over the entries of one document: when the encoded
    values are self-delimiting and one of them is below the upper bound,
    there is one value, the largest below the bound, at whose entry alone
    the test passes. *)
Theorem simpleWouldBeLast_passes_once (values : list Key) (pk ub : Key) :
  prefix_code values ->
  (exists v, In v values /\ key_lt v ub) ->
  exists m,
    largest_below values ub m
    /\ forall v, In v values ->
         (simpleWouldBeLast values (v ++ pk) ub = true <-> v = m).
Proof.
  intros Hpc (w & Hw & Hwlt).
  pose proof (last_below_largest values ub w Hw Hwlt) as Hl.
  exists (last_below (key_sort values) ub). split; [exact Hl|].
  intros v Hv. unfold simpleWouldBeLast.
  destruct (length values =? 1)%nat eqn:E.
  - apply Nat.eqb_eq in E. destruct values as [|a [|b l]]; try discriminate.
    destruct Hv as [<-|[]]. destruct Hl as ([<-|[]] & _).
    split; reflexivity.
  - cbv zeta. destruct Hl as (Hin & _).
    destruct (startsWith (v ++ pk) (last_below (key_sort values) ub)) eqn:Hsw.
    + split; [intros _|reflexivity].
      symmetry. now apply (entry_value values pk Hpc v).
    + split; [discriminate|]. intros ->.
      assert (H : startsWith (last_below (key_sort values) ub ++ pk)
                             (last_below (key_sort values) ub) = true)
        by (apply startsWith_prefix; now exists pk).
      congruence.
Qed.

Lemma product_keys_single (vs : list Key) : product_keys [vs] = vs.
Proof.
  simpl. induction vs as [|v vs IH]; simpl; [reflexivity|].
  now rewrite app_nil_r, IH.
Qed.

(** compoundWouldBeLast on an index of one field is simpleWouldBeLast. *)
Theorem compoundWouldBeLast_single_field (values : list Key) (scanKey ub : Key) :
  compoundWouldBeLast [values] scanKey ub = simpleWouldBeLast values scanKey ub.
Proof.
  unfold compoundWouldBeLast, simpleWouldBeLast.
  rewrite product_keys_single. simpl. now rewrite Nat.add_0_r.
Qed.

(** The test at a document whose values "x" and "y" are not below the
    bound "a". *)
Lemma simpleWouldBeLast_none_below_witness :
  simpleWouldBeLast [[x78]; [x79]] [x78; x31] [x61] = true.
Proof.
  apply (simpleWouldBeLast_none_below [[x78]; [x79]] [x78; x31] [x61]).
  intros v [<-|[<-|[]]]; discriminate.
Defined.

(** The test at the values "a" and "c" under the bound 0xFF. *)
Lemma simpleWouldBeLast_passes_once_witness :
  exists m,
    largest_below [[x61]; [x63]] key_ff m
    /\ forall v, In v [[x61]; [x63]] ->
         (simpleWouldBeLast [[x61]; [x63]] (v ++ [x39]) key_ff = true <-> v = m).
Proof.
  apply (simpleWouldBeLast_passes_once [[x61]; [x63]] [x39] key_ff).
  - intros v v' s [<-|[<-|[]]] [<-|[<-|[]]] H; simpl in H;
      try discriminate; now injection H.
  - exists [x61]. split; [now left|reflexivity].
Defined.

(** * unstrincObjectId *)

Lemma strinc_snoc (l : Key) (b b' : byte) :
  Byte.of_N (Byte.to_N b + 1) = Some b' -> strinc (l ++ [b]) = Some (l ++ [b']).
Proof.
  intros H. induction l as [|a l IH]; simpl.
  - now rewrite H.
  - now rewrite IH.
Qed.

Lemma byte_dec_succ (b b' : byte) :
  Byte.of_N (Byte.to_N b + 1) = Some b' -> byte_dec b' = b.
Proof.
  intros H. pose proof (Byte.to_N_bounded b') as Hb.
  apply Byte.to_of_N in H. unfold byte_dec. rewrite H.
  replace ((Byte.to_N b + 1 + 255) mod 256)%N with (Byte.to_N b).
  - now rewrite Byte.of_to_N.
  - assert (Hlt : (Byte.to_N b < 256)%N) by lia.
    replace (Byte.to_N b + 1 + 255)%N with (Byte.to_N b + 1 * 256)%N by lia.
    rewrite N.Div0.mod_add. symmetry. now apply N.mod_small.
Qed.

Lemma byte_dec_lt (b : byte) : b <> x00 -> byte_compare (byte_dec b) b = Lt.
Proof.
  intros Hne. pose proof (Byte.to_N_bounded b) as Hb.
  assert (Hpos : (0 < Byte.to_N b)%N).
  { destruct (N.eq_0_gt_0_cases (Byte.to_N b)) as [E|E]; [|exact E].
    exfalso. apply Hne.
    assert (H : Some b = Some x00).
    { rewrite <- (Byte.of_to_N b), E. reflexivity. }
    now inversion H. }
  assert (Hm : ((Byte.to_N b + 255) mod 256 = Byte.to_N b - 1)%N).
  { replace (Byte.to_N b + 255)%N with (Byte.to_N b - 1 + 1 * 256)%N by lia.
    rewrite N.Div0.mod_add. apply N.mod_small. lia. }
  unfold byte_dec, byte_compare. rewrite Hm.
  destruct (Byte.of_N (Byte.to_N b - 1)) as [c|] eqn:E.
  - apply Byte.to_of_N in E. rewrite E. apply N.compare_lt_iff. lia.
  - apply Byte.of_N_None_iff in E. lia.
Qed.

Lemma take_snoc_length (l : Key) (b : byte) :
  take (length (l ++ [b]) - 1) (l ++ [b]) = l
  /\ nth (length (l ++ [b]) - 1) (l ++ [b]) x00 = b.
Proof.
  rewrite length_app. simpl.
  replace (length l + 1 - 1)%nat with (length l) by lia. split.
  - now rewrite take_app_length.
  - rewrite app_nth2 by lia. now rewrite Nat.sub_diag.
Qed.

Section UnstrincRoundTrip.
Variable type_code : byte -> DVTypeCode.

(** unstrincObjectId undoes strinc: for a key [r] that does not end in
    0xFF, whose successor [strinc r] begins with the code of a number, an
    object id or a date and does not have the length at which a byte is
    cut off (12, 14 and 10), [unstrincObjectId (strinc r)] is [r]. *)
Theorem unstrincObjectId_undoes_strinc (r k : Key) (first : byte) (rest_ : Key) :
  strinc r = Some k ->
  last r <> Some xff -> r <> [] ->
  k = first :: rest_ ->
  match type_code first with
  | NUMBER => length k <> 12%nat
  | OID => length k <> 14%nat
  | DATE => length k <> 10%nat
  | OTHER_TYPE => False
  end ->
  unstrincObjectId type_code k = Some (Returned r).
Proof.
  intros Hs Hl Hne Hk Ht.
  destruct (exists_last Hne) as (l & b & ->).
  rewrite last_snoc in Hl.
  destruct (Byte.of_N (Byte.to_N b + 1)) as [b'|] eqn:Eb.
  - rewrite (strinc_snoc l b b' Eb) in Hs. injection Hs as Hk'.
    destruct (take_snoc_length l b') as [Htk Hnth].
    rewrite Hk. unfold unstrincObjectId. rewrite <- Hk, <- Hk'.
    rewrite <- Hk' in Ht.
    assert (Hr : Some (Returned (take (length (l ++ [b']) - 1) (l ++ [b'])
                                 ++ [byte_dec (nth (length (l ++ [b']) - 1)
                                                   (l ++ [b']) x00)]))
                 = Some (Returned (l ++ [b]))).
    { now rewrite Htk, Hnth, (byte_dec_succ b b' Eb). }
    destruct (type_code first); try contradiction; cbv zeta;
      match goal with
      | |- context [(?n =? ?m)%nat] =>
          destruct (Nat.eqb_spec n m) as [E|E]; [contradiction|]
      end; simpl; exact Hr.
  - exfalso. apply Hl. f_equal.
    apply Byte.of_N_None_iff in Eb. pose proof (Byte.to_N_bounded b) as Hb.
    assert (H : Some b = Some xff).
    { rewrite <- (Byte.of_to_N b). replace (Byte.to_N b) with 255%N by lia.
      reflexivity. }
    now inversion H.
Qed.

(** unstrincObjectId gives a key below its argument whenever the argument
    does not end in a zero byte. *)
Theorem unstrincObjectId_below (k r : Key) :
  unstrincObjectId type_code k = Some (Returned r) ->
  last k <> Some x00 ->
  key_lt r k.
Proof.
  intros Hu Hl. destruct k as [|first rest_]; [discriminate|].
  assert (Hne : first :: rest_ <> []) by discriminate.
  destruct (exists_last Hne) as (l & b & Hk).
  unfold unstrincObjectId in Hu. rewrite Hk in Hu, Hl.
  rewrite last_snoc in Hl. rewrite Hk.
  destruct (take_snoc_length l b) as [Htk Hnth].
  assert (Hcut : key_lt l (l ++ [b])).
  { unfold key_lt. rewrite <- (app_nil_r l) at 1. now rewrite key_compare_app. }
  assert (Hdec : key_lt (l ++ [byte_dec b]) (l ++ [b])).
  { unfold key_lt. rewrite key_compare_app. simpl.
    rewrite byte_dec_lt; [reflexivity|]. intros ->. now apply Hl. }
  rewrite Htk, Hnth in Hu.
  destruct (type_code first); try discriminate; cbv zeta in Hu;
    match type of Hu with
    | context [(?n =? ?m)%nat] => destruct (n =? m)%nat
    end; simpl in Hu; injection Hu as <-; assumption.
Qed.

(** unstrincObjectId refuses the other types: a key that begins with
    another code gives unsupported_operation whatever follows. *)
Lemma unstrincObjectId_unsupported (first : byte) (rest_ : Key) :
  type_code first = OTHER_TYPE ->
  unstrincObjectId type_code (first :: rest_) = Some unsupported_operation.
Proof.
  intros H. unfold unstrincObjectId. now rewrite H.
Qed.
End UnstrincRoundTrip.

(** * InsertPlan *)

Section InsertRuns.
Context {Ctx : Type}.
Local Abbreviation Doc := (ScanReturnedContext Ctx).
Variable docs : list Ctx.
Local Abbreviation step := (@doInsert_step Ctx docs).
Local Abbreviation run := (@doInsert_run Ctx docs).
Local Abbreviation inserted := (fun c : Ctx => mkDoc c (-1) []).

Lemma insert_inv_start : insert_inv docs doInsert_start.
Proof. unfold insert_inv; simpl. repeat split; auto with lia. Qed.

Lemma insert_step_inv (st st' : InsertState Ctx) :
  insert_inv docs st -> step st st' -> insert_inv docs st'.
Proof.
  intros [Hp Hf] Hs.
  destruct Hs as [i f sent c Hc|i f sent c Hi|i f sent Hi|i f sent j c Hc|i f sent j Hj];
    unfold insert_inv in *; simpl in *.
  - destruct Hp as [Hi He]. pose proof (lookup_lt_Some _ _ _ Hc) as Hlt.
    repeat split; [lia| |exact Hf].
    rewrite app_assoc, He. now rewrite (take_S_r _ _ _ Hc).
  - destruct Hp as [_ He]. split.
    + split; [lia|]. rewrite map_app. simpl. now rewrite <- app_assoc.
    + apply Forall_app. split; [exact Hf|]. repeat constructor.
  - destruct Hp as [Hle He]. repeat split; [lia| |exact Hf].
    rewrite drop_0, He. apply take_ge. lia.
  - destruct Hp as [Hle He]. pose proof (lookup_lt_Some _ _ _ Hc) as Hlt. split.
    + split; [lia|]. rewrite map_app. simpl. rewrite <- app_assoc. simpl.
      now rewrite <- (drop_S _ _ _ Hc).
    + apply Forall_app. split; [exact Hf|]. repeat constructor.
  - destruct Hp as [Hle He]. split; [|exact Hf].
    rewrite drop_ge in He by lia. now rewrite app_nil_r in He.
Qed.

Lemma insert_run_inv (st st' : InsertState Ctx) :
  insert_inv docs st -> run st st' -> insert_inv docs st'.
Proof.
  intros Hi Hr. induction Hr as [|st st' st'' Hs _ IH]; [exact Hi|].
  apply IH. now apply insert_step_inv with st.
Qed.

Lemma inserted_docs (sent : list Doc) :
  Forall (fun d => scanId d = -1 /\ scanKey d = []) sent ->
  sent = map inserted (map docCx sent).
Proof.
  induction 1 as [|[c i k] l [Hi Hk] _ IH]; simpl in *; [reflexivity|].
  subst. now rewrite <- IH.
Qed.

Lemma insert_terminates (n : nat) (st : InsertState Ctx) :
  (insert_measure docs st <= n)%nat -> (ins_i st <= length docs)%nat ->
  exists st', run st st' /\ ins_phase st' = IDone.
Proof.
  revert st. induction n as [|n IH]; intros [i f ph sent] Hm Hi;
    unfold insert_measure in Hm; simpl in *.
  - destruct ph; try lia. exists (mkInsertState i f IDone sent).
    split; [constructor|reflexivity].
  - destruct ph as [|j|].
    + destruct (docs !! i) as [c|] eqn:Ec.
      * pose proof (lookup_lt_Some _ _ _ Ec) as Hlt.
        destruct (IH (mkInsertState (S i) (f ++ [c]) ILoop sent)) as (st' & Hr & Hd).
        { unfold insert_measure; simpl. rewrite length_app. simpl. lia. }
        { simpl. lia. }
        exists st'. split; [|exact Hd].
        eapply ins_run_step; [apply ins_take; exact Ec|exact Hr].
      * apply lookup_ge_None in Ec.
        destruct (IH (mkInsertState i f (IFinal 0) sent)) as (st' & Hr & Hd).
        { unfold insert_measure; simpl. lia. }
        { simpl. lia. }
        exists st'. split; [|exact Hd].
        eapply ins_run_step; [apply ins_break; exact Ec|exact Hr].
    + destruct (f !! j) as [c|] eqn:Ec.
      * pose proof (lookup_lt_Some _ _ _ Ec) as Hlt.
        destruct (IH (mkInsertState i f (IFinal (S j)) (sent ++ [inserted c])))
          as (st' & Hr & Hd).
        { unfold insert_measure; simpl. lia. }
        { simpl. lia. }
        exists st'. split; [|exact Hd].
        eapply ins_run_step; [apply ins_final; exact Ec|exact Hr].
      * apply lookup_ge_None in Ec.
        exists (mkInsertState i f IDone sent). split; [|reflexivity].
        eapply ins_run_step; [apply ins_end; exact Ec|constructor].
    + exists (mkInsertState i f IDone sent). split; [constructor|reflexivity].
Qed.

(** doInsert sends one document for each insert operation, in the order
    of the operations, with the scan id -1 and an empty scan key: every
    run can be completed, what has been sent at any point of a run is a
    beginning of that list, and at the end it is the whole list. *)
Theorem doInsert_sends_each_once :
  (exists st, run doInsert_start st /\ ins_phase st = IDone)
  /\ forall st, run doInsert_start st ->
       (exists later, map inserted docs = ins_sent st ++ later)
       /\ (ins_phase st = IDone -> ins_sent st = map inserted docs).
Proof.
  split.
  - apply (insert_terminates (insert_measure docs doInsert_start)); simpl; lia.
  - intros st Hr.
    pose proof (insert_run_inv _ _ insert_inv_start Hr) as [Hp Hf].
    rewrite (inserted_docs _ Hf). split.
    + destruct (ins_phase st) as [|j|].
      * destruct Hp as [_ He].
        exists (map inserted (ins_f st ++ drop (ins_i st) docs)).
        rewrite <- map_app, app_assoc, He. now rewrite take_drop.
      * destruct Hp as [_ He]. exists (map inserted (drop j (ins_f st))).
        now rewrite <- map_app, He.
      * exists []. now rewrite app_nil_r, Hp.
    + intros Hd. rewrite Hd in Hp. now rewrite Hp.
Qed.
End InsertRuns.

(** * UnionPlan over inputs that end *)

Section UnionMerge.
Context {Ctx : Type}.
Local Abbreviation Doc := (ScanReturnedContext Ctx).
Local Abbreviation frun := (@union_feed_run Ctx).
Local Abbreviation fstep := (@union_feed_step Ctx).

Lemma union_turn_cases (st st' : UnionState Ctx) (a b : list Doc)
    (out : list (Emit Doc)) (o : UnionOutcome) :
  feed_ok (st, a, b) -> doUnion_turn st = Some (st', out, o) ->
  (o = UContinue /\ feed_ok (st', a, b)
   /\ ((out = [] /\ feed_left (st', a, b) = feed_left (st, a, b))
       \/ (exists d, out = [Send d]
             /\ fst (feed_left (st, a, b)) = d :: fst (feed_left (st', a, b))
             /\ snd (feed_left (st, a, b)) = snd (feed_left (st', a, b)))
       \/ (exists d, out = [Send d]
             /\ snd (feed_left (st, a, b)) = d :: snd (feed_left (st', a, b))
             /\ fst (feed_left (st, a, b)) = fst (feed_left (st', a, b)))))
  \/ (o = UThrow end_of_stream /\ out = [SendError end_of_stream]
      /\ feed_left (st, a, b) = ([], [])).
Proof.
  destruct st as [fa fb oa ob]. unfold feed_ok, feed_left, doUnion_turn. simpl.
  intros [Ha Hb].
  destruct fa as [|da|ea|]; simpl in Ha.
  - destruct fb as [|db|eb|]; simpl in Hb; try discriminate.
    + intros [= <- <- <-]. left. split; [reflexivity|]. split; [now split|].
      right. right. exists db. simpl. auto.
    + destruct Hb as (-> & -> & ->). subst oa. intros [= <- <- <-].
      left. split; [reflexivity|]. simpl. split; [now split|]. left. auto.
  - subst oa. intros [= <- <- <-]. left. split; [reflexivity|].
    split; [now split|]. right. left. exists da. simpl. auto.
  - destruct Ha as (-> & -> & ->). unfold union_catch, union_assert. simpl.
    destruct fb as [|db|eb|]; simpl in Hb; simpl.
    + subst ob. intros [= <- <- <-]. left. split; [reflexivity|].
      simpl. split; [now split|]. left. auto.
    + subst ob. intros [= <- <- <-]. left. split; [reflexivity|].
      simpl. split; [now split|]. left. auto.
    + destruct Hb as (-> & -> & ->). simpl. intros [= <- <- <-]. right. auto.
    + destruct Hb as [-> ->]. intros [= <- <- <-]. right. auto.
  - destruct Ha as [-> ->].
    destruct fb as [|db|eb|]; simpl in Hb; try discriminate.
    + subst ob. intros [= <- <- <-]. left. split; [reflexivity|].
      split; [now split|]. right. right. exists db. simpl. auto.
    + destruct Hb as (-> & -> & ->). unfold union_catch, union_assert. simpl.
      intros [= <- <- <-]. right. auto.
Qed.

Lemma feed_step_cases (x x' : UnionFeed) (out : list (Emit Doc)) :
  feed_ok x -> fstep x out x' ->
  feed_ok x'
  /\ ((out = [] /\ feed_left x' = feed_left x)
      \/ (exists d, out = [Send d]
            /\ fst (feed_left x) = d :: fst (feed_left x')
            /\ snd (feed_left x) = snd (feed_left x'))
      \/ (exists d, out = [Send d]
            /\ snd (feed_left x) = d :: snd (feed_left x')
            /\ fst (feed_left x) = fst (feed_left x'))).
Proof.
  intros Hok Hs.
  destruct Hs as [st d a b Hf|st b Hf|st d a b Hf|st a Hf|st st' out a b Ht].
  - destruct Hok as [Ha Hb]. rewrite Hf in Ha. simpl in *.
    split; [now split|]. left. now rewrite Hf.
  - destruct Hok as [Ha Hb]. rewrite Hf in Ha. simpl in *.
    split; [now split|]. left. now rewrite Hf.
  - destruct Hok as [Ha Hb]. rewrite Hf in Hb. simpl in *.
    split; [now split|]. left. now rewrite Hf.
  - destruct Hok as [Ha Hb]. rewrite Hf in Hb. simpl in *.
    split; [now split|]. left. now rewrite Hf.
  - destruct (union_turn_cases _ _ _ _ _ _ Hok Ht) as [(_ & Hok' & H)|(H & _)];
      [auto|discriminate].
Qed.

Lemma feed_run_merge (x : UnionFeed) (out : list (Emit Doc)) (o : UnionOutcome) :
  feed_ok x -> frun x out o ->
  o = UThrow end_of_stream
  /\ exists l, merge_of (fst (feed_left x)) (snd (feed_left x)) l
               /\ out = map Send l ++ [SendError end_of_stream].
Proof.
  intros Hok Hr. induction Hr as [st st' out o a b Ht Hne|x out x' rest_ o Hs Hr IH].
  - destruct (union_turn_cases _ _ _ _ _ _ Hok Ht) as [(-> & _)|(-> & -> & ->)];
      [congruence|].
    split; [reflexivity|]. exists []. split; [constructor|reflexivity].
  - destruct (feed_step_cases _ _ _ Hok Hs) as [Hok' H].
    destruct (IH Hok') as (-> & l & Hm & ->). split; [reflexivity|].
    destruct H as [[-> He]|[(d & -> & H1 & H2)|(d & -> & H1 & H2)]].
    + exists l. rewrite <- He. auto.
    + exists (d :: l). rewrite H1, H2. split; [now constructor|reflexivity].
    + exists (d :: l). rewrite H1, H2. split; [now constructor|reflexivity].
Qed.

(** A run that hands over every document of [a], then those of [b]. *)
Lemma feed_run_exists_b (b : list Doc) :
  exists out,
    frun (mkUnionState FNever FPending false true, [], b) out (UThrow end_of_stream).
Proof.
  induction b as [|d b [out IH]].
  - exists ([] ++ [SendError end_of_stream]).
    eapply feed_step; [now apply feed_b_end|].
    eapply feed_stop; [reflexivity|discriminate].
  - exists ([] ++ [Send d] ++ out).
    eapply feed_step; [now apply feed_b|].
    eapply feed_step; [apply feed_turn; reflexivity|exact IH].
Qed.

Lemma feed_run_exists (a b : list Doc) :
  exists out,
    frun (mkUnionState FPending FPending true true, a, b) out (UThrow end_of_stream).
Proof.
  induction a as [|d a [out IH]].
  - destruct (feed_run_exists_b b) as [out Hb].
    exists ([] ++ [] ++ out).
    eapply feed_step; [now apply feed_a_end|].
    eapply feed_step; [apply feed_turn; reflexivity|exact Hb].
  - exists ([] ++ [Send d] ++ out).
    eapply feed_step; [now apply feed_a|].
    eapply feed_step; [apply feed_turn; reflexivity|exact IH].
Qed.

(** doUnion over two inputs that end with end_of_stream: the actor can
    run to its end, and however the documents of the two inputs arrive,
    it ends with end_of_stream (the ASSERT holds), having sent every
    document of both inputs once, each input in its order, followed by
    one end_of_stream. *)
Theorem doUnion_merges_inputs (a b : list Doc) :
  (exists out, frun (doUnion_start FPending FPending, a, b) out
                    (UThrow end_of_stream))
  /\ forall out o, frun (doUnion_start FPending FPending, a, b) out o ->
       o = UThrow end_of_stream
       /\ exists l, merge_of a b l
                    /\ out = map Send l ++ [SendError end_of_stream].
Proof.
  split; [apply feed_run_exists|].
  intros out o Hr.
  apply (feed_run_merge (doUnion_start FPending FPending, a, b) out o);
    [split; reflexivity|exact Hr].
Qed.
End UnionMerge.

(** * What complete executions send *)

Section CompleteExecutions.
Context {Ctx : Type}.
Local Abbreviation Doc := (ScanReturnedContext Ctx).
Local Abbreviation Checkpoint := (PlanCheckpoint Ctx).
Local Abbreviation PipeC := (@Pipe Ctx).

Variable decode_item0 : Key -> Key.
Variable decode_item_rev0 : Key -> Key.
Variable getSubContext : Key -> Ctx.

Local Abbreviation run := (pipe_run decode_item0 decode_item_rev0 getSubContext).
Local Abbreviation rest_of := (remaining decode_item0 decode_item_rev0 getSubContext).

Lemma omap_filter (f : Doc -> bool) (l : list Doc) :
  omap (outcome (SFilter f)) l = List.filter f l.
Proof.
  induction l as [|d l IH]; simpl; [reflexivity|].
  unfold omap in *. simpl. destruct (f d); simpl; now rewrite IH.
Qed.

Lemma omap_project (g : Doc -> Ctx) (l : list Doc) :
  omap (outcome (SProject g)) l
  = map (fun d => mkDoc (g d) (scanId d) (scanKey d)) l.
Proof.
  induction l as [|d l IH]; simpl; [reflexivity|].
  unfold omap in *. simpl. now rewrite IH.
Qed.

Lemma executed_completes (plan : ScanPlan) (store index : list Key)
    (cp cp1 : Checkpoint) (p0 : PipeC) :
  execute plan store index cp = Some (p0, cp1) ->
  exists out pf, run p0 out pf /\ pipe_done pf = true.
Proof.
  intros Hex.
  destruct (execute_fresh decode_item0 decode_item_rev0 getSubContext
              _ _ _ _ _ _ Hex) as (src & lo & hi & _ & _ & _ & Hw & _).
  now apply complete_run_exists.
Qed.

(** FilterPlan run to its end: it sends the documents of its source for
    which the predicate holds, in the order of the source, each with its
    scan id and scan key, and its source runs to its end as well. *)
Theorem filter_sends_matching (source : ScanPlan) (predicate : Doc -> bool)
    (store index : list Key) (cp cp1 : Checkpoint) (p0 pf : PipeC)
    (out : list Doc) :
  execute (ScanFilter source predicate) store index cp = Some (p0, cp1) ->
  run p0 out pf -> pipe_done pf = true ->
  exists up,
    execute source store index cp = Some (up, cp1)
    /\ (exists outs pfs, run up outs pfs /\ pipe_done pfs = true)
    /\ forall outs pfs, run up outs pfs -> pipe_done pfs = true ->
         out = List.filter predicate outs.
Proof.
  simpl. destruct (execute source store index cp) as [[up c]|] eqn:Es;
    [|discriminate].
  intros [= <- <-] Hrun Hd. exists up. split; [reflexivity|].
  split; [exact (executed_completes _ _ _ _ _ _ Es)|].
  intros outs pfs Hr Hds.
  rewrite (complete_run_output _ _ _ _ _ _ Hrun Hd).
  rewrite (complete_run_output _ _ _ _ _ _ Hr Hds).
  simpl. apply omap_filter.
Qed.

(** ProjectionPlan run to its end: it sends the projection of every
    document of its sub-plan, in the order of the sub-plan, under the
    scan id and the scan key of the document projected. *)
Theorem projection_sends_each (subPlan : ScanPlan) (projectDocument : Doc -> Ctx)
    (store index : list Key) (cp cp1 : Checkpoint) (p0 pf : PipeC)
    (out : list Doc) :
  execute (ScanProjection subPlan projectDocument) store index cp = Some (p0, cp1) ->
  run p0 out pf -> pipe_done pf = true ->
  exists up,
    execute subPlan store index cp = Some (up, cp1)
    /\ (exists outs pfs, run up outs pfs /\ pipe_done pfs = true)
    /\ forall outs pfs, run up outs pfs -> pipe_done pfs = true ->
         out = map (fun d => mkDoc (projectDocument d) (scanId d) (scanKey d)) outs.
Proof.
  simpl. destruct (execute subPlan store index cp) as [[up c]|] eqn:Es;
    [|discriminate].
  intros [= <- <-] Hrun Hd. exists up. split; [reflexivity|].
  split; [exact (executed_completes _ _ _ _ _ _ Es)|].
  intros outs pfs Hr Hds.
  rewrite (complete_run_output _ _ _ _ _ _ Hrun Hd).
  rewrite (complete_run_output _ _ _ _ _ _ Hr Hds).
  simpl. apply omap_project.
Qed.

(** What a scan over [doPKScan] reads: the keys of the collection that
    lie in the range of the plan and in the bounds the checkpoint holds
    for the scan, and no other. *)
Theorem pk_scan_reads_intersection (plan : ScanPlan) (store index : list Key)
    (cp cp1 : Checkpoint) (p0 : PipeC) :
  pk_sourced plan = true ->
  execute plan store index cp = Some (p0, cp1) ->
  exists lo hi,
    plan_range plan = Some (lo, hi)
    /\ forall k, k ∈ source_rest p0
                 <-> k ∈ store /\ key_le lo k /\ key_lt k hi
                     /\ in_range (getBounds cp1 (scansAdded cp)) k.
Proof.
  intros Hpk Hex. rewrite (execute_pk plan store index cp Hpk) in Hex.
  destruct (plan_range plan) as [[lo hi]|]; [|discriminate].
  cbv zeta in Hex. injection Hex as <- <-.
  exists lo, hi. split; [reflexivity|]. intros k.
  assert (Hsr : forall (ks : list (@StageKind Ctx)) kvs,
             source_rest (wrap ks (fresh_scan (scansAdded cp) kvs)) = kvs).
  { intros ks kvs. induction ks as [|x ks IH]; simpl; auto. }
  rewrite Hsr, getDescendants_spec.
  set (cb := getBounds (snd (addScan cp)) (scansAdded cp)).
  split.
  - intros [[H1 H2] Hs]. destruct (scan_range_in lo hi cb k H1 H2) as (Hi & Hl & Hh).
    auto.
  - intros (Hs & Hl & Hh & Hb & He). split; [|exact Hs].
    unfold scan_range. simpl.
    assert (Hlow : key_le (key_max lo (range_begin cb)) k).
    { unfold key_max. now destruct (key_ltb lo (range_begin cb)). }
    assert (Hup : key_lt k (key_min hi (range_end cb))).
    { unfold key_min. now destruct (key_ltb (range_end cb) hi). }
    split; [exact Hlow|].
    eapply key_lt_le_trans; [exact Hup|apply key_max_r].
Qed.
End CompleteExecutions.

(** * The scans *)

Section TableScanDocuments.
Context {Ctx : Type}.
Local Abbreviation Doc := (ScanReturnedContext Ctx).
Local Abbreviation PipeC := (@Pipe Ctx).

Variable decode_item0 : Key -> Key.
Variable decode_item_rev0 : Key -> Key.
Variable getSubContext : Key -> Ctx.
Variable store : list Key.

Hypothesis store_sorted : StronglySorted key_lt store.
Hypothesis store_below_ff : forall k, k ∈ store -> key_lt k key_ff.
Hypothesis item_prefix : forall k, k ∈ store -> exists s, k = decode_item0 k ++ s.
Hypothesis item_nonempty : forall k, k ∈ store -> decode_item0 k <> [].
Hypothesis item_delimited :
  forall k1 k2, k1 ∈ store -> k2 ∈ store ->
    (exists s, k2 = decode_item0 k1 ++ s) -> decode_item0 k2 = decode_item0 k1.

Local Abbreviation run := (pipe_run decode_item0 decode_item_rev0 getSubContext).
Local Abbreviation rest_of := (remaining decode_item0 decode_item_rev0 getSubContext).
Local Abbreviation pkdocs := (pk_docs decode_item0 getSubContext).

(** Every key handled gives rise to a document of its primary key,
    unless the primary key is the one the scan already holds. *)
Lemma pk_docs_cover (id : Z) (lp : Key) (l : list Key) (k : Key) :
  k ∈ l ->
  decode_item0 k = lp
  \/ exists d, d ∈ pkdocs id lp l
               /\ decode_item0 (scanKey d) = decode_item0 k
               /\ docCx d = getSubContext (decode_item0 k).
Proof.
  revert lp. induction l as [|kv l IH]; intros lp Hk.
  - now apply elem_of_nil in Hk.
  - simpl. destruct (key_eqb (decode_item0 kv) lp) eqn:E.
    + apply key_eqb_eq in E. apply elem_of_cons in Hk as [->|Hk]; [now left|].
      now apply IH.
    + apply elem_of_cons in Hk as [->|Hk].
      * right. eexists. split; [left|]. simpl. auto.
      * destruct (IH (decode_item0 kv) Hk) as [He|(d & Hd & H1 & H2)].
        -- right. eexists. split; [left|]. simpl. rewrite He. auto.
        -- right. exists d. split; [now right|auto].
Qed.

Lemma pk_docs_made (id : Z) (lp : Key) (l : list Key) :
  Forall (fun d : Doc => docCx d = getSubContext (decode_item0 (scanKey d)))
         (pkdocs id lp l).
Proof.
  revert lp. induction l as [|kv l IH]; intros lp; simpl; [constructor|].
  destruct (key_eqb (decode_item0 kv) lp); [apply IH|].
  constructor; [reflexivity|apply IH].
Qed.

(** In key order the keys of a document are not interleaved with those of
    another, so that no primary key comes back once the scan has left
    it. *)
Lemma pk_docs_distinct (id : Z) (lp : Key) (l : list Key) :
  StronglySorted key_lt l -> Forall (fun k => k ∈ store) l ->
  (lp = [] \/ exists k0, k0 ∈ store /\ decode_item0 k0 = lp
                         /\ Forall (key_lt k0) l) ->
  NoDup (map (fun d : Doc => decode_item0 (scanKey d)) (pkdocs id lp l))
  /\ Forall (fun d : Doc => decode_item0 (scanKey d) <> lp) (pkdocs id lp l).
Proof.
  revert lp. induction l as [|kv l IH]; intros lp Hs Hin Hlp; simpl.
  - split; constructor.
  - apply StronglySorted_cons in Hs as [Hgt Hs].
    apply Forall_cons in Hin as [Hkv Hin].
    destruct (key_eqb (decode_item0 kv) lp) eqn:E.
    + apply IH; auto. destruct Hlp as [->|(k0 & H0 & H1 & H2)]; [now left|].
      right. exists k0. apply Forall_cons in H2 as [_ H2]. auto.
    + assert (Hne : decode_item0 kv <> lp).
      { intros He. rewrite He, (proj2 (key_eqb_eq lp lp) eq_refl) in E.
        discriminate. }
      destruct (IH (decode_item0 kv) Hs Hin) as [Hnd Hall].
      { right. exists kv. auto. }
      assert (Hrest : Forall (fun d : Doc => decode_item0 (scanKey d) <> lp)
                             (pkdocs id (decode_item0 kv) l)).
      { apply Forall_forall. intros d Hd He.
        assert (Hdl : scanKey d ∈ l).
        { eapply elem_of_sublist; [|apply (pk_docs_keys decode_item0 getSubContext
                                            id (decode_item0 kv) l)].
          apply list_elem_of_In, in_map, list_elem_of_In, Hd. }
        destruct Hlp as [->|(k0 & H0 & H1 & H2)].
        - rewrite Forall_forall in Hin. now apply (item_nonempty _ (Hin _ Hdl)).
        - apply Forall_cons in H2 as [H2 H3].
          rewrite Forall_forall in Hin, Hgt, H3.
          destruct (item_strinc decode_item0 store store_below_ff item_prefix
                      item_nonempty k0 H0) as [q Hq].
          assert (Hb : key_lt (scanKey d) q).
          { apply (same_item_below decode_item0 store item_prefix k0 (scanKey d) q);
              auto. congruence. }
          assert (Ha : key_le q kv).
          { apply (other_item_above decode_item0 store item_prefix item_delimited
                     k0 kv q); auto. congruence. }
          apply (key_lt_irrefl kv).
          eapply key_lt_trans; [apply (Hgt _ Hdl)|].
          eapply key_lt_le_trans; eauto. }
      split.
      * simpl. constructor; [|exact Hnd].
        intros Hx. apply list_elem_of_In, in_map_iff in Hx as (d & He & Hd).
        rewrite Forall_forall in Hall.
        apply (Hall d); [now apply list_elem_of_In|exact He].
      * constructor; [exact Hne|exact Hrest].
Qed.

(** TableScanPlan run to its end under a new checkpoint: it sends one
    document for each primary key of the collection and no other: the
    primary keys of the documents sent are pairwise distinct, every key
    of the collection has its document among them, and every document
    sent is the one at the primary key of its scan key, a key of the
    collection. *)
Theorem table_scan_sends_each_document_once (index : list Key) (p0 pf : PipeC)
    (cp1 : PlanCheckpoint Ctx) (out : list Doc) :
  execute ScanTable store index new_PlanCheckpoint = Some (p0, cp1) ->
  run p0 out pf -> pipe_done pf = true ->
  NoDup (map (fun d : Doc => decode_item0 (scanKey d)) out)
  /\ (forall k, k ∈ store ->
        exists d, d ∈ out /\ decode_item0 (scanKey d) = decode_item0 k
                  /\ docCx d = getSubContext (decode_item0 k))
  /\ Forall (fun d : Doc => scanKey d ∈ store
                            /\ docCx d = getSubContext (decode_item0 (scanKey d)))
            out.
Proof.
  intros Hex Hrun Hd.
  rewrite (complete_run_output _ _ _ _ _ _ Hrun Hd).
  simpl in Hex. injection Hex as <- _. simpl.
  set (kvs := getDescendants store _ _).
  assert (Hsub : kvs `sublist_of` store) by apply getDescendants_sublist.
  assert (Hin : Forall (fun k => k ∈ store) kvs).
  { apply Forall_forall. intros k Hk. eapply elem_of_sublist; eauto. }
  split; [|split].
  - apply (pk_docs_distinct 0 [] kvs); auto.
    eapply sublist_StronglySorted; eauto.
  - intros k Hk.
    assert (Hkk : k ∈ kvs).
    { apply getDescendants_spec. split; [|exact Hk]. simpl. split.
      - apply key_00_le. destruct (item_prefix k Hk) as [s Hs].
        intros ->. apply (item_nonempty [] Hk).
        destruct (decode_item0 []); [reflexivity|discriminate].
      - now apply store_below_ff. }
    destruct (pk_docs_cover 0 [] kvs k Hkk) as [He|H]; [|exact H].
    now destruct (item_nonempty k Hk).
  - pose proof (pk_docs_made 0 [] kvs) as Hm.
    apply Forall_forall. intros d Hdd. rewrite Forall_forall in Hm.
    rewrite Forall_forall in Hin.
    split; [|now apply Hm]. apply Hin.
    eapply elem_of_sublist; [|apply (pk_docs_keys decode_item0 getSubContext 0 [] kvs)].
    apply list_elem_of_In, in_map, list_elem_of_In, Hdd.
Qed.
End TableScanDocuments.

Section ScanSplitKeys.
Context {Ctx : Type}.
Local Abbreviation Doc := (ScanReturnedContext Ctx).
Local Abbreviation PipeC := (@Pipe Ctx).
Local Abbreviation Checkpoint := (PlanCheckpoint Ctx).

Variable decode_item0 : Key -> Key.
Variable decode_item_rev0 : Key -> Key.
Variable getSubContext : Key -> Ctx.
Variable store : list Key.

Hypothesis store_sorted : StronglySorted key_lt store.
Hypothesis store_below_ff : forall k, k ∈ store -> key_lt k key_ff.
Hypothesis item_prefix : forall k, k ∈ store -> exists s, k = decode_item0 k ++ s.
Hypothesis item_nonempty : forall k, k ∈ store -> decode_item0 k <> [].
Hypothesis item_delimited :
  forall k1 k2, k1 ∈ store -> k2 ∈ store ->
    (exists s, k2 = decode_item0 k1 ++ s) -> decode_item0 k2 = decode_item0 k1.

Local Abbreviation run := (pipe_run decode_item0 decode_item_rev0 getSubContext).
Local Abbreviation rest_of := (remaining decode_item0 decode_item_rev0 getSubContext).

(** The split key of doPKScan: cancelled once it has finished a key, the
    scan writes a split key that is above the scan key of every document
    it has sent and not above the scan key of any document it would still
    send. *)
Theorem doPKScan_split_between (lo hi : Key) (id : Z) (s : PKScan)
    (sent out : list Doc) (cp : Checkpoint) :
  run (PTableScan (mkPKScan id (getDescendants store lo hi) [] [] None false) [])
      out (PTableScan s sent) ->
  pk_done s = false -> pk_lastKey s <> [] ->
  boundsWanted cp = true -> valid_scan cp (pk_scanID s) ->
  exists q cp',
    cancel_all decode_item0 cp (pipe_ops (PTableScan s sent)) = Some cp'
    /\ read_splitBound cp' (pk_scanID s) = Some q
    /\ Forall (fun d : Doc => key_lt (scanKey d) q) sent
    /\ Forall (fun d : Doc => key_le q (scanKey d)) (rest_of (PTableScan s sent)).
Proof.
  intros Hrun Hd Hlk Hb Hv.
  pose proof (run_inv decode_item0 decode_item_rev0 getSubContext _ _ _ _ Hrun
                (fresh_pk decode_item0 getSubContext id _)) as Hinv.
  simpl in Hinv.
  destruct (cut_idle decode_item0 getSubContext store store_sorted store_below_ff
              item_prefix item_nonempty item_delimited _ s sent
              (getDescendants_sublist store lo hi) Hinv Hd Hlk)
    as (q & c2 & Hq & (A & c1 & _ & _ & Hc2 & _) & Hsent & Hrest).
  destruct (write_splitBound_valid cp (pk_scanID s) q Hv) as (cp' & Hw & _ & Hr).
  exists q, cp'. split; [|split; [|split]].
  - simpl. rewrite Hd. simpl. unfold splitBoundWanted. now rewrite Hb, Hq, Hw.
  - rewrite Hr, Z.eqb_refl. reflexivity.
  - exact Hsent.
  - simpl. rewrite Hd, Hrest.
    apply (keys_above q _ c2); [apply pk_docs_keys|exact Hc2].
Qed.
End ScanSplitKeys.

Section IndexScanSplitKeys.
Context {Ctx : Type}.
Local Abbreviation Doc := (ScanReturnedContext Ctx).
Local Abbreviation Checkpoint := (PlanCheckpoint Ctx).

Variable decode_item0 : Key -> Key.
Variable decode_item_rev0 : Key -> Key.
Variable getSubContext : Key -> Ctx.

Local Abbreviation run := (pipe_run decode_item0 decode_item_rev0 getSubContext).
Local Abbreviation rest_of := (remaining decode_item0 decode_item_rev0 getSubContext).

(** The split key of toDocInfo: over index keys in increasing order, none
    of them empty, the key the scan writes when it is cancelled,
    [keyAfter(lastKey)], is above the scan key of every document it has
    sent and not above the scan key of any document it would still send;
    before the first key is handled it is the key of one zero byte. *)
Theorem toDocInfo_split_between (id : Z) (kvs0 : list Key) (s : DocInfo)
    (sent out : list Doc) (cp : Checkpoint) :
  StronglySorted key_lt kvs0 -> Forall (fun k => k <> []) kvs0 ->
  run (PIndexScan (mkDocInfo id kvs0 [] None false) []) out (PIndexScan s sent) ->
  di_done s = false ->
  boundsWanted cp = true -> valid_scan cp (di_scanID s) ->
  exists cp',
    cancel_all decode_item0 cp (pipe_ops (PIndexScan s sent)) = Some cp'
    /\ read_splitBound cp' (di_scanID s) = Some (keyAfter (di_lastKey s))
    /\ Forall (fun d : Doc => key_lt (scanKey d) (keyAfter (di_lastKey s))) sent
    /\ Forall (fun d : Doc => key_le (keyAfter (di_lastKey s)) (scanKey d))
              (rest_of (PIndexScan s sent)).
Proof.
  intros Hs Hne Hrun Hd Hb Hv.
  pose proof (run_inv decode_item0 decode_item_rev0 getSubContext _ _ _ _ Hrun
                (fresh_di decode_item_rev0 getSubContext id _)) as Hinv.
  simpl in Hinv. destruct Hinv as (consumed & Hk & Hsent & Hl).
  destruct (write_splitBound_valid cp (di_scanID s) (keyAfter (di_lastKey s)) Hv)
    as (cp' & Hw & _ & Hr).
  exists cp'. split; [|split].
  { simpl. rewrite Hd. simpl. unfold splitBoundWanted. now rewrite Hb, Hw. }
  { rewrite Hr, Z.eqb_refl. reflexivity. }
  set (rest_ := match di_taking s with Some kv => [kv] | None => [] end ++ di_kvs s)
    in *.
  assert (Hkeys : Forall (fun k => key_lt k (keyAfter (di_lastKey s))) consumed
                  /\ Forall (key_le (keyAfter (di_lastKey s))) rest_).
  { rewrite Hl. rewrite Hk in Hs, Hne. clear Hk Hsent Hl.
    destruct consumed as [|x c _] using rev_ind.
    - split; [constructor|]. simpl in Hne.
      eapply Forall_impl; [exact Hne|]. intros k Hk. simpl.
      now apply (key_00_le k).
    - rewrite last_key_snoc. rewrite <- app_assoc in Hs.
      apply StronglySorted_app in Hs as (Hall & _ & Hs2).
      apply StronglySorted_cons in Hs2 as [Hgt _]. split.
      + apply Forall_app. split.
        * apply Forall_forall. intros a Ha.
          eapply key_lt_trans; [apply (Hall a x Ha); left|apply key_lt_keyAfter].
        * repeat constructor. apply key_lt_keyAfter.
      + eapply Forall_impl; [exact Hgt|]. intros k Hk. now apply keyAfter_least. }
  destruct Hkeys as [Hc Hrest]. split.
  - rewrite Hsent. apply (keys_below _ _ consumed); [|exact Hc].
    now rewrite di_docs_keys.
  - simpl. rewrite Hd. apply (keys_above _ _ rest_); [|exact Hrest].
    now rewrite di_docs_keys.
Qed.
End IndexScanSplitKeys.

(** * Pushdown of a conjunction *)

Section PushdownAnd.
Context {Cx DataValue IndexInfo Expr LeafPred : Type}.
Local Abbreviation Pred := (Predicate Expr LeafPred).
Local Abbreviation PlanT := (Plan Cx DataValue IndexInfo Expr LeafPred).
Variable encode_key_part : DataValue -> Key.
Variable encode_string : Key -> Key.
Variable id_key_part : Key.
Variable get_index_key : Expr -> Key.
Variable get_range : Pred -> option DataValue * option DataValue.
Variable range_is_tight : Pred -> bool.
Variable simplify : Pred -> Pred.
Variable getSimpleIndex : Cx -> Key -> option IndexInfo.
Variable getCompoundIndex : Cx -> IndexInfo -> Key -> option IndexInfo.

Local Abbreviation push :=
  (push_down encode_key_part encode_string id_key_part get_index_key get_range
             range_is_tight simplify getSimpleIndex getCompoundIndex).

Lemma push_first_stops (pd : Pred -> option (option PlanT))
    (construct : PlanT -> Pred -> option PlanT)
    (seen before after : list Pred) (t : Pred) (p r : PlanT) :
  (forall x, In x before -> pd x = Some None) ->
  pd t = Some (Some p) ->
  construct p (simplify (PAnd ((seen ++ before) ++ after))) = Some r ->
  push_first simplify pd construct seen (before ++ t :: after) = Some (Some r).
Proof.
  revert seen. induction before as [|x before IH]; intros seen Hb Ht Hc; simpl.
  - rewrite Ht. rewrite app_nil_r in Hc. now rewrite Hc.
  - rewrite (Hb x (or_introl eq_refl)). apply IH; auto.
    + intros y Hy. apply Hb. now right.
    + replace ((seen ++ [x]) ++ before) with (seen ++ x :: before)
        by (now rewrite <- app_assoc).
      exact Hc.
Qed.

(** TableScanPlan::push_down of a conjunction: the first term that can be
    pushed down is pushed, whatever the later terms are, and the plan
    obtained is filtered by the conjunction of all the other terms, in
    their order. *)
Theorem table_scan_pushes_first_term (fuel : nat) (cx cx0 : Cx)
    (before after : list Pred) (t : Pred) (p r : PlanT) :
  (forall x, In x before -> push fuel (TableScanPlan cx0) cx x = Some None) ->
  push fuel (TableScanPlan cx0) cx t = Some (Some p) ->
  construct_filter_plan encode_key_part encode_string id_key_part get_index_key
    get_range range_is_tight simplify getSimpleIndex getCompoundIndex
    fuel cx p (simplify (PAnd (before ++ after))) = Some r ->
  push (S fuel) (TableScanPlan cx0) cx (PAnd (before ++ t :: after))
  = Some (Some r).
Proof.
  intros Hb Ht Hc. simpl.
  apply (push_first_stops _ _ [] before after t p r); auto.
Qed.
End PushdownAnd.

(** A conjunction of a leaf and NONE on a table scan. *)
Lemma table_scan_pushes_first_term_witness :
  let pd := push_down (fun v : Key => v) (fun s => s) [] (fun e : Key => e)
                      (fun _ => (None, None)) (fun _ => true)
                      (fun _ : Predicate Key unit => PAll)
                      (fun (_ : unit) _ => @None Z) (fun _ _ _ => None) in
  pd 2%nat (TableScanPlan tt) tt (PAnd ([PLeaf tt] ++ PNone :: [PLeaf tt]))
  = Some (Some EmptyPlan).
Proof.
  cbv zeta.
  apply (table_scan_pushes_first_term (fun v : Key => v) (fun s => s) []
           (fun e : Key => e) (fun _ => (None, None)) (fun _ => true)
           (fun _ : Predicate Key unit => PAll)
           (fun (_ : unit) _ => @None Z) (fun _ _ _ => None)
           1%nat tt tt [PLeaf tt] [PLeaf tt] PNone EmptyPlan EmptyPlan).
  - intros x [<-|[]]. reflexivity.
  - reflexivity.
  - reflexivity.
Defined.

(** * FindAndModifyPlan on a document found *)

Section ModifyFound.
Context {Ctx : Type}.
Variable updateOp : Ctx -> Ctx.
Variable upsertOp : option Ctx.
Variable projection : Ctx -> Ctx.
Variable empty_obj : Ctx.

(** findAndModify and projectAndUpdate on a document found: the document
    is updated and never inserted, upsert or not; with projectNew unset
    the projection is taken before the update, with projectNew set after
    the changes are committed; the one document sent carries it under the
    scan id and the scan key of the document found. *)
Lemma modify_found_sends_projection (d : ScanReturnedContext Ctx)
    (rest_ : list (ScanReturnedContext Ctx)) (projectNew : bool) :
  let old := docCx d in
  let new := updateOp (docCx d) in
  let events :=
    (if projectNew then [] else [EvProject old])
    ++ [EvUpdate old; EvCommitChanges new]
    ++ (if projectNew then [EvProject new] else []) in
  let sent := [mkDoc (projection (if projectNew then new else old))
                     (scanId d) (scanKey d)] in
  findAndModify updateOp upsertOp projection projectNew empty_obj (Some d)
  = (events ++ [EvCommit], sent, end_of_stream)
  /\ projectAndUpdate updateOp upsertOp projection projectNew empty_obj (d :: rest_)
     = (events, sent, end_of_stream).
Proof.
  destruct projectNew, upsertOp; split; reflexivity.
Qed.
End ModifyFound.

(** * Further sample runs *)

(** The round trip at a new checkpoint. *)
Lemma addScan_splitBound_round_trip_witness :
  exists cp2,
    write_splitBound (snd (addScan (@new_PlanCheckpoint Key)))
                     (fst (addScan (@new_PlanCheckpoint Key))) [x61] = Some cp2
    /\ read_splitBound cp2 (fst (addScan (@new_PlanCheckpoint Key))) = Some [x61]
    /\ (forall s, s <> fst (addScan (@new_PlanCheckpoint Key)) ->
          read_splitBound cp2 s
          = read_splitBound (snd (addScan (@new_PlanCheckpoint Key))) s)
    /\ (forall s, getBounds cp2 s
                  = getBounds (snd (addScan (@new_PlanCheckpoint Key))) s).
Proof.
  apply (addScan_splitBound_round_trip (@new_PlanCheckpoint Key) [x61]).
  simpl. lia.
Defined.

(** [stop] on the sample checkpoint, a table scan running. *)
Lemma stop_writes_no_split_witness :
  stop sample_decode sample_checkpoint
  = Some (mkCheckpoint false (scans sample_checkpoint) (states sample_checkpoint)
                       0 0 []).
Proof.
  apply (stop_writes_no_split sample_decode sample_checkpoint). reflexivity.
Defined.

(** The sample checkpoint stopped twice. *)
Lemma stopAndCheckpoint_again_witness :
  exists stopped rest,
    stopAndCheckpoint sample_decode sample_checkpoint = Some (stopped, rest)
    /\ stopAndCheckpoint sample_decode stopped = Some (stopped, rest).
Proof.
  do 2 eexists. split; [vm_compute; reflexivity|].
  apply (stopAndCheckpoint_again sample_decode sample_checkpoint).
  vm_compute. reflexivity.
Defined.

(** The range of the sample scan, split at "b". *)
Lemma stop_point_partitions_bounds_witness :
  exists stopped rest,
    stopAndCheckpoint sample_decode sample_checkpoint = Some (stopped, rest)
    /\ (in_range (getBounds stopped (Z.of_nat 0)) [x61]
        <-> in_range (getBounds (boundToStopPoint stopped) (Z.of_nat 0)) [x61]
            \/ in_range (getBounds rest (Z.of_nat 0)) [x61])
    /\ ~ (in_range (getBounds (boundToStopPoint stopped) (Z.of_nat 0)) [x61]
          /\ in_range (getBounds rest (Z.of_nat 0)) [x61]).
Proof.
  do 2 eexists. split; [vm_compute; reflexivity|].
  apply (stop_point_partitions_bounds sample_decode sample_checkpoint _ _ 0%nat
           (mkScanState (KeyRangeRef [] key_ff) [x62]) [x61]).
  - vm_compute. reflexivity.
  - reflexivity.
  - discriminate.
  - discriminate.
Defined.

(** An index build cancelled with one document in its deque and one
    still queued. *)
Lemma build_index_cancel_earliest_witness :
  let d1 : ScanReturnedContext Key := mkDoc [x61] 0 [x61] in
  let d2 : ScanReturnedContext Key := mkDoc [x62] 0 [x62] in
  let cp := set_boundsWanted sample_checkpoint true in
  exists cp',
    cancel_actor sample_decode cp (ActBuildIndex [d2] [d1]) = Some cp'
    /\ same_but_splits cp cp'
    /\ forall s, read_splitBound cp' s =
                 match find (fun d => scanId d =? s) ([d1] ++ [d2]) with
                 | Some d => Some (scanKey d)
                 | None => read_splitBound cp s
                 end.
Proof.
  cbv zeta.
  apply (build_index_cancel_earliest sample_decode
           (set_boundsWanted sample_checkpoint true)
           [mkDoc [x62] 0 [x62]] [mkDoc [x61] 0 [x61]]).
  - reflexivity.
  - repeat constructor; simpl; lia.
Defined.

(** The successor of the number key 0x14 0x05 and back. *)
Lemma unstrincObjectId_undoes_strinc_witness :
  unstrincObjectId sample_type_code [x14; x06] = Some (Returned [x14; x05]).
Proof.
  apply (unstrincObjectId_undoes_strinc sample_type_code [x14; x05] [x14; x06]
           x14 [x06]).
  - reflexivity.
  - discriminate.
  - discriminate.
  - reflexivity.
  - simpl. lia.
Defined.

Lemma unstrincObjectId_below_witness : key_lt [x14; x05] [x14; x06].
Proof.
  apply (unstrincObjectId_below sample_type_code [x14; x06] [x14; x05]).
  - reflexivity.
  - discriminate.
Defined.

Lemma sample_filter_execute :
  @execute Key (ScanFilter ScanTable sample_predicate) sample_store []
           new_PlanCheckpoint
  = Some (PStage (SFilter sample_predicate) [] true false [] sample_scan0,
          sample_started).
Proof. vm_compute. reflexivity. Qed.

Lemma sample_projection_execute :
  @execute Key (ScanProjection ScanTable scanKey) sample_store []
           new_PlanCheckpoint
  = Some (PStage (SProject scanKey) [] true false [] sample_scan0,
          sample_started).
Proof. vm_compute. reflexivity. Qed.

(** A filter over the table scan of the sample collection. *)
Lemma filter_sends_matching_witness :
  exists out up,
    @execute Key ScanTable sample_store [] new_PlanCheckpoint
    = Some (up, sample_started)
    /\ (exists outs pfs,
          pipe_run sample_decode sample_decode (fun k => k) up outs pfs
          /\ pipe_done pfs = true)
    /\ forall outs pfs,
         pipe_run sample_decode sample_decode (fun k => k) up outs pfs ->
         pipe_done pfs = true -> out = List.filter sample_predicate outs.
Proof.
  destruct (executed_completes sample_decode sample_decode (fun k => k)
              _ _ _ _ _ _ sample_filter_execute) as (out & pf & Hrun & Hd).
  exists out.
  exact (filter_sends_matching sample_decode sample_decode (fun k => k)
           ScanTable sample_predicate sample_store [] new_PlanCheckpoint
           sample_started _ pf out sample_filter_execute Hrun Hd).
Defined.

(** A projection over the table scan of the sample collection. *)
Lemma projection_sends_each_witness :
  exists out up,
    @execute Key ScanTable sample_store [] new_PlanCheckpoint
    = Some (up, sample_started)
    /\ (exists outs pfs,
          pipe_run sample_decode sample_decode (fun k => k) up outs pfs
          /\ pipe_done pfs = true)
    /\ forall outs pfs,
         pipe_run sample_decode sample_decode (fun k => k) up outs pfs ->
         pipe_done pfs = true ->
         out = map (fun d => mkDoc (scanKey d) (scanId d) (scanKey d)) outs.
Proof.
  destruct (executed_completes sample_decode sample_decode (fun k => k)
              _ _ _ _ _ _ sample_projection_execute) as (out & pf & Hrun & Hd).
  exists out.
  exact (projection_sends_each sample_decode sample_decode (fun k => k)
           ScanTable scanKey sample_store [] new_PlanCheckpoint
           sample_started _ pf out sample_projection_execute Hrun Hd).
Defined.

(** The keys the table scan of the sample collection reads. *)
Lemma pk_scan_reads_intersection_witness :
  exists lo hi,
    @plan_range Key ScanTable = Some (lo, hi)
    /\ forall k, k ∈ source_rest sample_scan0
                 <-> k ∈ sample_store /\ key_le lo k /\ key_lt k hi
                     /\ in_range (getBounds sample_started
                                            (scansAdded (@new_PlanCheckpoint Key))) k.
Proof.
  apply (pk_scan_reads_intersection ScanTable sample_store [] new_PlanCheckpoint
           sample_started sample_scan0).
  - reflexivity.
  - exact sample_execute.
Defined.

(** The table scan of the sample collection run to its end. *)
Lemma table_scan_sends_each_document_once_witness :
  exists out : list (ScanReturnedContext Key),
    NoDup (map (fun d => sample_decode (scanKey d)) out)
    /\ (forall k, k ∈ sample_store ->
          exists d, d ∈ out /\ sample_decode (scanKey d) = sample_decode k
                    /\ docCx d = sample_decode k)
    /\ Forall (fun d => scanKey d ∈ sample_store
                        /\ docCx d = sample_decode (scanKey d)) out.
Proof.
  destruct (executed_completes sample_decode sample_decode (fun k => k)
              _ _ _ _ _ _ sample_execute) as (out & pf & Hrun & Hd).
  exists out.
  exact (table_scan_sends_each_document_once sample_decode sample_decode
           (fun k => k) sample_store sample_store_sorted sample_store_below_ff
           sample_item_prefix sample_item_nonempty sample_item_delimited
           [] sample_scan0 pf sample_started out sample_execute Hrun Hd).
Defined.

Lemma sample_index_run :
  pipe_run sample_decode sample_decode (fun k => k) sample_index_scan0
           [mkDoc [x61; x39] 0 [x61; x39]] sample_index_scan1.
Proof.
  change [mkDoc [x61; x39] 0 [x61; x39]]
    with (sent_docs (@Quiet (ScanReturnedContext Key))
          ++ sent_docs (Send (mkDoc [x61; x39] 0 [x61; x39])) ++ []).
  eapply run_step; [apply step_docinfo; reflexivity|].
  eapply run_step; [apply step_docinfo; reflexivity|].
  apply run_nil.
Qed.

(** The sample table scan cancelled after its first document. *)
Lemma doPKScan_split_between_witness :
  exists q cp',
    cancel_all sample_decode (set_boundsWanted sample_checkpoint true)
               (pipe_ops sample_scan1) = Some cp'
    /\ read_splitBound cp' 0 = Some q
    /\ Forall (fun d : ScanReturnedContext Key => key_lt (scanKey d) q)
              [sample_doc [x61]]
    /\ Forall (fun d : ScanReturnedContext Key => key_le q (scanKey d))
              (remaining sample_decode sample_decode (fun k => k) sample_scan1).
Proof.
  apply (doPKScan_split_between sample_decode sample_decode (fun k => k)
           sample_store sample_store_sorted sample_store_below_ff
           sample_item_prefix sample_item_nonempty sample_item_delimited
           key_00 key_ff 0 (mkPKScan 0 [[x62]] [x61] [x61] None false)
           [sample_doc [x61]] [sample_doc [x61]]
           (set_boundsWanted sample_checkpoint true)).
  - exact sample_run.
  - reflexivity.
  - discriminate.
  - reflexivity.
  - unfold valid_scan. simpl. lia.
Defined.

(** The sample index scan cancelled after its first document. *)
Lemma toDocInfo_split_between_witness :
  exists cp',
    cancel_all sample_decode (set_boundsWanted sample_checkpoint true)
               (pipe_ops sample_index_scan1) = Some cp'
    /\ read_splitBound cp' 0 = Some (keyAfter [x61; x39])
    /\ Forall (fun d : ScanReturnedContext Key =>
                 key_lt (scanKey d) (keyAfter [x61; x39]))
              [mkDoc [x61; x39] 0 [x61; x39]]
    /\ Forall (fun d : ScanReturnedContext Key =>
                 key_le (keyAfter [x61; x39]) (scanKey d))
              (remaining sample_decode sample_decode (fun k => k)
                         sample_index_scan1).
Proof.
  apply (toDocInfo_split_between sample_decode sample_decode (fun k => k)
           0 sample_index (mkDocInfo 0 [[x63; x39]] [x61; x39] None false)
           [mkDoc [x61; x39] 0 [x61; x39]] [mkDoc [x61; x39] 0 [x61; x39]]
           (set_boundsWanted sample_checkpoint true)).
  - repeat constructor.
  - repeat constructor; discriminate.
  - exact sample_index_run.
  - reflexivity.
  - reflexivity.
  - unfold valid_scan. simpl. lia.
Defined.

(** * NonIsolatedPlan, read only *)

Section NonIsolatedRuns.
Context {Ctx : Type}.
Local Abbreviation Doc := (ScanReturnedContext Ctx).
Local Abbreviation Checkpoint := (PlanCheckpoint Ctx).
Local Abbreviation PipeC := (@Pipe Ctx).

Variable decode_item0 : Key -> Key.
Variable decode_item_rev0 : Key -> Key.
Variable getSubContext : Key -> Ctx.
Variable subPlan : @ScanPlan Ctx.
Variable store : list Key.
Variable index : list Key.

Hypothesis store_sorted : StronglySorted key_lt store.
Hypothesis store_below_ff : forall k, k ∈ store -> key_lt k key_ff.
Hypothesis item_prefix : forall k, k ∈ store -> exists s, k = decode_item0 k ++ s.
Hypothesis item_nonempty : forall k, k ∈ store -> decode_item0 k <> [].
Hypothesis item_delimited :
  forall k1 k2, k1 ∈ store -> k2 ∈ store ->
    (exists s, k2 = decode_item0 k1 ++ s) -> decode_item0 k2 = decode_item0 k1.

Local Abbreviation run := (pipe_run decode_item0 decode_item_rev0 getSubContext).
Local Abbreviation rest_of := (remaining decode_item0 decode_item_rev0 getSubContext).

(** One timeout: what the sub-plan had left to send is what its next
    execution sends. *)
Lemma timeout_hands_over (cp cp1 stopped rest : Checkpoint) (p0 p : PipeC)
    (out : list Doc) :
  pk_sourced subPlan = true -> clean_checkpoint cp ->
  execute subPlan store index cp = Some (p0, cp1) ->
  run p0 out p -> source_lastKey p <> [] ->
  checkpoint_pipe decode_item0 cp1 p = Some (stopped, rest) ->
  clean_checkpoint rest
  /\ exists p0' cp1',
       execute subPlan store index rest = Some (p0', cp1')
       /\ rest_of p = rest_of p0'.
Proof.
  intros Hpk Hclean Hex Hrun Hlk Hstop.
  rewrite (execute_pk subPlan store index cp Hpk) in Hex.
  destruct (plan_range subPlan) as [[lo hi]|] eqn:Er; [|discriminate].
  destruct (clean_addScan cp Hclean) as [Hne Hread].
  destruct Hclean as [Ha Hsplits]. rewrite Ha in Hex.
  remember (snd (addScan cp)) as cp1' eqn:Ecp1. cbv zeta in Hex.
  injection Hex as Hp0 Hcp1. subst cp1 p0. clear Ecp1.
  destruct (getBounds cp1' 0) as [B E] eqn:Eb.
  destruct (resume_point decode_item0 decode_item_rev0 getSubContext store
              store_sorted store_below_ff item_prefix item_nonempty item_delimited
              (plan_stages subPlan) 0 lo hi B E p out Hrun Hlk)
    as (kappa & c2 & Hfs & Hss & Hkvs & Hrem).
  destruct (wrap_fresh decode_item0 decode_item_rev0 getSubContext
              (plan_stages subPlan) 0
              (getDescendants store (fst (scan_range lo hi (KeyRangeRef B E)))
                                    (snd (scan_range lo hi (KeyRangeRef B E)))))
    as (Hi0 & Hw0 & Hid0 & _ & _).
  assert (Hi := run_inv _ _ _ _ _ _ _ Hrun Hi0).
  assert (Hw := run_wf _ _ _ _ _ _ Hrun Hw0).
  assert (Hid : source_scanID p = 0).
  { rewrite (run_scanID _ _ _ _ _ _ Hrun). exact Hid0. }
  rewrite <- Hread in Hfs, Hss.
  destruct (checkpoint_pipe_bounds decode_item0 decode_item_rev0 getSubContext
              _ p cp1' kappa Hi Hw Hid Hne Hss Hfs)
    as (stopped' & rest' & Hcp & Hcl & Hgb).
  rewrite Hstop in Hcp. injection Hcp as <- <-.
  split; [exact Hcl|].
  rewrite (execute_pk subPlan store index rest Hpk), Er.
  destruct Hcl as [Har Hsr]. rewrite Har, Hgb, Eb. simpl range_end.
  cbv zeta in Hkvs. cbv zeta. rewrite Hkvs.
  eexists. eexists. split; [reflexivity|].
  now rewrite remaining_wrap.
Qed.

(** doNonIsolatedRO over a table scan or a primary-key range scan below
    filters and projections, on a collection that does not change: when
    each timeout comes after the scan has finished a key, the documents
    sent over all the transactions of the loop are those of one
    uninterrupted execution of the sub-plan, in the same order. *)
Theorem nonisolated_ro_sends_uninterrupted (cp cp1 : Checkpoint) (p0 pf : PipeC)
    (outs full : list Doc) (stops : list PipeC) :
  pk_sourced subPlan = true -> clean_checkpoint cp ->
  doNonIsolatedRO decode_item0 decode_item_rev0 getSubContext subPlan store index
                  cp outs stops ->
  Forall (fun p => source_lastKey p <> []) stops ->
  execute subPlan store index cp = Some (p0, cp1) ->
  run p0 full pf -> pipe_done pf = true ->
  outs = full.
Proof.
  intros Hpk Hclean Hro. revert p0 cp1 pf full Hclean.
  induction Hro as [c q0 c1 out qf Hex Hrun Hd
                   |c q0 c1 out q stopped rest outs stops Hex Hrun Hnd Hstop Hro IH];
    intros p0 cp1 pf full Hclean Hstops Hex0 Hfull Hdone;
    rewrite Hex in Hex0; injection Hex0 as <- <-.
  - rewrite (complete_run_output _ _ _ _ _ _ Hrun Hd).
    now rewrite (complete_run_output _ _ _ _ _ _ Hfull Hdone).
  - apply Forall_cons in Hstops as [Hq Hstops].
    destruct (timeout_hands_over c c1 stopped rest q0 q out Hpk Hclean Hex Hrun
                Hq Hstop) as (Hcl & p0' & cp1' & Hex' & Hrest).
    destruct (executed_completes decode_item0 decode_item_rev0 getSubContext
                _ _ _ _ _ _ Hex') as (o' & pf' & Hr' & Hd').
    rewrite (IH p0' cp1' pf' o' Hcl Hstops Hex' Hr' Hd').
    rewrite (complete_run_output _ _ _ _ _ _ Hr' Hd'), <- Hrest.
    rewrite (complete_run_output _ _ _ _ _ _ Hfull Hdone).
    symmetry. apply (run_remaining _ _ _ _ _ _ Hrun).
Qed.
End NonIsolatedRuns.

Lemma sample_checkpoint_pipe :
  exists stopped,
    checkpoint_pipe sample_decode sample_started sample_scan1
    = Some (stopped,
            mkCheckpoint false [mkScanState (KeyRangeRef [x62] key_ff) key_ff]
                         [] 0 0 []).
Proof. eexists. vm_compute. reflexivity. Qed.

Lemma sample_resumed_execute :
  exists p0' cp1',
    @execute Key ScanTable sample_store []
      (mkCheckpoint false [mkScanState (KeyRangeRef [x62] key_ff) key_ff] [] 0 0 [])
    = Some (p0', cp1').
Proof. do 2 eexists. vm_compute. reflexivity. Qed.

(** The sample table scan read in two transactions. *)
Lemma nonisolated_ro_sends_uninterrupted_witness :
  exists outs full pf,
    doNonIsolatedRO sample_decode sample_decode (fun k => k) ScanTable
                    sample_store [] new_PlanCheckpoint outs [sample_scan1]
    /\ pipe_run sample_decode sample_decode (fun k => k) sample_scan0 full pf
    /\ pipe_done pf = true
    /\ outs = full.
Proof.
  destruct sample_checkpoint_pipe as [stopped Hstop].
  destruct sample_resumed_execute as (p0' & cp1' & Hex').
  destruct (executed_completes sample_decode sample_decode (fun k => k)
              _ _ _ _ _ _ Hex') as (o' & pf' & Hr' & Hd').
  destruct (executed_completes sample_decode sample_decode (fun k => k)
              _ _ _ _ _ _ sample_execute) as (full & pf & Hr & Hd).
  assert (Hro : doNonIsolatedRO sample_decode sample_decode (fun k => k) ScanTable
                  sample_store [] new_PlanCheckpoint
                  ([sample_doc [x61]] ++ o') [sample_scan1]).
  { eapply ro_timeout; [exact sample_execute|exact sample_run|reflexivity
                       |exact Hstop|].
    eapply ro_end_of_stream; eauto. }
  exists ([sample_doc [x61]] ++ o'), full, pf.
  split; [exact Hro|]. split; [exact Hr|]. split; [exact Hd|].
  apply (nonisolated_ro_sends_uninterrupted sample_decode sample_decode
           (fun k => k) ScanTable sample_store [] sample_store_sorted
           sample_store_below_ff sample_item_prefix sample_item_nonempty
           sample_item_delimited new_PlanCheckpoint sample_started sample_scan0 pf
           ([sample_doc [x61]] ++ o') full [sample_scan1]).
  - reflexivity.
  - split; [reflexivity|constructor].
  - exact Hro.
  - repeat constructor. discriminate.
  - exact sample_execute.
  - exact Hr.
  - exact Hd.
Defined.

(** * PrimaryKeyLookupPlan on one key *)

Section SinglePKLookupRuns.
Context {Ctx : Type}.
Local Abbreviation Doc := (ScanReturnedContext Ctx).
Local Abbreviation Checkpoint := (PlanCheckpoint Ctx).
Variable decode_item0 : Key -> Key.
Variable getSubContext : Key -> Ctx.

(** The lookup of one key sends the document of that key, under its scan
    id and with the key as scan key, when the key is in the collection
    and within the bounds of the checkpoint, and nothing but
    end_of_stream otherwise. *)
Lemma doSinglePKLookup_sends (cp : Checkpoint) (scanID : Z) (store : list Key)
    (x : Key) :
  doSinglePKLookup getSubContext cp scanID store x
  = (if key_leb (range_begin (getBounds cp scanID)) x
        && key_ltb x (range_end (getBounds cp scanID))
        && existsb (key_eqb x) store
     then [Send (mkDoc (getSubContext x) scanID x)] else [])
    ++ [SendError end_of_stream].
Proof.
  unfold doSinglePKLookup. cbv zeta.
  destruct (key_leb _ x && key_ltb x _); simpl; [|reflexivity].
  destruct (existsb (key_eqb x) store); reflexivity.
Qed.

(** The lookup of one key is not resumed: it writes no split key, so the
    checkpoint [stopAndCheckpoint] returns holds the bounds that begin at
    0xFF, and the lookup executed again under it sends no document,
    whether the first execution had sent the document or not. *)
Theorem single_lookup_not_resumed (cp cp2 stopped rest : Checkpoint)
    (store : list Key) (x : Key) (out : list (Emit Doc)) :
  clean_checkpoint cp -> ops cp = [] ->
  key_lt x key_ff ->
  execute_lookup getSubContext cp store x = (out, cp2) ->
  stopAndCheckpoint decode_item0 cp2 = Some (stopped, rest) ->
  fst (execute_lookup getSubContext rest store x) = [SendError end_of_stream].
Proof.
  intros Hclean Hops Hx Hex Hstop.
  destruct (clean_addScan cp Hclean) as [Hne Hread].
  unfold execute_lookup in Hex. 
  destruct (addScan cp) as [scanID cp1] eqn:Ea. simpl in Hne, Hread.
  injection Hex as _ <-.
  assert (Hops1 : ops cp1 = []).
  { unfold addScan in Ea. injection Ea as _ <-. exact Hops. }
  unfold stopAndCheckpoint, stop in Hstop. simpl in Hstop.
  rewrite Hops1 in Hstop. simpl in Hstop. injection Hstop as _ <-.
  unfold execute_lookup, addScan. simpl.
  destruct (scans cp1) as [|sc l] eqn:Es; [congruence|]. simpl.
  unfold doSinglePKLookup, getBounds. simpl.
  unfold read_splitBound in Hread. rewrite Es in Hread. simpl in Hread.
  injection Hread as ->.
  assert (Hlt : key_leb key_ff x = false).
  { unfold key_leb. apply key_ltb_lt in Hx. now rewrite Hx. }
  now rewrite Hlt.
Qed.
End SinglePKLookupRuns.

(** The lookup of "a" in the sample collection, stopped and executed
    again. *)
Lemma single_lookup_not_resumed_witness :
  exists out cp2 stopped rest,
    execute_lookup (fun k : Key => k) (@new_PlanCheckpoint Key) sample_store [x61]
    = (out, cp2)
    /\ out = [Send (mkDoc [x61] 0 [x61]); SendError end_of_stream]
    /\ stopAndCheckpoint sample_decode cp2 = Some (stopped, rest)
    /\ fst (execute_lookup (fun k : Key => k) rest sample_store [x61])
       = [SendError end_of_stream].
Proof.
  do 4 eexists.
  split; [reflexivity|]. split; [reflexivity|].
  split; [vm_compute; reflexivity|].
  eapply (single_lookup_not_resumed sample_decode (fun k : Key => k)
            (@new_PlanCheckpoint Key)).
  - split; [reflexivity|constructor].
  - reflexivity.
  - reflexivity.
  - reflexivity.
  - vm_compute. reflexivity.
Defined.

(** * IndexScanPlan with its deduplication *)

Lemma sorted_NoDup (l : list Key) : StronglySorted key_lt l -> NoDup l.
Proof.
  induction 1 as [|k l Hs IH Hk]; constructor; [|exact IH].
  intros Hin. rewrite Forall_forall in Hk.
  exact (key_lt_irrefl k (Hk k Hin)).
Qed.

Lemma filter_sublist {A : Type} (f : A -> bool) (l : list A) :
  List.filter f l `sublist_of` l.
Proof.
  induction l as [|x l IH]; simpl; [constructor|].
  destruct (f x); now constructor.
Qed.

(** The value of the one entry of a document at which the test passes. *)
Lemma simple_pass_value (values : list Key) (pk ub v w : Key) :
  prefix_code values -> In v values -> In w values -> key_lt w ub ->
  (length values =? 1)%nat = false ->
  simpleWouldBeLast values (v ++ pk) ub = true ->
  v = last_below (key_sort values) ub.
Proof.
  intros Hpc Hv Hw Hlt E Hp.
  destruct (last_below_largest values ub w Hw Hlt) as (Hin & _).
  unfold simpleWouldBeLast in Hp. rewrite E in Hp. cbv zeta in Hp.
  destruct (startsWith (v ++ pk) (last_below (key_sort values) ub)) eqn:Hsw;
    [|discriminate].
  symmetry. now apply (entry_value values pk Hpc v).
Qed.

Section IndexScanDedup.
Context {Ctx : Type}.
Local Abbreviation Doc := (ScanReturnedContext Ctx).
Local Abbreviation Checkpoint := (PlanCheckpoint Ctx).
Local Abbreviation PipeC := (@Pipe Ctx).

Variable decode_item0 : Key -> Key.
Variable decode_item_rev0 : Key -> Key.
Variable getSubContext : Key -> Ctx.
Variable index_values : Ctx -> list Key.
Variable index : list Key.

Local Abbreviation run := (pipe_run decode_item0 decode_item_rev0 getSubContext).

(** The index in key order; each of its keys is a value of the document
    it designates followed by the primary key of that document; the
    encoded values of a document are self-delimiting. *)
Hypothesis index_sorted : StronglySorted key_lt index.
Hypothesis index_entries :
  forall k, k ∈ index ->
    exists v, In v (index_values (getSubContext (decode_item_rev0 k)))
              /\ k = v ++ decode_item_rev0 k.
Hypothesis values_prefix_code :
  forall k, k ∈ index ->
    prefix_code (index_values (getSubContext (decode_item_rev0 k))).

Lemma omap_dedup (f : Doc -> bool) (l : list Doc) :
  omap (outcome (SDedup f)) l = List.filter f l.
Proof.
  induction l as [|d l IH]; simpl; [reflexivity|].
  unfold omap in *. simpl. destruct (f d); simpl; now rewrite IH.
Qed.

Lemma filter_di_docs (f : Doc -> bool) (id : Z) (kvs : list Key) :
  List.filter f (di_docs decode_item_rev0 getSubContext id kvs)
  = di_docs decode_item_rev0 getSubContext id
      (List.filter
         (fun k => f (mkDoc (getSubContext (decode_item_rev0 k)) id k)) kvs).
Proof.
  unfold di_docs. induction kvs as [|k l IH]; simpl; [reflexivity|].
  destruct (f _); simpl; now rewrite IH.
Qed.

(** Two keys of the index below the upper bound that designate the same
    document and both pass the test are the same key. *)
Lemma dedup_pass_same (ub k1 k2 : Key) :
  k1 ∈ index -> k2 ∈ index -> key_lt k1 ub -> key_lt k2 ub ->
  decode_item_rev0 k1 = decode_item_rev0 k2 ->
  simpleWouldBeLast (index_values (getSubContext (decode_item_rev0 k1))) k1 ub = true ->
  simpleWouldBeLast (index_values (getSubContext (decode_item_rev0 k2))) k2 ub = true ->
  k1 = k2.
Proof.
  intros H1 H2 L1 L2 Hpk P1 P2.
  destruct (index_entries k1 H1) as (v1 & Hv1 & E1).
  destruct (index_entries k2 H2) as (v2 & Hv2 & E2).
  pose proof (values_prefix_code k1 H1) as Hpc.
  rewrite <- Hpk in Hv2, E2, P2.
  set (pk := decode_item_rev0 k1) in *.
  set (values := index_values (getSubContext pk)) in *.
  destruct (length values =? 1)%nat eqn:E.
  - apply Nat.eqb_eq in E. destruct values as [|a [|b l]]; try discriminate.
    destruct Hv1 as [<-|[]]. destruct Hv2 as [<-|[]]. congruence.
  - assert (Hlt1 : key_lt v1 ub).
    { eapply key_le_lt_trans; [apply (key_le_app v1 pk)|]. now rewrite <- E1. }
    rewrite E1 in P1. rewrite E2 in P2.
    rewrite (simple_pass_value values pk ub v1 v1 Hpc Hv1 Hv1 Hlt1 E P1) in E1.
    rewrite (simple_pass_value values pk ub v2 v1 Hpc Hv2 Hv1 Hlt1 E P2) in E2.
    congruence.
Qed.

(** IndexScanPlan with deduplicateIndexStream, run to its end: no
    document is sent twice (the primary keys of the documents sent are
    pairwise distinct), and every document sent is the one an index key
    designates, with that key as its scan key. *)
Theorem index_scan_sends_no_document_twice (begin end_ : option Key)
    (store : list Key) (cp cp1 : Checkpoint) (p0 pf : PipeC) (out : list Doc) :
  opt_key_eqb begin end_ = false ->
  execute (ScanIndex begin end_ index_values) store index cp = Some (p0, cp1) ->
  run p0 out pf -> pipe_done pf = true ->
  NoDup (map (fun d : Doc => decode_item_rev0 (scanKey d)) out)
  /\ Forall (fun d : Doc => scanKey d ∈ index
                            /\ docCx d = getSubContext (decode_item_rev0 (scanKey d)))
            out.
Proof.
  intros Hne Hex Hrun Hd.
  rewrite (complete_run_output _ _ _ _ _ _ Hrun Hd).
  cbn [execute] in Hex. destruct (addScan cp) as [scanID c1].
  destruct (plan_hi end_) as [hi|]; [|discriminate].
  destruct (scan_range (plan_lo begin) hi (getBounds c1 scanID))
    as [lowerBound upperBound].
  rewrite Hne in Hex. injection Hex as <- <-.
  cbn [remaining di_done di_taking di_kvs di_scanID app].
  rewrite omap_dedup, filter_di_docs. cbn [docCx scanKey].
  set (pass := fun k : Key => simpleWouldBeLast _ _ _).
  assert (Hin : forall k,
             k ∈ List.filter pass (getDescendants index lowerBound upperBound) ->
             k ∈ index /\ key_lt k upperBound /\ pass k = true).
  { intros k Hk. apply list_elem_of_In, filter_In in Hk as [Hk Hp].
    apply list_elem_of_In in Hk.
    apply getDescendants_spec in Hk as [[_ Hlt] Hi]. auto. }
  split.
  - unfold di_docs. rewrite map_map. simpl.
    apply NoDup_fmap_2_strong.
    + intros k1 k2 H1 H2 Hpk.
      destruct (Hin k1 H1) as (I1 & L1 & P1).
      destruct (Hin k2 H2) as (I2 & L2 & P2).
      exact (dedup_pass_same upperBound k1 k2 I1 I2 L1 L2 Hpk P1 P2).
    + apply sublist_NoDup with (l2 := index); [now apply sorted_NoDup|].
      etrans; [apply filter_sublist|apply getDescendants_sublist].
  - apply Forall_forall. intros d Hd'.
    apply list_elem_of_In, in_map_iff in Hd' as (k & <- & Hk).
    apply list_elem_of_In, Hin in Hk as (Hi & _). simpl. auto.
Qed.
End IndexScanDedup.

Lemma sample_index_sorted : StronglySorted key_lt sample_index.
Proof. repeat constructor. Qed.

Lemma sample_index_entries (k : Key) :
  k ∈ sample_index ->
  exists v, In v (sample_index_values (sample_decode_rev k))
            /\ k = v ++ sample_decode_rev k.
Proof.
  intros Hk. apply list_elem_of_In in Hk. simpl in Hk.
  destruct Hk as [<-|[<-|[]]].
  - exists [x61]. simpl. auto.
  - exists [x63]. simpl. auto.
Qed.

Lemma sample_values_prefix_code (k : Key) :
  k ∈ sample_index -> prefix_code (sample_index_values (sample_decode_rev k)).
Proof.
  intros _ v v' s Hv Hv' E. simpl in Hv, Hv'.
  destruct Hv as [<-|[<-|[]]], Hv' as [<-|[<-|[]]];
    destruct s; try discriminate; reflexivity.
Qed.

Lemma sample_index_execute :
  @execute Key (ScanIndex None None sample_index_values) [] sample_index
           new_PlanCheckpoint
  = Some (PStage (SDedup (fun d => simpleWouldBeLast
                                     (sample_index_values (docCx d))
                                     (scanKey d) key_ff))
                 [] true false [] sample_index_scan0,
          sample_started).
Proof. reflexivity. Qed.

(** The sample index, two entries of one document, scanned with its
    deduplication. *)
Lemma index_scan_sends_no_document_twice_witness :
  exists out : list (ScanReturnedContext Key),
    NoDup (map (fun d : ScanReturnedContext Key => sample_decode_rev (scanKey d)) out)
    /\ Forall (fun d : ScanReturnedContext Key =>
                 scanKey d ∈ sample_index
                 /\ docCx d = sample_decode_rev (scanKey d)) out.
Proof.
  destruct (executed_completes sample_decode sample_decode_rev (fun k => k)
              _ _ _ _ _ _ sample_index_execute) as (out & pf & Hrun & Hd).
  exists out.
  exact (index_scan_sends_no_document_twice sample_decode sample_decode_rev
           (fun k => k) sample_index_values sample_index sample_index_sorted
           sample_index_entries sample_values_prefix_code None None []
           new_PlanCheckpoint sample_started _ pf out eq_refl
           sample_index_execute Hrun Hd).
Defined.

(** * Stopping and resuming a plan *)

(** ** Ranges read again *)

(** Two ranges that hold the same keys of the store are read the same. *)
Lemma getDescendants_ext (src : list Key) (b e b' e' : Key) :
  (forall k, k ∈ src ->
     (key_le b' k /\ key_lt k e') <-> (key_le b k /\ key_lt k e)) ->
  getDescendants src b' e' = getDescendants src b e.
Proof.
  unfold getDescendants. induction src as [|x l IH]; intros H; [reflexivity|].
  assert (Hl : forall k, k ∈ l ->
     (key_le b' k /\ key_lt k e') <-> (key_le b k /\ key_lt k e)).
  { intros k Hk. apply H. now right. }
  specialize (H x (list_elem_of_here x l)).
  assert (Hx : key_leb b' x && key_ltb x e' = key_leb b x && key_ltb x e).
  { apply eq_true_iff_eq. rewrite !andb_true_iff, !key_leb_le, !key_ltb_lt.
    exact H. }
  rewrite !filter_cons, (IH Hl), Hx. reflexivity.
Qed.

(** Within the range a scan reads, the upper end is the smaller of the
    plan's and the checkpoint's. *)
Lemma scan_range_cond (lo hi B E k : Key) :
  (key_le (fst (scan_range lo hi (KeyRangeRef B E))) k
   /\ key_lt k (snd (scan_range lo hi (KeyRangeRef B E))))
  <-> (key_le lo k /\ key_le B k) /\ key_lt k (key_min hi E).
Proof.
  unfold scan_range. simpl.
  set (b := key_max lo B). set (m := key_min hi E).
  assert (Hb : key_le b k <-> key_le lo k /\ key_le B k).
  { split.
    - intros H. split; (eapply key_le_trans; [|exact H]);
        [apply key_max_l|apply key_max_r].
    - intros [H1 H2]. unfold b, key_max. now destruct (key_ltb lo B). }
  split.
  - intros [H1 H2]. split; [now apply Hb|].
    unfold key_max in H2. destruct (key_ltb b m); [assumption|].
    destruct (key_lt_irrefl k). eapply key_lt_le_trans; eauto.
  - intros [H1 H2]. apply Hb in H1. split; [assumption|].
    eapply key_lt_le_trans; [exact H2|apply key_max_r].
Qed.

(** A key in the range read is below the upper end the deduplication
    is given, which is then the same from wherever the scan resumes. *)
Lemma scan_range_upper (lo hi B E k : Key) :
  key_le (fst (scan_range lo hi (KeyRangeRef B E))) k ->
  key_lt k (snd (scan_range lo hi (KeyRangeRef B E))) ->
  snd (scan_range lo hi (KeyRangeRef B E)) = key_min hi E.
Proof.
  intros H1 H2. destruct (proj1 (scan_range_cond lo hi B E k) (conj H1 H2))
    as [_ Hm].
  unfold scan_range in *. simpl in *. apply key_max_le.
  apply key_lt_le. eapply key_le_lt_trans; [exact H1|exact Hm].
Qed.

(** ** The shape of an executed pipeline *)

Section ResumeShape.
Context {Ctx : Type}.
Local Abbreviation Doc := (ScanReturnedContext Ctx).
Local Abbreviation Checkpoint := (PlanCheckpoint Ctx).

Variable decode_item0 : Key -> Key.
Variable decode_item_rev0 : Key -> Key.
Variable getSubContext : Key -> Ctx.

Local Abbreviation PipeC := (@Pipe Ctx).
Local Abbreviation run := (pipe_run decode_item0 decode_item_rev0 getSubContext).
Local Abbreviation rest_of := (remaining decode_item0 decode_item_rev0 getSubContext).
Local Abbreviation inv := (pipe_inv decode_item0 decode_item_rev0 getSubContext).

Lemma wrap_app (ks1 ks2 : list (@StageKind Ctx)) (src : PipeC) :
  wrap (ks1 ++ ks2) src = wrap ks1 (wrap ks2 src).
Proof. induction ks1 as [|k ks IH]; simpl; congruence. Qed.

Lemma remaining_wrap_any (ks : list (@StageKind Ctx)) (src : PipeC) :
  rest_of (wrap ks src) = through ks (rest_of src).
Proof. induction ks as [|k ks IH]; simpl; [reflexivity|]. now rewrite IH. Qed.

(** Fresh stages above a pipeline that has not started. *)
Lemma wrap_new (ks : list (@StageKind Ctx)) (src : PipeC) (kvs : list Key) :
  inv kvs src -> pipe_wf src -> pipe_sent src = [] -> pipe_done src = false ->
  let p0 := wrap ks src in
  inv kvs p0 /\ pipe_wf p0 /\ pipe_sent p0 = [] /\ pipe_done p0 = false
  /\ source_scanID p0 = source_scanID src
  /\ pipe_kinds p0 = ks ++ pipe_kinds src.
Proof.
  intros Hi Hw Hs Hd. induction ks as [|k ks IH]; simpl.
  - repeat split; auto.
  - destruct IH as (H1 & H2 & H3 & H4 & H5 & H6). rewrite H4.
    repeat split; auto; try discriminate; [|congruence].
    exists []. auto.
Qed.

(** [execute] adds one scan, builds the pipeline of the scan from its id
    and its bounds, and puts the filters and projections above it. *)
Lemma execute_scan_pipe (plan : ScanPlan) (store index : list Key) (cp : Checkpoint) :
  execute plan store index cp =
  match scan_pipe plan store index (scansAdded cp)
                  (getBounds (snd (addScan cp)) (scansAdded cp)) with
  | Some src => Some (wrap (plan_stages plan) src, snd (addScan cp))
  | None => None
  end.
Proof.
  induction plan as [|b e|b e iv|src IH f|src IH f]; simpl.
  - reflexivity.
  - unfold scan_pipe. simpl. destruct (opt_key_eqb b e); [reflexivity|].
    destruct (plan_hi e); reflexivity.
  - unfold scan_pipe. simpl. destruct (plan_hi e); [|reflexivity].
    destruct (opt_key_eqb b e); reflexivity.
  - rewrite IH. change (scan_pipe (ScanFilter src f)) with (scan_pipe src).
    now destruct (scan_pipe src _ _ _ _).
  - rewrite IH. change (scan_pipe (ScanProjection src f)) with (scan_pipe src).
    now destruct (scan_pipe src _ _ _ _).
Qed.

(** The actors whose cancellation writes no split key. *)
Lemma cancel_all_silent (cp : Checkpoint) (l : list (Actor Ctx)) :
  Forall (fun a => a = ActFinished \/ a = ActSilent) l ->
  cancel_all decode_item0 cp l = Some cp.
Proof.
  induction 1 as [|a l [-> | ->] _ IH]; simpl; auto.
Qed.

(** A pipeline whose stages hold nothing and whose scan has nothing left
    to send sends nothing more. *)
Lemma remaining_silent (p : PipeC) :
  pending p = [] -> rest_of (source_of p) = [] -> rest_of p = [].
Proof.
  intros Hp Hs.
  pose proof (remaining_keys decode_item0 decode_item_rev0 getSubContext p) as Hk.
  rewrite Hp, Hs in Hk. simpl in Hk.
  apply sublist_nil_r in Hk. now apply map_eq_nil in Hk.
Qed.

Lemma source_of_same (p : PipeC) :
  match source_of p, source_of p with
  | PTableScan _ _, PTableScan _ _ => True
  | PIndexScan _ _, PIndexScan _ _ => True
  | PLookup _ _, PLookup _ _ => True
  | _, _ => False
  end.
Proof. induction p; simpl; auto. Qed.

Lemma run_source_of (p p' : PipeC) (out : list Doc) :
  run p out p' ->
  match source_of p, source_of p' with
  | PTableScan _ _, PTableScan _ _ => True
  | PIndexScan _ _, PIndexScan _ _ => True
  | PLookup _ _, PLookup _ _ => True
  | _, _ => False
  end.
Proof.
  induction 1 as [p|p e p' out p'' Hs Hr IH].
  - apply source_of_same.
  - assert (Hstep : match source_of p, source_of p' with
                    | PTableScan _ _, PTableScan _ _ => True
                    | PIndexScan _ _, PIndexScan _ _ => True
                    | PLookup _ _, PLookup _ _ => True
                    | _, _ => False
                    end).
    { clear -Hs. induction Hs; simpl; auto; apply source_of_same. }
    destruct (source_of p), (source_of p'), (source_of p''); auto; contradiction.
Qed.
End ResumeShape.

(** ** Resuming a scan of any kind *)

Section ResumeScan.
Context {Ctx : Type}.
Local Abbreviation Doc := (ScanReturnedContext Ctx).
Local Abbreviation Checkpoint := (PlanCheckpoint Ctx).

Variable decode_item0 : Key -> Key.
Variable decode_item_rev0 : Key -> Key.
Variable getSubContext : Key -> Ctx.
Variable store : list Key.
Variable index : list Key.

(** The document keys of the collection as in the sections above; the
    keys of the index in key order, none empty and all below 0xFF. *)
Hypothesis store_sorted : StronglySorted key_lt store.
Hypothesis store_below_ff : forall k, k ∈ store -> key_lt k key_ff.
Hypothesis item_prefix : forall k, k ∈ store -> exists s, k = decode_item0 k ++ s.
Hypothesis item_nonempty : forall k, k ∈ store -> decode_item0 k <> [].
Hypothesis item_delimited :
  forall k1 k2, k1 ∈ store -> k2 ∈ store ->
    (exists s, k2 = decode_item0 k1 ++ s) -> decode_item0 k2 = decode_item0 k1.
Hypothesis index_sorted : StronglySorted key_lt index.
Hypothesis index_below_ff : forall k, k ∈ index -> key_lt k key_ff.
Hypothesis index_nonempty : forall k, k ∈ index -> k <> [].

Local Abbreviation PipeC := (@Pipe Ctx).
Local Abbreviation run := (pipe_run decode_item0 decode_item_rev0 getSubContext).
Local Abbreviation rest_of := (remaining decode_item0 decode_item_rev0 getSubContext).
Local Abbreviation inv := (pipe_inv decode_item0 decode_item_rev0 getSubContext).
Local Abbreviation pkdocs := (pk_docs decode_item0 getSubContext).
Local Abbreviation didocs := (di_docs decode_item_rev0 getSubContext).

Lemma store_key_nonempty (k : Key) : k ∈ store -> k <> [].
Proof.
  intros Hk E. destruct (item_prefix k Hk) as [s Hs].
  apply (item_nonempty k Hk). rewrite E in Hs at 1. symmetry in Hs.
  now apply app_eq_nil in Hs as [? _].
Qed.

Lemma last_key_nonempty (src l : list Key) :
  (forall k, k ∈ src -> k <> []) -> l `sublist_of` src -> l <> [] ->
  last_key l <> [].
Proof.
  intros Hne Hsub Hl.
  destruct (exists_last Hl) as (c & k & ->). rewrite last_key_snoc.
  apply Hne. eapply elem_of_sublist; [|exact Hsub].
  rewrite elem_of_app, list_elem_of_singleton. auto.
Qed.

(** No key of a sorted store below 0xFF is read from 0xFF on. *)
Lemma nothing_from_ff (src : list Key) (lo hi E : Key) :
  (forall k, k ∈ src -> key_lt k key_ff) ->
  let r := scan_range lo hi (KeyRangeRef key_ff E) in
  getDescendants src (fst r) (snd r) = [].
Proof.
  intros Hb r. apply elem_of_nil_inv. intros k Hk.
  apply getDescendants_spec in Hk as [[H1 _] Hin].
  apply (key_lt_irrefl k). eapply key_lt_le_trans; [now apply Hb|].
  eapply key_le_trans; [apply key_max_r|exact H1].
Qed.

(** A stage that holds a document: the scan below it has sent one. *)
Lemma pending_source_sent (kvs0 : list Key) (p : PipeC) (d : Doc) (tl : list Doc) :
  inv kvs0 p -> pending p = d :: tl ->
  scanKey d ∈ map scanKey (pipe_sent (source_of p)).
Proof.
  intros Hi Ep.
  pose proof (inv_pending_keys _ _ _ _ _ Hi) as Hpk. rewrite Ep in Hpk.
  eapply elem_of_sublist; [|exact Hpk].
  rewrite map_app. simpl. rewrite elem_of_app, elem_of_cons. auto.
Qed.

(** Where a stopped pipeline over [doPKScan] resumes, whatever the state
    it is stopped in, provided the scan has finished a key when no stage
    holds a document, and the split key is at its default when the scan
    has ended. *)
Lemma resume_pk (ks : list StageKind) (id : Z) (lo hi B E : Key) (p : PipeC)
    (out : list Doc) (old : option Key) :
  let r := scan_range lo hi (KeyRangeRef B E) in
  let kvs0 := getDescendants store (fst r) (snd r) in
  run (wrap ks (fresh_scan id kvs0)) out p ->
  old <> None ->
  (pending p = [] ->
   match source_of p with
   | PTableScan s _ => if pk_done s then old = Some key_ff else pk_lastKey s <> []
   | _ => True
   end) ->
  exists kappa,
    final_split decode_item0 p old = Some kappa
    /\ source_split decode_item0 p old <> None
    /\ (let r' := scan_range lo hi (KeyRangeRef kappa E) in
        rest_of p
        = through ks (pkdocs id [] (getDescendants store (fst r') (snd r')))).
Proof.
  intros r kvs0 Hrun Hold Hres.
  destruct (wrap_fresh decode_item0 decode_item_rev0 getSubContext ks id kvs0)
    as (Hi0 & Hw0 & Hid0 & Hs0 & _).
  assert (Hi : inv kvs0 p) by (eapply run_inv; eauto).
  assert (Hpk : is_pk p).
  { eapply run_is_pk; [exact Hrun|]. unfold is_pk.
    rewrite source_of_wrap. unfold fresh_scan. eauto. }
  destruct Hpk as (s & ss & Hsrc). rewrite Hsrc in Hres.
  pose proof (inv_source _ _ _ _ _ Hi) as His. rewrite Hsrc in His. simpl in His.
  assert (Hsub : kvs0 `sublist_of` store) by apply getDescendants_sublist.
  assert (Hsplit : source_split decode_item0 p old
                   = if pk_done s then old
                     else strinc (decode_item0 (pk_lastKey s))).
  { rewrite <- (source_split_source decode_item0 p), Hsrc. reflexivity. }
  destruct (pending p) as [|d tl] eqn:Ep.
  - specialize (Hres eq_refl). destruct (pk_done s) eqn:Ed.
    + (* the scan has ended and no stage holds a document *)
      subst old. exists key_ff. unfold final_split. rewrite Ep, Hsplit.
      split; [reflexivity|]. split; [discriminate|].
      cbv zeta. rewrite (nothing_from_ff store lo hi E store_below_ff).
      simpl. rewrite through_nil.
      apply (remaining_silent decode_item0 decode_item_rev0 getSubContext p Ep).
      rewrite Hsrc. simpl. now rewrite Ed.
    + assert (Hlk : source_lastKey p <> []).
      { rewrite <- source_lastKey_source, Hsrc. exact Hres. }
      destruct (resume_point decode_item0 decode_item_rev0 getSubContext store
                  store_sorted store_below_ff item_prefix item_nonempty
                  item_delimited ks id lo hi B E p out Hrun Hlk)
        as (kappa & c2 & Hfs & Hss & Hkvs & Hrem).
      exists kappa. unfold final_split in *. rewrite Ep in *.
      rewrite Hsplit. rewrite <- (source_split_source decode_item0 p), Hsrc in Hfs, Hss.
      simpl in Hfs, Hss. rewrite Ed in Hfs, Hss.
      split; [exact Hfs|]. split; [exact Hss|].
      cbv zeta in Hkvs. cbv zeta. now rewrite Hkvs.
  - (* some stage holds a document: the scan has finished a key *)
    assert (Hlk : source_lastKey p <> []).
    { rewrite <- source_lastKey_source, Hsrc. simpl.
      pose proof (pending_source_sent kvs0 p d tl Hi Ep) as Hin.
      rewrite Hsrc in Hin. simpl in Hin.
      destruct His as (consumed & Hk & Hss & Hl & _). rewrite Hl.
      apply (last_key_nonempty store); [exact store_key_nonempty| |].
      - etransitivity; [|exact Hsub]. rewrite Hk. now apply sublist_inserts_r.
      - intros ->. rewrite Hss in Hin. simpl in Hin. now apply elem_of_nil in Hin. }
    destruct (resume_point decode_item0 decode_item_rev0 getSubContext store
                store_sorted store_below_ff item_prefix item_nonempty
                item_delimited ks id lo hi B E p out Hrun Hlk)
      as (kappa & c2 & Hfs & Hss & Hkvs & Hrem).
    exists kappa. unfold final_split in *. rewrite Ep in *.
    split; [exact Hfs|]. split.
    + rewrite Hsplit. destruct (pk_done s) eqn:Ed; [exact Hold|].
      rewrite <- (source_split_source decode_item0 p), Hsrc in Hss.
      simpl in Hss. now rewrite Ed in Hss.
    + cbv zeta in Hkvs. cbv zeta. now rewrite Hkvs.
Qed.

Lemma source_of_wrap_any (ks : list (@StageKind Ctx)) (src : PipeC) :
  source_of (wrap ks src) = source_of src.
Proof. induction ks as [|k ks IH]; simpl; auto. Qed.

Lemma source_scanID_source (p : PipeC) :
  source_scanID (source_of p) = source_scanID p.
Proof. induction p; simpl; auto. Qed.

(** A sorted list cut at one of its keys. *)
Lemma sorted_cut_at (l : list Key) (k : Key) :
  StronglySorted key_lt l -> k ∈ l ->
  exists c1 c2, l = c1 ++ c2 /\ Forall (fun x => key_lt x k) c1
                /\ Forall (key_le k) c2 /\ c2 <> [].
Proof.
  intros Hs Hk. apply list_elem_of_split in Hk as (c1 & c2 & ->).
  exists c1, (k :: c2).
  apply StronglySorted_app in Hs as (Hall & _ & H2).
  apply StronglySorted_cons in H2 as [Hgt _].
  split; [reflexivity|]. split; [|split; [|discriminate]].
  - apply Forall_forall. intros x Hx. apply Hall; [exact Hx|left].
  - constructor; [apply key_le_refl|].
    eapply Forall_impl; [exact Hgt|]. intros x. apply key_lt_le.
Qed.

(** Where a stopped pipeline over [toDocInfo] resumes.  [dk] gives the
    deduplication stage, if any, from the upper end of the range read. *)
Lemma resume_index (ks : list StageKind) (dk : Key -> list StageKind) (id : Z)
    (lo hi B E : Key) (p : PipeC) (out : list Doc) (old : option Key) :
  let r := scan_range lo hi (KeyRangeRef B E) in
  let kvs0 := getDescendants index (fst r) (snd r) in
  run (wrap (ks ++ dk (snd r)) (PIndexScan (mkDocInfo id kvs0 [] None false) []))
      out p ->
  old <> None ->
  (pending p = [] ->
   match source_of p with
   | PIndexScan s _ =>
       if di_done s then old = Some key_ff
       else di_lastKey s <> [] \/ key_le B key_00
   | _ => True
   end) ->
  exists kappa,
    final_split decode_item0 p old = Some kappa
    /\ source_split decode_item0 p old <> None
    /\ (let r' := scan_range lo hi (KeyRangeRef kappa E) in
        rest_of p
        = through (ks ++ dk (snd r'))
                  (didocs id (getDescendants index (fst r') (snd r')))).
Proof.
  intros r kvs0 Hrun Hold Hres.
  set (K := ks ++ dk (snd r)) in *.
  set (s0 := mkDocInfo id kvs0 [] None false) in *.
  destruct (wrap_new decode_item0 decode_item_rev0 getSubContext K
              (PIndexScan s0 []) kvs0) as (Hi0 & Hw0 & Hs0 & _ & Hid0 & Hk0);
    [apply fresh_di|exact I|reflexivity|reflexivity|].
  simpl in Hid0, Hk0. rewrite app_nil_r in Hk0.
  assert (Hi : inv kvs0 p) by (eapply run_inv; eauto).
  assert (Hw : pipe_wf p) by (eapply run_wf; eauto).
  assert (Hid : source_scanID p = id).
  { rewrite (run_scanID _ _ _ _ _ _ Hrun). exact Hid0. }
  assert (Hks : pipe_kinds p = K).
  { rewrite (run_kinds _ _ _ _ _ _ Hrun). exact Hk0. }
  assert (Hout : pipe_sent p = out).
  { rewrite (run_sent _ _ _ _ _ _ Hrun), Hs0. reflexivity. }
  pose proof (run_source_of decode_item0 decode_item_rev0 getSubContext _ _ _ Hrun)
    as Hkind.
  rewrite source_of_wrap_any in Hkind. simpl in Hkind.
  destruct (source_of p) as [| s ss | |] eqn:Hsrc; try contradiction.
  clear Hkind.
  pose proof (inv_source _ _ _ _ _ Hi) as His. rewrite Hsrc in His. simpl in His.
  assert (Hsid : di_scanID s = id).
  { rewrite <- Hid, <- source_scanID_source, Hsrc. reflexivity. }
  assert (Hsub : kvs0 `sublist_of` index) by apply getDescendants_sublist.
  assert (Hsorted : StronglySorted key_lt kvs0).
  { eapply sublist_StronglySorted; eauto. }
  assert (Hrs : through K (didocs id kvs0) = out ++ rest_of p).
  { rewrite <- (run_remaining _ _ _ _ _ _ Hrun), remaining_wrap_any. reflexivity. }
  assert (Hsplit : source_split decode_item0 p old
                   = if di_done s then old else Some (keyAfter (di_lastKey s))).
  { rewrite <- (source_split_source decode_item0 p), Hsrc. reflexivity. }
  (* the deduplication is given the same upper end over the keys read again *)
  assert (Hdk : forall kappa c2,
             (let r' := scan_range lo hi (KeyRangeRef kappa E) in
              getDescendants index (fst r') (snd r') = c2) ->
             (forall k, k ∈ c2 -> k ∈ kvs0) ->
             through (ks ++ dk (snd (scan_range lo hi (KeyRangeRef kappa E))))
                     (didocs id c2)
             = through K (didocs id c2)).
  { intros kappa c2 Hc2 Hin. cbv zeta in Hc2. destruct c2 as [|k c2].
    - simpl. now rewrite !through_nil.
    - assert (Hk : k ∈ k :: c2) by left.
      pose proof (Hin k Hk) as Hk0'. rewrite <- Hc2 in Hk.
      apply getDescendants_spec in Hk as [[H1 H2] _].
      apply getDescendants_spec in Hk0' as [[H3 H4] _].
      rewrite (scan_range_upper _ _ _ _ _ H1 H2). unfold K, r.
      now rewrite (scan_range_upper _ _ _ _ _ H3 H4). }
  destruct His as (consumed & Hk & Hss & Hl).
  set (c2 := match di_taking s with Some kv => [kv] | None => [] end ++ di_kvs s)
    in *.
  destruct (pending p) as [|d tl] eqn:Ep.
  - specialize (Hres eq_refl). destruct (di_done s) eqn:Ed.
    + (* the scan has ended and no stage holds a document *)
      subst old. exists key_ff. unfold final_split. rewrite Ep, Hsplit.
      split; [reflexivity|]. split; [discriminate|].
      cbv zeta. rewrite (nothing_from_ff index lo hi E index_below_ff).
      simpl. rewrite through_nil.
      apply (remaining_silent decode_item0 decode_item_rev0 getSubContext p Ep).
      rewrite Hsrc. simpl. now rewrite Ed.
    + exists (keyAfter (di_lastKey s)). unfold final_split. rewrite Ep, Hsplit.
      split; [reflexivity|]. split; [discriminate|].
      assert (Hrem : rest_of p = through K (didocs id c2)).
      { rewrite (remaining_idle decode_item0 decode_item_rev0 getSubContext p
                   Hw Ep).
        2:{ rewrite Hsrc. exact Ed. }
        rewrite Hks, Hsrc. simpl. now rewrite Ed, Hsid. }
      assert (Hread : let r' := scan_range lo hi
                                  (KeyRangeRef (keyAfter (di_lastKey s)) E) in
                      getDescendants index (fst r') (snd r') = c2).
      { destruct consumed as [|k0 c0] using rev_ind.
        - (* cancelled before its first key *)
          simpl in Hk, Hl. rewrite Hl. unfold last_key in Hl. simpl in Hl.
          destruct Hres as [Hne|HB]; [congruence|].
          cbv zeta. change (keyAfter []) with key_00. rewrite <- Hk.
          unfold kvs0, r. apply getDescendants_ext. intros k Hin.
          rewrite !scan_range_cond.
          assert (H0 : key_le key_00 k) by (apply key_00_le; auto).
          assert (HBk : key_le B k) by (eapply key_le_trans; eauto).
          tauto.
        - clear IHc0. rewrite last_key_snoc in Hl. rewrite Hl.
          rewrite <- app_assoc in Hk. simpl in Hk.
          assert (Hs2 := Hsorted). rewrite Hk in Hs2.
          apply StronglySorted_app in Hs2 as (Hall & _ & H2).
          apply StronglySorted_cons in H2 as [Hgt _].
          apply (narrowed index lo hi B E (keyAfter k0) (c0 ++ [k0]) c2).
          + rewrite <- app_assoc. exact Hk.
          + apply Forall_app. split.
            * apply Forall_forall. intros x Hx.
              eapply key_lt_trans; [|apply key_lt_keyAfter].
              apply Hall; [exact Hx|left].
            * constructor; [apply key_lt_keyAfter|constructor].
          + eapply Forall_impl; [exact Hgt|]. intros x. apply keyAfter_least.
          + assert (Hin : k0 ∈ kvs0).
            { rewrite Hk. rewrite elem_of_app, elem_of_cons. auto. }
            apply getDescendants_spec in Hin as [[Hb _] _].
            eapply key_le_trans; [exact Hb|]. apply key_lt_le, key_lt_keyAfter. }
      cbv zeta in Hread. cbv zeta. rewrite Hread, Hrem. symmetry.
      apply (Hdk (keyAfter (di_lastKey s)) c2 Hread).
      intros k Hin. rewrite Hk. rewrite elem_of_app. now right.
  - (* some stage holds the document [d] *)
    exists (scanKey d). unfold final_split. rewrite Ep.
    split; [reflexivity|]. split.
    { rewrite Hsplit. now destruct (di_done s). }
    pose proof (inv_pending_keys _ _ _ _ _ Hi) as Hpk.
    rewrite Hsrc, Ep, Hout in Hpk. simpl in Hpk.
    rewrite Hss, di_docs_keys in Hpk.
    assert (Hd : scanKey d ∈ kvs0).
    { rewrite Hk. rewrite elem_of_app. left.
      eapply elem_of_sublist; [|exact Hpk]. rewrite map_app. simpl.
      rewrite elem_of_app, elem_of_cons. auto. }
    destruct (sorted_cut_at kvs0 (scanKey d) Hsorted Hd)
      as (c1 & c3 & Hcut & H1 & H2 & Hne).
    assert (Hread : let r' := scan_range lo hi (KeyRangeRef (scanKey d) E) in
                    getDescendants index (fst r') (snd r') = c3).
    { apply (narrowed index lo hi B E (scanKey d) c1 c3); auto.
      now apply getDescendants_spec in Hd as [[Hb _] _]. }
    cbv zeta in Hread. cbv zeta. rewrite Hread.
    rewrite (Hdk (scanKey d) c3 Hread).
    2:{ intros k Hin. rewrite Hcut. rewrite elem_of_app. now right. }
    assert (Hbig : StronglySorted key_lt
              (map scanKey (out ++ d :: tl ++ rest_of (source_of p)))).
    { eapply sublist_StronglySorted; [|exact Hsorted].
      rewrite Hk.
      replace (out ++ d :: tl ++ rest_of (source_of p))
        with ((out ++ d :: tl) ++ rest_of (source_of p))
        by (now rewrite <- app_assoc).
      rewrite map_app. apply sublist_app; [exact Hpk|].
      rewrite Hsrc. simpl. destruct (di_done s); [apply sublist_nil_l|].
      now rewrite di_docs_keys. }
    destruct (sorted_around scanKey out (tl ++ rest_of (source_of p)) d Hbig)
      as [Hlow Hhigh].
    assert (Hrest : Forall (fun x : Doc => key_le (scanKey d) (scanKey x))
                      (rest_of p)).
    { eapply (keys_above (scanKey d) (rest_of p)).
      - etransitivity; [apply remaining_keys|]. rewrite Ep, <- map_app.
        reflexivity.
      - apply Forall_forall. intros k Hk'.
        apply list_elem_of_In, in_map_iff in Hk' as (x & <- & Hx).
        rewrite Forall_forall in Hhigh. apply Hhigh.
        apply list_elem_of_In. exact Hx. }
    rewrite Hcut in Hrs. unfold di_docs in Hrs. rewrite map_app in Hrs.
    fold (didocs id c1) in Hrs. fold (didocs id c3) in Hrs.
    rewrite through_app in Hrs.
    destruct (split_unique scanKey (scanKey d) _ _ _ _ Hrs) as [_ <-]; auto.
    + eapply (keys_below (scanKey d)); [apply through_keys|].
      rewrite di_docs_keys. exact H1.
    + eapply (keys_above (scanKey d)); [apply through_keys|].
      rewrite di_docs_keys. exact H2.
Qed.

(** Where a stopped pipeline over [doSinglePKLookup] resumes: at the key
    of the lookup when a stage holds its document, at the default split
    key when the lookup had nothing left to send. *)
Lemma resume_lookup (ks : list StageKind) (id : Z) (x B E : Key) (p : PipeC)
    (out : list Doc) (old : option Key) :
  let present := existsb (key_eqb x) store in
  run (wrap ks (PLookup (mkLookup id x (KeyRangeRef B E) present LStart) []))
      out p ->
  old <> None ->
  (pending p = [] ->
   match source_of p with
   | PLookup s _ => lookup_rest getSubContext s = [] /\ old = Some key_ff
   | _ => True
   end) ->
  exists kappa,
    final_split decode_item0 p old = Some kappa
    /\ source_split decode_item0 p old <> None
    /\ rest_of p
       = through ks (lookup_rest getSubContext
                       (mkLookup id x (KeyRangeRef kappa E) present LStart)).
Proof.
  intros present Hrun Hold Hres.
  set (s0 := mkLookup id x (KeyRangeRef B E) present LStart) in *.
  set (kvs0 := map scanKey (lookup_rest getSubContext s0)).
  assert (Hinv0 : lookup_inv getSubContext kvs0 s0 []).
  { split; [reflexivity|]. simpl. unfold lookup_rest. simpl.
    destruct (_ && _); repeat constructor. }
  destruct (wrap_new decode_item0 decode_item_rev0 getSubContext ks
              (PLookup s0 []) kvs0) as (Hi0 & Hw0 & Hs0 & _ & Hid0 & Hk0);
    [exact Hinv0|exact I|reflexivity|reflexivity|].
  assert (Hi : inv kvs0 p) by (eapply run_inv; eauto).
  assert (Hout : pipe_sent p = out).
  { rewrite (run_sent _ _ _ _ _ _ Hrun), Hs0. reflexivity. }
  pose proof (run_source_of decode_item0 decode_item_rev0 getSubContext _ _ _ Hrun)
    as Hkind.
  rewrite source_of_wrap_any in Hkind. simpl in Hkind.
  destruct (source_of p) as [| | s ss |] eqn:Hsrc; try contradiction.
  clear Hkind.
  pose proof (inv_source _ _ _ _ _ Hi) as His. rewrite Hsrc in His. simpl in His.
  assert (Hrs : through ks (lookup_rest getSubContext s0) = out ++ rest_of p).
  { rewrite <- (run_remaining _ _ _ _ _ _ Hrun), remaining_wrap_any. reflexivity. }
  assert (Hsplit : source_split decode_item0 p old = old).
  { rewrite <- (source_split_source decode_item0 p), Hsrc. reflexivity. }
  destruct (pending p) as [|d tl] eqn:Ep.
  - destruct (Hres eq_refl) as [Hnone ->].
    exists key_ff. unfold final_split. rewrite Ep, Hsplit.
    split; [reflexivity|]. split; [discriminate|].
    rewrite (remaining_silent decode_item0 decode_item_rev0 getSubContext p Ep).
    2:{ rewrite Hsrc. exact Hnone. }
    unfold lookup_rest. simpl.
    destruct present eqn:Epr; [|now rewrite andb_false_r, through_nil].
    assert (Hx : key_leb key_ff x = false).
    { unfold present in Epr. apply existsb_exists in Epr as (y & Hy & Hxy).
      apply key_eqb_eq in Hxy. subst y.
      destruct (key_leb key_ff x) eqn:El; [|reflexivity].
      apply key_leb_le in El. destruct (key_lt_irrefl x).
      eapply key_lt_le_trans; [|exact El].
      apply store_below_ff. now apply list_elem_of_In. }
    rewrite Hx. simpl. now rewrite through_nil.
  - exists (scanKey d). unfold final_split. rewrite Ep, Hsplit.
    split; [reflexivity|]. split; [exact Hold|].
    pose proof (inv_pending_keys _ _ _ _ _ Hi) as Hpk.
    rewrite Hsrc, Ep, Hout in Hpk. simpl in Hpk.
    destruct His as [Hall _]. rewrite map_app in Hall.
    assert (Hsubl : map scanKey (out ++ d :: tl) `sublist_of` kvs0).
    { etransitivity; [exact Hpk|]. etransitivity; [|exact Hall].
      now apply sublist_inserts_r. }
    unfold kvs0, lookup_rest in Hsubl. simpl in Hsubl.
    destruct (key_leb B x && key_ltb x E && present) eqn:Ec.
    2:{ simpl in Hsubl. apply sublist_nil_r in Hsubl.
        apply map_eq_nil in Hsubl. now destruct out. }
    simpl in Hsubl.
    pose proof (sublist_length _ _ Hsubl) as Hlen.
    rewrite length_map, length_app in Hlen. simpl in Hlen.
    destruct out as [|o1 out]; [|simpl in Hlen; lia].
    destruct tl as [|t1 tl]; [|simpl in Hlen; lia].
    simpl in Hsubl.
    assert (Hkey : scanKey d = x).
    { apply sublist_cons_l in Hsubl as (k1 & k2 & He & _).
      destruct k1 as [|y k1]; simpl in He.
      - now inversion He.
      - inversion He as [[Hy Hk1]]. now destruct k1. }
    simpl in Hrs. rewrite <- Hrs. f_equal.
    unfold lookup_rest, s0. simpl. rewrite Ec, Hkey.
    apply andb_true_iff in Ec as [Ec Ep'].
    apply andb_true_iff in Ec as [_ Ee]. rewrite Ee, Ep'.
    now rewrite (proj2 (key_leb_le x x) (key_le_refl x)).
Qed.

Lemma source_scanID_wrap (ks : list (@StageKind Ctx)) (src : PipeC) :
  source_scanID (wrap ks src) = source_scanID src.
Proof. induction ks as [|k ks IH]; simpl; auto. Qed.

Lemma scan_pipe_scanID (plan : ScanPlan) (id : Z) (b : KeyRange) (src : PipeC) :
  scan_pipe plan store index id b = Some src -> source_scanID src = id.
Proof.
  unfold scan_pipe. destruct (plan_scan plan) as [|bg e|bg e iv|?|?];
    try discriminate.
  - destruct (scan_range _ _ _). now intros [= <-].
  - destruct (opt_key_eqb bg e); [now intros [= <-]|].
    destruct (plan_hi e); [|discriminate].
    destruct (scan_range _ _ _). now intros [= <-].
  - destruct (plan_hi e); [|discriminate]. destruct (scan_range _ _ _).
    destruct (opt_key_eqb bg e); now intros [= <-].
Qed.

(** [resumable], case by case, from the split key and the bounds the
    checkpoint holds for the scan of the pipeline. *)
Lemma resumable_cases (cp : Checkpoint) (p : PipeC) :
  resumable getSubContext cp p -> pending p = [] ->
  match source_of p with
  | PTableScan s _ =>
      if pk_done s then read_splitBound cp (source_scanID p) = Some key_ff
      else pk_lastKey s <> []
  | PIndexScan s _ =>
      if di_done s then read_splitBound cp (source_scanID p) = Some key_ff
      else di_lastKey s <> []
           \/ key_le (range_begin (getBounds cp (source_scanID p))) key_00
  | PLookup s _ =>
      lookup_rest getSubContext s = []
      /\ read_splitBound cp (source_scanID p) = Some key_ff
  | PStage _ _ _ _ _ _ => True
  end.
Proof.
  unfold resumable. intros H Ep. rewrite Ep in H.
  rewrite <- (source_scanID_source p).
  destruct (source_of p); simpl; exact H.
Qed.

(** Where a stopped pipeline resumes: the scan executed again under
    bounds that begin at the split key the cancellation leaves sends,
    through the same stages, what the stopped pipeline had left to
    send. *)
Lemma resume_scan (plan : ScanPlan) (ks : list StageKind) (id : Z)
    (cp : Checkpoint) (B E : Key) (src p : PipeC) (out : list Doc) :
  getBounds cp id = KeyRangeRef B E ->
  read_splitBound cp id <> None ->
  scan_pipe plan store index id (KeyRangeRef B E) = Some src ->
  run (wrap ks src) out p ->
  resumable getSubContext cp p ->
  exists kappa src',
    final_split decode_item0 p (read_splitBound cp id) = Some kappa
    /\ source_split decode_item0 p (read_splitBound cp id) <> None
    /\ scan_pipe plan store index id (KeyRangeRef kappa E) = Some src'
    /\ rest_of (wrap ks src') = rest_of p.
Proof.
  intros Hb Hold Hsp Hrun Hres.
  assert (Hid : source_scanID p = id).
  { rewrite (run_scanID _ _ _ _ _ _ Hrun), source_scanID_wrap.
    eapply scan_pipe_scanID; eauto. }
  pose proof (resumable_cases cp p Hres) as Hc. rewrite Hid, Hb in Hc.
  simpl in Hc. clear Hres.
  unfold scan_pipe in *. destruct (plan_scan plan) as [|bg e|bg e iv|?|?];
    try discriminate.
  - (* TableScanPlan *)
    rewrite (surjective_pairing (scan_range key_00 key_ff (KeyRangeRef B E))) in Hsp.
    injection Hsp as <-.
    destruct (resume_pk ks id key_00 key_ff B E p out _ Hrun Hold)
      as (kappa & H1 & H2 & H3).
    { intros Ep. specialize (Hc Ep). now destruct (source_of p). }
    exists kappa. eexists. split; [exact H1|]. split; [exact H2|].
    rewrite (surjective_pairing (scan_range key_00 key_ff (KeyRangeRef kappa E))).
    split; [reflexivity|].
    cbv zeta in H3. rewrite H3.
    apply (remaining_wrap decode_item0 decode_item_rev0 getSubContext).
  - destruct (opt_key_eqb bg e) eqn:Eq.
    + (* PrimaryKeyLookupPlan on one key *)
      injection Hsp as <-.
      destruct (resume_lookup ks id (plan_lo bg) B E p out _ Hrun Hold)
        as (kappa & H1 & H2 & H3).
      { intros Ep. specialize (Hc Ep). now destruct (source_of p). }
      exists kappa. eexists. split; [exact H1|]. split; [exact H2|].
      split; [reflexivity|].
      rewrite H3, remaining_wrap_any. reflexivity.
    + (* PrimaryKeyLookupPlan on a range *)
      destruct (plan_hi e) as [hi|]; [|discriminate].
      rewrite (surjective_pairing (scan_range (plan_lo bg) hi (KeyRangeRef B E)))
        in Hsp.
      injection Hsp as <-.
      destruct (resume_pk ks id (plan_lo bg) hi B E p out _ Hrun Hold)
        as (kappa & H1 & H2 & H3).
      { intros Ep. specialize (Hc Ep). now destruct (source_of p). }
      exists kappa. eexists. split; [exact H1|]. split; [exact H2|].
      rewrite (surjective_pairing
                 (scan_range (plan_lo bg) hi (KeyRangeRef kappa E))).
      split; [reflexivity|].
      cbv zeta in H3. rewrite H3.
      apply (remaining_wrap decode_item0 decode_item_rev0 getSubContext).
  - (* IndexScanPlan *)
    destruct (plan_hi e) as [hi|]; [|discriminate].
    set (dk := fun ub : Key =>
                 if opt_key_eqb bg e then []
                 else [SDedup (fun d : Doc =>
                                 simpleWouldBeLast (iv (docCx d)) (scanKey d) ub)]).
    assert (Hsrc : forall b',
               (let '(lowerBound, upperBound) :=
                  scan_range (plan_lo bg) hi b' in
                let p := PIndexScan (mkDocInfo id
                           (getDescendants index lowerBound upperBound)
                           [] None false) [] in
                if opt_key_eqb bg e then Some p
                else Some (PStage (SDedup (fun d : Doc =>
                                     simpleWouldBeLast (iv (docCx d))
                                                       (scanKey d) upperBound))
                                  [] true false [] p))
               = Some (wrap (dk (snd (scan_range (plan_lo bg) hi b')))
                            (PIndexScan
                               (mkDocInfo id
                                  (getDescendants index
                                     (fst (scan_range (plan_lo bg) hi b'))
                                     (snd (scan_range (plan_lo bg) hi b')))
                                  [] None false) []))).
    { intros b'. destruct (scan_range (plan_lo bg) hi b') as [lb ub].
      unfold dk. simpl. now destruct (opt_key_eqb bg e). }
    pose proof (eq_trans (eq_sym Hsp) (Hsrc (KeyRangeRef B E))) as Hsp2.
    injection Hsp2 as ->. clear Hsp. rewrite <- wrap_app in Hrun.
    destruct (resume_index ks dk id (plan_lo bg) hi B E p out _ Hrun Hold)
      as (kappa & H1 & H2 & H3).
    { intros Ep. specialize (Hc Ep). now destruct (source_of p). }
    exists kappa. eexists. split; [exact H1|]. split; [exact H2|].
    split; [apply Hsrc|].
    cbv zeta in H3. rewrite H3, <- wrap_app, remaining_wrap_any. reflexivity.
Qed.
End ResumeScan.

(** ** The pipelines of a plan run together *)

Section InputsRuns.
Context {Ctx : Type}.
Local Abbreviation Doc := (ScanReturnedContext Ctx).

Variable decode_item0 : Key -> Key.
Variable decode_item_rev0 : Key -> Key.
Variable getSubContext : Key -> Ctx.

Local Abbreviation PipeC := (@Pipe Ctx).
Local Abbreviation step := (pipe_step decode_item0 decode_item_rev0 getSubContext).
Local Abbreviation run := (pipe_run decode_item0 decode_item_rev0 getSubContext).
Local Abbreviation rest_of := (remaining decode_item0 decode_item_rev0 getSubContext).
Local Abbreviation istep := (inputs_step decode_item0 decode_item_rev0 getSubContext).
Local Abbreviation irun := (inputs_run decode_item0 decode_item_rev0 getSubContext).

Lemma inputs_run_trans (a b c : list PipeC) (o1 o2 : list Doc) :
  irun a o1 b -> irun b o2 c -> irun a (o1 ++ o2) c.
Proof.
  induction 1 as [ps|ps e ps' out ps'' Hs Hr IH]; intros H2; [exact H2|].
  rewrite <- app_assoc. econstructor; [exact Hs|auto].
Qed.

Lemma inputs_run_here (p p' : PipeC) (o : list Doc) (l : list PipeC) :
  run p o p' -> irun (p :: l) o (p' :: l).
Proof.
  induction 1 as [p|p e p' out p'' Hs Hr IH]; [constructor|].
  econstructor; [apply inputs_here; exact Hs|exact IH].
Qed.

Lemma inputs_run_there (p : PipeC) (l l' : list PipeC) (o : list Doc) :
  irun l o l' -> irun (p :: l) o (p :: l').
Proof.
  induction 1 as [ps|ps e ps' out ps'' Hs Hr IH]; [constructor|].
  econstructor; [apply inputs_there; exact Hs|exact IH].
Qed.

(** Each pipeline of a run of several makes a run of its own. *)
Lemma inputs_step_components (ps ps' : list PipeC) (e : Emit Doc) :
  istep ps e ps' -> Forall2 (fun p p' => exists o, run p o p') ps ps'.
Proof.
  assert (Hrefl : forall l : list PipeC,
             Forall2 (fun p p' => exists o, run p o p') l l).
  { induction l; constructor; auto. exists []. constructor. }
  induction 1 as [p e p' l Hs|p l e l' Hs IH].
  - constructor; [|apply Hrefl]. exists (sent_docs e ++ []).
    econstructor; [exact Hs|constructor].
  - constructor; [|exact IH]. exists []. constructor.
Qed.

Lemma inputs_run_components (ps ps' : list PipeC) (out : list Doc) :
  irun ps out ps' -> Forall2 (fun p p' => exists o, run p o p') ps ps'.
Proof.
  induction 1 as [ps|ps e ps' out ps'' Hs Hr IH].
  - induction ps; constructor; auto. exists []. constructor.
  - apply inputs_step_components in Hs. clear Hr. revert ps'' IH.
    induction Hs as [|p p' l l' [o1 H1] _ IHl]; intros ps'' H2.
    + exact H2.
    + inversion H2 as [|? p'' ? l'' [o2 H3] H4]; subst.
      constructor; [|now apply IHl].
      exists (o1 ++ o2).
      eapply (run_trans decode_item0 decode_item_rev0 getSubContext); eauto.
Qed.

Lemma inputs_run_single (p0 : PipeC) (out : list Doc) (ps : list PipeC) :
  irun [p0] out ps -> exists p, ps = [p] /\ run p0 out p.
Proof.
  remember [p0] as l eqn:El. intros H. revert p0 El.
  induction H as [ps|ps e ps' out ps'' Hs Hr IH]; intros p0 ->.
  - exists p0. split; [reflexivity|constructor].
  - inversion Hs as [p e' p' l Hst|p l e' l' Hst]; subst.
    + destruct (IH p' eq_refl) as (p & -> & Hrun).
      exists p. split; [reflexivity|]. econstructor; eauto.
    + inversion Hst.
Qed.

(** What a run of several pipelines sends is made of what each had to
    send. *)
Lemma inputs_step_remaining (ps ps' : list PipeC) (e : Emit Doc) :
  istep ps e ps' ->
  concat (map rest_of ps) ≡ₚ sent_docs e ++ concat (map rest_of ps').
Proof.
  induction 1 as [p e p' l Hs|p l e l' Hs IH]; simpl.
  - rewrite (step_remaining _ _ _ _ _ _ Hs). now rewrite <- app_assoc.
  - rewrite IH. rewrite !app_assoc. apply Permutation_app_tail.
    apply Permutation_app_comm.
Qed.

Lemma inputs_done_remaining (ps : list PipeC) :
  inputs_done ps = true -> concat (map rest_of ps) = [].
Proof.
  unfold inputs_done. induction ps as [|p l IH]; simpl; [reflexivity|].
  intros H. apply andb_true_iff in H as [H1 H2].
  now rewrite (done_remaining _ _ _ _ H1), IH.
Qed.

Lemma inputs_run_remaining (ps ps' : list PipeC) (out : list Doc) :
  irun ps out ps' ->
  concat (map rest_of ps) ≡ₚ out ++ concat (map rest_of ps').
Proof.
  induction 1 as [ps|ps e ps' out ps'' Hs Hr IH]; [reflexivity|].
  rewrite (inputs_step_remaining _ _ _ Hs), IH. now rewrite app_assoc.
Qed.

Lemma complete_inputs_output (ps ps' : list PipeC) (out : list Doc) :
  irun ps out ps' -> inputs_done ps' = true ->
  out ≡ₚ concat (map rest_of ps).
Proof.
  intros Hr Hd. rewrite (inputs_run_remaining _ _ _ Hr).
  now rewrite (inputs_done_remaining _ Hd), app_nil_r.
Qed.

(** Well-formed pipelines have a run to their end. *)
Lemma complete_inputs_exist (ps : list PipeC) :
  Forall pipe_wf ps -> exists out ps', irun ps out ps' /\ inputs_done ps' = true.
Proof.
  induction 1 as [|p l Hw _ (o2 & l' & Hr2 & Hd2)].
  - exists [], []. split; [constructor|reflexivity].
  - destruct (complete_run_exists decode_item0 decode_item_rev0 getSubContext p Hw)
      as (o1 & p' & Hr1 & Hd1).
    exists (o1 ++ o2), (p' :: l'). split.
    + eapply inputs_run_trans; [apply inputs_run_here; exact Hr1|].
      now apply inputs_run_there.
    + unfold inputs_done in *. simpl. now rewrite Hd1, Hd2.
Qed.

(** A pipeline that has a document to send sends it. *)
Lemma run_next (p : PipeC) (d : Doc) (r : list Doc) :
  pipe_wf p -> rest_of p = d :: r ->
  exists p', run p [d] p' /\ rest_of p' = r /\ pipe_wf p'.
Proof.
  remember (pipe_measure p) as n eqn:En. revert p En.
  induction n as [n IH] using lt_wf_ind. intros p -> Hw Hrest.
  destruct (pipe_done p) eqn:Hd.
  { rewrite (done_remaining _ _ _ _ Hd) in Hrest. discriminate. }
  destruct (pipe_progress decode_item0 decode_item_rev0 getSubContext p Hw Hd)
    as (e & p1 & Hs).
  pose proof (step_remaining _ _ _ _ _ _ Hs) as Hr1. rewrite Hrest in Hr1.
  pose proof (step_wf _ _ _ _ _ _ Hs Hw) as Hw1.
  destruct (sent_docs e) as [|d1 l1] eqn:Ee.
  - simpl in Hr1. symmetry in Hr1.
    destruct (IH _ (step_measure _ _ _ _ _ _ Hs) p1 eq_refl Hw1 Hr1)
      as (p' & Hrun & Hrem & Hw').
    exists p'. split; [|auto].
    assert (H : run p (sent_docs e ++ [d]) p') by (econstructor; eauto).
    now rewrite Ee in H.
  - assert (l1 = []) by (destruct e; simpl in Ee; congruence). subst l1.
    simpl in Hr1. injection Hr1 as Hd1 Hr1. subst d1.
    exists p1. split; [|split; [now symmetry|exact Hw1]].
    assert (H : run p (sent_docs e ++ []) p1)
      by (econstructor; [exact Hs|constructor]).
    now rewrite Ee in H.
Qed.

(** Pipelines that have the same left to send send the same: a run of
    the first ones is followed by the others. *)
Lemma follow_step (ps' ps ps'' : list PipeC) (e : Emit Doc) :
  Forall2 (fun p' p => rest_of p' = rest_of p /\ pipe_wf p) ps' ps ->
  istep ps' e ps'' ->
  exists ps3,
    irun ps (sent_docs e) ps3
    /\ Forall2 (fun p' p => rest_of p' = rest_of p /\ pipe_wf p) ps'' ps3.
Proof.
  intros HR Hs. revert ps HR.
  induction Hs as [p' e p'' l Hs|p' l e l' Hs IH]; intros ps HR;
    inversion HR as [|? p ? l2 [Hrest Hw] Htl]; subst.
  - pose proof (step_remaining _ _ _ _ _ _ Hs) as Hr.
    destruct (sent_docs e) as [|d l1] eqn:Ee.
    + exists (p :: l2). split; [constructor|].
      constructor; [|exact Htl]. split; [|exact Hw]. simpl in Hr. congruence.
    + assert (l1 = []) by (destruct e; simpl in Ee; congruence). subst l1.
      simpl in Hr. rewrite Hrest in Hr.
      destruct (run_next p d (rest_of p'') Hw Hr) as (p3 & Hrun & Hrem & Hw3).
      exists (p3 :: l2). split; [now apply inputs_run_here|].
      constructor; [|exact Htl]. split; [now symmetry|exact Hw3].
  - destruct (IH l2 Htl) as (l3 & Hr & HR3).
    exists (p :: l3). split; [now apply inputs_run_there|].
    constructor; [split; assumption|exact HR3].
Qed.

Lemma follow_run (ps' ps psf' : list PipeC) (out : list Doc) :
  Forall2 (fun p' p => rest_of p' = rest_of p /\ pipe_wf p) ps' ps ->
  irun ps' out psf' ->
  exists psf,
    irun ps out psf
    /\ Forall2 (fun p' p => rest_of p' = rest_of p /\ pipe_wf p) psf' psf.
Proof.
  intros HR Hr. revert ps HR.
  induction Hr as [ps'|ps' e ps1 out ps2 Hs Hr IH]; intros ps HR.
  - exists ps. split; [constructor|exact HR].
  - destruct (follow_step _ _ _ _ HR Hs) as (ps3 & Hr3 & HR3).
    destruct (IH ps3 HR3) as (psf & Hrf & HRf).
    exists psf. split; [|exact HRf]. eapply inputs_run_trans; eauto.
Qed.

Lemma follow_to_end (ps' ps psf' : list PipeC) (out : list Doc) :
  Forall2 (fun p' p => rest_of p' = rest_of p /\ pipe_wf p) ps' ps ->
  irun ps' out psf' -> inputs_done psf' = true ->
  exists psf, irun ps out psf /\ inputs_done psf = true.
Proof.
  intros HR Hr Hd.
  destruct (follow_run _ _ _ _ HR Hr) as (ps1 & Hr1 & HR1).
  assert (Hw : Forall pipe_wf ps1).
  { clear -HR1. induction HR1 as [|? ? ? ? [_ Hw]]; constructor; auto. }
  assert (Hnil : concat (map rest_of ps1) = []).
  { rewrite <- (inputs_done_remaining _ Hd). clear -HR1.
    induction HR1 as [|? ? ? ? [He _] _ IH]; simpl; [reflexivity|].
    now rewrite He, IH. }
  destruct (complete_inputs_exist ps1 Hw) as (o2 & psf & Hr2 & Hd2).
  pose proof (complete_inputs_output _ _ _ Hr2 Hd2) as Ho. rewrite Hnil in Ho.
  apply Permutation_nil_r in Ho. subst o2.
  exists psf. split; [|exact Hd2].
  rewrite <- (app_nil_r out). eapply inputs_run_trans; eauto.
Qed.
End InputsRuns.

(** ** Stopping the pipelines of a plan *)

Section StopInputs.
Context {Ctx : Type}.
Local Abbreviation Doc := (ScanReturnedContext Ctx).
Local Abbreviation Checkpoint := (PlanCheckpoint Ctx).

Variable decode_item0 : Key -> Key.
Variable decode_item_rev0 : Key -> Key.
Variable getSubContext : Key -> Ctx.

Local Abbreviation PipeC := (@Pipe Ctx).
Local Abbreviation inv := (pipe_inv decode_item0 decode_item_rev0 getSubContext).

Lemma read_splitBound_valid (cp : Checkpoint) (s : Z) :
  valid_scan cp s -> read_splitBound cp s <> None.
Proof.
  unfold valid_scan, read_splitBound. intros [H1 H2].
  rewrite (proj2 (Z.leb_le 0 s) H1), (proj2 (Z.ltb_lt _ _) H2). simpl.
  destruct (scans cp !! Z.to_nat s) eqn:E; [discriminate|].
  apply lookup_ge_None in E. lia.
Qed.

(** [stop()] on several pipelines, each over a scan of its own: each
    scan is left the split key of its pipeline. *)
Lemma cancel_pipes (ps : list PipeC) (cp : Checkpoint) :
  boundsWanted cp = true ->
  NoDup (map source_scanID ps) ->
  Forall (fun p =>
            (exists kvs0, inv kvs0 p) /\ pipe_wf p
            /\ valid_scan cp (source_scanID p)
            /\ source_split decode_item0 p (read_splitBound cp (source_scanID p))
               <> None) ps ->
  exists cp',
    cancel_all decode_item0 cp (flat_map pipe_ops ps) = Some cp'
    /\ same_but_splits cp cp'
    /\ (forall s, s ∉ map source_scanID ps ->
                  read_splitBound cp' s = read_splitBound cp s)
    /\ Forall (fun p =>
                 read_splitBound cp' (source_scanID p)
                 = final_split decode_item0 p
                     (read_splitBound cp (source_scanID p))) ps.
Proof.
  revert cp. induction ps as [|p l IH]; intros cp Hb Hnd Hall.
  - exists cp. simpl. split; [reflexivity|].
    split; [apply same_but_splits_refl|]. split; [reflexivity|constructor].
  - simpl in Hnd. apply NoDup_cons in Hnd as [Hp Hnd].
    apply Forall_cons in Hall as [((kvs0 & Hi) & Hw & Hv & Hss) Hall].
    destruct (cancel_pipe decode_item0 decode_item_rev0 getSubContext kvs0 p cp
                Hi Hw Hv Hb Hss) as (cp1 & Hc1 & Hs1 & Hr1).
    pose proof (cancel_pipe_others decode_item0 decode_item_rev0 getSubContext
                  kvs0 p cp cp1 Hi Hw Hv Hb Hc1) as Ho1.
    assert (Hb1 : boundsWanted cp1 = true).
    { destruct Hs1 as (-> & _). assumption. }
    assert (Hne : forall q, q ∈ l -> source_scanID q <> source_scanID p).
    { intros q Hq E. apply Hp. rewrite <- E.
      apply list_elem_of_In, in_map, list_elem_of_In, Hq. }
    destruct (IH cp1 Hb1 Hnd) as (cp2 & Hc2 & Hs2 & Ho2 & Hr2).
    { apply Forall_forall. intros q Hq. rewrite Forall_forall in Hall.
      destruct (Hall q Hq) as (Hqi & Hqw & Hqv & Hqs).
      split; [exact Hqi|]. split; [exact Hqw|].
      split; [now apply (same_but_splits_valid cp cp1)|].
      rewrite Ho1; auto. }
    exists cp2. simpl. rewrite cancel_all_app, Hc1.
    split; [exact Hc2|].
    split; [eapply same_but_splits_trans; eauto|]. split.
    + intros s Hs. rewrite not_elem_of_cons in Hs. destruct Hs as [H1 H2].
      rewrite Ho2, Ho1; auto.
    + constructor.
      * rewrite Ho2, Hr1; auto.
      * apply Forall_forall. intros q Hq. rewrite Forall_forall in Hr2.
        rewrite (Hr2 q Hq), Ho1; auto.
Qed.

(** [stopAndCheckpoint] on the pipelines of a plan below actors whose
    cancellation writes no split key. *)
Lemma stop_inputs (ps : list PipeC) (cpx : Checkpoint) (extra : list (Actor Ctx)) :
  NoDup (map source_scanID ps) ->
  Forall (fun p =>
            (exists kvs0, inv kvs0 p) /\ pipe_wf p
            /\ valid_scan cpx (source_scanID p)
            /\ source_split decode_item0 p (read_splitBound cpx (source_scanID p))
               <> None) ps ->
  Forall (fun a => a = ActFinished \/ a = ActSilent) extra ->
  exists stopped rest,
    stopAndCheckpoint decode_item0
      (mkCheckpoint (boundsWanted cpx) (scans cpx) (states cpx) (scansAdded cpx)
                    (stateAdded cpx) (flat_map pipe_ops ps ++ extra))
    = Some (stopped, rest)
    /\ clean_checkpoint rest
    /\ length (scans rest) = length (scans cpx)
    /\ states rest = map (fun s => new_IntState (st_split s)) (states cpx)
    /\ stateAdded rest = 0
    /\ Forall (fun p =>
                 forall kappa,
                   final_split decode_item0 p
                     (read_splitBound cpx (source_scanID p)) = Some kappa ->
                   getBounds rest (source_scanID p)
                   = KeyRangeRef kappa
                       (range_end (getBounds cpx (source_scanID p)))) ps.
Proof.
  intros Hnd Hall Hex.
  unfold stopAndCheckpoint, stop.
  set (cpt := set_boundsWanted
                (mkCheckpoint (boundsWanted cpx) (scans cpx) (states cpx)
                   (scansAdded cpx) (stateAdded cpx)
                   (flat_map pipe_ops ps ++ extra)) true).
  destruct (cancel_pipes ps cpt eq_refl Hnd Hall) as (cpw & Hc & Hsame & _ & Hr).
  change (ops cpt) with (flat_map pipe_ops ps ++ extra).
  rewrite cancel_all_app, Hc, (cancel_all_silent decode_item0 cpw extra Hex).
  simpl. eexists. eexists. split; [reflexivity|].
  destruct Hsame as (_ & Hb & Hst & _). simpl in Hb, Hst.
  assert (Hlen : length (scans cpw) = length (scans cpx)).
  { apply (f_equal length) in Hb. now rewrite !length_map in Hb. }
  split; [|split; [|split; [|split; [reflexivity|]]]].
  - split; [reflexivity|]. simpl.
    apply Forall_forall. intros x Hx.
    apply list_elem_of_In, in_map_iff in Hx as (y & <- & _). reflexivity.
  - simpl. now rewrite length_map.
  - simpl. now rewrite Hst.
  - apply Forall_forall. intros p Hp kappa Hk.
    rewrite Forall_forall in Hr, Hall.
    destruct (Hall p Hp) as (_ & _ & [Hv1 Hv2] & _).
    pose proof (Hr p Hp) as Hrp.
    change (read_splitBound cpt (source_scanID p))
      with (read_splitBound cpx (source_scanID p)) in Hrp.
    rewrite Hk in Hrp. unfold read_splitBound in Hrp.
    rewrite Hlen, (proj2 (Z.leb_le 0 _) Hv1), (proj2 (Z.ltb_lt _ _) Hv2) in Hrp.
    simpl in Hrp.
    unfold getBounds. simpl. rewrite length_map, Hlen.
    rewrite (proj2 (Z.leb_gt _ _) Hv2).
    rewrite list_lookup_fmap.
    destruct (scans cpw !! Z.to_nat (source_scanID p)) as [sw|] eqn:Ew;
      [|discriminate].
    simpl in Hrp. injection Hrp as Hsw.
    pose proof (f_equal (fun l => l !! Z.to_nat (source_scanID p)) Hb) as Hi.
    simpl in Hi. rewrite !list_lookup_fmap, Ew in Hi. simpl in Hi.
    destruct (scans cpx !! Z.to_nat (source_scanID p)) as [sx|] eqn:Ex;
      [|discriminate].
    simpl in Hi. injection Hi as Hbx. simpl. now rewrite Hsw, Hbx.
Qed.

(** [addScan] leaves the scans it finds as they are. *)
Lemma addScan_scans (c : Checkpoint) :
  0 <= scansAdded c ->
  exists k, scans (snd (addScan c)) = scans c ++ replicate k default_ScanState.
Proof.
  intros H0. unfold addScan. simpl.
  destruct (Z.of_nat (length (scans c)) <=? scansAdded c) eqn:E.
  - apply Z.leb_le in E. unfold resize_scans. rewrite take_ge by lia. eauto.
  - exists 0%nat. simpl. now rewrite app_nil_r.
Qed.

Lemma getBounds_padded (c c' : Checkpoint) (k : nat) (i : Z) :
  scans c' = scans c ++ replicate k default_ScanState -> 0 <= i ->
  getBounds c' i = getBounds c i.
Proof.
  intros Hs Hi. unfold getBounds. rewrite Hs, length_app, length_replicate.
  destruct (Z.of_nat (length (scans c)) <=? i) eqn:E.
  - apply Z.leb_le in E.
    destruct (Z.of_nat (length (scans c) + k) <=? i); [reflexivity|].
    rewrite lookup_app_r by lia.
    destruct (replicate k default_ScanState !! _) as [x|] eqn:Ex; [|reflexivity].
    apply lookup_replicate in Ex as [-> _]. reflexivity.
  - apply Z.leb_gt in E.
    rewrite (proj2 (Z.leb_gt _ _)) by lia.
    rewrite lookup_app_l by lia. reflexivity.
Qed.

Lemma read_splitBound_padded (c c' : Checkpoint) (k : nat) (i : Z) :
  scans c' = scans c ++ replicate k default_ScanState -> valid_scan c i ->
  read_splitBound c' i = read_splitBound c i /\ valid_scan c' i.
Proof.
  intros Hs [H1 H2]. unfold read_splitBound, valid_scan.
  rewrite Hs, length_app, length_replicate.
  rewrite (proj2 (Z.leb_le 0 i) H1), (proj2 (Z.ltb_lt _ _) H2).
  rewrite (proj2 (Z.ltb_lt i _)) by lia. simpl.
  rewrite lookup_app_l by lia. split; [reflexivity|lia].
Qed.

Lemma getBounds_addScan (c : Checkpoint) (i : Z) :
  0 <= scansAdded c -> 0 <= i -> getBounds (snd (addScan c)) i = getBounds c i.
Proof.
  intros H0 Hi. destruct (addScan_scans c H0) as [k Hk].
  now apply (getBounds_padded c _ k).
Qed.

Lemma getIntState_scans (c c' : Checkpoint) (skip v : Z) :
  getIntState c skip = Some (v, c') ->
  scans c' = scans c /\ scansAdded c' = scansAdded c.
Proof.
  unfold getIntState. destruct (last _); [|discriminate].
  intros [= _ <-]. split; reflexivity.
Qed.

(** The counter [doSkip] has written is the one the resumed execution
    obtains from [getIntState], whatever default it is given. *)
Lemma getIntState_resumed (c cF rest : Checkpoint) (skip0 skip v w : Z) :
  getIntState c skip0 = Some (v, cF) ->
  states rest
  = map (fun s => new_IntState (st_split s)) (states (write_intState cF w)) ->
  stateAdded rest = 0 ->
  exists c', getIntState rest skip = Some (w, c').
Proof.
  unfold getIntState. intros Hg Hst Hsa.
  match type of Hg with
  | match last ?l with _ => _ end = _ =>
      destruct (last l) as [b|] eqn:El; [|discriminate];
      apply last_Some in El as [l0 El]; rewrite El in Hg
  end.
  injection Hg as _ <-. unfold write_intState in Hst. simpl in Hst.
  rewrite !length_alter in Hst.
  rewrite length_app in Hst. simpl in Hst.
  replace (length l0 + 1 - 1)%nat with (length l0 + 0)%nat in Hst by lia.
  rewrite !alter_app_r in Hst. simpl in Hst.
  rewrite map_app in Hst. simpl in Hst.
  rewrite Hsa, Hst.
  replace (0 =? Z.of_nat (length (map _ l0 ++ [new_IntState w]))) with false.
  2:{ symmetry. apply Z.eqb_neq. rewrite length_app. simpl. lia. }
  rewrite last_snoc. eexists. reflexivity.
Qed.
End StopInputs.

(** ** A plan stopped and resumed *)

Lemma doSkip_length {Ctx : Type} (v : Z) (l1 l2 : list (ScanReturnedContext Ctx)) :
  length l1 = length l2 ->
  length (fst (doSkip v l1)) = length (fst (doSkip v l2)).
Proof.
  revert v l2. induction l1 as [|d l IH]; intros v [|d2 l2] H;
    try discriminate; [reflexivity|].
  injection H as H. cbn [doSkip]. destruct (v =? 0).
  - specialize (IH v l2 H).
    destruct (doSkip v l) as [o1 f1], (doSkip v l2) as [o2 f2].
    simpl in *. now rewrite IH.
  - apply IH, H.
Qed.

Section ResumePlan.
Context {Ctx : Type}.
Local Abbreviation Doc := (ScanReturnedContext Ctx).
Local Abbreviation Checkpoint := (PlanCheckpoint Ctx).

Variable decode_item0 : Key -> Key.
Variable decode_item_rev0 : Key -> Key.
Variable getSubContext : Key -> Ctx.
Variable store : list Key.
Variable index : list Key.

(** The document keys of the collection: in key order and below 0xFF;
    the first item of a key is a non-empty prefix of it, and no first
    item is a prefix of a key of another document.  The keys of the
    index: in key order, none empty and all below 0xFF. *)
Hypothesis store_sorted : StronglySorted key_lt store.
Hypothesis store_below_ff : forall k, k ∈ store -> key_lt k key_ff.
Hypothesis item_prefix : forall k, k ∈ store -> exists s, k = decode_item0 k ++ s.
Hypothesis item_nonempty : forall k, k ∈ store -> decode_item0 k <> [].
Hypothesis item_delimited :
  forall k1 k2, k1 ∈ store -> k2 ∈ store ->
    (exists s, k2 = decode_item0 k1 ++ s) -> decode_item0 k2 = decode_item0 k1.
Hypothesis index_sorted : StronglySorted key_lt index.
Hypothesis index_below_ff : forall k, k ∈ index -> key_lt k key_ff.
Hypothesis index_nonempty : forall k, k ∈ index -> k <> [].

Local Abbreviation PipeC := (@Pipe Ctx).
Local Abbreviation run := (pipe_run decode_item0 decode_item_rev0 getSubContext).
Local Abbreviation rest_of := (remaining decode_item0 decode_item_rev0 getSubContext).
Local Abbreviation inv := (pipe_inv decode_item0 decode_item_rev0 getSubContext).
Local Abbreviation irun := (inputs_run decode_item0 decode_item_rev0 getSubContext).

Lemma resumable_scans (c c' : Checkpoint) (p : PipeC) :
  scans c' = scans c -> resumable getSubContext c p -> resumable getSubContext c' p.
Proof.
  intros Hs. unfold resumable, read_splitBound, getBounds. now rewrite Hs.
Qed.

(** One pipeline of a plan: what its cancellation leaves, and what the
    same plan executed under bounds that begin there sends. *)
Lemma resume_executed (plan : ScanPlan) (cp cp1 cpx : Checkpoint)
    (p0 p : PipeC) (out : list Doc) :
  0 <= scansAdded cp ->
  execute plan store index cp = Some (p0, cp1) ->
  run p0 out p ->
  getBounds cpx (scansAdded cp) = getBounds cp1 (scansAdded cp) ->
  read_splitBound cpx (scansAdded cp) = read_splitBound cp1 (scansAdded cp) ->
  resumable getSubContext cpx p ->
  cp1 = snd (addScan cp)
  /\ (exists kvs0, inv kvs0 p) /\ pipe_wf p /\ source_scanID p = scansAdded cp
  /\ valid_scan cp1 (scansAdded cp)
  /\ exists kappa,
       final_split decode_item0 p (read_splitBound cpx (scansAdded cp))
       = Some kappa
       /\ source_split decode_item0 p (read_splitBound cpx (scansAdded cp))
          <> None
       /\ forall cpr,
            scansAdded cpr = scansAdded cp ->
            getBounds (snd (addScan cpr)) (scansAdded cp)
            = KeyRangeRef kappa (range_end (getBounds cpx (scansAdded cp))) ->
            exists p0',
              execute plan store index cpr = Some (p0', snd (addScan cpr))
              /\ rest_of p0' = rest_of p /\ pipe_wf p0'.
Proof.
  intros H0 Hex Hrun Hgb Hrs Hres.
  destruct (execute_fresh decode_item0 decode_item_rev0 getSubContext
              plan store index cp cp1 p0 Hex)
    as (src0 & lo & hi & _ & (Hi0 & Hid0 & Hw0 & _ & _ & Hcp1)).
  assert (Hv : valid_scan cp1 (scansAdded cp)).
  { rewrite Hcp1. apply (addScan_valid cp H0). }
  rewrite execute_scan_pipe in Hex.
  destruct (scan_pipe plan store index (scansAdded cp)
              (getBounds (snd (addScan cp)) (scansAdded cp)))
    as [src|] eqn:Esp; [|discriminate].
  injection Hex as Hp0 _. subst p0. rewrite <- Hcp1 in Esp.
  destruct (getBounds cp1 (scansAdded cp)) as [B E] eqn:Eb.
  destruct (resume_scan decode_item0 decode_item_rev0 getSubContext store index
              store_sorted store_below_ff item_prefix item_nonempty
              item_delimited index_sorted index_below_ff index_nonempty
              plan (plan_stages plan) (scansAdded cp) cpx B E src p out
              Hgb) as (kappa & src' & H1 & H2 & H3 & H4); auto.
  { rewrite Hrs. now apply read_splitBound_valid. }
  split; [exact Hcp1|]. split; [eexists; eapply run_inv; eauto|].
  split; [eapply run_wf; eauto|].
  split; [rewrite (run_scanID _ _ _ _ _ _ Hrun); exact Hid0|].
  split; [exact Hv|].
  exists kappa. split; [exact H1|]. split; [exact H2|].
  intros cpr Hn Hb'.
  assert (Hx : execute plan store index cpr
               = Some (wrap (plan_stages plan) src', snd (addScan cpr))).
  { rewrite execute_scan_pipe, Hn, Hb', Hgb. simpl. now rewrite H3. }
  eexists. split; [exact Hx|]. split; [exact H4|].
  destruct (execute_fresh decode_item0 decode_item_rev0 getSubContext
              plan store index cpr _ _ Hx)
    as (? & ? & ? & _ & (_ & _ & Hw' & _)).
  exact Hw'.
Qed.

Lemma getBounds_scans (c c' : Checkpoint) (i : Z) :
  scans c' = scans c -> getBounds c' i = getBounds c i.
Proof. intros Hs. unfold getBounds. now rewrite Hs. Qed.

Lemma read_splitBound_scans (c c' : Checkpoint) (i : Z) :
  scans c' = scans c -> read_splitBound c' i = read_splitBound c i.
Proof. intros Hs. unfold read_splitBound. now rewrite Hs. Qed.

Lemma valid_scan_scans (c c' : Checkpoint) (i : Z) :
  scans c' = scans c -> valid_scan c i -> valid_scan c' i.
Proof. intros Hs. unfold valid_scan. now rewrite Hs. Qed.

(** The sub-plan of a plan stopped and executed again: under the
    checkpoint [stopAndCheckpoint] returns, each pipeline has to send
    what the stopped one had left to send. *)
Lemma resume_sub (subPlan : SubPlan) (cp cpS cpx : Checkpoint)
    (ps0 ps : list PipeC) (out : list Doc) (extra : list (Actor Ctx)) :
  scansAdded cp = 0 ->
  execute_sub subPlan store index cp = Some (ps0, cpS) ->
  irun ps0 out ps ->
  scans cpx = scans cpS ->
  Forall (resumable getSubContext cpx) ps ->
  Forall (fun a => a = ActFinished \/ a = ActSilent) extra ->
  exists stopped rest ps0' cpS',
    stopAndCheckpoint decode_item0
      (mkCheckpoint (boundsWanted cpx) (scans cpx) (states cpx) (scansAdded cpx)
                    (stateAdded cpx) (flat_map pipe_ops ps ++ extra))
    = Some (stopped, rest)
    /\ clean_checkpoint rest
    /\ states rest = map (fun s => new_IntState (st_split s)) (states cpx)
    /\ stateAdded rest = 0
    /\ execute_sub subPlan store index rest = Some (ps0', cpS')
    /\ states cpS' = states rest /\ stateAdded cpS' = stateAdded rest
    /\ Forall pipe_wf ps0'
    /\ Forall2 (fun p' p => rest_of p' = rest_of p /\ pipe_wf p) ps0' ps.
Proof.
  intros Hsa Hex Hrun Hsc Hres Hextra.
  destruct subPlan as [plan|plan1 plan2]; simpl in Hex.
  - (* one pipeline *)
    destruct (execute plan store index cp) as [[p0 c1]|] eqn:E1; [|discriminate].
    injection Hex as <- <-.
    destruct (inputs_run_single _ _ _ _ _ _ Hrun) as (p & -> & Hr).
    apply Forall_cons in Hres as [Hres _].
    destruct (resume_executed plan cp c1 cpx p0 p out) as
      (Hc1 & Hi & Hw & Hid & Hv & kappa & Hfs & Hss & Hre); auto.
    { rewrite Hsa. lia. }
    { now apply getBounds_scans. }
    { now apply read_splitBound_scans. }
    rewrite Hsa in *.
    destruct (stop_inputs decode_item0 decode_item_rev0 getSubContext [p] cpx extra)
      as (stopped & rest & Hstop & Hcl & Hlen & Hst & Hsta & Hb); auto.
    { simpl. rewrite Hid. repeat constructor. intros H. inversion H. }
    { constructor; [|constructor]. rewrite Hid.
      split; [exact Hi|]. split; [exact Hw|]. split; [|exact Hss].
      eapply valid_scan_scans; [exact Hsc|exact Hv]. }
    apply Forall_cons in Hb as [Hb _]. rewrite Hid in Hb.
    specialize (Hb kappa Hfs).
    destruct Hcl as [Hra Hrs].
    destruct (Hre rest Hra) as (p0' & Hx & Hrest & Hw').
    { rewrite getBounds_addScan by (rewrite ?Hra; lia). exact Hb. }
    exists stopped, rest, [p0'], (snd (addScan rest)).
    split; [exact Hstop|]. split; [split; assumption|].
    split; [exact Hst|]. split; [exact Hsta|].
    split; [simpl; now rewrite Hx|].
    split; [reflexivity|]. split; [reflexivity|].
    split; repeat constructor; auto.
  - (* the two pipelines of a UnionPlan *)
    destruct (execute plan1 store index cp) as [[a0 c1]|] eqn:E1; [|discriminate].
    destruct (execute plan2 store index c1) as [[b0 c2]|] eqn:E2; [|discriminate].
    injection Hex as <- <-.
    pose proof (inputs_run_components _ _ _ _ _ _ Hrun) as Hcomp.
    inversion Hcomp as [|? a ? l1 [oa Hra] Hcomp1]; subst.
    inversion Hcomp1 as [|? b ? l2 [ob Hrb] Hcomp2]; subst.
    inversion Hcomp2; subst. clear Hcomp Hcomp1 Hcomp2.
    apply Forall_cons in Hres as [Hresa Hres].
    apply Forall_cons in Hres as [Hresb _].
    assert (Hc1 : c1 = snd (addScan cp)).
    { rewrite execute_scan_pipe in E1.
      destruct (scan_pipe _ _ _ _ _); [|discriminate]. now injection E1. }
    assert (Hc2 : c2 = snd (addScan c1)).
    { rewrite execute_scan_pipe in E2.
      destruct (scan_pipe _ _ _ _ _); [|discriminate]. now injection E2. }
    assert (Hsa1 : scansAdded c1 = 1).
    { rewrite Hc1. simpl. rewrite Hsa. reflexivity. }
    assert (Hv1 : valid_scan c1 0).
    { rewrite Hc1, <- Hsa. apply (addScan_valid cp). lia. }
    destruct (addScan_scans c1) as [k Hk]; [lia|]. rewrite <- Hc2 in Hk.
    destruct (read_splitBound_padded c1 c2 k 0 Hk Hv1) as [Hr0 Hv0].
    destruct (resume_executed plan1 cp c1 cpx a0 a oa) as
      (_ & Hia & Hwa & Hida & _ & ka & Hfsa & Hssa & Hrea); auto.
    { lia. }
    { rewrite Hsa, (getBounds_scans c2 cpx 0 Hsc).
      apply (getBounds_padded c1 c2 k); [exact Hk|lia]. }
    { rewrite Hsa, (read_splitBound_scans c2 cpx 0 Hsc). exact Hr0. }
    destruct (resume_executed plan2 c1 c2 cpx b0 b ob) as
      (_ & Hib & Hwb & Hidb & Hvb & kb & Hfsb & Hssb & Hreb); auto.
    { lia. }
    { now apply getBounds_scans. }
    { now apply read_splitBound_scans. }
    rewrite Hsa in *. rewrite Hsa1 in *.
    destruct (stop_inputs decode_item0 decode_item_rev0 getSubContext [a; b] cpx
                extra)
      as (stopped & rest & Hstop & Hcl & Hlen & Hst & Hsta & Hb); auto.
    { simpl. rewrite Hida, Hidb. repeat constructor.
      - intros H. apply list_elem_of_singleton in H. discriminate.
      - intros H. inversion H. }
    { constructor; [|constructor; [|constructor]].
      - rewrite Hida. split; [exact Hia|]. split; [exact Hwa|].
        split; [|exact Hssa]. eapply valid_scan_scans; [exact Hsc|exact Hv0].
      - rewrite Hidb. split; [exact Hib|]. split; [exact Hwb|].
        split; [|exact Hssb]. eapply valid_scan_scans; [exact Hsc|exact Hvb]. }
    apply Forall_cons in Hb as [Hba Hb]. apply Forall_cons in Hb as [Hbb _].
    rewrite Hida in Hba. rewrite Hidb in Hbb.
    specialize (Hba ka Hfsa). specialize (Hbb kb Hfsb).
    destruct Hcl as [Hra' Hrs].
    destruct (Hrea rest Hra') as (a0' & Hxa & Hresta & Hwa').
    { rewrite getBounds_addScan by (rewrite ?Hra'; lia). exact Hba. }
    assert (Hsa1' : scansAdded (snd (addScan rest)) = 1).
    { simpl. rewrite Hra'. reflexivity. }
    destruct (Hreb (snd (addScan rest)) Hsa1') as (b0' & Hxb & Hrestb & Hwb').
    { rewrite !getBounds_addScan by (rewrite ?Hsa1', ?Hra'; lia). exact Hbb. }
    exists stopped, rest, [a0'; b0'], (snd (addScan (snd (addScan rest)))).
    split; [exact Hstop|]. split; [split; assumption|].
    split; [exact Hst|]. split; [exact Hsta|].
    split; [simpl; now rewrite Hxa, Hxb|].
    split; [reflexivity|]. split; [reflexivity|].
    split; repeat constructor; auto.
Qed.

(** What the resumed execution sends, given that each of its pipelines
    has to send what the stopped one had left. *)
Lemma resumed_output (q : ReadPlan) (cp cpS : Checkpoint)
    (ps0 ps ps0' : list PipeC) (start : option Z) (out : list Doc) :
  execute_sub (sub_of q) store index cp = Some (ps0, cpS) ->
  match q with
  | RPlan _ => start = None
  | RSkip _ _ => exists v, start = Some v
  end ->
  irun ps0 out ps ->
  Forall pipe_wf ps0' ->
  Forall2 (fun p' p => rest_of p' = rest_of p /\ pipe_wf p) ps0' ps ->
  let start' := match start with
                | None => None
                | Some v => Some (snd (doSkip v out))
                end in
  (exists out' psf', irun ps0' out' psf' /\ inputs_done psf' = true)
  /\ (forall out' psf',
        irun ps0' out' psf' -> inputs_done psf' = true ->
        (exists full psf,
            irun ps0 full psf /\ inputs_done psf = true
            /\ read_sent start out ++ read_sent start' out'
               = read_sent start full)
        /\ (forall full psf,
              irun ps0 full psf -> inputs_done psf = true ->
              same_output q (read_sent start out ++ read_sent start' out')
                            (read_sent start full))).
Proof.
  intros Hsub Hq Hrun Hwf HR start'.
  split; [now apply complete_inputs_exist|].
  intros out' psf' Hr' Hd'.
  destruct (follow_to_end _ _ _ _ _ _ _ HR Hr' Hd') as (psf & Hrf & Hdf).
  assert (Hfull : irun ps0 (out ++ out') psf).
  { eapply inputs_run_trans; eauto. }
  assert (Hsent : read_sent start out ++ read_sent start' out'
                  = read_sent start (out ++ out')).
  { unfold start'. destruct start as [v|]; [|reflexivity].
    simpl. now rewrite doSkip_app. }
  split; [exists (out ++ out'), psf; auto|].
  intros full psf2 Hr2 Hd2. rewrite Hsent.
  pose proof (complete_inputs_output _ _ _ _ _ _ Hfull Hdf) as Hp1.
  pose proof (complete_inputs_output _ _ _ _ _ _ Hr2 Hd2) as Hp2.
  assert (Hperm : out ++ out' ≡ₚ full) by (now rewrite Hp1, Hp2).
  assert (Hone : forall plan, sub_of q = SPlan plan -> out ++ out' = full).
  { intros plan Hs. rewrite Hs in Hsub. simpl in Hsub.
    destruct (execute plan store index cp) as [[p0 c]|]; [|discriminate].
    injection Hsub as <- _.
    destruct (inputs_run_single _ _ _ _ _ _ Hfull) as (pa & -> & Hra).
    destruct (inputs_run_single _ _ _ _ _ _ Hr2) as (pb & -> & Hrb).
    unfold inputs_done in Hdf, Hd2. simpl in Hdf, Hd2.
    rewrite andb_true_r in Hdf, Hd2.
    rewrite (complete_run_output _ _ _ _ _ _ Hra Hdf).
    now rewrite (complete_run_output _ _ _ _ _ _ Hrb Hd2). }
  destruct q as [[plan|plan1 plan2]|[plan|plan1 plan2] skip]; simpl.
  - now rewrite (Hone plan eq_refl).
  - subst start. exact Hperm.
  - now rewrite (Hone plan eq_refl).
  - destruct Hq as [v ->]. simpl. apply doSkip_length.
    now apply Permutation_length.
Qed.

(** C1, as the code has it.  The plan is a TableScanPlan, a
    PrimaryKeyLookupPlan (on one key or on a range) or an IndexScanPlan
    (with its deduplication) below any number of filters and projections,
    or the UnionPlan of two such plans, alone or below a SkipPlan.  It is
    executed as the whole plan of a checkpoint, run for a while, stopped in
    a state in which the cancellation handlers leave a split key to
    resume from, and executed again under the checkpoint
    [stopAndCheckpoint] returns.  Then [stopAndCheckpoint] succeeds, the
    checkpoint it returns is a fresh one, the resumed execution can run
    to its end, and the documents sent before the stop followed by those
    the resumed execution sends are what an uninterrupted execution of
    the plan sends, in the same order.  Every uninterrupted execution
    sends the same sequence when the plan has one pipeline, the same
    documents when it is a UnionPlan and as many documents when it is a
    SkipPlan over a UnionPlan. *)
Theorem resumed_plan_sends_each_document_once
    (q : ReadPlan) (cp cp1 : Checkpoint) (ps0 ps : list PipeC)
    (start : option Z) (out : list Doc) :
  scansAdded cp = 0 ->
  execute_read q store index cp = Some (ps0, start, cp1) ->
  irun ps0 out ps ->
  Forall (resumable getSubContext cp1) ps ->
  exists stopped rest ps0' start' cp1',
    stopAndCheckpoint decode_item0 (read_checkpoint q cp1 start ps out)
    = Some (stopped, rest)
    /\ clean_checkpoint rest
    /\ execute_read q store index rest = Some (ps0', start', cp1')
    /\ (exists out' psf', irun ps0' out' psf' /\ inputs_done psf' = true)
    /\ (forall out' psf',
          irun ps0' out' psf' -> inputs_done psf' = true ->
          (exists full psf,
              irun ps0 full psf /\ inputs_done psf = true
              /\ read_sent start out ++ read_sent start' out'
                 = read_sent start full)
          /\ (forall full psf,
                irun ps0 full psf -> inputs_done psf = true ->
                same_output q (read_sent start out ++ read_sent start' out')
                              (read_sent start full))).
Proof.
  intros Hsa Hex Hrun Hres.
  assert (Hsilent : forall (s : @SubPlan Ctx) (l : list (Actor Ctx)),
             Forall (fun a => a = ActFinished \/ a = ActSilent) l ->
             Forall (fun a => a = ActFinished \/ a = ActSilent)
               (match s with
                | SPlan _ => []
                | SUnion _ _ => [if inputs_done ps then ActFinished else ActSilent]
                end ++ l)).
  { intros s l Hl. apply Forall_app. split; [|exact Hl].
    destruct s; [constructor|].
    destruct (inputs_done ps); (constructor; [auto|constructor]). }
  destruct q as [s|s skip]; simpl in Hex.
  - destruct (execute_sub s store index cp) as [[x cS]|] eqn:Es; [|discriminate].
    injection Hex as Hx1 Hx2 Hx3. subst x start cS.
    rename cp1 into cS.
    destruct (resume_sub s cp cS cS ps0 ps out _ Hsa Es Hrun eq_refl Hres
                (Hsilent s [] (List.Forall_nil _)))
      as (stopped & rest & ps0' & cS' & Hstop & Hcl & _ & _ & Hx & _ & _
          & Hwf & HR).
    exists stopped, rest, ps0', None, cS'.
    split; [exact Hstop|]. split; [exact Hcl|].
    split; [simpl; now rewrite Hx|].
    exact (resumed_output (RPlan s) cp cS ps0 ps ps0' None out Es eq_refl
             Hrun Hwf HR).
  - destruct (execute_sub s store index cp) as [[x cS]|] eqn:Es; [|discriminate].
    destruct (getIntState cS skip) as [[v cF]|] eqn:Eg; [|discriminate].
    injection Hex as Hx1 Hx2 Hx3. subst x start cF.
    rename cp1 into cF.
    destruct (getIntState_scans cS cF skip v Eg) as [Hsc _].
    set (w := snd (doSkip v out)).
    assert (Hscx : scans (write_intState cF w) = scans cS) by exact Hsc.
    assert (Hresx : Forall (resumable getSubContext (write_intState cF w)) ps).
    { eapply Forall_impl; [exact Hres|]. intros p.
      now apply resumable_scans. }
    destruct (resume_sub s cp cS (write_intState cF w) ps0 ps out _ Hsa Es Hrun
                Hscx Hresx
                (Hsilent s [if inputs_done ps then ActFinished else ActSilent]
                   ltac:(destruct (inputs_done ps); (constructor; [auto|constructor]))))
      as (stopped & rest & ps0' & cS' & Hstop & Hcl & Hst & Hsta & Hx & Hst'
          & Hsta' & Hwf & HR).
    destruct (getIntState_resumed cS cF cS' skip skip v w Eg) as [c' Hg'].
    { now rewrite Hst'. }
    { now rewrite Hsta'. }
    exists stopped, rest, ps0', (Some w), c'.
    split; [exact Hstop|]. split; [exact Hcl|].
    split; [simpl; now rewrite Hx, Hg'|].
    exact (resumed_output (RSkip s skip) cp cS ps0 ps ps0' (Some v) out Es
             (ex_intro _ v eq_refl) Hrun Hwf HR).
Qed.
End ResumePlan.

Lemma sample_index_below_ff (k : Key) : k ∈ sample_index -> key_lt k key_ff.
Proof.
  unfold sample_index. rewrite !elem_of_cons, elem_of_nil.
  intros [->|[->|[]]]; reflexivity.
Qed.

Lemma sample_index_nonempty (k : Key) : k ∈ sample_index -> k <> [].
Proof.
  unfold sample_index. rewrite !elem_of_cons, elem_of_nil.
  intros [->|[->|[]]]; discriminate.
Qed.

(** C1 at the samples: a SkipPlan of one document over the UnionPlan of
    the table scan and the index scan, stopped when the table scan has
    sent its first document and the index scan has not yet read a key. *)
Lemma resumed_plan_sends_each_document_once_witness :
  exists ps0 start cp1 ps,
    execute_read sample_read_plan sample_store sample_index new_PlanCheckpoint
    = Some (ps0, start, cp1)
    /\ inputs_run sample_decode sample_decode_rev (fun k => k) ps0
                  [sample_doc [x61]] ps
    /\ Forall (resumable (fun k => k) cp1) ps
    /\ exists stopped rest ps0' start' cp1',
         stopAndCheckpoint sample_decode
           (read_checkpoint sample_read_plan cp1 start ps [sample_doc [x61]])
         = Some (stopped, rest)
         /\ clean_checkpoint rest
         /\ execute_read sample_read_plan sample_store sample_index rest
            = Some (ps0', start', cp1')
         /\ (exists out' psf',
               inputs_run sample_decode sample_decode_rev (fun k => k)
                          ps0' out' psf'
               /\ inputs_done psf' = true)
         /\ (forall out' psf',
               inputs_run sample_decode sample_decode_rev (fun k => k)
                          ps0' out' psf' ->
               inputs_done psf' = true ->
               (exists full psf,
                   inputs_run sample_decode sample_decode_rev (fun k => k)
                              ps0 full psf
                   /\ inputs_done psf = true
                   /\ read_sent start [sample_doc [x61]] ++ read_sent start' out'
                      = read_sent start full)
               /\ (forall full psf,
                     inputs_run sample_decode sample_decode_rev (fun k => k)
                                ps0 full psf ->
                     inputs_done psf = true ->
                     same_output sample_read_plan
                       (read_sent start [sample_doc [x61]]
                        ++ read_sent start' out')
                       (read_sent start full))).
Proof.
  eexists. eexists. eexists. eexists.
  assert (Hex : execute_read sample_read_plan sample_store sample_index
                  new_PlanCheckpoint
                = Some ([sample_scan0;
                         PStage (SDedup (fun d => simpleWouldBeLast
                                           (sample_index_values (docCx d))
                                           (scanKey d) key_ff))
                                [] true false []
                                (PIndexScan (mkDocInfo 1 sample_index [] None false)
                                            [])],
                        Some 1,
                        mkCheckpoint false
                          [default_ScanState; default_ScanState]
                          [mkIntState 1 1] 2 1 [])) by reflexivity.
  assert (Hrun : inputs_run sample_decode sample_decode_rev (fun k => k)
                   [sample_scan0;
                    PStage (SDedup (fun d => simpleWouldBeLast
                                      (sample_index_values (docCx d))
                                      (scanKey d) key_ff))
                           [] true false []
                           (PIndexScan (mkDocInfo 1 sample_index [] None false) [])]
                   [sample_doc [x61]]
                   [sample_scan1;
                    PStage (SDedup (fun d => simpleWouldBeLast
                                      (sample_index_values (docCx d))
                                      (scanKey d) key_ff))
                           [] true false []
                           (PIndexScan (mkDocInfo 1 sample_index [] None false) [])]).
  { change [sample_doc [x61]]
      with (sent_docs (@Quiet (ScanReturnedContext Key))
            ++ sent_docs (Send (sample_doc [x61])) ++ []).
    eapply inputs_run_step;
      [apply inputs_here; apply step_pkscan; reflexivity|].
    eapply inputs_run_step;
      [apply inputs_here; apply step_pkscan; reflexivity|].
    apply inputs_run_nil. }
  split; [exact Hex|]. split; [exact Hrun|]. split.
  { constructor; [|constructor; [|constructor]].
    - unfold resumable. simpl. discriminate.
    - unfold resumable. simpl. right. discriminate. }
  apply (resumed_plan_sends_each_document_once
           sample_decode sample_decode_rev (fun k => k)
           sample_store sample_index
           sample_store_sorted sample_store_below_ff sample_item_prefix
           sample_item_nonempty sample_item_delimited
           sample_index_sorted sample_index_below_ff sample_index_nonempty
           sample_read_plan new_PlanCheckpoint _ _ _ _ _ eq_refl Hex Hrun).
  constructor; [|constructor; [|constructor]].
  - unfold resumable. simpl. discriminate.
  - unfold resumable. simpl. right. discriminate.
Defined.

(** * Two defects of the cancellation protocol *)

(** C2 does not hold of [doNonIsolatedRO] over an index scan.  The index
    has the entries "a1" and "a2".  The first transaction sends the
    document of "a1" and times out: [toDocInfo] leaves the split key
    [keyAfter("a1")].  The second transaction times out before
    [toDocInfo] has finished a key: its handler writes [keyAfter] of the
    empty [lastKey], the key of one zero byte, below the bounds the
    transaction was executed under.  The third transaction therefore
    reads the index from its beginning, and the scan keys at the output
    of [doNonIsolatedRO] are "a1", "a1", "a2": not increasing. *)
Theorem nonisolated_index_scan_repeats_key :
  let outs := [sample_entry_doc [x31]; sample_entry_doc [x31];
               sample_entry_doc [x32]] in
  (exists stops,
      doNonIsolatedRO sample_decode sample_decode_rev (fun k => k)
        (ScanIndex None None sample_entry_values) [] sample_entries
        new_PlanCheckpoint outs stops
      /\ length stops = 2%nat)
  /\ map scanKey outs = [[x61; x31]; [x61; x31]; [x61; x32]]
  /\ ~ StronglySorted key_lt (map scanKey outs).
Proof.
  cbv zeta. split; [|split; [reflexivity|]].
  - set (k := SDedup (fun d : ScanReturnedContext Key =>
                        simpleWouldBeLast (sample_entry_values (docCx d))
                                          (scanKey d) key_ff)).
    set (plan := ScanIndex None None sample_entry_values).
    (* first transaction *)
    set (p1 := PStage k [] true false [sample_entry_doc [x31]]
                 (PIndexScan (mkDocInfo 0 [[x61; x32]] [x61; x31] None false)
                             [sample_entry_doc [x31]])).
    assert (Hex1 : execute plan [] sample_entries new_PlanCheckpoint
                   = Some (PStage k [] true false []
                             (PIndexScan (mkDocInfo 0 sample_entries [] None false)
                                         []),
                           sample_started)) by reflexivity.
    assert (Hrun1 : pipe_run sample_decode sample_decode_rev (fun k => k)
                      (PStage k [] true false []
                         (PIndexScan (mkDocInfo 0 sample_entries [] None false) []))
                      ([] ++ [] ++ [sample_entry_doc [x31]] ++ []) p1).
    { eapply (run_step _ _ _ _ Quiet);
        [apply step_input_quiet, step_docinfo; reflexivity|].
      eapply (run_step _ _ _ _ Quiet);
        [apply step_input_send, step_docinfo; reflexivity|].
      eapply (run_step _ _ _ _ (Send (sample_entry_doc [x31])));
        [apply (step_resolve _ _ _ k (sample_entry_doc [x31]) [])|].
      apply run_nil. }
    set (rest1 := mkCheckpoint false
                    [mkScanState (KeyRangeRef [x61; x31; x00] key_ff) key_ff]
                    ([] : list IntState) 0 0 ([] : list (Actor Key))).
    assert (Hstop1 : exists stopped,
               checkpoint_pipe sample_decode sample_started p1
               = Some (stopped, rest1)).
    { eexists. reflexivity. }
    destruct Hstop1 as [stopped1 Hstop1].
    (* second transaction: the timeout comes first *)
    set (p2 := PStage k [] true false []
                 (PIndexScan (mkDocInfo 0 [[x61; x32]] [] None false) [])).
    assert (Hex2 : execute plan [] sample_entries rest1
                   = Some (p2, snd (addScan rest1))) by reflexivity.
    set (rest2 := mkCheckpoint false
                    [mkScanState (KeyRangeRef [x00] key_ff) key_ff]
                    ([] : list IntState) 0 0 ([] : list (Actor Key))).
    assert (Hstop2 : exists stopped,
               checkpoint_pipe sample_decode (snd (addScan rest1)) p2
               = Some (stopped, rest2)).
    { eexists. reflexivity. }
    destruct Hstop2 as [stopped2 Hstop2].
    (* third transaction: the index from its beginning *)
    assert (Hex3 : execute plan [] sample_entries rest2
                   = Some (PStage k [] true false []
                             (PIndexScan (mkDocInfo 0 sample_entries [] None false)
                                         []),
                           snd (addScan rest2))) by reflexivity.
    destruct (executed_completes sample_decode sample_decode_rev (fun k => k)
                _ _ _ _ _ _ Hex3) as (o3 & pf3 & Hr3 & Hd3).
    pose proof (complete_run_output _ _ _ _ _ _ Hr3 Hd3) as Ho3.
    change (o3 = [sample_entry_doc [x31]; sample_entry_doc [x32]]) in Ho3.
    subst o3.
    exists [p1; p2]. split; [|reflexivity].
    change [sample_entry_doc [x31]; sample_entry_doc [x31]; sample_entry_doc [x32]]
      with (([] ++ [] ++ [sample_entry_doc [x31]] ++ [])
            ++ [] ++ [sample_entry_doc [x31]; sample_entry_doc [x32]]).
    eapply ro_timeout; [exact Hex1|exact Hrun1|reflexivity|exact Hstop1|].
    eapply ro_timeout; [exact Hex2|apply run_nil|reflexivity|exact Hstop2|].
    eapply ro_end_of_stream; [exact Hex3|exact Hr3|exact Hd3].
  - simpl. intros H. apply StronglySorted_cons in H as [H _].
    apply Forall_cons in H as [H _]. exact (key_lt_irrefl _ H).
Qed.

(** C3 does not hold of a checkpoint that is stopped twice.
    [stop()] resets the counters and the operations of a checkpoint, not
    the split keys of its scans.  The table scan of the sample collection
    is stopped after its first document, which leaves the split key "b";
    the stopped checkpoint is executed again, as [doNonIsolatedRW] does
    after a commit that failed, and this time the scan runs to its end.
    No actor writes a split key at the second [stopAndCheckpoint], and
    the bounds of the checkpoint it returns begin at "b", not at 0xFF: a
    scan executed under them sends the document of "b" again. *)
Theorem stopped_twice_keeps_stale_split :
  exists stopped rest p0 cp1 pf stopped2 rest2 p0' cp1',
    checkpoint_pipe sample_decode sample_started sample_scan1
    = Some (stopped, rest)
    /\ read_splitBound stopped 0 = Some [x62]
    /\ @execute Key ScanTable sample_store [] stopped = Some (p0, cp1)
    /\ pipe_run sample_decode sample_decode (fun k => k) p0
                [sample_doc [x61]; sample_doc [x62]] pf
    /\ pipe_done pf = true
    /\ concat (map actor_targets (pipe_ops pf)) = []
    /\ checkpoint_pipe sample_decode cp1 pf = Some (stopped2, rest2)
    /\ getBounds rest2 0 = KeyRangeRef [x62] key_ff
    /\ @execute Key ScanTable sample_store [] rest2 = Some (p0', cp1')
    /\ remaining sample_decode sample_decode (fun k => k) p0'
       = [sample_doc [x62]].
Proof.
  destruct sample_checkpoint_pipe as [stopped Hstop].
  pose proof Hstop as Hs. unfold checkpoint_pipe, stopAndCheckpoint in Hs.
  simpl in Hs. injection Hs as Hs.
  assert (Hex : @execute Key ScanTable sample_store [] stopped
                = Some (sample_scan0, snd (addScan stopped))).
  { rewrite <- Hs. reflexivity. }
  destruct (executed_completes sample_decode sample_decode (fun k => k)
              _ _ _ _ _ _ Hex) as (o & pf & Hr & Hd).
  pose proof (complete_run_output _ _ _ _ _ _ Hr Hd) as Ho.
  change (o = [sample_doc [x61]; sample_doc [x62]]) in Ho. subst o.
  assert (Hpf : pipe_ops pf = [ActFinished]).
  { destruct (run_is_pk sample_decode sample_decode (fun k => k) _ _ _ Hr)
      as (s & ss & Hsrc).
    - exists (mkPKScan 0 sample_store [] [] None false), []. reflexivity.
    - pose proof (run_kinds _ _ _ _ _ _ Hr) as Hk. simpl in Hk.
      destruct pf as [s' ss'| | |]; try discriminate.
      simpl in Hd. simpl. now rewrite Hd. }
  exists stopped, (mkCheckpoint false
                     [mkScanState (KeyRangeRef [x62] key_ff) key_ff] [] 0 0 []).
  exists sample_scan0, (snd (addScan stopped)), pf.
  eexists. eexists. eexists. eexists.
  split; [exact Hstop|]. split; [rewrite <- Hs; reflexivity|].
  split; [exact Hex|]. split; [exact Hr|]. split; [exact Hd|].
  split; [rewrite Hpf; reflexivity|].
  split; [unfold checkpoint_pipe; rewrite Hpf, <- Hs; reflexivity|].
  split; [reflexivity|]. split; reflexivity.
Qed.
